(** * Threadscape process-graph metrics engine

    A shallow embedding of the analytic core of the report generator
    (parseDate, canonicalAreaName, normalizeAreaList, macroFromAreas,
    median / mean / minmax, computeBuckets, computeInterlacing, computeScc,
    computeMetricsForProject, computePerProjectTimelines, toCsv and the batch
    loop of main), together with the properties of the specification that
    are checked against it; then the rest of the script that computes
    (escapeHtml, parseArgs, buildAverageTimeline, the tables of the cohort)
    and fixDateString of the script that repairs the years of the dates.

    Modelling conventions
    - A JavaScript string is the list of its UTF-16 code units ([jsstring]).
    - A JavaScript number is an exact rational ([Q]); every quotient is put in
      lowest terms with [Qred], so that equal numbers are equal terms.  All
      divisions of the source are guarded, hence every number is finite.
      The rounding of the floating-point numbers is not modelled: what is
      stated of a number is a bound, a value that is exact in binary, or an
      equation with the expression that the code computes, all of which hold
      of the rounded number as well.
    - The options hold integers.  The ids, actions and dates of a document
      are strings or absent.  The recursion of [strongConnect] is given as
      many frames as there are ids, which it never exceeds; the call stack
      of the runtime may be shorter.  What is stated of a record is
      therefore stated of a record that is returned.
    - A [Date] is its time value, an integer number of milliseconds ([Z]).
    - What the source takes from the JavaScript runtime and the machine it
      runs on (Unicode lower-casing, local-time parsing of date strings) is
      the interface [Host].
    - A project document is typed as section 6 of the specification gives it;
      [Field] keeps the distinction between an array and anything else. *)

From Stdlib Require Import QArith Qround Qreduction Lqa Sorted.
From Stdlib Require Import String Ascii.
From stdpp Require Import base list gmap sets fin_sets relations.

Local Open Scope Z_scope.

(** ** JavaScript strings *)

Module Js.

Abbreviation jsstring := (list N).

(** The code units of an ASCII literal. *)
Definition lit (s : string) : jsstring :=
  (fun a : ascii => N_of_ascii a) <$> list_ascii_of_string s.

(** [\s] of a regular expression, which is also what [trim] strips:
    WhiteSpace and LineTerminator of ECMAScript. *)
Definition isWs (c : N) : bool :=
  ((9 <=? c) && (c <=? 13) || (c =? 32) || (c =? 160) || (c =? 5760)
   || (8192 <=? c) && (c <=? 8202) || (c =? 8232) || (c =? 8233)
   || (c =? 8239) || (c =? 8287) || (c =? 12288) || (c =? 65279))%N.

(** [[a-z0-9]] *)
Definition isAlnumLower (c : N) : bool :=
  ((97 <=? c) && (c <=? 122) || (48 <=? c) && (c <=? 57))%N.

Definition isAscii (c : N) : bool := (c <? 128)%N.

Definition lowerAscii (c : N) : N :=
  if ((65 <=? c) && (c <=? 90))%N then (c + 32)%N else c.

(** [s.replace(/P+/g, " ")]: every maximal run of code units satisfying [P]
    becomes one space.  [inRun] tells that the previous unit was in a run. *)
Fixpoint replaceRuns (P : N → bool) (inRun : bool) (s : jsstring) : jsstring :=
  match s with
  | [] => []
  | c :: r =>
      if P c
      then (if inRun then replaceRuns P true r else 32%N :: replaceRuns P true r)
      else c :: replaceRuns P false r
  end.

Fixpoint trimStart (s : jsstring) : jsstring :=
  match s with
  | [] => []
  | c :: r => if isWs c then trimStart r else s
  end.

Fixpoint trimEnd (s : jsstring) : jsstring :=
  match s with
  | [] => []
  | c :: r =>
      match trimEnd r with
      | [] => if isWs c then [] else [c]
      | r' => c :: r'
      end
  end.

Definition trim (s : jsstring) : jsstring := trimEnd (trimStart s).

(** Truthiness of a string. *)
Definition truthy (s : jsstring) : bool :=
  match s with [] => false | _ => true end.

(** [s.includes(p)] *)
Fixpoint isPrefix (p s : jsstring) : bool :=
  match p, s with
  | [], _ => true
  | _ :: _, [] => false
  | a :: p', b :: s' => (a =? b)%N && isPrefix p' s'
  end.

Fixpoint includes (s p : jsstring) : bool :=
  isPrefix p s || match s with [] => false | _ :: r => includes r p end.

(** [a < b] on strings: lexicographic on code units. *)
Fixpoint ltStr (a b : jsstring) : bool :=
  match a, b with
  | _, [] => false
  | [], _ :: _ => true
  | x :: a', y :: b' => (x <? y)%N || (x =? y)%N && ltStr a' b'
  end.

(** [s.split(sep)] for a separator of one code unit. *)
Fixpoint splitOn (sep : N) (s : jsstring) : list jsstring :=
  match s with
  | [] => [[]]
  | c :: r =>
      if (c =? sep)%N then [] :: splitOn sep r
      else match splitOn sep r with
           | [] => [[c]]
           | p :: ps => (c :: p) :: ps
           end
  end.

End Js.

Import Js.

(** ** The runtime and the machine *)

(** [toLowerCase] is Unicode's, of which only the ASCII part is fixed here;
    [parseLocal s] is [new Date(s).getTime()] for a date-time string without
    offset, read in the local time zone of the machine, [None] for NaN;
    [localMidnight ms] is the time value after [setHours(0, 0, 0, 0)]. *)
Class Host := {
  toLowerCase : jsstring → jsstring;
  toLowerCase_ascii :
    ∀ s, forallb isAscii s = true → toLowerCase s = lowerAscii <$> s;
  parseLocal : jsstring → option Z;
  localMidnight : Z → Z;
}.

(** ** Area normalizer *)

Section Areas.
Context `{Host}.

Definition collapseWs (s : jsstring) : jsstring := replaceRuns isWs false s.

(** [String(value ?? "")]: [None] is null or undefined. *)
Definition strOrEmpty (v : option jsstring) : jsstring := default [] v.

Definition canonicalAreaName (value : option jsstring) : jsstring :=
  let txt := trim (collapseWs (strOrEmpty value)) in
  if negb (truthy txt) then []
  else
    let low := toLowerCase txt in
    if bool_decide (low = lit "speculative") || bool_decide (low = lit "speculative design")
    then lit "Speculative Design"
    else if bool_decide (low = lit "communication") || bool_decide (low = lit "communication design")
    then lit "Communication Design"
    else if bool_decide (low = lit "interaction") || bool_decide (low = lit "interaction design")
    then lit "Interaction Design"
    else txt.

(** The deduplication key of a canonical name. *)
Definition areaKey (mapped : jsstring) : jsstring :=
  collapseWs (trim (replaceRuns (λ c, negb (isAlnumLower c)) false (toLowerCase mapped))).

(** The closure [push] of normalizeAreaList, on its two captured variables. *)
Definition push (st : gset jsstring * list jsstring) (raw : option jsstring)
  : gset jsstring * list jsstring :=
  let '(seen, out) := st in
  let mapped := canonicalAreaName raw in
  if negb (truthy mapped) then st
  else
    let key := areaKey mapped in
    if negb (truthy key) || bool_decide (key ∈ seen) then st
    else ({[key]} ∪ seen, out ++ [mapped]).

(** An [areas] or legacy argument: absent, one string, or an array. *)
Inductive AreasVal :=
  | AUndef
  | AStr (s : jsstring)
  | AArr (l : list (option jsstring)).

(** The closure [apply]. *)
Definition applyVal (st : gset jsstring * list jsstring) (val : AreasVal) :=
  match val with
  | AUndef => st
  | AStr s => if truthy s then push st (Some s) else st
  | AArr l => foldl push st l
  end.

Definition normalizeAreaList (areas legacyMainAreas : AreasVal) : list jsstring :=
  snd (applyVal (applyVal (∅, []) areas) legacyMainAreas).

End Areas.

(** ** Numbers *)

Module Num.

Definition ofNat (n : nat) : Q := inject_Z (Z.of_nat n).

(** [a / b], in lowest terms. *)
Definition div (a b : Q) : Q := Qred (a / b).

(** [d ? (n / d) * 100 : 0] on two counters. *)
Definition share (n d : nat) : Q :=
  match d with
  | O => 0%Q
  | _ => Qred (ofNat n / ofNat d * 100)
  end.

Definition min (a b : Q) : Q := if Qle_bool a b then a else b.
Definition max (a b : Q) : Q := if Qle_bool a b then b else a.

(** [list.sort((a, b) => a - b)] *)
Fixpoint insertAsc (x : Q) (l : list Q) : list Q :=
  match l with
  | [] => [x]
  | y :: r => if Qle_bool y x then y :: insertAsc x r else x :: l
  end.

Definition sortAsc (l : list Q) : list Q := foldr insertAsc [] l.

(** [[...map.entries()].sort((a, b) => b[1] - a[1])]: by decreasing count,
    entries of equal count keeping their order. *)
Fixpoint insertDesc {A} (x : A * nat) (l : list (A * nat)) : list (A * nat) :=
  match l with
  | [] => [x]
  | y :: r => if (x.2 <? y.2)%nat then y :: insertDesc x r else x :: l
  end.

Definition sortDesc {A} (l : list (A * nat)) : list (A * nat) :=
  foldr insertDesc [] l.

End Num.

(** ** Maps and sets that are iterated

    A JavaScript [Map] or [Set] whose entries are enumerated keeps them in
    insertion order: an association list, and a list without repetition. *)

Module Ordered.

Section Map.
Context {K V : Type} `{EqDecision K}.

Fixpoint get (m : list (K * V)) (k : K) : option V :=
  match m with
  | [] => None
  | (k', v) :: r => if decide (k' = k) then Some v else get r k
  end.

(** [m.set(k, v)]: a known key keeps its place. *)
Fixpoint set (m : list (K * V)) (k : K) (v : V) : list (K * V) :=
  match m with
  | [] => [(k, v)]
  | (k', v') :: r => if decide (k' = k) then (k, v) :: r else (k', v') :: set r k v
  end.

End Map.

(** [m.set(k, (m.get(k) || 0) + 1)] *)
Definition bump {K} `{EqDecision K} (m : list (K * nat)) (k : K) : list (K * nat) :=
  set m k (S (default O (get m k))).

(** [s.add(k)] *)
Definition add {K} `{EqDecision K} (s : list K) (k : K) : list K :=
  if bool_decide (k ∈ s) then s else s ++ [k].

(** [new Set(l)] *)
Definition ofList {K} `{EqDecision K} (l : list K) : list K := foldl add [] l.

End Ordered.

(** ** Dates *)

Module Date.

Definition msPerDay : Z := 86400000.
Definition weekMs : Z := 7 * 24 * 60 * 60 * 1000.

(** Days from 1970-01-01 to a day of the proleptic Gregorian calendar, and
    back; a day number past the end of a month runs into the next one. *)
Definition daysFromCivil (y m d : Z) : Z :=
  let y' := if m <=? 2 then y - 1 else y in
  let era := y' / 400 in
  let yoe := y' - era * 400 in
  let mp := (m + 9) mod 12 in
  let doy := (153 * mp + 2) / 5 + d - 1 in
  let doe := yoe * 365 + yoe / 4 - yoe / 100 + doy in
  era * 146097 + doe - 719468.

Definition civilFromDays (z : Z) : Z * Z * Z :=
  let z := z + 719468 in
  let era := z / 146097 in
  let doe := z - era * 146097 in
  let yoe := (doe - doe / 1460 + doe / 36524 - doe / 146096) / 365 in
  let doy := doe - (365 * yoe + yoe / 4 - yoe / 100) in
  let mp := (5 * doy + 2) / 153 in
  let d := doy - (153 * mp + 2) / 5 + 1 in
  let m := if mp <? 10 then mp + 3 else mp - 9 in
  let y := yoe + era * 400 in
  (if m <=? 2 then y + 1 else y, m, d).

Definition digit (c : N) : option Z :=
  if ((48 <=? c) && (c <=? 57))%N then Some (Z.of_N c - 48) else None.

(** The decimal value of a string of digits. *)
Fixpoint number (acc : Z) (s : jsstring) : option Z :=
  match s with
  | [] => Some acc
  | c :: r => d ← digit c; number (10 * acc + d) r
  end.

(** [w] decimal digits of [n], most significant first. *)
Fixpoint digits (w : nat) (n : Z) : jsstring :=
  match w with
  | O => []
  | S w' => digits w' (n / 10) ++ [Z.to_N (48 + n mod 10)]
  end.

(** [d.toISOString().slice(0, 10)] of the time value [ms]: the day in UTC;
    a year outside 0..9999 is written with a sign and six digits. *)
Definition isoDay (ms : Z) : jsstring :=
  let '(y, m, d) := civilFromDays (ms / msPerDay) in
  let year :=
    if (0 <=? y) && (y <=? 9999) then digits 4 y
    else (if 0 <=? y then lit "+" else lit "-") ++ digits 6 (Z.abs y) in
  take 10 (year ++ lit "-" ++ digits 2 m ++ lit "-" ++ digits 2 d).

(** What a machine whose clock is [offsetMin] minutes ahead of UTC the whole
    year makes of [YYYY-MM-DDT00:00:00]; any other string is not a date. *)
Definition parseAtOffset (offsetMin : Z) (s : jsstring) : option Z :=
  if bool_decide (length s = 19%nat)
     && bool_decide (take 1 (drop 4 s) = lit "-")
     && bool_decide (take 1 (drop 7 s) = lit "-")
     && bool_decide (drop 10 s = lit "T00:00:00")
  then
    y ← number 0 (take 4 s);
    m ← number 0 (take 2 (drop 5 s));
    d ← number 0 (take 2 (drop 8 s));
    if (1 <=? m) && (m <=? 12) && (1 <=? d) && (d <=? 31)
    then Some (daysFromCivil y m d * msPerDay - offsetMin * 60000)
    else None
  else None.

End Date.

(** A runtime that lower-cases ASCII letters only, on a machine [offsetMin]
    minutes ahead of UTC the whole year. *)
Definition hostAt (offsetMin : Z) : Host :=
  {| toLowerCase := fmap lowerAscii;
     toLowerCase_ascii := λ s _, eq_refl;
     parseLocal := Date.parseAtOffset offsetMin;
     localMidnight := λ ms,
       (ms + offsetMin * 60000) / Date.msPerDay * Date.msPerDay - offsetMin * 60000 |}.

(** ** Documents *)

Inductive Exn := SyntaxError | TypeError | RangeError.

Inductive Result (A : Type) :=
  | Ok (a : A)
  | Throw (e : Exn).
Arguments Ok {A} a.
Arguments Throw {A} e.

Definition bind {A B} (r : Result A) (k : A → Result B) : Result B :=
  match r with
  | Ok a => k a
  | Throw e => Throw e
  end.

Notation "'do' x <- r ; k" := (bind r (fun x => k))
  (at level 10, x pattern, r at level 100, k at level 200).

(** A property expected to hold an array: an array, a falsy value (absent,
    null, false, 0, the empty string) or any other value. *)
Inductive Field (A : Type) :=
  | FArr (l : list A)
  | FFalsy
  | FTruthy.
Arguments FArr {A} l.
Arguments FFalsy {A}.
Arguments FTruthy {A}.

Module Raw.

(** [n.data]; an absent property is [None], [AUndef] or not an array. *)
Record data := {
  action : option jsstring;
  date : option jsstring;
  areas : AreasVal;
  mainAreas : option (list (option jsstring));
  mainArea : option jsstring;
  mainarea : option jsstring;
  type : option jsstring;
}.

Definition noData : data :=
  {| action := None; date := None; areas := AUndef; mainAreas := None;
     mainArea := None; mainarea := None; type := None |}.

Record node := { id : option jsstring; node_data : option data }.

Record edge := { s : option jsstring; t : option jsstring; dashed : bool }.

(** What JSON.parse returns: null, or a value with (or without) the
    properties [nodes] and [edges]. *)
Inductive doc :=
  | Null
  | Obj (nodes : Field node) (edges : Field edge).

(** The text of a project file. *)
Inductive file :=
  | Malformed
  | Json (d : doc).

End Raw.

(** [JSON.parse(fs.readFileSync(pf.file, "utf8"))] *)
Definition parseFile (f : Raw.file) : Result Raw.doc :=
  match f with
  | Raw.Malformed => Throw SyntaxError
  | Raw.Json d => Ok d
  end.

(** [Array.isArray(x) ? x : []] *)
Definition arrayOrEmpty {A} (f : Field A) : list A :=
  match f with FArr l => l | _ => [] end.

(** [(x || []).map(...)]: calling [map] on a value that has none throws. *)
Definition orEmptyThenMap {A} (f : Field A) : Result (list A) :=
  match f with
  | FArr l => Ok l
  | FFalsy => Ok []
  | FTruthy => Throw TypeError
  end.

Inductive Action := exploring | making | other.
Inductive Macro := speculative | communication | interaction | mixed | unknown.

#[global] Instance Action_eq_dec : EqDecision Action.
Proof. solve_decision. Defined.
#[global] Instance Macro_eq_dec : EqDecision Macro.
Proof. solve_decision. Defined.

Module Node.
Record node := {
  id : jsstring;
  action : Action;
  date : option Z;
  areas : list jsstring;
  macro : Macro;
  type : jsstring;
}.
End Node.

Module Edge.
Record edge := { s : jsstring; t : jsstring; dashed : bool }.
End Edge.

Record Options := { hubThreshold : Z; maxWeeks : Z }.

Definition count {A} (p : A → bool) (l : list A) : nat := length (List.filter p l).

(** ** Loading a document *)

Section Load.
Context `{Host}.

Definition parseDate (dateStr : jsstring) : option Z :=
  if negb (truthy dateStr) then None
  else parseLocal (dateStr ++ lit "T00:00:00").

Definition macroOf (entry : Macro * nat) : Macro := entry.1.

Definition macroFromAreas (areas : list jsstring) : Macro :=
  let scores :=
    foldl (λ (sc : nat * nat * nat) a,
             let '(sp, co, it) := sc in
             let txt := toLowerCase a in
             if negb (truthy txt) then sc
             else
               ((if includes txt (lit "specul") then S sp else sp),
                (if includes txt (lit "comunic") || includes txt (lit "communicat")
                 then S co else co),
                (if includes txt (lit "inter") then S it else it)))
          (O, O, O) areas in
  let '(sp, co, it) := scores in
  let entries := Num.sortDesc [(speculative, sp); (communication, co); (interaction, it)] in
  match entries with
  | [] => unknown
  | e0 :: _ =>
      if (e0.2 <=? 0)%nat then unknown
      else
        let top := e0.2 in
        let tied := macroOf <$> List.filter (λ e, (e.2 =? top)%nat) entries in
        if (1 <? length tied)%nat then mixed else default unknown (head tied)
  end.

(** The string that the source compares with "exploring" and "making". *)
Definition actionOf (a : jsstring) : Action :=
  if bool_decide (a = lit "exploring") then exploring
  else if bool_decide (a = lit "making") then making
  else other.

(** The callback of [rawNodes.map] in computeMetricsForProject. *)
Definition loadNode (n : Raw.node) : Node.node :=
  let data := default Raw.noData (Raw.node_data n) in
  let legacy := default [] (Raw.mainAreas data) ++ [Raw.mainArea data; Raw.mainarea data] in
  let areas := normalizeAreaList (Raw.areas data) (AArr legacy) in
  let action := trim (toLowerCase (strOrEmpty (Raw.action data))) in
  {| Node.id := strOrEmpty (Raw.id n);
     Node.action := actionOf action;
     Node.date := parseDate (strOrEmpty (Raw.date data));
     Node.areas := areas;
     Node.macro := macroFromAreas areas;
     Node.type := trim (strOrEmpty (Raw.type data)) |}.

End Load.

(** [nodes.forEach((n, i) => idToIndex.set(n.id, i))] *)
Fixpoint indexFrom (i : nat) (nodes : list Node.node) (m : gmap jsstring nat)
  : gmap jsstring nat :=
  match nodes with
  | [] => m
  | n :: r => indexFrom (S i) r (<[Node.id n := i]> m)
  end.

Definition idToIndexOf (nodes : list Node.node) : gmap jsstring nat :=
  indexFrom O nodes ∅.

Definition has (m : gmap jsstring nat) (k : jsstring) : bool :=
  bool_decide (is_Some (m !! k)).

(** [nodes[idToIndex.get(k)]] *)
Definition nodeAt (nodes : list Node.node) (idToIndex : gmap jsstring nat)
    (k : jsstring) : option Node.node :=
  i ← idToIndex !! k; nodes !! i.

Definition loadEdge (e : Raw.edge) : Edge.edge :=
  {| Edge.s := strOrEmpty (Raw.s e);
     Edge.t := strOrEmpty (Raw.t e);
     Edge.dashed := Raw.dashed e |}.

Definition validEdge (idToIndex : gmap jsstring nat) (e : Edge.edge) : bool :=
  truthy (Edge.s e) && truthy (Edge.t e)
  && negb (bool_decide (Edge.s e = Edge.t e))
  && has idToIndex (Edge.s e) && has idToIndex (Edge.t e).

Definition loadEdges (idToIndex : gmap jsstring nat) (rawEdges : list Raw.edge)
  : list Edge.edge :=
  List.filter (validEdge idToIndex) (loadEdge <$> rawEdges).

(** ** Structural analysis *)

(** [new Map(nodes.map((n) => [n.id, 0]))] *)
Definition zeroDeg (nodes : list Node.node) : gmap jsstring nat :=
  foldl (λ m n, <[Node.id n := O]> m) ∅ nodes.

(** [deg.get(k) || 0] *)
Definition degOf (deg : gmap jsstring nat) (k : jsstring) : nat :=
  default O (deg !! k).

Definition bumpDeg (deg : gmap jsstring nat) (k : jsstring) : gmap jsstring nat :=
  <[k := S (degOf deg k)]> deg.

Definition outDegOf (nodes : list Node.node) (edges : list Edge.edge) :=
  foldl (λ m e, bumpDeg m (Edge.s e)) (zeroDeg nodes) edges.

Definition inDegOf (nodes : list Node.node) (edges : list Edge.edge) :=
  foldl (λ m e, bumpDeg m (Edge.t e)) (zeroDeg nodes) edges.

(** [Math.max(1, Number(opts.hubThreshold) || 4)] *)
Definition hubThresholdOf (opts : Options) : Z :=
  Z.max 1 (if hubThreshold opts =? 0 then 4 else hubThreshold opts).

Definition densityOf (nCount eCount : nat) : Q :=
  if (1 <? nCount)%nat
  then Num.div (Num.ofNat eCount) (Num.ofNat (nCount * (nCount - 1)))
  else 0%Q.

Definition arrow : N := 8594%N.

(** The template string with the arrow between two ids. *)
Definition pairKey (a b : jsstring) : jsstring := a ++ [arrow] ++ b.

Definition edgePairsOf (edges : list Edge.edge) : list jsstring :=
  Ordered.ofList ((λ e, pairKey (Edge.s e) (Edge.t e)) <$> edges).

(** The loop over [edgePairs]; a key that splits into fewer than two parts
    leaves [to] undefined, and no string is below undefined. *)
Definition reciprocalPairsOf (edges : list Edge.edge) : nat :=
  let edgePairs := edgePairsOf edges in
  count (λ key,
           match splitOn arrow key with
           | from :: to :: _ =>
               bool_decide (pairKey to from ∈ edgePairs) && ltStr from to
           | _ => false
           end) edgePairs.

Definition macroOk (m : Macro) : bool :=
  match m with
  | speculative | communication | interaction => true
  | _ => false
  end.

(** The loop that counts [macroEdgesConsidered] and [crossMacroEdges]. *)
Definition macroEdgeLoop (nodes : list Node.node) (idToIndex : gmap jsstring nat)
    (edges : list Edge.edge) : nat * nat :=
  foldl (λ (st : nat * nat) e,
           let '(considered, cross) := st in
           match nodeAt nodes idToIndex (Edge.s e), nodeAt nodes idToIndex (Edge.t e) with
           | Some a, Some b =>
               if negb (macroOk (Node.macro a)) || negb (macroOk (Node.macro b)) then st
               else (S considered,
                     if bool_decide (Node.macro a ≠ Node.macro b) then S cross else cross)
           | _, _ => st
           end) (O, O) edges.

(** ** Statistics *)

(** [median], [mean] and [minmax]; the filter on finite values keeps every
    rational. *)
Definition median (values : list Q) : option Q :=
  let list := Num.sortAsc values in
  match list with
  | [] => None
  | _ =>
      let mid := (length list / 2)%nat in
      if (length list mod 2 =? 0)%nat
      then Some (Num.div (default 0%Q (list !! (mid - 1)%nat) + default 0%Q (list !! mid)) 2)
      else Some (Qred (default 0%Q (list !! mid)))
  end.

Definition mean (values : list Q) : option Q :=
  match values with
  | [] => None
  | _ => Some (Num.div (foldl Qplus 0%Q values) (Num.ofNat (length values)))
  end.

Definition minmax (values : list Q) : option Q * option Q :=
  match values with
  | [] => (None, None)
  | v0 :: _ =>
      let '(mn, mx) :=
        foldl (λ (st : Q * Q) v, (Num.min st.1 v, Num.max st.2 v)) (v0, v0) values in
      (Some (Qred mn), Some (Qred mx))
  end.

(** ** Temporal analysis *)

(** The variables of the loop over mode-transition edges. *)
Record Transitions := {
  interlacingEdges : list Edge.edge;
  eToMLatencyDays : list Q;
  exploringWithMakingOut : list jsstring;
  eToM : nat;
  mToE : nat;
  crossInterlacingEdges : nat;
  interlacingEdgesMacroConsidered : nat;
}.

Definition noTransitions : Transitions :=
  {| interlacingEdges := []; eToMLatencyDays := []; exploringWithMakingOut := [];
     eToM := O; mToE := O; crossInterlacingEdges := O;
     interlacingEdgesMacroConsidered := O |}.

(** The day difference pushed for an E→M edge, when there is one. *)
Definition latencyOf (a b : Node.node) : option Q :=
  match Node.date a, Node.date b with
  | Some da, Some db =>
      let diff := Num.div (inject_Z (db - da)) (inject_Z Date.msPerDay) in
      if Qle_bool 0 diff then Some diff else None
  | _, _ => None
  end.

Definition transitionStep (nodes : list Node.node) (idToIndex : gmap jsstring nat)
    (st : Transitions) (e : Edge.edge) : Transitions :=
  match nodeAt nodes idToIndex (Edge.s e), nodeAt nodes idToIndex (Edge.t e) with
  | Some a, Some b =>
      let isEtoM := bool_decide (Node.action a = exploring) && bool_decide (Node.action b = making) in
      let isMtoE := bool_decide (Node.action a = making) && bool_decide (Node.action b = exploring) in
      if negb isEtoM && negb isMtoE then st
      else
        let okMacro := macroOk (Node.macro a) && macroOk (Node.macro b) in
        {| interlacingEdges := interlacingEdges st ++ [e];
           eToMLatencyDays :=
             if isEtoM
             then match latencyOf a b with
                  | Some diff => eToMLatencyDays st ++ [diff]
                  | None => eToMLatencyDays st
                  end
             else eToMLatencyDays st;
           exploringWithMakingOut :=
             if isEtoM then Ordered.add (exploringWithMakingOut st) (Node.id a)
             else exploringWithMakingOut st;
           eToM := if isEtoM then S (eToM st) else eToM st;
           mToE := if isMtoE then S (mToE st) else mToE st;
           crossInterlacingEdges :=
             if okMacro && bool_decide (Node.macro a ≠ Node.macro b)
             then S (crossInterlacingEdges st) else crossInterlacingEdges st;
           interlacingEdgesMacroConsidered :=
             if okMacro then S (interlacingEdgesMacroConsidered st)
             else interlacingEdgesMacroConsidered st |}
  | _, _ => st
  end.

Definition transitionLoop (nodes : list Node.node) (idToIndex : gmap jsstring nat)
    (edges : list Edge.edge) : Transitions :=
  foldl (transitionStep nodes idToIndex) noTransitions edges.

(** The loop over [dated] that finds [minDate] and [maxDate]. *)
Definition dateRange (nodes : list Node.node) : option Z * option Z :=
  foldl (λ (st : option Z * option Z) n,
           match Node.date n with
           | None => st
           | Some d =>
               ((match st.1 with
                 | Some mn => if d <? mn then Some d else Some mn
                 | None => Some d
                 end),
                (match st.2 with
                 | Some mx => if mx <? d then Some d else Some mx
                 | None => Some d
                 end))
           end) (None, None) nodes.

Definition spanDaysOf (range : option Z * option Z) : option Q :=
  match range with
  | (Some mn, Some mx) => Some (Num.div (inject_Z (mx - mn)) (inject_Z Date.msPerDay))
  | _ => None
  end.

(** The loop that counts [temporalEdges] and [temporalBackEdges]. *)
Definition temporalLoop (nodes : list Node.node) (idToIndex : gmap jsstring nat)
    (edges : list Edge.edge) : nat * nat :=
  foldl (λ (st : nat * nat) e,
           match nodeAt nodes idToIndex (Edge.s e) ≫= Node.date,
                 nodeAt nodes idToIndex (Edge.t e) ≫= Node.date with
           | Some da, Some db => (S st.1, if db <? da then S st.2 else st.2)
           | _, _ => st
           end) (O, O) edges.

Record Bucket := { b_exploring : nat; b_making : nat; b_total : nat }.

(** The week of a time value, counted from [minDate]. *)
Definition weekOf (minDate d : Z) : Z := Z.max 0 ((d - minDate) / Date.weekMs).

Definition computeBuckets (nodes : list Node.node) (minDate : Z) : list (Z * Bucket) :=
  foldl (λ buckets n,
           match Node.date n with
           | None => buckets
           | Some d =>
               let w := weekOf minDate d in
               let cur := default {| b_exploring := O; b_making := O; b_total := O |}
                                  (Ordered.get buckets w) in
               Ordered.set buckets w
                 {| b_exploring := if bool_decide (Node.action n = exploring)
                                   then S (b_exploring cur) else b_exploring cur;
                    b_making := if bool_decide (Node.action n = exploring) then b_making cur
                                else if bool_decide (Node.action n = making)
                                then S (b_making cur) else b_making cur;
                    b_total := S (b_total cur) |}
           end) [] nodes.

Record Interlacing := {
  i_activeBuckets : nat;
  i_overlapBuckets : nat;
  i_interlacingIndex : Q;
  i_overlapIntensity : Q;
}.

Definition computeInterlacing (buckets : list (Z * Bucket)) : Interlacing :=
  let active := List.filter (λ b, (0 <? b_total b)%nat) (snd <$> buckets) in
  let overlap := List.filter (λ b, (0 <? b_exploring b)%nat && (0 <? b_making b)%nat) active in
  let intensity :=
    match overlap with
    | [] => 0%Q
    | _ =>
        Qred (foldl (λ acc b,
                       acc + Num.ofNat (Nat.min (b_exploring b) (b_making b))
                             / Num.ofNat (Nat.max (b_exploring b) (b_making b)))%Q
                    0%Q overlap
              / Num.ofNat (length overlap) * 100)
    end in
  {| i_activeBuckets := length active;
     i_overlapBuckets := length overlap;
     i_interlacingIndex := Num.share (length overlap) (length active);
     i_overlapIntensity := intensity |}.

(** ** Strongly connected components *)

Module Scc.

(** The variables that the closure [strongConnect] captures. *)
Record state := {
  index : nat;
  stack : list jsstring;
  onStack : gset jsstring;
  indexMap : gmap jsstring nat;
  lowMap : gmap jsstring nat;
  components : list (list jsstring);
}.

Definition init : state :=
  {| index := O; stack := []; onStack := ∅; indexMap := ∅; lowMap := ∅;
     components := [] |}.

(** [adjacency.get(v) || []] *)
Definition successorsOf (adjacency : gmap jsstring (list jsstring)) (v : jsstring)
  : list jsstring :=
  default [] (adjacency !! v).

Definition adjacencyOf (ids : list jsstring) (edges : list Edge.edge)
    (idToIndex : gmap jsstring nat) : gmap jsstring (list jsstring) :=
  foldl (λ adjacency e,
           match idToIndex !! Edge.s e, idToIndex !! Edge.t e with
           | Some _, Some _ =>
               if bool_decide (Edge.s e = Edge.t e) then adjacency
               else <[Edge.s e := successorsOf adjacency (Edge.s e) ++ [Edge.t e]]> adjacency
           | _, _ => adjacency
           end)
        (foldl (λ m id, <[id := []]> m) ∅ ids) edges.

(** [map.get(k)] of a number that is there. *)
Definition num (m : gmap jsstring nat) (k : jsstring) : nat := default O (m !! k).

(** The first four statements of [strongConnect]. *)
Definition enter (v : jsstring) (st : state) : state :=
  {| index := S (index st);
     stack := v :: stack st;
     onStack := {[v]} ∪ onStack st;
     indexMap := <[v := index st]> (indexMap st);
     lowMap := <[v := index st]> (lowMap st);
     components := components st |}.

Definition setLow (v : jsstring) (n : nat) (st : state) : state :=
  {| index := index st; stack := stack st; onStack := onStack st;
     indexMap := indexMap st; lowMap := <[v := n]> (lowMap st);
     components := components st |}.

(** The loop over the successors of [v]; [visit] is the recursive call. *)
Fixpoint successors (visit : jsstring → state → option state) (v : jsstring)
    (ws : list jsstring) (st : state) : option state :=
  match ws with
  | [] => Some st
  | w :: ws' =>
      if bool_decide (is_Some (indexMap st !! w))
      then
        if bool_decide (w ∈ onStack st)
        then successors visit v ws'
               (setLow v (Nat.min (num (lowMap st) v) (num (indexMap st) w)) st)
        else successors visit v ws' st
      else
        st' ← visit w st;
        successors visit v ws'
          (setLow v (Nat.min (num (lowMap st') v) (num (lowMap st') w)) st')
  end.

(** The loop [while (stack.length)] that pops a component off the stack. *)
Fixpoint popUntil (v : jsstring) (stack : list jsstring) (onStack : gset jsstring)
    (comp : list jsstring) : list jsstring * gset jsstring * list jsstring :=
  match stack with
  | [] => ([], onStack, comp)
  | w :: rest =>
      if bool_decide (w = v) then (rest, onStack ∖ {[w]}, comp ++ [w])
      else popUntil v rest (onStack ∖ {[w]}) (comp ++ [w])
  end.

Definition close (v : jsstring) (st : state) : state :=
  if bool_decide (lowMap st !! v = indexMap st !! v)
  then
    let '(stack', onStack', comp) := popUntil v (stack st) (onStack st) [] in
    {| index := index st; stack := stack'; onStack := onStack';
       indexMap := indexMap st; lowMap := lowMap st;
       components := components st ++ [comp] |}
  else st.

(** [strongConnect]; [fuel] bounds the depth of the recursion, and [None]
    is the exhaustion of the call stack. *)
Fixpoint strongConnect (fuel : nat) (adjacency : gmap jsstring (list jsstring))
    (v : jsstring) (st : state) : option state :=
  match fuel with
  | O => None
  | S fuel' =>
      st' ← successors (strongConnect fuel' adjacency) v (successorsOf adjacency v)
                        (enter v st);
      Some (close v st')
  end.

(** [for (const id of ids) if (!indexMap.has(id)) strongConnect(id)] *)
Fixpoint roots (fuel : nat) (adjacency : gmap jsstring (list jsstring))
    (ids : list jsstring) (st : state) : option state :=
  match ids with
  | [] => Some st
  | id :: ids' =>
      if bool_decide (is_Some (indexMap st !! id)) then roots fuel adjacency ids' st
      else st' ← strongConnect fuel adjacency id st; roots fuel adjacency ids' st'
  end.

Record result := {
  sccCount : nat;
  cyclicNodes : list jsstring;
  largestScc : nat;
}.

Definition cyclicOf (components : list (list jsstring)) : list (list jsstring) :=
  List.filter (λ c, (1 <? length c)%nat) components.

Definition resultOf (components : list (list jsstring)) : result :=
  let cyclic := cyclicOf components in
  {| sccCount := length cyclic;
     cyclicNodes := Ordered.ofList (concat cyclic);
     largestScc := foldl (λ m c, Nat.max m (length c)) O cyclic |}.

(** All components, in the order of their completion.  The recursion is
    given as many frames as there are ids. *)
Definition componentsOf (nodes : list Node.node) (edges : list Edge.edge)
    (idToIndex : gmap jsstring nat) : option (list (list jsstring)) :=
  let ids := Node.id <$> nodes in
  components <$> roots (length ids) (adjacencyOf ids edges idToIndex) ids init.

Definition computeScc (nodes : list Node.node) (edges : list Edge.edge)
    (idToIndex : gmap jsstring nat) : Result result :=
  match componentsOf nodes edges idToIndex with
  | Some comps => Ok (resultOf comps)
  | None => Throw RangeError
  end.

End Scc.

(** ** The per-project record *)

Module Metrics.
Record metrics := {
  project : jsstring;
  nodes : nat;
  edges : nat;
  exploring : nat;
  making : nat;
  other : nat;
  sources : nat;
  sinks : nat;
  interlacingIndex : Q;
  overlapIntensity : Q;
  activeBuckets : nat;
  overlapBuckets : nat;
  sccCount : nat;
  largestScc : nat;
  cycleParticipation : Q;
  conversionRate : Q;
  feedbackRatio : Q;
  leadtimeMedianDays : option Q;
  eToMEdges : nat;
  mToEEdges : nat;
  interlacingEdges : nat;
  crossMacroShare : Q;
  macroEdgeCoverage : Q;
  crossInterlacingShare : Q;
  interlacingMacroCoverage : Q;
  multiAreaShare : Q;
  avgAreas : Q;
  convergent : nat;
  divergent : nat;
  reciprocityPairs : nat;
  density : Q;
  temporalBackShare : Q;
  minDate : jsstring;
  maxDate : jsstring;
  spanDays : option Q;
  typeCounts : list (jsstring * nat);
  areaCounts : list (jsstring * nat);
  macroCounts : list (Macro * nat);
}.
End Metrics.

(** The frequency tables at the end of computeMetricsForProject. *)
Definition typeCountsOf (nodes : list Node.node) : list (jsstring * nat) :=
  Num.sortDesc
    (foldl (λ types n,
              let key := trim (Node.type n) in
              Ordered.bump types (if truthy key then key else lit "(none)"))
           [] nodes).

Definition areaCountsOf (nodes : list Node.node) : list (jsstring * nat) :=
  Num.sortDesc (foldl (λ m n, foldl Ordered.bump m (Node.areas n)) [] nodes).

Definition macroCountsOf (nodes : list Node.node) : list (Macro * nat) :=
  Num.sortDesc (foldl (λ m n, Ordered.bump m (Node.macro n)) [] nodes).

Definition isAction (a : Action) (n : Node.node) : bool :=
  bool_decide (Node.action n = a).

Definition avgAreasOf (nodes : list Node.node) : Q :=
  match nodes with
  | [] => 0%Q
  | _ => Num.div (Num.ofNat (foldl (λ acc n, acc + length (Node.areas n))%nat O nodes))
                 (Num.ofNat (length nodes))
  end.

(** computeMetricsForProject from [idToIndex] onwards, that is once the
    nodes are loaded; nothing of the runtime is consulted from here on. *)
Definition analyse (projectName : jsstring) (nodes : list Node.node)
    (rawEdges : list Raw.edge) (opts : Options) : Result Metrics.metrics :=
  let idToIndex := idToIndexOf nodes in
  let edges := loadEdges idToIndex rawEdges in
  let nCount := length nodes in
  let eCount := length edges in
  let inDeg := inDegOf nodes edges in
  let outDeg := outDegOf nodes edges in
  let exploringNodes := List.filter (isAction exploring) nodes in
  let makingNodes := List.filter (isAction making) nodes in
  let otherNodes := List.filter (isAction other) nodes in
  let multiArea := count (λ n, (1 <? length (Node.areas n))%nat) nodes in
  let hubThreshold := hubThresholdOf opts in
  let '(macroEdgesConsidered, crossMacroEdges) := macroEdgeLoop nodes idToIndex edges in
  let tr := transitionLoop nodes idToIndex edges in
  let range := dateRange nodes in
  let '(temporalEdges, temporalBackEdges) := temporalLoop nodes idToIndex edges in
  let buckets :=
    match range.1 with
    | Some minDate =>
        computeBuckets (List.filter (λ n, negb (isAction other n)) nodes) minDate
    | None => []
    end in
  let interlacing := computeInterlacing buckets in
  do scc <- Scc.computeScc nodes edges idToIndex;
  Ok {| Metrics.project := projectName;
        Metrics.nodes := nCount;
        Metrics.edges := eCount;
        Metrics.exploring := length exploringNodes;
        Metrics.making := length makingNodes;
        Metrics.other := length otherNodes;
        Metrics.sources := count (λ n, (degOf inDeg (Node.id n) =? 0)%nat) nodes;
        Metrics.sinks := count (λ n, (degOf outDeg (Node.id n) =? 0)%nat) nodes;
        Metrics.interlacingIndex := i_interlacingIndex interlacing;
        Metrics.overlapIntensity := i_overlapIntensity interlacing;
        Metrics.activeBuckets := i_activeBuckets interlacing;
        Metrics.overlapBuckets := i_overlapBuckets interlacing;
        Metrics.sccCount := Scc.sccCount scc;
        Metrics.largestScc := Scc.largestScc scc;
        Metrics.cycleParticipation := Num.share (length (Scc.cyclicNodes scc)) nCount;
        Metrics.conversionRate :=
          Num.share (length (exploringWithMakingOut tr)) (length exploringNodes);
        Metrics.feedbackRatio := Num.share (mToE tr) (eToM tr);
        Metrics.leadtimeMedianDays := median (eToMLatencyDays tr);
        Metrics.eToMEdges := eToM tr;
        Metrics.mToEEdges := mToE tr;
        Metrics.interlacingEdges := length (interlacingEdges tr);
        Metrics.crossMacroShare := Num.share crossMacroEdges macroEdgesConsidered;
        Metrics.macroEdgeCoverage := Num.share macroEdgesConsidered eCount;
        Metrics.crossInterlacingShare :=
          Num.share (crossInterlacingEdges tr) (interlacingEdgesMacroConsidered tr);
        Metrics.interlacingMacroCoverage :=
          Num.share (interlacingEdgesMacroConsidered tr) (length (interlacingEdges tr));
        Metrics.multiAreaShare := Num.share multiArea nCount;
        Metrics.avgAreas := avgAreasOf nodes;
        Metrics.convergent :=
          count (λ n, hubThreshold <=? Z.of_nat (degOf inDeg (Node.id n))) nodes;
        Metrics.divergent :=
          count (λ n, hubThreshold <=? Z.of_nat (degOf outDeg (Node.id n))) nodes;
        Metrics.reciprocityPairs := reciprocalPairsOf edges;
        Metrics.density := Qred (densityOf nCount eCount * 100);
        Metrics.temporalBackShare := Num.share temporalBackEdges temporalEdges;
        Metrics.minDate := from_option Date.isoDay [] range.1;
        Metrics.maxDate := from_option Date.isoDay [] range.2;
        Metrics.spanDays := spanDaysOf range;
        Metrics.typeCounts := typeCountsOf nodes;
        Metrics.areaCounts := areaCountsOf nodes;
        Metrics.macroCounts := macroCountsOf nodes |}.

Section Engine.
Context `{Host}.

(** The body of computeMetricsForProject once [json.nodes] and [json.edges]
    have been read. *)
Definition metricsOf (projectName : jsstring) (rawNodes : list Raw.node)
    (rawEdges : list Raw.edge) (opts : Options) : Result Metrics.metrics :=
  analyse projectName (loadNode <$> rawNodes) rawEdges opts.

(** Reading a property of null throws. *)
Definition computeMetricsForProject (projectName : jsstring) (json : Raw.doc)
    (opts : Options) : Result Metrics.metrics :=
  match json with
  | Raw.Null => Throw TypeError
  | Raw.Obj nodes edges => metricsOf projectName (arrayOrEmpty nodes) (arrayOrEmpty edges) opts
  end.

(** ** Timelines *)

(** [tl[w].ex += 1] or [tl[w].mk += 1] *)
Definition tick (a : Action) (cell : nat * nat) : nat * nat :=
  match a with
  | exploring => (S cell.1, cell.2)
  | making => (cell.1, S cell.2)
  | other => cell
  end.

(** [Math.max(4, Number(opts.maxWeeks) || 200)] *)
Definition maxWeeksOf (opts : Options) : Z :=
  Z.max 4 (if maxWeeks opts =? 0 then 200 else maxWeeks opts).

(** The body of the loop of computePerProjectTimelines for one document:
    the value given to [m.__timeline], if any.  [Array(maxWeeks)] throws
    when the length is 2^32 or more. *)
Definition timelineOf (json : Raw.doc) (opts : Options) : Result (option (list (nat * nat))) :=
  match json with
  | Raw.Null => Throw TypeError
  | Raw.Obj rawNodes _ =>
      do rawNodes <- orEmptyThenMap rawNodes;
      let nodes :=
        (λ n, let data := default Raw.noData (Raw.node_data n) in
              (actionOf (trim (toLowerCase (strOrEmpty (Raw.action data)))),
               parseDate (strOrEmpty (Raw.date data)))) <$> rawNodes in
      let em := omap (λ n : Action * option Z,
                        match n with
                        | (exploring, Some d) => Some (exploring, d)
                        | (making, Some d) => Some (making, d)
                        | _ => None
                        end) nodes in
      match em with
      | [] => Ok None
      | (_, d0) :: rest =>
          let min := localMidnight (foldl (λ m n, Z.min m n.2) d0 rest) in
          if 2 ^ 32 <=? maxWeeksOf opts then Throw RangeError else
          let tl := replicate (Z.to_nat (maxWeeksOf opts)) (O, O) in
          Ok (Some (foldl (λ tl (n : Action * Z),
                             let w := weekOf min n.2 in
                             if Z.of_nat (length tl) <=? w then tl
                             else alter (tick n.1) (Z.to_nat w) tl)
                          tl em))
      end
  end.

End Engine.

(** ** Reading a record by key, the CSV projection and [fmt] *)

Inductive JsVal :=
  | VUndefined
  | VNull
  | VNum (q : Q)
  | VStr (s : jsstring)
  | VTable.

Definition numOrNull (v : option Q) : JsVal :=
  match v with Some q => VNum q | None => VNull end.

Open Scope string_scope.

(** The properties of a record, in the order of the object literal. *)
Definition entries (m : Metrics.metrics) : list (string * JsVal) :=
  [ ("project", VStr (Metrics.project m));
    ("nodes", VNum (Num.ofNat (Metrics.nodes m)));
    ("edges", VNum (Num.ofNat (Metrics.edges m)));
    ("exploring", VNum (Num.ofNat (Metrics.exploring m)));
    ("making", VNum (Num.ofNat (Metrics.making m)));
    ("other", VNum (Num.ofNat (Metrics.other m)));
    ("sources", VNum (Num.ofNat (Metrics.sources m)));
    ("sinks", VNum (Num.ofNat (Metrics.sinks m)));
    ("interlacingIndex", VNum (Metrics.interlacingIndex m));
    ("overlapIntensity", VNum (Metrics.overlapIntensity m));
    ("activeBuckets", VNum (Num.ofNat (Metrics.activeBuckets m)));
    ("overlapBuckets", VNum (Num.ofNat (Metrics.overlapBuckets m)));
    ("sccCount", VNum (Num.ofNat (Metrics.sccCount m)));
    ("largestScc", VNum (Num.ofNat (Metrics.largestScc m)));
    ("cycleParticipation", VNum (Metrics.cycleParticipation m));
    ("conversionRate", VNum (Metrics.conversionRate m));
    ("feedbackRatio", VNum (Metrics.feedbackRatio m));
    ("leadtimeMedianDays", numOrNull (Metrics.leadtimeMedianDays m));
    ("eToMEdges", VNum (Num.ofNat (Metrics.eToMEdges m)));
    ("mToEEdges", VNum (Num.ofNat (Metrics.mToEEdges m)));
    ("interlacingEdges", VNum (Num.ofNat (Metrics.interlacingEdges m)));
    ("crossMacroShare", VNum (Metrics.crossMacroShare m));
    ("macroEdgeCoverage", VNum (Metrics.macroEdgeCoverage m));
    ("crossInterlacingShare", VNum (Metrics.crossInterlacingShare m));
    ("interlacingMacroCoverage", VNum (Metrics.interlacingMacroCoverage m));
    ("multiAreaShare", VNum (Metrics.multiAreaShare m));
    ("avgAreas", VNum (Metrics.avgAreas m));
    ("convergent", VNum (Num.ofNat (Metrics.convergent m)));
    ("divergent", VNum (Num.ofNat (Metrics.divergent m)));
    ("reciprocityPairs", VNum (Num.ofNat (Metrics.reciprocityPairs m)));
    ("density", VNum (Metrics.density m));
    ("temporalBackShare", VNum (Metrics.temporalBackShare m));
    ("minDate", VStr (Metrics.minDate m));
    ("maxDate", VStr (Metrics.maxDate m));
    ("spanDays", numOrNull (Metrics.spanDays m));
    ("typeCounts", VTable);
    ("areaCounts", VTable);
    ("macroCounts", VTable) ].

(** [m[k]] *)
Definition getField (m : Metrics.metrics) (k : string) : JsVal :=
  default VUndefined (Ordered.get (entries m) k).

Definition header : list string :=
  [ "project"; "nodes"; "edges"; "exploring"; "making"; "interlacingIndex";
    "overlapIntensity"; "cycleParticipation"; "crossInterlacingShare";
    "conversionRate"; "feedbackRatio"; "leadtimeMedianDays"; "crossMacroShare";
    "multiAreaShare"; "temporalBackShare"; "sources"; "sinks" ].

Definition numericKeys : list string :=
  [ "interlacingIndex"; "overlapIntensity"; "cycleParticipation";
    "crossInterlacingShare"; "conversionRate"; "feedbackRatio";
    "leadtimeMedianDays"; "crossMacroShare"; "multiAreaShare";
    "temporalBackShare" ].

Close Scope string_scope.

(** The text of a CSV cell between its quotes: nothing, the decimal writing
    of a number, or a string with its quotes doubled. *)
Inductive Cell :=
  | CellEmpty
  | CellNumber (q : Q)
  | CellText (s : jsstring).

Definition doubleQuotes (s : jsstring) : jsstring :=
  s ≫= λ c, if (c =? 34)%N then [34%N; 34%N] else [c].

(** The callback of [header.map] in toCsv. *)
Definition cellOf (v : JsVal) : Cell :=
  match v with
  | VUndefined | VNull => CellEmpty
  | VNum q => CellNumber q
  | VStr s => CellText (doubleQuotes s)
  | VTable => CellText []
  end.

(** A cell without text between its quotes: a number always has digits. *)
Definition blank (c : Cell) : bool :=
  match c with
  | CellEmpty => true
  | CellNumber _ => false
  | CellText s => bool_decide (s = [])
  end.

(** The rows of toCsv after the header line. *)
Definition toCsv (metrics : list Metrics.metrics) : list (list Cell) :=
  (λ m, (λ k, cellOf (getField m k)) <$> header) <$> metrics.

(** What [fmt] prints: a dash, a number, or a string. *)
Inductive Shown :=
  | Dash
  | ShownNumber (q : Q) (digits : nat)
  | ShownText (s : jsstring).

Definition fmt (v : JsVal) (digits : nat) : Shown :=
  match v with
  | VUndefined | VNull => Dash
  | VNum q => ShownNumber q digits
  | VStr s => ShownText s
  | VTable => ShownText []
  end.

(** The cell of the per-project table for the lead time. *)
Definition leadtimeCell (m : Metrics.metrics) : Shown :=
  match getField m "leadtimeMedianDays" with
  | VUndefined | VNull => Dash
  | v => fmt v 1
  end.

(** ** The batch loop and the cohort aggregate *)

Record Batch := {
  metrics : list Metrics.metrics;
  totalNodes : nat;
  totalEdges : nat;
  totalExploring : nat;
  totalMaking : nat;
  flagged : list (jsstring * Z);
}.

Definition emptyBatch : Batch :=
  {| metrics := []; totalNodes := O; totalEdges := O; totalExploring := O;
     totalMaking := O; flagged := [] |}.

Record Stats := {
  s_mean : option Q;
  s_median : option Q;
  s_min : option Q;
  s_max : option Q;
}.

(** [Number.isFinite(v)] keeps the numbers. *)
Definition finite (v : JsVal) : option Q :=
  match v with VNum q => Some q | _ => None end.

(** [metrics.map((m) => m[key]).filter((v) => Number.isFinite(v))] *)
Definition valsOf (ms : list Metrics.metrics) (key : string) : list Q :=
  omap (λ m, finite (getField m key)) ms.

Definition statsOf (vals : list Q) : Stats :=
  let mm := minmax vals in
  {| s_mean := mean vals; s_median := median vals; s_min := mm.1; s_max := mm.2 |}.

(** [agg], as the list of its entries. *)
Definition aggregate (ms : list Metrics.metrics) : list (string * Stats) :=
  (λ key, (key, statsOf (valsOf ms key))) <$> numericKeys.

Section Main.
Context `{Host}.

(** One turn of the loop [for (const pf of projectFiles)] of main.  It has
    no handler: what is thrown inside leaves the loop. *)
Definition batchStep (opts : Options) (b : Batch) (pf : jsstring * Raw.file)
  : Result Batch :=
  do json <- parseFile pf.2;
  do m <- computeMetricsForProject pf.1 json opts;
  let flagged' :=
    match Metrics.spanDays m with
    | Some span =>
        if Qle_bool span (inject_Z (365 * 20)) then flagged b
        else flagged b ++ [(pf.1, Qfloor (span / 365 + (1 # 2))%Q)]
    | None => flagged b
    end in
  Ok {| metrics := metrics b ++ [m];
        totalNodes := totalNodes b + Metrics.nodes m;
        totalEdges := totalEdges b + Metrics.edges m;
        totalExploring := totalExploring b + Metrics.exploring m;
        totalMaking := totalMaking b + Metrics.making m;
        flagged := flagged' |}.

Fixpoint batchLoop (opts : Options) (b : Batch) (projectFiles : list (jsstring * Raw.file))
  : Result Batch :=
  match projectFiles with
  | [] => Ok b
  | pf :: rest => do b' <- batchStep opts b pf; batchLoop opts b' rest
  end.

(** computePerProjectTimelines: every file is parsed again. *)
Fixpoint computePerProjectTimelines (opts : Options)
    (projectFiles : list (jsstring * Raw.file))
  : Result (list (jsstring * option (list (nat * nat)))) :=
  match projectFiles with
  | [] => Ok []
  | pf :: rest =>
      do json <- parseFile pf.2;
      do tl <- timelineOf json opts;
      do tls <- computePerProjectTimelines opts rest;
      Ok ((pf.1, tl) :: tls)
  end.

(** main, up to the cohort aggregate. *)
Definition run (opts : Options) (projectFiles : list (jsstring * Raw.file))
  : Result (Batch * list (string * Stats)) :=
  do b <- batchLoop opts emptyBatch projectFiles;
  do _ <- computePerProjectTimelines opts projectFiles;
  Ok (b, aggregate (metrics b)).

End Main.

(** ** Notions used in the statements *)

(** A string in which white space occurs only as single spaces; [prevWs]
    tells that a space comes just before. *)
Fixpoint tidy (prevWs : bool) (s : jsstring) : bool :=
  match s with
  | [] => true
  | c :: r => if isWs c then (c =? 32)%N && negb prevWs && tidy true r else tidy false r
  end.

(** [s.replace(/\s+/g, " ").trim()] *)
Definition wsnorm (s : jsstring) : jsstring := trim (collapseWs s).

(** There is a valid edge from [v] to [w] that is not a loop. *)
Definition edgeOf (idToIndex : gmap jsstring nat) (edges : list Edge.edge)
    (v w : jsstring) : Prop :=
  ∃ e, e ∈ edges ∧ Edge.s e = v ∧ Edge.t e = w ∧ v ≠ w
       ∧ is_Some (idToIndex !! v) ∧ is_Some (idToIndex !! w).

(** Some E→M edge has both ends dated, the target not before the source. *)
Definition hasLeadtime (nodes : list Node.node) (idToIndex : gmap jsstring nat)
    (edges : list Edge.edge) : Prop :=
  ∃ e a b da db,
    e ∈ edges
    ∧ nodeAt nodes idToIndex (Edge.s e) = Some a
    ∧ nodeAt nodes idToIndex (Edge.t e) = Some b
    ∧ Node.action a = exploring ∧ Node.action b = making
    ∧ Node.date a = Some da ∧ Node.date b = Some db ∧ da ≤ db.

(** The day difference that an edge adds to [eToMLatencyDays]. *)
Definition latencyOfEdge (nodes : list Node.node) (idToIndex : gmap jsstring nat)
    (e : Edge.edge) : option Q :=
  match nodeAt nodes idToIndex (Edge.s e), nodeAt nodes idToIndex (Edge.t e) with
  | Some a, Some b =>
      if bool_decide (Node.action a = exploring) && bool_decide (Node.action b = making)
      then latencyOf a b else None
  | _, _ => None
  end.

(** [n] is dated in week [w] counted from [minDate], and [p] holds of it. *)
Definition inWeek (minDate w : Z) (p : Node.node → bool) (n : Node.node) : bool :=
  match Node.date n with
  | Some d => (weekOf minDate d =? w) && p n
  | None => false
  end.

Definition noBucket : Bucket := {| b_exploring := O; b_making := O; b_total := O |}.

(** A project file whose text parses to a value other than null. *)
Definition readable (f : Raw.file) : Prop :=
  ∃ nodes edges, f = Raw.Json (Raw.Obj nodes edges).

Section AreaNotions.
Context {host : Host}.

Definition keysOf (out : list jsstring) : gset jsstring :=
  list_to_set (areaKey <$> out).

(** A name that canonicalAreaName leaves as it is and that has a key. *)
Definition settled (m : jsstring) : Prop :=
  canonicalAreaName (Some m) = m ∧ truthy m = true ∧ truthy (areaKey m) = true.

(** What holds of [seen] and [out] between two calls of [push]. *)
Definition pushInv (st : gset jsstring * list jsstring) : Prop :=
  st.1 = keysOf st.2 ∧ NoDup (areaKey <$> st.2) ∧ Forall settled st.2.

End AreaNotions.

(** ** Notions for the components *)

Module Tarjan.
Import Scc.

(** The ids that have an index, the index of an id, the ids of the
    components collected so far. *)
Definition visited (st : state) : gset jsstring := dom (indexMap st).
Definition nm (st : state) (x : jsstring) : nat := num (indexMap st) x.
Definition finished (st : state) : list jsstring := concat (components st).

Section Graph.
Variable adjacency : gmap jsstring (list jsstring).
Variable U : gset jsstring.

(** An arc, a path, two vertices on a common cycle. *)
Definition arc (v w : jsstring) : Prop := w ∈ successorsOf adjacency v.
Definition reach : relation jsstring := rtc arc.
Definition sameScc (v w : jsstring) : Prop := reach v w ∧ reach w v.

(** The vertices of [U] that have no index yet. *)
Definition unvisited (st : state) : nat := size (U ∖ visited st).

(** What holds of the variables of computeScc whenever [strongConnect] is
    entered or left; [G] are the vertices whose call is still running. *)
Record Inv (G : gset jsstring) (st : state) : Prop := {
  inv_onStack : onStack st = list_to_set (stack st);
  inv_nodup : NoDup (stack st ++ finished st);
  inv_visited : ∀ x, x ∈ visited st ↔ x ∈ stack st ∨ x ∈ finished st;
  inv_index : ∀ x, x ∈ visited st → (nm st x < index st)%nat;
  inv_univ : ∀ x, x ∈ visited st → x ∈ U;
  inv_gray : ∀ g, g ∈ G → g ∈ stack st;
  inv_stack_reach :
    ∀ x y, x ∈ stack st → y ∈ stack st → (nm st x ≤ nm st y)%nat → reach x y;
  inv_to_gray :
    ∀ y, y ∈ stack st → ∃ g, g ∈ G ∧ (nm st g ≤ nm st y)%nat ∧ reach y g;
  inv_black : ∀ x w, x ∈ visited st → x ∉ G → arc x w → w ∈ visited st;
  inv_comps :
    ∀ c, c ∈ components st → c ≠ [] ∧ ∀ x y, x ∈ c → (y ∈ c ↔ sameScc x y);
}.

(** What a call [strongConnect(v)] needs of the state it starts in. *)
Definition Pre (G : gset jsstring) (v : jsstring) (st : state) : Prop :=
  Inv G st ∧ v ∈ U ∧ (v ∉ visited st) ∧ (∀ g, g ∈ G → reach g v).

(** What a call [strongConnect(v)] that starts in [st] leaves in [st']. *)
Definition Post (G : gset jsstring) (v : jsstring) (st st' : state) : Prop :=
  Inv G st'
  ∧ (indexMap st ⊆ indexMap st')
  ∧ (∀ x, x ∈ visited st → lowMap st' !! x = lowMap st !! x)
  ∧ indexMap st' !! v = Some (index st)
  ∧ (index st < index st')%nat
  ∧ ∃ l' new,
      lowMap st' !! v = Some l'
      ∧ stack st' = new ++ stack st
      ∧ (∀ x, x ∈ new → (index st ≤ nm st' x)%nat)
      ∧ ((l' = index st ∧ new = [])
         ∨ ((l' < index st)%nat ∧ v ∈ new
            ∧ (∃ y0, y0 ∈ stack st ∧ nm st y0 = l' ∧ reach v y0)
            ∧ (∀ x w, x ∈ new → arc x w → w ∈ stack st' → (l' ≤ nm st' w)%nat))).

(** What holds in the loop over the successors of [v], of which [P] are
    done; [st0] is the state in which [strongConnect(v)] started. *)
Definition Loop (G : gset jsstring) (v : jsstring) (st0 : state)
    (P : list jsstring) (st : state) : Prop :=
  Pre G v st0
  ∧ Inv ({[v]} ∪ G) st
  ∧ (indexMap (enter v st0) ⊆ indexMap st)
  ∧ (∀ x, x ∈ visited st0 → lowMap st !! x = lowMap st0 !! x)
  ∧ (index st0 < index st)%nat
  ∧ ∃ lv above,
      lowMap st !! v = Some lv
      ∧ (lv ≤ index st0)%nat
      ∧ stack st = above ++ v :: stack st0
      ∧ (∀ x, x ∈ above → (index st0 < nm st x)%nat)
      ∧ (∃ y0, y0 ∈ stack st ∧ nm st y0 = lv ∧ reach v y0)
      ∧ (∀ x w, x ∈ above → arc x w → w ∈ stack st → (lv ≤ nm st w)%nat)
      ∧ (∀ w, w ∈ P → w ∈ visited st ∧ (w ∈ stack st → (lv ≤ nm st w)%nat)).

End Graph.
End Tarjan.

(** Two ids joined by paths of valid edges in both directions. *)
Definition connected (idToIndex : gmap jsstring nat) (edges : list Edge.edge)
    (v w : jsstring) : Prop :=
  rtc (edgeOf idToIndex edges) v w ∧ rtc (edgeOf idToIndex edges) w v.

(** ** The specification's own wording, for comparison *)

Module Spec.

(** Section 4.4: the nodes with both a valid action and a valid date. *)
Definition datedModes (nodes : list Node.node) : list (Action * Z) :=
  omap (λ n, match Node.action n, Node.date n with
             | other, _ => None
             | a, Some d => Some (a, d)
             | _, None => None
             end) nodes.

(** Section 4.4: the minimum such date in the project. *)
Definition minDate (nodes : list Node.node) : option Z :=
  match datedModes nodes with
  | [] => None
  | (_, d) :: rest => Some (foldl (λ m n, Z.min m n.2) d rest)
  end.

(** Section 4.4: [week = max(0, floor((date - minDate) / 7days))]. *)
Definition week (minDate date : Z) : Z :=
  Z.max 0 ((date - minDate) / (7 * Date.msPerDay)).

(** Section 4.3: the unordered pairs {a, b} with an edge each way, counted on
    the pair written with its smaller id first. *)
Definition reciprocity (edges : list Edge.edge) : nat :=
  let pairs := (λ e, (Edge.s e, Edge.t e)) <$> edges in
  count (λ p : jsstring * jsstring, ltStr p.1 p.2 && bool_decide ((p.2, p.1) ∈ pairs))
        (remove_dups pairs).

End Spec.

(** ** Scenarios *)

Module Scenario.

Definition node (id action date : string) : Raw.node :=
  {| Raw.id := Some (lit id);
     Raw.node_data :=
       Some {| Raw.action := Some (lit action); Raw.date := Some (lit date);
               Raw.areas := AUndef; Raw.mainAreas := None; Raw.mainArea := None;
               Raw.mainarea := None; Raw.type := None |} |}.

Definition edge (s t : jsstring) : Raw.edge :=
  {| Raw.s := Some s; Raw.t := Some t; Raw.dashed := false |}.

Definition defaults : Options := {| hubThreshold := 4; maxWeeks := 200 |}.

(** Scenario A of the specification. *)
Definition A : Raw.doc :=
  Raw.Obj (FArr [node "N1" "exploring" "2024-01-01";
                 node "N2" "making" "2024-01-08";
                 node "N3" "exploring" "2024-01-15"])
          (FArr [edge (lit "N1") (lit "N2"); edge (lit "N2") (lit "N3")]).

(** Scenario B of the specification. *)
Definition B : Raw.doc :=
  Raw.Obj (FArr [node "A" "" ""; node "B" "" ""])
          (FArr [edge (lit "A") (lit "B"); edge (lit "B") (lit "A")]).

(** A document without nodes and edges. *)
Definition empty : Raw.doc := Raw.Obj (FArr []) (FArr []).

(** A dated node that is neither exploring nor making, before the others. *)
Definition earlyOther : Raw.doc :=
  Raw.Obj (FArr [node "N0" "designing" "2024-01-01";
                 node "N1" "exploring" "2024-01-05";
                 node "N2" "making" "2024-01-10"])
          (FArr []).

(** The same edge three times between two nodes. *)
Definition tripled : Raw.doc :=
  Raw.Obj (FArr [node "A" "" ""; node "B" "" ""])
          (FArr [edge (lit "A") (lit "B"); edge (lit "A") (lit "B");
                 edge (lit "A") (lit "B")]).

(** An id that contains the arrow of the pair keys. *)
Definition arrowId : jsstring := pairKey (lit "a") (lit "b").

Definition arrowInId : Raw.doc :=
  Raw.Obj (FArr [node "a" "" ""; node "b" "" ""; node "c" "" "";
                 {| Raw.id := Some arrowId; Raw.node_data := None |}])
          (FArr [edge arrowId (lit "c"); edge (lit "b") (lit "a")]).

End Scenario.

(** * The rest of the report script *)

(** [s.replace(/c/g, by)] for a pattern of one code unit and a replacement
    without dollar sign. *)
Definition replaceAll (c : N) (by_ : jsstring) (s : jsstring) : jsstring :=
  s ≫= λ x, if (x =? c)%N then by_ else [x].

(** escapeHtml: the five replacements, the ampersand first. *)
Definition escapeHtml (text : option jsstring) : jsstring :=
  replaceAll 39 (lit "&#39;")
    (replaceAll 34 (lit "&quot;")
       (replaceAll 62 (lit "&gt;")
          (replaceAll 60 (lit "&lt;")
             (replaceAll 38 (lit "&amp;") (strOrEmpty text))))).

(** ** The command line *)

(** [Number(s)] of a string: the number it denotes when that is finite,
    [None] for NaN and the infinities.  The two defaults of parseArgs are
    read as written. *)
Class StringToNumber := {
  toNumber : jsstring → option Q;
  toNumber_4 : toNumber (lit "4") = Some 4%Q;
  toNumber_200 : toNumber (lit "200") = Some 200%Q;
}.

(** A runtime that reads the strings of decimal digits and nothing else. *)
Definition digitsOnly : StringToNumber :=
  {| toNumber := λ s, if truthy s then option_map inject_Z (Date.number 0 s) else None;
     toNumber_4 := eq_refl;
     toNumber_200 := eq_refl |}.

(** The object [out] of parseArgs; [hubThreshold] and [maxWeeks] are numbers
    of type [N]. *)
Module Args.
Record args (N : Type) := {
  output : option jsstring;
  hubThreshold : N;
  maxWeeks : N;
  title : jsstring;
}.
Arguments output {N} a.
Arguments hubThreshold {N} a.
Arguments maxWeeks {N} a.
Arguments title {N} a.
End Args.

(** [v || d] for what [args.shift()] returns, [None] being undefined. *)
Definition orElse (d : jsstring) (v : option jsstring) : jsstring :=
  match v with
  | Some s => if truthy s then s else d
  | None => d
  end.

Section ParseArgs.
Context `{StringToNumber}.

Definition isFlag (a : jsstring) : bool :=
  bool_decide (a = lit "--output") || bool_decide (a = lit "--hub-threshold")
  || bool_decide (a = lit "--max-weeks") || bool_decide (a = lit "--title").

(** The branch of the flag [a], given what [args.shift()] returns. *)
Definition setFlag (a : jsstring) (v : option jsstring) (out : Args.args (option Q))
  : Args.args (option Q) :=
  if bool_decide (a = lit "--output")
  then {| Args.output := match v with
                         | Some s => if truthy s then Some s else None
                         | None => None
                         end;
          Args.hubThreshold := Args.hubThreshold out;
          Args.maxWeeks := Args.maxWeeks out;
          Args.title := Args.title out |}
  else if bool_decide (a = lit "--hub-threshold")
  then {| Args.output := Args.output out;
          Args.hubThreshold := toNumber (orElse (lit "4") v);
          Args.maxWeeks := Args.maxWeeks out;
          Args.title := Args.title out |}
  else if bool_decide (a = lit "--max-weeks")
  then {| Args.output := Args.output out;
          Args.hubThreshold := Args.hubThreshold out;
          Args.maxWeeks := toNumber (orElse (lit "200") v);
          Args.title := Args.title out |}
  else if bool_decide (a = lit "--title")
  then {| Args.output := Args.output out;
          Args.hubThreshold := Args.hubThreshold out;
          Args.maxWeeks := Args.maxWeeks out;
          Args.title := orElse (Args.title out) v |}
  else out.

(** The loop [while (args.length)]: a flag takes the argument after it,
    whatever it is; any other argument is passed over. *)
Fixpoint parseLoop (out : Args.args (option Q)) (args : list jsstring)
  : Args.args (option Q) :=
  match args with
  | [] => out
  | a :: rest =>
      if isFlag a
      then match rest with
           | [] => setFlag a None out
           | v :: rest' => parseLoop (setFlag a (Some v) out) rest'
           end
      else parseLoop out rest
  end.

(** [if (!Number.isFinite(x) || x < least) x = d] *)
Definition atLeast (least d : Q) (x : option Q) : Q :=
  match x with
  | Some q => if Qle_bool least q then q else d
  | None => d
  end.

Definition parseArgs (argv : list jsstring) : Args.args Q :=
  let out :=
    parseLoop {| Args.output := None;
                 Args.hubThreshold := Some 4%Q;
                 Args.maxWeeks := Some 200%Q;
                 Args.title := lit "Threadscape Process Analysis Report" |} argv in
  {| Args.output := Args.output out;
     Args.hubThreshold := atLeast 1 4 (Args.hubThreshold out);
     Args.maxWeeks := atLeast 4 200 (Args.maxWeeks out);
     Args.title := Args.title out |}.

End ParseArgs.

(** ** The mean timeline *)

(** The three arrays [ex], [mk] and [tot] of buildAverageTimeline. *)
Module Sums.
Record sums := { ex : list nat; mk : list nat; tot : list nat }.
End Sums.

(** An entry of [weeks]. *)
Module Week.
Record row := { week : nat; ex : Q; mk : Q; total : Q }.
End Week.

(** The loop [for (let i = 0; i < Math.min(maxWeeks, tl.length); i++)]. *)
Definition addTimeline (maxWeeks : nat) (sums : Sums.sums) (tl : list (nat * nat))
  : Sums.sums :=
  foldl (λ sums i,
           match tl !! i with
           | Some cell =>
               {| Sums.ex := alter (λ v, v + cell.1)%nat i (Sums.ex sums);
                  Sums.mk := alter (λ v, v + cell.2)%nat i (Sums.mk sums);
                  Sums.tot := alter (λ v, v + (cell.1 + cell.2))%nat i (Sums.tot sums) |}
           | None => sums
           end)
        sums (seq 0 (Nat.min maxWeeks (length tl))).

(** The loop [while (last > 0 && weeks[last].total === 0) last -= 1];
    [last] is an index of [weeks]. *)
Fixpoint lastWeek (weeks : list Week.row) (last : nat) : nat :=
  match last with
  | O => O
  | S last' =>
      match weeks !! last with
      | Some w => if Qeq_bool (Week.total w) 0 then lastWeek weeks last' else last
      | None => last
      end
  end.

(** buildAverageTimeline on the [__timeline] of each record, which a project
    without dated exploring or making node does not have.  [Array(maxWeeks)]
    throws when the length is 2^32 or more. *)
Definition buildAverageTimeline (timelines : list (option (list (nat * nat))))
    (opts : Options) : Result (nat * list Week.row) :=
  if 2 ^ 32 <=? maxWeeksOf opts then Throw RangeError else
  let maxWeeks := Z.to_nat (maxWeeksOf opts) in
  let zeros := replicate maxWeeks O in
  let '(sums, used) :=
    foldl (λ (st : Sums.sums * nat) (tl : option (list (nat * nat))),
             match tl with
             | None | Some [] => st
             | Some tl => (addTimeline maxWeeks st.1 tl, S st.2)
             end)
          ({| Sums.ex := zeros; Sums.mk := zeros; Sums.tot := zeros |}, O) timelines in
  let projectsUsed := Nat.max 1 used in
  let weeks :=
    (λ i, {| Week.week := i + 1;
             Week.ex := Num.div (Num.ofNat (default O (Sums.ex sums !! i)))
                                (Num.ofNat projectsUsed);
             Week.mk := Num.div (Num.ofNat (default O (Sums.mk sums !! i)))
                                (Num.ofNat projectsUsed);
             Week.total := Num.div (Num.ofNat (default O (Sums.tot sums !! i)))
                                   (Num.ofNat projectsUsed) |})
      <$> seq 0 maxWeeks in
  let last := lastWeek weeks (length weeks - 1) in
  Ok (projectsUsed, take (last + 1) weeks).

(** ** The tables of the cohort *)

(** [all.set(k, (all.get(k) || 0) + c)] *)
Definition addCount {K} `{EqDecision K} (all : list (K * nat)) (kc : K * nat)
  : list (K * nat) :=
  Ordered.set all kc.1 (default O (Ordered.get all kc.1) + kc.2)%nat.

(** The loop of main that adds up the tables of the records. *)
Definition mergeCounts {K} `{EqDecision K} (tables : list (list (K * nat)))
  : list (K * nat) :=
  foldl (λ all table, foldl addCount all table) [] tables.

Definition topTypesAll (ms : list Metrics.metrics) : list (jsstring * nat) :=
  take 20 (Num.sortDesc (mergeCounts (Metrics.typeCounts <$> ms))).

Definition topAreasAll (ms : list Metrics.metrics) : list (jsstring * nat) :=
  take 20 (Num.sortDesc (mergeCounts (Metrics.areaCounts <$> ms))).

Definition macroAll (ms : list Metrics.metrics) : list (Macro * nat) :=
  Num.sortDesc (mergeCounts (Metrics.macroCounts <$> ms)).

Definition totalAreaMentions (ms : list Metrics.metrics) : nat :=
  foldl Nat.add O (mergeCounts (Metrics.areaCounts <$> ms)).*2.

(** The share that the tables show: [(c / Math.max(1, total)) * 100]. *)
Definition shareOf (c total : nat) : Q :=
  Qred (Num.ofNat c / Num.ofNat (Nat.max 1 total) * 100).

(** ** The script that repairs the years of the dates *)

(** [/^\d{4}-\d{2}-\d{2}$/.test(s)] *)
Definition isDateText (s : jsstring) : bool :=
  match s with
  | [y1; y2; y3; y4; h1; m1; m2; h2; d1; d2] =>
      forallb (λ c, bool_decide (is_Some (Date.digit c))) [y1; y2; y3; y4; m1; m2; d1; d2]
      && bool_decide (h1 = 45%N) && bool_decide (h2 = 45%N)
  | _ => false
  end.

(** [years: new Set(["0025", "0026"])] *)
Definition defaultYears : gset jsstring := {[ lit "0025"; lit "0026" ]}.

Definition fixDateString (dateStr : option jsstring) (years : gset jsstring)
  : option jsstring :=
  let s := strOrEmpty dateStr in
  if negb (isDateText s) then None
  else
    let year := take 4 s in
    if negb (bool_decide (year ∈ years)) then None
    else Some (lit "20" ++ drop 2 s).

(** ** Further notions used in the statements *)

Section MacroNotions.
Context {host : Host}.

(** How many areas name each of the three macro-areas. *)
Definition macroScores (areas : list jsstring) : nat * nat * nat :=
  (count (λ a, includes (toLowerCase a) (lit "specul")) areas,
   count (λ a, includes (toLowerCase a) (lit "comunic")
               || includes (toLowerCase a) (lit "communicat")) areas,
   count (λ a, includes (toLowerCase a) (lit "inter")) areas).

End MacroNotions.

(** The values that [apply] hands to [push]. *)
Definition entriesOf (val : AreasVal) : list (option jsstring) :=
  match val with
  | AUndef => []
  | AStr s => if truthy s then [Some s] else []
  | AArr l => l
  end.

(** The five characters that escapeHtml replaces: & < > and the two quotes. *)
Definition isSpecial (c : N) : bool :=
  ((c =? 38) || (c =? 60) || (c =? 62) || (c =? 34) || (c =? 39))%N.

(** What stands for a character in escaped text. *)
Definition entityOf (c : N) : jsstring :=
  if (c =? 38)%N then lit "&amp;"
  else if (c =? 60)%N then lit "&lt;"
  else if (c =? 62)%N then lit "&gt;"
  else if (c =? 34)%N then lit "&quot;"
  else if (c =? 39)%N then lit "&#39;"
  else [c].

(** The cell of week [i] in a timeline, zero past its end or without one. *)
Definition cellAt (tl : option (list (nat * nat))) (i : nat) : nat * nat :=
  default (O, O) (default [] tl !! i).

(** A project that has a timeline. *)
Definition hasTimeline (tl : option (list (nat * nat))) : bool :=
  match tl with None | Some [] => false | Some _ => true end.

(** A project file that parses to a value other than null whose [nodes] is
    an array or is falsy. *)
Definition usable (f : Raw.file) : Prop :=
  ∃ nodes edges, f = Raw.Json (Raw.Obj nodes edges) ∧ nodes ≠ FTruthy.

(** The calendar. *)
Definition leapYear (y : Z) : bool :=
  (y mod 4 =? 0) && negb (y mod 100 =? 0) || (y mod 400 =? 0).

Definition daysIn (y m : Z) : Z :=
  if m =? 2 then (if leapYear y then 29 else 28)
  else if (m =? 4) || (m =? 6) || (m =? 9) || (m =? 11) then 30
  else 31.

(** [YYYY-MM-DD] *)
Definition dateText (y m d : Z) : jsstring :=
  Date.digits 4 y ++ lit "-" ++ Date.digits 2 m ++ lit "-" ++ Date.digits 2 d.

(** The day before a day of the calendar. *)
Definition dayBefore (y m d : Z) : Z * Z * Z :=
  if 2 <=? d then (y, m, d - 1)
  else if 2 <=? m then (y, m - 1, daysIn y (m - 1))
  else (y - 1, 12, 31).

(** Reading a quoted field of a CSV text from after its opening quote, as
    RFC 4180 has it: two quotes stand for one, a single quote ends the
    field.  The result is the field and the text after its closing quote. *)
Fixpoint readQuoted (s : jsstring) : option (jsstring * jsstring) :=
  match s with
  | [] => None
  | c :: rest =>
      if (c =? 34)%N
      then match rest with
           | [] => Some ([], [])
           | c' :: rest' =>
               if (c' =? 34)%N
               then (λ r : jsstring * jsstring, (34%N :: r.1, r.2)) <$> readQuoted rest'
               else Some ([], rest)
           end
      else (λ r : jsstring * jsstring, (c :: r.1, r.2)) <$> readQuoted rest
  end.

(** * Properties *)

Set Warnings "-clear-no-such-hyp".

(** ** Strings and areas *)

Lemma tidy_replaceRuns b s : tidy b (replaceRuns isWs b s) = true.
Proof.
  revert b; induction s as [|c r IH]; intros b; simpl; [done|].
  destruct (isWs c) eqn:Hc.
  - destruct b; simpl; [apply IH|]. rewrite IH. done.
  - simpl. rewrite Hc. apply IH.
Qed.

Lemma replaceRuns_tidy b s : tidy b s = true → replaceRuns isWs b s = s.
Proof.
  revert b; induction s as [|c r IH]; intros b; simpl; [done|].
  destruct (isWs c) eqn:Hc.
  - intros Ht. apply andb_prop in Ht as [Ht Hr]. apply andb_prop in Ht as [Hc32 Hb].
    destruct b; [done|]. apply N.eqb_eq in Hc32. subst c. by rewrite (IH true).
  - intros Hr. by rewrite (IH false).
Qed.

Lemma tidy_weaken b s : tidy b s = true → tidy false s = true.
Proof.
  destruct s as [|c r]; simpl; [done|]. destruct (isWs c); [|done].
  intros Ht. apply andb_prop in Ht as [Ht Hr]. apply andb_prop in Ht as [Hc32 Hb].
  by rewrite Hc32, Hr.
Qed.

Lemma tidy_trimStart b s : tidy b s = true → tidy false (trimStart s) = true.
Proof.
  revert b; induction s as [|c r IH]; intros b; [done|].
  cbn [trimStart]. destruct (isWs c) eqn:Hc.
  - simpl. rewrite Hc. intros Ht. apply andb_prop in Ht as [_ Hr]. by eapply IH.
  - apply tidy_weaken.
Qed.

Lemma tidy_trimEnd b s : tidy b s = true → tidy b (trimEnd s) = true.
Proof.
  revert b; induction s as [|c r IH]; intros b; [done|].
  cbn [trimEnd]. intros Ht.
  destruct (trimEnd r) as [|x e] eqn:He.
  - destruct (isWs c) eqn:Hc; [done|]. simpl. by rewrite Hc.
  - simpl in *. destruct (isWs c).
    + apply andb_prop in Ht as [Ht Hr]. rewrite Ht. simpl. apply (IH true Hr).
    + apply (IH false Ht).
Qed.

Lemma trimStart_idem s : trimStart (trimStart s) = trimStart s.
Proof.
  induction s as [|c r IH]; [done|]. simpl. destruct (isWs c) eqn:Hc; [done|].
  simpl. by rewrite Hc.
Qed.

Lemma trimEnd_idem s : trimEnd (trimEnd s) = trimEnd s.
Proof.
  induction s as [|c r IH]; [done|]. cbn [trimEnd].
  destruct (trimEnd r) as [|x e] eqn:He.
  - destruct (isWs c) eqn:Hc; [done|]. simpl. by rewrite Hc.
  - cbn [trimEnd]. cbn [trimEnd] in IH. by rewrite IH.
Qed.

Lemma trimStart_trimEnd s : trimStart s = s → trimStart (trimEnd s) = trimEnd s.
Proof.
  destruct s as [|c r]; [done|]. cbn [trimStart trimEnd].
  destruct (isWs c) eqn:Hc.
  - intros Heq. exfalso.
    assert (Hlen : (length (trimStart r) ≤ length r)%nat).
    { clear. induction r as [|a r IH]; simpl; [lia|]. destruct (isWs a); simpl; lia. }
    rewrite Heq in Hlen. simpl in Hlen. lia.
  - intros _. destruct (trimEnd r); simpl; by rewrite Hc.
Qed.

Lemma trim_idem s : trim (trim s) = trim s.
Proof.
  unfold trim. rewrite trimStart_trimEnd by apply trimStart_idem.
  apply trimEnd_idem.
Qed.

Lemma wsnorm_idem s : wsnorm (wsnorm s) = wsnorm s.
Proof.
  unfold wsnorm at 1. unfold collapseWs at 1.
  rewrite replaceRuns_tidy.
  - apply trim_idem.
  - unfold wsnorm, trim. eapply tidy_trimEnd, tidy_trimStart, tidy_replaceRuns.
Qed.

Section AreasFacts.
Context {host : Host}.

Lemma canonicalAreaName_tidy txt :
  wsnorm txt = txt →
  canonicalAreaName (Some txt) =
    if negb (truthy txt) then []
    else
      let low := toLowerCase txt in
      if bool_decide (low = lit "speculative") || bool_decide (low = lit "speculative design")
      then lit "Speculative Design"
      else if bool_decide (low = lit "communication") || bool_decide (low = lit "communication design")
      then lit "Communication Design"
      else if bool_decide (low = lit "interaction") || bool_decide (low = lit "interaction design")
      then lit "Interaction Design"
      else txt.
Proof.
  intros E. unfold canonicalAreaName.
  change (trim (collapseWs (strOrEmpty (Some txt)))) with (wsnorm txt). by rewrite E.
Qed.

Lemma canonicalAreaName_const (name : jsstring) :
  name ∈ [lit "Speculative Design"; lit "Communication Design"; lit "Interaction Design"] →
  canonicalAreaName (Some name) = name.
Proof.
  intros Hin. repeat (apply elem_of_cons in Hin as [->|Hin]);
    [| | |by apply elem_of_nil in Hin];
    (rewrite canonicalAreaName_tidy by reflexivity);
    cbv zeta; (rewrite toLowerCase_ascii by reflexivity); reflexivity.
Qed.

Lemma canonicalAreaName_idem v :
  canonicalAreaName (Some (canonicalAreaName v)) = canonicalAreaName v.
Proof.
  unfold canonicalAreaName at 2 3.
  change (trim (collapseWs (strOrEmpty v))) with (wsnorm (strOrEmpty v)).
  set (txt := wsnorm (strOrEmpty v)).
  assert (Etxt : wsnorm txt = txt) by apply wsnorm_idem.
  destruct (truthy txt) eqn:Htxt; cbn [negb]; [|reflexivity].
  cbv zeta.
  repeat (match goal with
          | |- context [if ?b then _ else _] => destruct b eqn:?
          end; [apply canonicalAreaName_const; set_solver|]).
  rewrite canonicalAreaName_tidy by done. rewrite Htxt. cbn [negb]. cbv zeta.
  repeat match goal with
         | E : ?b = false |- context [if ?b then _ else _] => rewrite E
         end.
  reflexivity.
Qed.

Lemma keysOf_snoc out m : keysOf (out ++ [m]) = {[areaKey m]} ∪ keysOf out.
Proof.
  unfold keysOf. rewrite fmap_app, list_to_set_app_L. simpl.
  by rewrite (right_id_L ∅ (∪)), (comm_L (∪)).
Qed.

Lemma push_inv st raw : pushInv st → pushInv (push st raw).
Proof.
  destruct st as [seen out]. intros (Hseen & Hnd & Hall). simpl in *.
  unfold push.
  destruct (truthy (canonicalAreaName raw)) eqn:Hm; cbn [negb]; [|done].
  destruct (truthy (areaKey (canonicalAreaName raw))) eqn:Hk; cbn [negb orb]; [|done].
  case_bool_decide as Hin; [done|].
  split_and!; simpl.
  - by rewrite keysOf_snoc, Hseen.
  - rewrite fmap_app. apply NoDup_app. split_and!; [done| |apply NoDup_singleton].
    intros k Hk1 Hk2. apply list_elem_of_singleton in Hk2 as ->.
    apply Hin. rewrite Hseen. unfold keysOf. by apply elem_of_list_to_set.
  - apply Forall_app. split; [done|]. apply Forall_singleton.
    split_and!; [apply canonicalAreaName_idem|done|done].
Qed.

Lemma applyVal_inv st val : pushInv st → pushInv (applyVal st val).
Proof.
  destruct val as [|s|l]; simpl; [done| |].
  - destruct (truthy s); [apply push_inv|done].
  - revert st. induction l as [|x l IH]; intros st Hst; simpl; [done|].
    apply IH, push_inv, Hst.
Qed.

Lemma normalizeAreaList_inv areas legacy :
  pushInv (applyVal (applyVal (∅, []) areas) legacy).
Proof.
  do 2 apply applyVal_inv. split_and!; simpl; [done|constructor|constructor].
Qed.

(** Pushing settled names with fresh keys appends them all. *)
Lemma push_settled out1 out2 :
  NoDup (areaKey <$> (out1 ++ out2)) → Forall settled out2 →
  foldl push (keysOf out1, out1) (Some <$> out2) = (keysOf (out1 ++ out2), out1 ++ out2).
Proof.
  revert out1. induction out2 as [|m out2 IH]; intros out1 Hnd Hall.
  - by rewrite app_nil_r.
  - apply Forall_cons in Hall as [(Hc & Hm & Hk) Hall].
    rewrite fmap_cons. cbn [foldl].
    assert (Hpush : push (keysOf out1, out1) (Some m) = (keysOf (out1 ++ [m]), out1 ++ [m])).
    { unfold push. rewrite Hc, Hm, Hk. cbn [negb orb].
      rewrite bool_decide_eq_false_2; [by rewrite keysOf_snoc|].
      unfold keysOf. rewrite elem_of_list_to_set.
      rewrite fmap_app, fmap_cons in Hnd. apply NoDup_app in Hnd as (_ & Hnd & _).
      intros Hin. apply (Hnd _ Hin). left. }
    rewrite Hpush.
    replace (out1 ++ m :: out2) with ((out1 ++ [m]) ++ out2) in * by (by rewrite <- app_assoc).
    by apply IH.
Qed.

(** C8: area normalization is idempotent.  Normalizing the list that
    normalizeAreaList returns, given as [areas] or as the legacy argument,
    returns it unchanged; its names are left as they are by canonicalAreaName
    and are not empty, and no two of them have the same key. *)
Theorem normalizeAreaList_idempotent (areas legacy : AreasVal) :
  let out := normalizeAreaList areas legacy in
  normalizeAreaList (AArr (Some <$> out)) AUndef = out
  ∧ normalizeAreaList AUndef (AArr (Some <$> out)) = out
  ∧ NoDup (areaKey <$> out)
  ∧ Forall (λ m, canonicalAreaName (Some m) = m ∧ m ≠ []) out.
Proof.
  intros out. destruct (normalizeAreaList_inv areas legacy) as (Hseen & Hnd & Hall).
  fold (normalizeAreaList areas legacy) in Hnd, Hall. fold out in Hnd, Hall.
  assert (Hreplay : foldl push (∅, []) (Some <$> out) = (keysOf out, out)).
  { apply (push_settled [] out); done. }
  split_and!; [| |done|].
  - unfold normalizeAreaList. cbn [applyVal]. by rewrite Hreplay.
  - unfold normalizeAreaList. cbn [applyVal]. by rewrite Hreplay.
  - eapply Forall_impl; [exact Hall|]. intros m (Hc & Hm & _). split; [done|].
    by destruct m.
Qed.

End AreasFacts.

(** ** The recursion of strongConnect returns *)

Module SccFacts.
Import Scc.

Section Fuel.
Variable adjacency : gmap jsstring (list jsstring).
Variable V : gset jsstring.
Hypothesis closed : ∀ v w, w ∈ successorsOf adjacency v → w ∈ V.

Local Abbreviation visited := Tarjan.visited.
Local Abbreviation unvisited := (Tarjan.unvisited V).

Lemma visited_enter v st : visited (enter v st) = {[v]} ∪ visited st.
Proof. unfold Tarjan.visited. simpl. by rewrite dom_insert_L. Qed.

Lemma visited_setLow v n st : visited (setLow v n st) = visited st.
Proof. done. Qed.

Lemma visited_close v st : visited (close v st) = visited st.
Proof.
  unfold close. case_bool_decide; [|done].
  by destruct (popUntil v (stack st) (onStack st) []) as [[? ?] ?].
Qed.

Lemma unvisited_mono st st' : visited st ⊆ visited st' → (unvisited st' ≤ unvisited st)%nat.
Proof. intros Hsub. unfold Tarjan.unvisited. apply subseteq_size. set_solver. Qed.

Lemma unvisited_enter v st :
  v ∈ V → v ∉ visited st → S (unvisited (enter v st)) = unvisited st.
Proof.
  intros Hv Hnv. unfold Tarjan.unvisited. rewrite visited_enter.
  replace (V ∖ visited st) with ({[v]} ∪ V ∖ ({[v]} ∪ visited st)).
  - rewrite (size_union {[v]} (V ∖ ({[v]} ∪ visited st))) by set_solver.
    by rewrite size_singleton.
  - apply set_eq. intros x. rewrite elem_of_union, !elem_of_difference, elem_of_union,
      elem_of_singleton. destruct (decide (x = v)) as [->|]; naive_solver.
Qed.

Lemma successors_returns (visit : jsstring → state → option state) (fuel : nat) v ws st :
  (∀ w st0, w ∈ V → w ∉ visited st0 → (unvisited st0 ≤ fuel)%nat →
            ∃ st1, visit w st0 = Some st1 ∧ visited st0 ⊆ visited st1) →
  (∀ w, w ∈ ws → w ∈ V) → (unvisited st ≤ fuel)%nat →
  ∃ st', successors visit v ws st = Some st' ∧ visited st ⊆ visited st'.
Proof.
  intros Hvisit. revert st. induction ws as [|w ws IH]; intros st Hws Hfuel.
  - by exists st.
  - cbn [successors]. case_bool_decide as Hseen.
    + assert (Hrest : ∀ w', w' ∈ ws → w' ∈ V) by (intros; apply Hws; by right).
      case_bool_decide.
      * destruct (IH (setLow v (Nat.min (num (lowMap st) v) (num (indexMap st) w)) st)
                    Hrest Hfuel) as (st' & -> & Hsub).
        by exists st'.
      * apply (IH st Hrest Hfuel).
    + destruct (Hvisit w st) as (st1 & -> & Hsub1); [apply Hws; left| |done|].
      { unfold Tarjan.visited. by rewrite elem_of_dom. }
      cbn [mbind option_bind].
      destruct (IH (setLow v (Nat.min (num (lowMap st1) v) (num (lowMap st1) w)) st1))
        as (st' & -> & Hsub).
      * intros; apply Hws; by right.
      * etrans; [apply unvisited_mono; exact Hsub1|done].
      * exists st'. split; [done|]. etrans; [exact Hsub1|exact Hsub].
Qed.

Lemma strongConnect_returns fuel v st :
  v ∈ V → v ∉ visited st → (unvisited st ≤ fuel)%nat →
  ∃ st', strongConnect fuel adjacency v st = Some st' ∧ visited st ⊆ visited st'.
Proof.
  revert v st. induction fuel as [|fuel IH]; intros v st Hv Hnv Hfuel.
  - exfalso. pose proof (unvisited_enter v st Hv Hnv). lia.
  - cbn [strongConnect].
    destruct (successors_returns (strongConnect fuel adjacency) fuel v
                (successorsOf adjacency v) (enter v st)) as (st' & -> & Hsub).
    + intros w st0 Hw Hnw Hf. by apply IH.
    + intros w Hw. by eapply closed.
    + pose proof (unvisited_enter v st Hv Hnv). lia.
    + exists (close v st'). split; [done|]. rewrite visited_close.
      rewrite visited_enter in Hsub. set_solver.
Qed.

Lemma roots_returns fuel ids st :
  (∀ v, v ∈ ids → v ∈ V) → (size V ≤ fuel)%nat →
  ∃ st', roots fuel adjacency ids st = Some st'.
Proof.
  intros Hids Hfuel. revert st. induction ids as [|v ids IH]; intros st.
  - by exists st.
  - cbn [roots].
    assert (Hrest : ∀ w, w ∈ ids → w ∈ V) by (intros; apply Hids; by right).
    case_bool_decide as Hseen; [by apply IH|].
    destruct (strongConnect_returns fuel v st) as (st1 & -> & _).
    + apply Hids. left.
    + unfold Tarjan.visited. by rewrite elem_of_dom.
    + unfold Tarjan.unvisited. etrans; [|exact Hfuel]. apply subseteq_size. set_solver.
    + by apply IH.
Qed.

End Fuel.

Lemma successorsOf_no_edges ids v w :
  w ∈ successorsOf (foldl (λ m id, <[id := []]> m) ∅ ids) v → False.
Proof.
  unfold successorsOf.
  assert (Hall : ∀ l, foldl (λ (m : gmap jsstring (list jsstring)) id, <[id := []]> m) ∅ ids !! v = Some l → l = []).
  { induction ids as [|id ids IH] using rev_ind; intros l.
    - simpl. by rewrite lookup_empty.
    - rewrite foldl_app. simpl. destruct (decide (id = v)) as [->|Hne].
      + rewrite lookup_insert_eq. congruence.
      + rewrite lookup_insert_ne by done. apply IH. }
  destruct (foldl _ _ ids !! v) as [l|] eqn:El; simpl.
  - rewrite (Hall l eq_refl). apply not_elem_of_nil.
  - apply not_elem_of_nil.
Qed.

Lemma elem_of_successorsOf ids edges idToIndex v w :
  w ∈ successorsOf (adjacencyOf ids edges idToIndex) v ↔ edgeOf idToIndex edges v w.
Proof.
  unfold adjacencyOf. induction edges as [|e edges IH] using rev_ind.
  - simpl. split.
    + intros Hw. by apply successorsOf_no_edges in Hw.
    + intros (e & He & _). by apply elem_of_nil in He.
  - rewrite foldl_app. cbn [foldl].
    set (adj := foldl _ _ edges) in *.
    assert (Hsnoc : edgeOf idToIndex (edges ++ [e]) v w ↔
              edgeOf idToIndex edges v w
              ∨ (Edge.s e = v ∧ Edge.t e = w ∧ v ≠ w
                 ∧ is_Some (idToIndex !! v) ∧ is_Some (idToIndex !! w))).
    { unfold edgeOf. split.
      - intros (e' & He' & Hrest). apply elem_of_app in He' as [He'|He'].
        + left. by exists e'.
        + apply list_elem_of_singleton in He' as ->. by right.
      - intros [(e' & He' & Hrest)|Hrest].
        + exists e'. split; [apply elem_of_app; by left|done].
        + exists e. split; [apply elem_of_app; right; by apply list_elem_of_singleton|done]. }
    rewrite Hsnoc, <- IH. clear Hsnoc IH.
    destruct (idToIndex !! Edge.s e) as [i|] eqn:Es;
      [destruct (idToIndex !! Edge.t e) as [j|] eqn:Et|].
    + case_bool_decide as Heq.
      * split; [by left|]. intros [?|[<- [<- [Hne _]]]]; [done|]. by destruct Hne.
      * unfold successorsOf at 1. destruct (decide (Edge.s e = v)) as [<-|Hne].
        -- rewrite lookup_insert_eq. simpl. rewrite elem_of_app, list_elem_of_singleton.
           split.
           ++ intros [?| ->]; [by left|]. right. rewrite Es, Et. by eauto.
           ++ intros [?|[_ [<- _]]]; [by left|by right].
        -- rewrite lookup_insert_ne by done. fold (successorsOf adj v).
           split; [by left|]. intros [?|(? & _)]; [done|]. by destruct Hne.
    + split; [by left|]. intros [?|[<- [<- [_ [_ Hw]]]]]; [done|].
      rewrite Et in Hw. by destruct Hw.
    + split; [by left|]. intros [?|[<- [<- [_ [Hv _]]]]]; [done|].
      rewrite Es in Hv. by destruct Hv.
Qed.

Lemma size_list_to_set_le (l : list jsstring) :
  (size (list_to_set l : gset jsstring) ≤ length l)%nat.
Proof.
  induction l as [|x l IH].
  - change (list_to_set []) with (∅ : gset jsstring). by rewrite size_empty.
  - change (list_to_set (x :: l)) with ({[x]} ∪ list_to_set l : gset jsstring).
    rewrite size_union_alt, size_singleton.
    assert ((size (list_to_set l ∖ {[x]} : gset jsstring) ≤ size (list_to_set l : gset jsstring))%nat)
      by (apply subseteq_size; set_solver).
    simpl. lia.
Qed.

Lemma componentsOf_returns nodes edges idToIndex :
  (∀ k, is_Some (idToIndex !! k) → k ∈ Node.id <$> nodes) →
  is_Some (componentsOf nodes edges idToIndex).
Proof.
  intros Hdom. unfold componentsOf.
  destruct (roots_returns (adjacencyOf (Node.id <$> nodes) edges idToIndex)
              (list_to_set (Node.id <$> nodes))) with
    (fuel := length (Node.id <$> nodes)) (ids := Node.id <$> nodes) (st := init)
    as (st & ->).
  - intros v w Hw. apply elem_of_successorsOf in Hw as (e & _ & _ & _ & _ & _ & Hw).
    apply elem_of_list_to_set. by apply Hdom.
  - intros v Hv. by apply elem_of_list_to_set.
  - apply size_list_to_set_le.
  - by eexists.
Qed.

End SccFacts.

Lemma indexFrom_lookup nodes i m k :
  is_Some (indexFrom i nodes m !! k) ↔ k ∈ Node.id <$> nodes ∨ is_Some (m !! k).
Proof.
  revert i m. induction nodes as [|n nodes IH]; intros i m; simpl.
  - split; [by right|]. intros [Hk|?]; [|done]. by apply elem_of_nil in Hk.
  - rewrite IH, elem_of_cons. destruct (decide (Node.id n = k)) as [->|Hne].
    + rewrite lookup_insert_eq. naive_solver.
    + rewrite lookup_insert_ne by done. naive_solver.
Qed.

Lemma idToIndexOf_lookup nodes k :
  is_Some (idToIndexOf nodes !! k) ↔ k ∈ Node.id <$> nodes.
Proof.
  unfold idToIndexOf. rewrite indexFrom_lookup, lookup_empty.
  split; [intros [?|[? ?]]; done|by left].
Qed.

Lemma computeScc_returns nodes edges :
  ∃ comps, Scc.componentsOf nodes edges (idToIndexOf nodes) = Some comps
           ∧ Scc.computeScc nodes edges (idToIndexOf nodes) = Ok (Scc.resultOf comps).
Proof.
  destruct (SccFacts.componentsOf_returns nodes edges (idToIndexOf nodes)) as [comps Hc].
  - intros k. by rewrite idToIndexOf_lookup.
  - exists comps. split; [done|]. unfold Scc.computeScc. by rewrite Hc.
Qed.

(** ** The record *)

Lemma analyse_returns projectName nodes rawEdges opts :
  ∃ m, analyse projectName nodes rawEdges opts = Ok m.
Proof.
  unfold analyse.
  destruct (macroEdgeLoop _ _ _) as [considered cross].
  destruct (temporalLoop _ _ _) as [temporalEdges temporalBackEdges].
  destruct (computeScc_returns nodes (loadEdges (idToIndexOf nodes) rawEdges))
    as (comps & _ & ->).
  cbn [bind]. by eexists.
Qed.

(** What the record holds, field by field, for the fields that the
    statements below are about. *)
Lemma analyse_fields projectName nodes rawEdges opts m :
  analyse projectName nodes rawEdges opts = Ok m →
  let idToIndex := idToIndexOf nodes in
  let edges := loadEdges idToIndex rawEdges in
  let tr := transitionLoop nodes idToIndex edges in
  Metrics.nodes m = length nodes
  ∧ Metrics.edges m = length edges
  ∧ Metrics.exploring m = count (isAction exploring) nodes
  ∧ Metrics.eToMEdges m = eToM tr
  ∧ Metrics.mToEEdges m = mToE tr
  ∧ Metrics.feedbackRatio m = Num.share (mToE tr) (eToM tr)
  ∧ Metrics.conversionRate m
    = Num.share (length (exploringWithMakingOut tr)) (count (isAction exploring) nodes)
  ∧ Metrics.leadtimeMedianDays m = median (eToMLatencyDays tr)
  ∧ Metrics.density m = Qred (densityOf (length nodes) (length edges) * 100)
  ∧ Metrics.reciprocityPairs m = reciprocalPairsOf edges
  ∧ Metrics.interlacingIndex m = Num.share (Metrics.overlapBuckets m) (Metrics.activeBuckets m)
  ∧ (Metrics.overlapBuckets m = O → Metrics.overlapIntensity m = 0%Q)
  ∧ (Metrics.overlapBuckets m ≤ Metrics.activeBuckets m)%nat
  ∧ Metrics.multiAreaShare m
    = Num.share (count (λ n, (1 <? length (Node.areas n))%nat) nodes) (length nodes)
  ∧ Metrics.crossInterlacingShare m
    = Num.share (crossInterlacingEdges tr) (interlacingEdgesMacroConsidered tr)
  ∧ Metrics.crossMacroShare m
    = Num.share (macroEdgeLoop nodes idToIndex edges).2 (macroEdgeLoop nodes idToIndex edges).1
  ∧ Metrics.temporalBackShare m
    = Num.share (temporalLoop nodes idToIndex edges).2 (temporalLoop nodes idToIndex edges).1
  ∧ (∃ comps, Scc.componentsOf nodes edges idToIndex = Some comps
       ∧ Metrics.sccCount m = Scc.sccCount (Scc.resultOf comps)
       ∧ Metrics.largestScc m = Scc.largestScc (Scc.resultOf comps)
       ∧ Metrics.cycleParticipation m
         = Num.share (length (Scc.cyclicNodes (Scc.resultOf comps))) (length nodes)).
Proof.
  unfold analyse.
  destruct (macroEdgeLoop _ _ _) as [considered cross].
  destruct (temporalLoop _ _ _) as [temporalEdges temporalBackEdges].
  destruct (computeScc_returns nodes (loadEdges (idToIndexOf nodes) rawEdges))
    as (comps & Hcomps & ->).
  cbn [bind]. intros [= <-].
  cbn [Metrics.nodes Metrics.edges Metrics.exploring Metrics.eToMEdges Metrics.mToEEdges
       Metrics.feedbackRatio Metrics.conversionRate Metrics.leadtimeMedianDays
       Metrics.density Metrics.reciprocityPairs Metrics.interlacingIndex
       Metrics.overlapBuckets Metrics.activeBuckets Metrics.overlapIntensity
       Metrics.multiAreaShare Metrics.crossInterlacingShare Metrics.crossMacroShare
       Metrics.temporalBackShare Metrics.sccCount Metrics.largestScc
       Metrics.cycleParticipation fst snd].
  split_and!; try reflexivity.
  - unfold computeInterlacing. cbn [i_overlapBuckets i_overlapIntensity].
    intros Hlen. by apply nil_length_inv in Hlen as ->.
  - unfold computeInterlacing. cbn [i_overlapBuckets i_activeBuckets].
    apply List.filter_length_le.
  - exists comps. by split_and!.
Qed.

(** ** Edges and degrees *)

Lemma loadEdges_app idToIndex raw1 raw2 :
  loadEdges idToIndex (raw1 ++ raw2) = loadEdges idToIndex raw1 ++ loadEdges idToIndex raw2.
Proof. unfold loadEdges. by rewrite fmap_app, List.filter_app. Qed.

Lemma loadEdges_replicate idToIndex e k :
  validEdge idToIndex (loadEdge e) = true →
  loadEdges idToIndex (replicate k e) = replicate k (loadEdge e).
Proof.
  intros Hv. unfold loadEdges. induction k as [|k IH]; [done|].
  cbn [replicate fmap list_fmap List.filter]. rewrite Hv. f_equal. exact IH.
Qed.

Lemma degOf_zeroDeg nodes v : degOf (zeroDeg nodes) v = O.
Proof.
  unfold zeroDeg, degOf. induction nodes as [|n nodes IH] using rev_ind; [done|].
  rewrite foldl_app. simpl. destruct (decide (Node.id n = v)) as [->|Hne].
  - by rewrite lookup_insert_eq.
  - by rewrite lookup_insert_ne.
Qed.

Lemma degOf_bumpDeg deg k v :
  degOf (bumpDeg deg k) v = if bool_decide (k = v) then S (degOf deg v) else degOf deg v.
Proof.
  unfold bumpDeg, degOf. case_bool_decide as Hk.
  - subst. by rewrite lookup_insert_eq.
  - by rewrite lookup_insert_ne.
Qed.

Lemma degOf_foldl (key : Edge.edge → jsstring) deg edges v :
  degOf (foldl (λ m e, bumpDeg m (key e)) deg edges) v
  = (degOf deg v + count (λ e, bool_decide (key e = v)) edges)%nat.
Proof.
  revert deg. induction edges as [|e edges IH]; intros deg.
  - unfold count. simpl. lia.
  - cbn [foldl]. rewrite IH, degOf_bumpDeg. unfold count. simpl.
    case_bool_decide; simpl; lia.
Qed.

Lemma outDegOf_spec nodes edges v :
  degOf (outDegOf nodes edges) v = count (λ e, bool_decide (Edge.s e = v)) edges.
Proof. unfold outDegOf. by rewrite degOf_foldl, degOf_zeroDeg. Qed.

Lemma inDegOf_spec nodes edges v :
  degOf (inDegOf nodes edges) v = count (λ e, bool_decide (Edge.t e = v)) edges.
Proof. unfold inDegOf. by rewrite degOf_foldl, degOf_zeroDeg. Qed.

Lemma count_app {A} (p : A → bool) l1 l2 :
  count p (l1 ++ l2) = (count p l1 + count p l2)%nat.
Proof. unfold count. by rewrite List.filter_app, length_app. Qed.

Lemma count_replicate_true {A} (p : A → bool) x k :
  p x = true → count p (replicate k x) = k.
Proof.
  intros Hp. unfold count. induction k as [|k IH]; [done|].
  simpl. rewrite Hp. simpl. by rewrite IH.
Qed.

(** ** Lead time *)

Lemma length_insertAsc x l : length (Num.insertAsc x l) = S (length l).
Proof.
  induction l as [|y l IH]; [done|]. simpl. destruct (Qle_bool y x); simpl; by rewrite ?IH.
Qed.

Lemma length_sortAsc l : length (Num.sortAsc l) = length l.
Proof.
  unfold Num.sortAsc. induction l as [|x l IH]; [done|].
  simpl. by rewrite length_insertAsc, IH.
Qed.

Lemma median_None values : median values = None ↔ values = [].
Proof.
  unfold median. pose proof (length_sortAsc values) as Hlen.
  destruct (Num.sortAsc values) as [|x l] eqn:Es.
  - split; [|done]. intros _. by destruct values.
  - split.
    + by destruct (_ =? _)%nat.
    + intros ->. discriminate.
Qed.

Lemma transitionLoop_latencies nodes idToIndex edges st :
  eToMLatencyDays (foldl (transitionStep nodes idToIndex) st edges)
  = eToMLatencyDays st ++ omap (latencyOfEdge nodes idToIndex) edges.
Proof.
  revert st. induction edges as [|e edges IH]; intros st.
  - by rewrite app_nil_r.
  - cbn [foldl omap list_omap]. rewrite IH. unfold transitionStep, latencyOfEdge.
    destruct (nodeAt nodes idToIndex (Edge.s e)) as [a|]; [|done].
    destruct (nodeAt nodes idToIndex (Edge.t e)) as [b|]; [|done].
    destruct (bool_decide (Node.action a = exploring) && bool_decide (Node.action b = making)) eqn:Eem.
    + cbn [negb andb]. cbn [eToMLatencyDays].
      destruct (latencyOf a b) as [q|]; [|done]. by rewrite <- app_assoc.
    + cbn [negb andb].
      destruct (bool_decide (Node.action a = making) && bool_decide (Node.action b = exploring));
        done.
Qed.

Lemma latencyOf_Some a b :
  is_Some (latencyOf a b) ↔
  ∃ da db, Node.date a = Some da ∧ Node.date b = Some db ∧ da ≤ db.
Proof.
  unfold latencyOf.
  destruct (Node.date a) as [da|]; [|split; [intros [? ?]; done|intros (? & ? & ? & _); done]].
  destruct (Node.date b) as [db|]; [|split; [intros [? ?]; done|intros (? & ? & _ & ? & _); done]].
  assert (Hle : Qle_bool 0 (Num.div (inject_Z (db - da)) (inject_Z Date.msPerDay)) = true
                ↔ da ≤ db).
  { rewrite Qle_bool_iff. unfold Num.div. rewrite Qred_correct.
    unfold Qle, Qdiv, Qmult, Qinv, inject_Z, Date.msPerDay. simpl. lia. }
  destruct (Qle_bool 0 _) eqn:E.
  - split; [|by eauto]. intros _. exists da, db. split_and!; [done..|]. by apply Hle.
  - split; [intros [? ?]; done|]. intros (? & ? & [= <-] & [= <-] & Hd).
    apply Hle in Hd. congruence.
Qed.

Lemma no_latencies nodes idToIndex edges :
  omap (latencyOfEdge nodes idToIndex) edges = [] ↔ ¬ hasLeadtime nodes idToIndex edges.
Proof.
  split.
  - intros Hnil (e & a & b & da & db & He & Ha & Hb & Hea & Hmb & Hda & Hdb & Hle).
    assert (Hs : is_Some (latencyOfEdge nodes idToIndex e)).
    { unfold latencyOfEdge. rewrite Ha, Hb.
      rewrite !bool_decide_eq_true_2 by done. cbn [andb].
      apply latencyOf_Some. by eauto. }
    destruct Hs as [q Hq].
    assert (Hin : q ∈ omap (latencyOfEdge nodes idToIndex) edges).
    { apply list_elem_of_omap. by eauto. }
    rewrite Hnil in Hin. by apply elem_of_nil in Hin.
  - intros Hno. destruct (omap _ edges) as [|q l] eqn:El; [done|]. exfalso. apply Hno.
    assert (Hin : q ∈ omap (latencyOfEdge nodes idToIndex) edges) by (rewrite El; left).
    apply list_elem_of_omap in Hin as (e & He & Hq).
    unfold latencyOfEdge in Hq.
    destruct (nodeAt nodes idToIndex (Edge.s e)) as [a|] eqn:Ha; [|done].
    destruct (nodeAt nodes idToIndex (Edge.t e)) as [b|] eqn:Hb; [|done].
    destruct (bool_decide (Node.action a = exploring)) eqn:Ea; [|done].
    destruct (bool_decide (Node.action b = making)) eqn:Eb; [|done].
    apply bool_decide_eq_true_1 in Ea, Eb. cbn [andb] in Hq.
    destruct (proj1 (latencyOf_Some a b)) as (da & db & Hda & Hdb & Hle); [by eauto|].
    exists e, a, b, da, db. by split_and!.
Qed.

(** ** Scenario A *)

Section ScenarioA.
Context {host : Host}.

Lemma loadNode_scenario (i a d : string) :
  forallb isAscii (lit a) = true →
  loadNode (Scenario.node i a d)
  = {| Node.id := lit i;
       Node.action := actionOf (trim (lowerAscii <$> lit a));
       Node.date := parseDate (lit d);
       Node.areas := [];
       Node.macro := unknown;
       Node.type := [] |}.
Proof.
  intros Ha. unfold loadNode, Scenario.node. cbn [Raw.node_data Raw.id Raw.action Raw.date
    Raw.areas Raw.mainAreas Raw.mainArea Raw.mainarea Raw.type from_option strOrEmpty id].
  rewrite (toLowerCase_ascii _ Ha). reflexivity.
Qed.

Lemma scenarioA_nodes t1 t2 t3 :
  parseLocal (lit "2024-01-01T00:00:00") = Some t1 →
  parseLocal (lit "2024-01-08T00:00:00") = Some t2 →
  parseLocal (lit "2024-01-15T00:00:00") = Some t3 →
  loadNode <$> [Scenario.node "N1" "exploring" "2024-01-01";
                Scenario.node "N2" "making" "2024-01-08";
                Scenario.node "N3" "exploring" "2024-01-15"]
  = [ {| Node.id := lit "N1"; Node.action := exploring; Node.date := Some t1;
         Node.areas := []; Node.macro := unknown; Node.type := [] |};
      {| Node.id := lit "N2"; Node.action := making; Node.date := Some t2;
         Node.areas := []; Node.macro := unknown; Node.type := [] |};
      {| Node.id := lit "N3"; Node.action := exploring; Node.date := Some t3;
         Node.areas := []; Node.macro := unknown; Node.type := [] |} ].
Proof.
  intros H1 H2 H3. cbn [fmap list_fmap].
  rewrite !loadNode_scenario by reflexivity.
  assert (E1 : parseDate (lit "2024-01-01") = Some t1) by exact H1.
  assert (E2 : parseDate (lit "2024-01-08") = Some t2) by exact H2.
  assert (E3 : parseDate (lit "2024-01-15") = Some t3) by exact H3.
  rewrite E1, E2, E3. reflexivity.
Qed.

(** C1, as amended.  On a machine that reads 2024-01-08 seven days after
    2024-01-01, the record of Scenario A has eToM = 1, mToE = 1,
    feedbackRatio = 100 and a median lead time of 7 days; two of its nodes
    are exploring and one of them has an E→M edge, so that
    conversionRate = 50. *)
Theorem scenarioA_metrics (projectName : jsstring) (opts : Options) (t1 t2 t3 : Z) :
  parseLocal (lit "2024-01-01T00:00:00") = Some t1 →
  parseLocal (lit "2024-01-08T00:00:00") = Some t2 →
  parseLocal (lit "2024-01-15T00:00:00") = Some t3 →
  t2 - t1 = 7 * Date.msPerDay →
  ∃ m, computeMetricsForProject projectName Scenario.A opts = Ok m
       ∧ Metrics.eToMEdges m = 1%nat
       ∧ Metrics.mToEEdges m = 1%nat
       ∧ Metrics.feedbackRatio m = 100%Q
       ∧ Metrics.exploring m = 2%nat
       ∧ Metrics.conversionRate m = 50%Q
       ∧ Metrics.leadtimeMedianDays m = Some 7%Q.
Proof.
  intros H1 H2 H3 Hdiff.
  unfold computeMetricsForProject, Scenario.A, metricsOf. cbn [arrayOrEmpty].
  rewrite (scenarioA_nodes t1 t2 t3 H1 H2 H3).
  set (nodes := [_; _; _]).
  destruct (analyse_returns projectName nodes
              [Scenario.edge (lit "N1") (lit "N2"); Scenario.edge (lit "N2") (lit "N3")] opts)
    as [m Hm].
  exists m. split; [done|].
  apply analyse_fields in Hm. cbv zeta in Hm.
  destruct Hm as (_ & _ & Hex & HeToM & HmToE & Hfb & Hconv & Hlead & _).
  rewrite HeToM, HmToE, Hfb, Hex, Hconv, Hlead.
  set (idToIndex := idToIndexOf nodes).
  assert (Eedges : loadEdges idToIndex
            [Scenario.edge (lit "N1") (lit "N2"); Scenario.edge (lit "N2") (lit "N3")]
          = [ {| Edge.s := lit "N1"; Edge.t := lit "N2"; Edge.dashed := false |};
              {| Edge.s := lit "N2"; Edge.t := lit "N3"; Edge.dashed := false |} ])
    by (vm_compute; reflexivity).
  rewrite Eedges.
  split_and!; [vm_compute; reflexivity..|].
  unfold transitionLoop. rewrite transitionLoop_latencies.
  assert (Elat : omap (latencyOfEdge nodes idToIndex)
            [ {| Edge.s := lit "N1"; Edge.t := lit "N2"; Edge.dashed := false |};
              {| Edge.s := lit "N2"; Edge.t := lit "N3"; Edge.dashed := false |} ]
          = [7%Q]).
  { cbn [omap list_omap]. unfold latencyOfEdge. cbn [Edge.s Edge.t].
    replace (nodeAt nodes idToIndex (lit "N1")) with (nodes !! 0%nat)
      by (vm_compute; reflexivity).
    replace (nodeAt nodes idToIndex (lit "N2")) with (nodes !! 1%nat)
      by (vm_compute; reflexivity).
    replace (nodeAt nodes idToIndex (lit "N3")) with (nodes !! 2%nat)
      by (vm_compute; reflexivity).
    cbn [nodes lookup list_lookup Node.action Node.date latencyOf].
    rewrite Hdiff. reflexivity. }
  rewrite Elat. reflexivity.
Qed.

End ScenarioA.

(** ** The batch loop and the aggregate *)

Section Batch.
Context {host : Host}.

Lemma computeMetricsForProject_returns projectName nodes edges opts :
  ∃ m, computeMetricsForProject projectName (Raw.Obj nodes edges) opts = Ok m.
Proof. apply analyse_returns. Qed.

Lemma batchStep_unreadable opts b name f :
  ¬ readable f →
  batchStep opts b (name, f)
  = Throw (match f with Raw.Malformed => SyntaxError | _ => TypeError end).
Proof.
  intros Hf. unfold batchStep. destruct f as [|[|nodes edges]]; [done..|].
  destruct Hf. by exists nodes, edges.
Qed.

Lemma batchLoop_app opts b files1 files2 :
  batchLoop opts b (files1 ++ files2)
  = (do b' <- batchLoop opts b files1; batchLoop opts b' files2).
Proof.
  revert b. induction files1 as [|pf files1 IH]; intros b; [done|].
  cbn [app batchLoop]. destruct (batchStep opts b pf) as [b1|e]; [|done].
  cbn [bind]. apply IH.
Qed.

Lemma batchStep_Ok opts b pf b' :
  batchStep opts b pf = Ok b' →
  readable pf.2 ∧ length (metrics b') = S (length (metrics b)).
Proof.
  destruct pf as [name f]. unfold batchStep. cbn [fst snd].
  destruct f as [|[|nodes edges]]; [done..|]. cbn [parseFile bind].
  destruct (computeMetricsForProject name (Raw.Obj nodes edges) opts) as [m|e]; [|done].
  cbn [bind]. intros [= <-]. split; [by exists nodes, edges|].
  cbn [metrics]. rewrite length_app. simpl. lia.
Qed.

Lemma batchLoop_Ok opts files b b' :
  batchLoop opts b files = Ok b' →
  Forall (λ pf, readable pf.2) files
  ∧ length (metrics b') = (length (metrics b) + length files)%nat.
Proof.
  revert b. induction files as [|pf files IH]; intros b; cbn [batchLoop].
  - intros [= <-]. split; [constructor|simpl; lia].
  - destruct (batchStep opts b pf) as [b1|e] eqn:Hstep; [|done]. cbn [bind].
    intros Hrest. apply batchStep_Ok in Hstep as [Hpf Hlen1].
    apply IH in Hrest as [Hall Hlen]. split; [by constructor|]. simpl. lia.
Qed.

End Batch.

Lemma getField_numeric m key :
  key ∈ numericKeys → key ≠ "leadtimeMedianDays"%string →
  ∃ q, getField m key = VNum q.
Proof.
  intros Hin Hne. unfold numericKeys in Hin.
  repeat (apply elem_of_cons in Hin as [->|Hin];
          [first [by exfalso|by eexists]|]).
  by apply elem_of_nil in Hin.
Qed.

Lemma valsOf_numeric ms key :
  key ∈ numericKeys → key ≠ "leadtimeMedianDays"%string →
  length (valsOf ms key) = length ms.
Proof.
  intros Hin Hne. unfold valsOf. induction ms as [|m ms IH]; [done|].
  cbn [omap list_omap]. destruct (getField_numeric m key Hin Hne) as [q ->].
  simpl. by rewrite IH.
Qed.

Lemma valsOf_leadtime ms :
  valsOf ms "leadtimeMedianDays" = omap Metrics.leadtimeMedianDays ms.
Proof.
  unfold valsOf. induction ms as [|m ms IH]; [done|].
  cbn [omap list_omap]. rewrite IH.
  change (getField m "leadtimeMedianDays") with (numOrNull (Metrics.leadtimeMedianDays m)).
  by destruct (Metrics.leadtimeMedianDays m).
Qed.

Lemma valsOf_app ms1 ms2 key :
  valsOf (ms1 ++ ms2) key = valsOf ms1 key ++ valsOf ms2 key.
Proof. apply omap_app. Qed.

Lemma share_zero n : Num.share n O = 0%Q.
Proof. done. Qed.

(** ** Claims about the scenarios *)

(** C1, as the specification states it, fails.  On a machine on UTC no record
    of Scenario A has eToM = 1, mToE = 1, feedbackRatio = 100,
    conversionRate = 100 and a median lead time of 7 days: two nodes are
    exploring and one of them has an E→M edge, so the conversion rate is 50. *)
Lemma scenarioA_conversion_is_not_100 :
  ¬ ∃ m, computeMetricsForProject (H := hostAt 0) (lit "1_a") Scenario.A Scenario.defaults = Ok m
         ∧ Metrics.eToMEdges m = 1%nat
         ∧ Metrics.mToEEdges m = 1%nat
         ∧ (Metrics.feedbackRatio m == 100)%Q
         ∧ (Metrics.conversionRate m == 100)%Q
         ∧ Metrics.leadtimeMedianDays m = Some 7%Q.
Proof.
  intros (m & Hm & _ & _ & _ & Hconv & _).
  vm_compute in Hm. injection Hm as <-. vm_compute in Hconv. discriminate.
Qed.

Lemma scenarioA_metrics_witness :
  ∃ m, computeMetricsForProject (H := hostAt 0) (lit "1_a") Scenario.A Scenario.defaults = Ok m
       ∧ Metrics.eToMEdges m = 1%nat
       ∧ Metrics.mToEEdges m = 1%nat
       ∧ Metrics.feedbackRatio m = 100%Q
       ∧ Metrics.exploring m = 2%nat
       ∧ Metrics.conversionRate m = 50%Q
       ∧ Metrics.leadtimeMedianDays m = Some 7%Q.
Proof.
  apply (scenarioA_metrics (host := hostAt 0) (lit "1_a") Scenario.defaults
           1704067200000 1704672000000 1705276800000); reflexivity.
Defined.

(** C5: the record depends on the time zone of the machine.  The dates of
    Scenario A are read as local midnights and written back as UTC days: a
    machine on UTC reports minDate 2024-01-01, a machine one hour ahead of
    UTC reports 2023-12-31 for the same document and options. *)
Theorem minDate_depends_on_time_zone :
  (∃ m, computeMetricsForProject (H := hostAt 0) (lit "1_a") Scenario.A Scenario.defaults = Ok m
        ∧ Metrics.minDate m = lit "2024-01-01")
  ∧ (∃ m, computeMetricsForProject (H := hostAt 60) (lit "1_a") Scenario.A Scenario.defaults = Ok m
          ∧ Metrics.minDate m = lit "2023-12-31")
  ∧ computeMetricsForProject (H := hostAt 0) (lit "1_a") Scenario.A Scenario.defaults
    ≠ computeMetricsForProject (H := hostAt 60) (lit "1_a") Scenario.A Scenario.defaults.
Proof.
  split_and!.
  - eexists. split; [vm_compute; reflexivity|]. reflexivity.
  - eexists. split; [vm_compute; reflexivity|]. reflexivity.
  - vm_compute. discriminate.
Qed.

(** C2: computeMetricsForProject takes [minDate] over all dated nodes, whatever
    their action.  With a node that is neither exploring nor making dated
    2024-01-01, an exploring node dated 2024-01-05 and a making node dated
    2024-01-10, its buckets put the making node in week 1 and no week holds
    both modes, whereas the week counted from the first dated exploring or
    making node, which is what computePerProjectTimelines does, is 0 for both
    nodes. *)
Theorem earlyOther_shifts_the_weeks :
  let nodes :=
    loadNode (H := hostAt 0) <$>
      [Scenario.node "N0" "designing" "2024-01-01";
       Scenario.node "N1" "exploring" "2024-01-05";
       Scenario.node "N2" "making" "2024-01-10"] in
  let jan1 := 1704067200000 in
  let jan5 := 1704412800000 in
  let jan10 := 1704844800000 in
  (dateRange nodes).1 = Some jan1
  ∧ Spec.minDate nodes = Some jan5
  ∧ computeBuckets (List.filter (λ n, negb (isAction other n)) nodes) jan1
    = [(0, {| b_exploring := 1; b_making := 0; b_total := 1 |});
       (1, {| b_exploring := 0; b_making := 1; b_total := 1 |})]
  ∧ weekOf jan1 jan10 = 1
  ∧ Spec.week jan5 jan10 = 0
  ∧ (∃ m, computeMetricsForProject (H := hostAt 0) (lit "1_a") Scenario.earlyOther
            Scenario.defaults = Ok m
          ∧ Metrics.activeBuckets m = 2%nat
          ∧ Metrics.overlapBuckets m = 0%nat
          ∧ Metrics.interlacingIndex m = 0%Q)
  ∧ i_interlacingIndex
      (computeInterlacing
         (computeBuckets (List.filter (λ n, negb (isAction other n)) nodes) jan5)) = 100%Q
  ∧ timelineOf (H := hostAt 0) Scenario.earlyOther {| hubThreshold := 4; maxWeeks := 4 |}
    = Ok (Some [(1, 1); (0, 0); (0, 0); (0, 0)]%nat).
Proof.
  cbv zeta. split_and!; try (vm_compute; reflexivity).
  eexists. split; [vm_compute; reflexivity|]. split_and!; reflexivity.
Qed.

(** C7: an id that contains the arrow of the pair keys is split in the wrong
    place.  With the nodes a, b, c and "a→b" and the edges "a→b"→c and b→a,
    no two nodes are linked both ways, and reciprocityPairs is 1. *)
Theorem arrow_in_id_counts_a_pair :
  let nodes :=
    loadNode (H := hostAt 0) <$>
      [Scenario.node "a" "" ""; Scenario.node "b" "" ""; Scenario.node "c" "" "";
       {| Raw.id := Some Scenario.arrowId; Raw.node_data := None |}] in
  let edges :=
    loadEdges (idToIndexOf nodes)
      [Scenario.edge Scenario.arrowId (lit "c"); Scenario.edge (lit "b") (lit "a")] in
  edges = [ {| Edge.s := Scenario.arrowId; Edge.t := lit "c"; Edge.dashed := false |};
            {| Edge.s := lit "b"; Edge.t := lit "a"; Edge.dashed := false |} ]
  ∧ splitOn arrow (pairKey Scenario.arrowId (lit "c")) = [lit "a"; lit "b"; lit "c"]
  ∧ reciprocalPairsOf edges = 1%nat
  ∧ Spec.reciprocity edges = 0%nat
  ∧ ∃ m, computeMetricsForProject (H := hostAt 0) (lit "1_a") Scenario.arrowInId
           Scenario.defaults = Ok m
         ∧ Metrics.edges m = 2%nat
         ∧ Metrics.reciprocityPairs m = 1%nat.
Proof.
  cbv zeta. split_and!; try (vm_compute; reflexivity).
  eexists. split; [vm_compute; reflexivity|]. split; reflexivity.
Qed.

(** ** Claims about the batch *)

Section Claims.
Context {host : Host}.

(** C3, as amended.  The loop has no handler and keeps no error entries.
    When it returns it has taken every file: each parses to a value other
    than null, and there is one record per file.  What is thrown for a file
    leaves the loop at once, whatever comes after: a syntax error for a file
    that does not parse, a type error for null.  A document whose [nodes] or
    [edges] is not an array is analysed as if that property were an empty
    array: with neither, it gets the record of a project without nodes and
    edges. *)
Theorem batch_has_no_error_entries (opts : Options) :
  (∀ files b,
     batchLoop opts emptyBatch files = Ok b →
     Forall (λ pf, readable pf.2) files ∧ length (metrics b) = length files)
  ∧ (∀ b name f,
       ¬ readable f →
       batchStep opts b (name, f)
       = Throw (match f with Raw.Malformed => SyntaxError | _ => TypeError end))
  ∧ (∀ b before pf after b' e,
       batchLoop opts b before = Ok b' → batchStep opts b' pf = Throw e →
       batchLoop opts b (before ++ pf :: after) = Throw e)
  ∧ (∀ projectName nodes edges,
       computeMetricsForProject projectName (Raw.Obj nodes edges) opts
       = computeMetricsForProject projectName
           (Raw.Obj (FArr (arrayOrEmpty nodes)) (FArr (arrayOrEmpty edges))) opts)
  ∧ (∀ projectName nodes edges,
       arrayOrEmpty nodes = [] → arrayOrEmpty edges = [] →
       ∃ m, computeMetricsForProject projectName (Raw.Obj nodes edges) opts = Ok m
            ∧ Metrics.nodes m = O ∧ Metrics.edges m = O).
Proof.
  split_and!.
  - intros files b Hb. by apply batchLoop_Ok in Hb.
  - intros b name f. apply batchStep_unreadable.
  - intros b before pf after b' e Hbefore Hstep.
    rewrite batchLoop_app, Hbefore. cbn [bind batchLoop]. by rewrite Hstep.
  - done.
  - intros projectName nodes edges Hn He.
    destruct (computeMetricsForProject_returns projectName nodes edges opts) as [m Hm].
    exists m. split; [done|].
    unfold computeMetricsForProject, metricsOf in Hm. rewrite Hn, He in Hm.
    apply analyse_fields in Hm. cbv zeta in Hm. by destruct Hm as (-> & -> & _).
Qed.

(** C4, as amended.  The aggregate of a metric is taken over the records
    whose value is a number.  Every metric of the fixed set but
    leadtimeMedianDays is a number in every record, so that every project
    counts in its aggregate; a project without E→M edges counts with a
    feedback ratio of 0, a project without active bucket with an interlacing
    index of 0.  A project counts in the aggregate of leadtimeMedianDays
    when its lead time is not null. *)
Theorem aggregate_counts_zero_values (ms : list Metrics.metrics) :
  aggregate ms = (λ key, (key, statsOf (valsOf ms key))) <$> numericKeys
  ∧ (∀ key, key ∈ numericKeys → key ≠ "leadtimeMedianDays"%string →
            length (valsOf ms key) = length ms)
  ∧ valsOf ms "leadtimeMedianDays" = omap Metrics.leadtimeMedianDays ms
  ∧ (∀ projectName json opts m before after,
       computeMetricsForProject projectName json opts = Ok m →
       ms = before ++ m :: after →
       (Metrics.eToMEdges m = O →
        valsOf ms "feedbackRatio"
        = valsOf before "feedbackRatio" ++ 0%Q :: valsOf after "feedbackRatio")
       ∧ (Metrics.activeBuckets m = O →
          valsOf ms "interlacingIndex"
          = valsOf before "interlacingIndex" ++ 0%Q :: valsOf after "interlacingIndex")).
Proof.
  split_and!; [done|apply valsOf_numeric|apply valsOf_leadtime|].
  intros projectName json opts m before after Hm ->.
  destruct json as [|nodes edges]; [done|].
  apply analyse_fields in Hm. cbv zeta in Hm.
  destruct Hm as (_ & _ & _ & HeToM & _ & Hfb & _ & _ & _ & _ & Hidx & _ & Hle & _).
  split.
  - intros Hz. rewrite valsOf_app. f_equal.
    change (valsOf (m :: after) "feedbackRatio")
      with (Metrics.feedbackRatio m :: valsOf after "feedbackRatio").
    by rewrite Hfb, <- HeToM, Hz.
  - intros Hz. rewrite valsOf_app. f_equal.
    change (valsOf (m :: after) "interlacingIndex")
      with (Metrics.interlacingIndex m :: valsOf after "interlacingIndex").
    by rewrite Hidx, Hz.
Qed.

End Claims.

(** C3, as the specification states it, fails: a file that does not parse
    ends the loop with a syntax error before the next project is looked at,
    and a document whose [nodes] is not an array gives a record of an empty
    project and no error. *)
Lemma malformed_file_stops_the_batch :
  batchLoop (H := hostAt 0) Scenario.defaults emptyBatch
    [(lit "1_a", Raw.Malformed); (lit "2_b", Raw.Json Scenario.A)]
  = Throw SyntaxError
  ∧ ∃ m, computeMetricsForProject (H := hostAt 0) (lit "1_a")
           (Raw.Obj FTruthy (FArr [])) Scenario.defaults = Ok m
         ∧ Metrics.nodes m = O.
Proof.
  split; [reflexivity|]. eexists. split; [vm_compute; reflexivity|reflexivity].
Qed.

Lemma batch_has_no_error_entries_witness :
  (∃ b, batchLoop (H := hostAt 0) Scenario.defaults emptyBatch
          [(lit "1_a", Raw.Json Scenario.A); (lit "2_b", Raw.Json Scenario.B)] = Ok b
        ∧ length (metrics b) = 2%nat)
  ∧ batchLoop (H := hostAt 0) Scenario.defaults emptyBatch
      ([(lit "1_a", Raw.Json Scenario.A)] ++ (lit "2_b", Raw.Json Raw.Null)
         :: [(lit "3_c", Raw.Json Scenario.B)])
    = Throw TypeError.
Proof.
  pose proof (batch_has_no_error_entries (host := hostAt 0) Scenario.defaults)
    as (Hok & Hstep & Hthrow & _).
  split.
  - eexists. split; [vm_compute; reflexivity|].
    match goal with
    | |- length (metrics ?b) = _ =>
        destruct (Hok [(lit "1_a", Raw.Json Scenario.A); (lit "2_b", Raw.Json Scenario.B)] b)
          as [_ Hlen]; [vm_compute; reflexivity|exact Hlen]
    end.
  - eapply (Hthrow emptyBatch [(lit "1_a", Raw.Json Scenario.A)]
              (lit "2_b", Raw.Json Raw.Null)).
    + vm_compute. reflexivity.
    + apply (Hstep _ (lit "2_b") (Raw.Json Raw.Null)). intros (? & ? & [=]).
Defined.

(** C4, as the specification states it, fails: the empty project has no
    E→M edge and still enters the aggregate of feedbackRatio, with the value
    0, which halves the mean of the cohort made of Scenario A and it. *)
Lemma empty_project_counts_as_zero :
  ∃ mA mE,
    computeMetricsForProject (H := hostAt 0) (lit "1_a") Scenario.A Scenario.defaults = Ok mA
    ∧ computeMetricsForProject (H := hostAt 0) (lit "2_b") Scenario.empty Scenario.defaults
      = Ok mE
    ∧ Metrics.eToMEdges mE = O
    ∧ valsOf [mA; mE] "feedbackRatio" = [100%Q; 0%Q]
    ∧ s_mean (statsOf (valsOf [mA; mE] "feedbackRatio")) = Some 50%Q
    ∧ s_min (statsOf (valsOf [mA; mE] "feedbackRatio")) = Some 0%Q.
Proof.
  eexists _, _. split; [vm_compute; reflexivity|]. split; [vm_compute; reflexivity|].
  split_and!; vm_compute; reflexivity.
Qed.

Lemma aggregate_counts_zero_values_witness :
  ∃ mA mE,
    computeMetricsForProject (H := hostAt 0) (lit "1_a") Scenario.A Scenario.defaults = Ok mA
    ∧ computeMetricsForProject (H := hostAt 0) (lit "2_b") Scenario.empty Scenario.defaults
      = Ok mE
    ∧ length (valsOf [mA; mE] "conversionRate") = 2%nat
    ∧ valsOf [mA; mE] "feedbackRatio"
      = valsOf [mA] "feedbackRatio" ++ 0%Q :: valsOf [] "feedbackRatio".
Proof.
  eexists _, _. split; [vm_compute; reflexivity|]. split; [vm_compute; reflexivity|].
  match goal with
  | |- context [valsOf [?mA; ?mE] "conversionRate"] =>
      pose proof (aggregate_counts_zero_values (host := hostAt 0) [mA; mE])
        as (_ & Hlen & _ & Hzero);
      split;
      [ apply Hlen; [apply (bool_decide_unpack _); by vm_compute|done]
      | destruct (Hzero (lit "2_b") Scenario.empty Scenario.defaults mE [mA] [])
          as [Hfb _];
        [vm_compute; reflexivity|reflexivity|apply Hfb; reflexivity] ]
  end.
Defined.

(** ** Claims about edges and lead time *)

Lemma tripled_density :
  ∃ m, computeMetricsForProject (H := hostAt 0) (lit "1_a") Scenario.tripled
         Scenario.defaults = Ok m
       ∧ Metrics.nodes m = 2%nat ∧ Metrics.edges m = 3%nat
       ∧ Metrics.density m = 150%Q ∧ (100 < Metrics.density m)%Q.
Proof.
  eexists. split; [vm_compute; reflexivity|]. split_and!; reflexivity.
Qed.

Section EdgeClaims.
Context {host : Host}.

(** C9: valid edges are not deduplicated.  [k] further copies of a valid edge
    all pass the filter, whether or not the edge was there before: they add
    [k] to the edge count, to the out-degree of the source and to the
    in-degree of the target, and the density is computed from the count with
    the copies.  With the same edge three times between two nodes the density
    reported is 150 per cent. *)
Theorem repeated_edges_are_counted (projectName : jsstring) (rawNodes : list Raw.node)
    (rawEdges : list Raw.edge) (e : Raw.edge) (k : nat) (opts : Options) :
  let nodes := loadNode <$> rawNodes in
  let idToIndex := idToIndexOf nodes in
  let before := loadEdges idToIndex rawEdges in
  let after := loadEdges idToIndex (rawEdges ++ replicate k e) in
  validEdge idToIndex (loadEdge e) = true →
  after = before ++ replicate k (loadEdge e)
  ∧ degOf (outDegOf nodes after) (Edge.s (loadEdge e))
    = (degOf (outDegOf nodes before) (Edge.s (loadEdge e)) + k)%nat
  ∧ degOf (inDegOf nodes after) (Edge.t (loadEdge e))
    = (degOf (inDegOf nodes before) (Edge.t (loadEdge e)) + k)%nat
  ∧ (∀ m0 m1,
       metricsOf projectName rawNodes rawEdges opts = Ok m0 →
       metricsOf projectName rawNodes (rawEdges ++ replicate k e) opts = Ok m1 →
       Metrics.edges m1 = (Metrics.edges m0 + k)%nat
       ∧ Metrics.density m1
         = Qred (densityOf (Metrics.nodes m0) (Metrics.edges m0 + k) * 100))
  ∧ (∃ m, computeMetricsForProject (H := hostAt 0) (lit "1_a") Scenario.tripled
            Scenario.defaults = Ok m
          ∧ Metrics.nodes m = 2%nat ∧ Metrics.edges m = 3%nat
          ∧ Metrics.density m = 150%Q ∧ (100 < Metrics.density m)%Q).
Proof.
  intros nodes idToIndex before after Hvalid.
  assert (Hafter : after = before ++ replicate k (loadEdge e)).
  { unfold after, before. by rewrite loadEdges_app, loadEdges_replicate. }
  split_and!.
  - exact Hafter.
  - rewrite !outDegOf_spec, Hafter, count_app.
    rewrite (count_replicate_true _ (loadEdge e)); [done|]. by apply bool_decide_eq_true_2.
  - rewrite !inDegOf_spec, Hafter, count_app.
    rewrite (count_replicate_true _ (loadEdge e)); [done|]. by apply bool_decide_eq_true_2.
  - intros m0 m1 H0 H1. unfold metricsOf in H0, H1.
    apply analyse_fields in H0, H1. cbv zeta in H0, H1.
    destruct H0 as (Hn0 & He0 & _). destruct H1 as (Hn1 & He1 & _ & _ & _ & _ & _ & _ & Hd1 & _).
    fold nodes idToIndex in He0, He1, Hd1. fold before in He0. fold after in He1, Hd1.
    assert (Hlen : length after = (length before + k)%nat).
    { by rewrite Hafter, length_app, length_replicate. }
    split.
    + by rewrite He1, He0.
    + by rewrite Hd1, Hn0, He0, Hlen.
  - exact tripled_density.
Qed.

End EdgeClaims.

Lemma repeated_edges_are_counted_witness :
  let nodes := loadNode (H := hostAt 0) <$> [Scenario.node "A" "" ""; Scenario.node "B" "" ""] in
  let e := Scenario.edge (lit "A") (lit "B") in
  loadEdges (idToIndexOf nodes) ([e] ++ replicate 2 e) = replicate 3 (loadEdge e)
  ∧ degOf (outDegOf nodes (loadEdges (idToIndexOf nodes) ([e] ++ replicate 2 e))) (lit "A")
    = 3%nat.
Proof.
  intros nodes e.
  destruct (repeated_edges_are_counted (host := hostAt 0) (lit "1_a")
              [Scenario.node "A" "" ""; Scenario.node "B" "" ""] [e] e 2 Scenario.defaults)
    as (Hafter & Hout & _); [reflexivity|].
  split; [exact Hafter|exact Hout].
Defined.

(** ** The components of computeScc *)

Lemma elem_of_concat {A} (x : A) (ls : list (list A)) :
  x ∈ concat ls ↔ ∃ l, x ∈ l ∧ l ∈ ls.
Proof.
  induction ls as [|l ls IH]; simpl.
  - split; [by intros ?%elem_of_nil|]. intros (l & _ & Hl). by apply elem_of_nil in Hl.
  - rewrite elem_of_app, IH. split.
    + intros [Hx|(l' & Hx & Hl')]; [exists l; split; [done|left]|].
      exists l'. split; [done|by right].
    + intros (l' & Hx & Hl'). apply elem_of_cons in Hl' as [->|Hl']; [by left|].
      right. by exists l'.
Qed.

Module TarjanFacts.
Import Scc Tarjan.

Section Graph.
Variable adjacency : gmap jsstring (list jsstring).
Variable U : gset jsstring.

Local Abbreviation arc := (Tarjan.arc adjacency).
Local Abbreviation reach := (Tarjan.reach adjacency).
Local Abbreviation sameScc := (Tarjan.sameScc adjacency).
Local Abbreviation Inv := (Tarjan.Inv adjacency U).
Local Abbreviation Pre := (Tarjan.Pre adjacency U).
Local Abbreviation Post := (Tarjan.Post adjacency U).
Local Abbreviation Loop := (Tarjan.Loop adjacency U).
Local Abbreviation inv_onStack := (Tarjan.inv_onStack adjacency U).
Local Abbreviation inv_nodup := (Tarjan.inv_nodup adjacency U).
Local Abbreviation inv_visited := (Tarjan.inv_visited adjacency U).
Local Abbreviation inv_index := (Tarjan.inv_index adjacency U).
Local Abbreviation inv_univ := (Tarjan.inv_univ adjacency U).
Local Abbreviation inv_gray := (Tarjan.inv_gray adjacency U).
Local Abbreviation inv_stack_reach := (Tarjan.inv_stack_reach adjacency U).
Local Abbreviation inv_to_gray := (Tarjan.inv_to_gray adjacency U).
Local Abbreviation inv_black := (Tarjan.inv_black adjacency U).
Local Abbreviation inv_comps := (Tarjan.inv_comps adjacency U).

Hypothesis closed : ∀ v w, arc v w → w ∈ U.

Lemma nm_mono st st' x :
  indexMap st ⊆ indexMap st' → x ∈ visited st → nm st' x = nm st x.
Proof.
  intros Hsub Hx. unfold visited in Hx. apply elem_of_dom in Hx as [n Hn].
  unfold nm, num. rewrite Hn. by rewrite (lookup_weaken _ _ _ _ Hn Hsub).
Qed.

Lemma visited_mono st st' :
  indexMap st ⊆ indexMap st' → visited st ⊆ visited st'.
Proof. intros Hsub. unfold visited. by apply subseteq_dom. Qed.

Lemma nm_lookup st x n : indexMap st !! x = Some n → nm st x = n.
Proof. intros Hn. unfold nm, num. by rewrite Hn. Qed.

Lemma Inv_stack_visited G st x : Inv G st → x ∈ stack st → x ∈ visited st.
Proof. intros HI Hx. apply (inv_visited _ _ HI). by left. Qed.

Lemma Inv_stack_nodup G st : Inv G st → NoDup (stack st).
Proof.
  intros HI. pose proof (inv_nodup _ _ HI) as Hnd.
  by apply NoDup_app in Hnd as (? & _ & _).
Qed.

Lemma Inv_stack_not_finished G st x :
  Inv G st → x ∈ stack st → x ∉ finished st.
Proof.
  intros HI. pose proof (inv_nodup _ _ HI) as Hnd.
  apply NoDup_app in Hnd as (_ & Hdisj & _). apply Hdisj.
Qed.

Lemma nm_enter_eq v st : nm (enter v st) v = index st.
Proof. unfold nm, num. simpl. by rewrite lookup_insert_eq. Qed.

Lemma nm_enter_ne v st x : x ≠ v → nm (enter v st) x = nm st x.
Proof. intros Hne. unfold nm, num. simpl. by rewrite lookup_insert_ne. Qed.

Lemma Inv_enter G v st : Pre G v st → Inv ({[v]} ∪ G) (enter v st).
Proof.
  intros (HI & HU & Hnew & Hgray).
  assert (Hstack : v ∉ stack st).
  { intros Hin. apply Hnew. by eapply Inv_stack_visited. }
  assert (Hfin : v ∉ finished st).
  { intros Hin. apply Hnew. apply (inv_visited _ _ HI). by right. }
  assert (Hbelow : ∀ x, x ∈ stack st → (nm st x < index st)%nat).
  { intros x Hx. apply (inv_index _ _ HI). by eapply Inv_stack_visited. }
  split.
  - cbn [enter onStack stack]. by rewrite (inv_onStack _ _ HI).
  - cbn [enter stack]. change (finished (enter v st)) with (finished st).
    rewrite <- app_comm_cons. apply NoDup_cons. split; [|apply (inv_nodup _ _ HI)].
    rewrite elem_of_app. by intros [?|?].
  - intros x. rewrite SccFacts.visited_enter. cbn [enter stack].
    change (finished (enter v st)) with (finished st).
    rewrite elem_of_union, elem_of_singleton, elem_of_cons, (inv_visited _ _ HI). tauto.
  - intros x. rewrite SccFacts.visited_enter, elem_of_union, elem_of_singleton.
    cbn [enter index]. destruct (decide (x = v)) as [->|Hne].
    + intros _. rewrite nm_enter_eq. lia.
    + intros [?|Hx]; [done|]. rewrite nm_enter_ne by done.
      pose proof (inv_index _ _ HI x Hx). lia.
  - intros x. rewrite SccFacts.visited_enter, elem_of_union, elem_of_singleton.
    intros [->|Hx]; [done|]. by apply (inv_univ _ _ HI).
  - intros g. rewrite elem_of_union, elem_of_singleton. cbn [enter stack].
    intros [->|Hg]; [left|right]. by apply (inv_gray _ _ HI).
  - intros x y. cbn [enter stack]. rewrite !elem_of_cons.
    intros [->|Hx] [->|Hy].
    + intros _. apply rtc_refl.
    + rewrite nm_enter_eq, nm_enter_ne by (intros ->; done).
      pose proof (Hbelow y Hy). lia.
    + intros _. destruct (inv_to_gray _ _ HI x Hx) as (g & Hg & _ & Hxg).
      etrans; [exact Hxg|by apply Hgray].
    + rewrite !nm_enter_ne by (intros ->; done). by apply (inv_stack_reach _ _ HI).
  - intros y. cbn [enter stack]. rewrite elem_of_cons. intros [->|Hy].
    + exists v. split; [set_solver|]. split; [done|apply rtc_refl].
    + destruct (inv_to_gray _ _ HI y Hy) as (g & Hg & Hle & Hyg).
      exists g. split; [set_solver|]. split; [|done].
      rewrite !nm_enter_ne; [done|intros ->; done|].
      intros ->. apply Hstack. by apply (inv_gray _ _ HI).
  - intros x w. rewrite !SccFacts.visited_enter, elem_of_union, !elem_of_singleton.
    intros [->|Hx] Hng Harc; [set_solver|].
    apply elem_of_union. right. apply (inv_black _ _ HI x w Hx); [set_solver|done].
  - apply (inv_comps _ _ HI).
Qed.

Lemma Loop_enter G v st : Pre G v st → Loop G v st [] (enter v st).
Proof.
  intros HP. pose proof (Inv_enter G v st HP) as HI.
  split_and!; [done|done|done| |simpl; lia|].
  - destruct HP as (_ & _ & Hnew & _). intros x Hx. simpl.
    rewrite lookup_insert_ne; [done|]. by intros ->.
  - exists (index st), []. split_and!.
    + simpl. by rewrite lookup_insert_eq.
    + done.
    + done.
    + intros x Hx. by apply elem_of_nil in Hx.
    + exists v. split_and!; [simpl; left|apply nm_enter_eq|apply rtc_refl].
    + intros x w Hx. by apply elem_of_nil in Hx.
    + intros w Hw. by apply elem_of_nil in Hw.
Qed.

Lemma Inv_setLow G v n st : Inv G st → Inv G (setLow v n st).
Proof. intros [? ? ? ? ? ? ? ? ? ?]. by split. Qed.

(** Facts that every state of the loop gives. *)
Lemma Loop_facts G v st0 P st :
  Loop G v st0 P st →
  indexMap st !! v = Some (index st0)
  ∧ nm st v = index st0
  ∧ (indexMap st0 ⊆ indexMap st)
  ∧ (∀ x, x ∈ stack st0 → x ∈ visited st0 ∧ nm st x = nm st0 x ∧ (nm st x < index st0)%nat)
  ∧ v ∈ visited st.
Proof.
  intros ((HI0 & HU & Hnew & Hgray) & HI & Hsub & _).
  assert (Hv : indexMap st !! v = Some (index st0)).
  { eapply lookup_weaken; [|exact Hsub]. simpl. apply lookup_insert_eq. }
  assert (Hsub0 : indexMap st0 ⊆ indexMap st).
  { etrans; [|exact Hsub]. simpl. apply insert_subseteq.
    unfold visited in Hnew. by apply not_elem_of_dom. }
  split_and!; [done|by apply nm_lookup|done| |].
  - intros x Hx. pose proof (Inv_stack_visited _ _ _ HI0 Hx) as Hvis.
    rewrite (nm_mono st0 st x Hsub0 Hvis). split_and!; [done|done|].
    by apply (inv_index _ _ HI0).
  - unfold visited. apply elem_of_dom. by eexists.
Qed.

Lemma Loop_seen G v st0 P st w :
  Loop G v st0 P st → arc v w → w ∈ visited st →
  Loop G v st0 (P ++ [w])
    (if bool_decide (w ∈ onStack st)
     then setLow v (Nat.min (num (lowMap st) v) (num (indexMap st) w)) st
     else st).
Proof.
  intros HL Harc Hw. pose proof (Loop_facts _ _ _ _ _ HL) as (Hv & Hnv & Hsub0 & Hold & Hvv).
  destruct HL as (HP & HI & Hsub & Hlow & Hidx & lv & above & Hlv & Hle & Hstack & Habove
                  & (y0 & Hy0 & Hny0 & Hry0) & Hbound & Hdone).
  assert (Hon : w ∈ onStack st ↔ w ∈ stack st).
  { rewrite (inv_onStack _ _ HI). apply elem_of_list_to_set. }
  case_bool_decide as Hws.
  - apply Hon in Hws. unfold num at 1. rewrite Hlv. cbn [from_option id].
    fold (nm st w). set (lv' := Nat.min lv (nm st w)).
    split_and!; [done|by apply Inv_setLow|done| |done|].
    { intros x Hx. simpl. rewrite lookup_insert_ne; [by apply Hlow|].
      intros ->. by destruct HP as (_ & _ & Hnew & _). }
    exists lv', above. split_and!.
    + simpl. by rewrite lookup_insert_eq.
    + unfold lv'. lia.
    + done.
    + done.
    + destruct (decide (lv ≤ nm st w)%nat) as [Hmin|Hmin].
      * exists y0. split_and!; [done| |done]. change (nm st y0 = lv'). unfold lv'. lia.
      * exists w. split_and!; [done| |by apply rtc_once]. change (nm st w = lv'). unfold lv'. lia.
    + intros x w' Hx Hxw Hw'. pose proof (Hbound x w' Hx Hxw Hw') as Hb.
      change (lv' ≤ nm st w')%nat. unfold lv'. lia.
    + intros w' Hw'. apply elem_of_app in Hw' as [Hw'|Hw'].
      * destruct (Hdone w' Hw') as [Hvis Hb]. split; [done|]. intros Hs.
        specialize (Hb Hs). change (lv' ≤ nm st w')%nat. unfold lv'. lia.
      * apply list_elem_of_singleton in Hw' as ->. split; [done|]. intros _.
        change (lv' ≤ nm st w)%nat. unfold lv'. lia.
  - split_and!; [done..|].
    exists lv, above. split_and!; [done..| |done|].
    + by exists y0.
    + intros w' Hw'. apply elem_of_app in Hw' as [Hw'|Hw']; [by apply Hdone|].
      apply list_elem_of_singleton in Hw' as ->. split; [done|]. intros Hs.
      by apply Hon in Hs.
Qed.

Lemma Loop_called G v st0 P st w st2 :
  Loop G v st0 P st → arc v w → Post ({[v]} ∪ G) w st st2 →
  Loop G v st0 (P ++ [w])
    (setLow v (Nat.min (num (lowMap st2) v) (num (lowMap st2) w)) st2).
Proof.
  intros HL Harc HPost.
  pose proof (Loop_facts _ _ _ _ _ HL) as (Hv & Hnv & Hsub0 & Hold & Hvv).
  destruct HL as (HP & HI & Hsub & Hlow & Hidx & lv & above & Hlv & Hle & Hstack & Habove
                  & (y0 & Hy0 & Hny0 & Hry0) & Hbound & Hdone).
  destruct HPost as (HI2 & Hsub2 & Hlow2 & Hw2 & Hidx2 & l' & new & Hl' & Hstack2 & Hnew
                     & Hcase).
  pose proof HP as (HI0 & HU & Hfresh & Hgray).
  assert (Hnm2 : ∀ x, x ∈ visited st → nm st2 x = nm st x).
  { intros x Hx. by apply nm_mono. }
  assert (Hfresh2 : ∀ x, x ∈ new → x ∉ visited st).
  { intros x Hx Hvis. pose proof (Hnew x Hx) as Hge. rewrite (Hnm2 x Hvis) in Hge.
    pose proof (inv_index _ _ HI x Hvis). lia. }
  assert (Hstk : ∀ x, x ∈ stack st → x ∈ stack st2).
  { intros x Hx. rewrite Hstack2. apply elem_of_app. by right. }
  assert (Hstk' : ∀ x, x ∈ stack st2 → x ∈ visited st → x ∈ stack st).
  { intros x Hx Hvis. rewrite Hstack2 in Hx. apply elem_of_app in Hx as [Hx|Hx]; [|done].
    by destruct (Hfresh2 x Hx). }
  assert (Hlv2 : lowMap st2 !! v = Some lv) by (by rewrite (Hlow2 v Hvv)).
  unfold num at 1 2. rewrite Hlv2, Hl'. cbn [from_option id].
  set (lv' := Nat.min lv l').
  assert (Hl'le : (l' ≤ index st)%nat) by (destruct Hcase as [[-> _]|[? _]]; lia).
  split_and!; [done|by apply Inv_setLow|by etrans| |simpl; lia|].
  { intros x Hx. simpl. rewrite lookup_insert_ne by (by intros ->).
    rewrite Hlow2; [by apply Hlow|]. by eapply visited_mono. }
  exists lv', (new ++ above). split_and!.
  - simpl. by rewrite lookup_insert_eq.
  - unfold lv'. lia.
  - simpl. rewrite Hstack2, Hstack. by rewrite <- app_assoc.
  - intros x Hx. change (index st0 < nm st2 x)%nat. apply elem_of_app in Hx as [Hx|Hx].
    + pose proof (Hnew x Hx). lia.
    + rewrite Hnm2; [by apply Habove|]. eapply Inv_stack_visited; [exact HI|].
      rewrite Hstack. apply elem_of_app. by left.
  - destruct Hcase as [[-> ->]|(Hlt & Hwn & (y1 & Hy1 & Hny1 & Hry1) & Hb1)].
    + exists y0. split_and!; [by apply Hstk| |done].
      change (nm st2 y0 = lv'). rewrite Hnm2 by (by eapply Inv_stack_visited).
      unfold lv'. lia.
    + destruct (decide (lv ≤ l')%nat) as [Hmin|Hmin].
      * exists y0. split_and!; [by apply Hstk| |done].
        change (nm st2 y0 = lv'). rewrite Hnm2 by (by eapply Inv_stack_visited).
        unfold lv'. lia.
      * exists y1. split_and!; [by apply Hstk| |].
        -- change (nm st2 y1 = lv'). rewrite Hnm2 by (by eapply Inv_stack_visited).
           unfold lv'. lia.
        -- etrans; [by apply rtc_once|done].
  - intros x w' Hx Hxw Hw'. change (lv' ≤ nm st2 w')%nat.
    apply elem_of_app in Hx as [Hx|Hx].
    + destruct Hcase as [[_ ->]|(_ & _ & _ & Hb1)]; [by apply elem_of_nil in Hx|].
      pose proof (Hb1 x w' Hx Hxw Hw'). unfold lv'. lia.
    + assert (Hxs : x ∈ stack st) by (rewrite Hstack; apply elem_of_app; by left).
      assert (Hvis : w' ∈ visited st).
      { apply (inv_black _ _ HI x w'); [by eapply Inv_stack_visited| |done].
        pose proof (Inv_stack_nodup _ _ HI) as Hnd. rewrite Hstack in Hnd.
        apply NoDup_app in Hnd as (_ & Hdisj & _). specialize (Hdisj x Hx).
        rewrite elem_of_union, elem_of_singleton. intros [->|Hg].
        - apply Hdisj. left.
        - apply Hdisj. right. by apply (inv_gray _ _ HI0). }
      pose proof (Hbound x w' Hx Hxw (Hstk' w' Hw' Hvis)) as Hb.
      rewrite (Hnm2 w' Hvis). unfold lv'. lia.
  - intros w' Hw'. change (w' ∈ visited st2 ∧ (w' ∈ stack st2 → (lv' ≤ nm st2 w')%nat)).
    apply elem_of_app in Hw' as [Hw'|Hw'].
    + destruct (Hdone w' Hw') as [Hvis Hb]. split; [by eapply visited_mono|].
      intros Hs. specialize (Hb (Hstk' w' Hs Hvis)). rewrite (Hnm2 w' Hvis).
      unfold lv'. lia.
    + apply list_elem_of_singleton in Hw' as ->. split.
      * unfold visited. apply elem_of_dom. by eexists.
      * intros _. rewrite (nm_lookup _ _ _ Hw2). unfold lv'. lia.
Qed.

Lemma Loop_successors (visit : jsstring → state → option state) G v st0 ws :
  (∀ w st st2, Pre ({[v]} ∪ G) w st → visit w st = Some st2 → Post ({[v]} ∪ G) w st st2) →
  (∀ w, w ∈ ws → arc v w) →
  ∀ P st st',
    Loop G v st0 P st → successors visit v ws st = Some st' → Loop G v st0 (P ++ ws) st'.
Proof.
  intros Hvisit. induction ws as [|w ws IH]; intros Hws P st st' HL Hrun.
  - injection Hrun as <-. by rewrite app_nil_r.
  - assert (Harc : arc v w) by (apply Hws; left).
    assert (Hrest : ∀ w', w' ∈ ws → arc v w') by (intros; apply Hws; by right).
    replace (P ++ w :: ws) with ((P ++ [w]) ++ ws) by (by rewrite <- app_assoc).
    cbn [successors] in Hrun. case_bool_decide as Hseen.
    + assert (Hvis : w ∈ visited st) by (by apply elem_of_dom).
      pose proof (Loop_seen _ _ _ _ _ w HL Harc Hvis) as HL'.
      destruct (bool_decide (w ∈ onStack st)); exact (IH Hrest _ _ _ HL' Hrun).
    + destruct (visit w st) as [st2|] eqn:Hcall; [|done]. cbn [mbind option_bind] in Hrun.
      refine (IH Hrest _ _ _ _ Hrun).
      apply (Loop_called _ _ _ _ st w st2); [done|done|].
      apply Hvisit; [|done].
      pose proof HL as ((_ & _ & _ & Hgray) & HI & _).
      split_and!; [done|by eapply closed|unfold visited; by rewrite elem_of_dom|].
      intros g Hg. apply elem_of_union in Hg as [Hg|Hg].
      * apply elem_of_singleton in Hg as ->. by apply rtc_once.
      * etrans; [by apply Hgray|by apply rtc_once].
Qed.

Lemma popUntil_spec (v : jsstring) (above rest : list jsstring) (on : gset jsstring)
    (acc : list jsstring) :
  v ∉ above →
  popUntil v (above ++ v :: rest) on acc
  = (rest, on ∖ list_to_set (above ++ [v]), acc ++ above ++ [v]).
Proof.
  revert on acc. induction above as [|w above IH]; intros on acc Hv.
  - cbn [app popUntil]. rewrite bool_decide_eq_true_2 by done.
    f_equal. f_equal. set_solver.
  - apply not_elem_of_cons in Hv as [Hne Hv]. cbn [app popUntil].
    rewrite bool_decide_eq_false_2 by done. rewrite IH by done.
    f_equal; [f_equal; set_solver|]. by rewrite <- !app_assoc.
Qed.

(** A path that leaves a list of vertices has an arc that leaves it. *)
Lemma reach_exit (T : list jsstring) v y :
  reach v y → v ∈ T → y ∉ T →
  ∃ x w, x ∈ T ∧ (w ∉ T) ∧ arc x w ∧ reach v x ∧ reach w y.
Proof.
  intros Hreach. induction Hreach as [v|v w y Hvw Hwy IH]; intros Hv Hy; [done|].
  destruct (decide (w ∈ T)) as [Hw|Hw].
  - destruct (IH Hw Hy) as (x & w' & Hx & Hw' & Harc & Hwx & Hw'y).
    exists x, w'. split_and!; [done..| |done]. by eapply rtc_l.
  - exists v, w. split_and!; [done..|apply rtc_refl|done].
Qed.

Lemma sameScc_sym v w : sameScc v w → sameScc w v.
Proof. by intros [? ?]. Qed.

Lemma sameScc_trans u v w : sameScc u v → sameScc v w → sameScc u w.
Proof. intros [? ?] [? ?]. split; by etrans. Qed.

(** When the loop of [v] is over and [lowMap.get(v) === indexMap.get(v)],
    the vertices from the top of the stack down to [v] are the component
    of [v]. *)
Lemma Loop_root_component G v st0 st above :
  Loop G v st0 (successorsOf adjacency v) st →
  lowMap st !! v = Some (index st0) →
  stack st = above ++ v :: stack st0 →
  ∀ y, y ∈ above ++ [v] ↔ sameScc v y.
Proof.
  intros HL Hroot Hstack y.
  pose proof (Loop_facts _ _ _ _ _ HL) as (Hv & Hnv & Hsub0 & Hold & Hvv).
  destruct HL as (HP & HI & Hsub & Hlow & Hidx & lv & above' & Hlv & Hle & Hstack' & Habove
                  & _ & Hbound & Hdone).
  rewrite Hroot in Hlv. injection Hlv as <-.
  rewrite Hstack in Hstack'. apply app_inj_2 in Hstack' as [<- _]; [|done].
  destruct HP as (HI0 & HU & Hfresh & Hgray).
  assert (HT : ∀ x, x ∈ above ++ [v] → x ∈ stack st ∧ (index st0 ≤ nm st x)%nat).
  { intros x Hx. rewrite Hstack. apply elem_of_app in Hx as [Hx|Hx].
    - split; [apply elem_of_app; by left|]. pose proof (Habove x Hx). lia.
    - apply list_elem_of_singleton in Hx as ->. split; [|lia].
      apply elem_of_app. right. left. }
  assert (Hvs : v ∈ stack st) by (apply HT, elem_of_app; right; left).
  split.
  - intros Hy. destruct (HT y Hy) as [Hys Hyn]. split.
    + apply (inv_stack_reach _ _ HI); [done|done|lia].
    + destruct (inv_to_gray _ _ HI y Hys) as (g & Hg & _ & Hyg).
      apply elem_of_union in Hg as [Hg|Hg].
      * by apply elem_of_singleton in Hg as ->.
      * etrans; [exact Hyg|by apply Hgray].
  - intros [Hvy Hyv]. destruct (decide (y ∈ above ++ [v])) as [|Hny]; [done|exfalso].
    destruct (reach_exit (above ++ [v]) v y Hvy) as (x & w & Hx & Hw & Harc & Hvx & Hwy);
      [apply elem_of_app; right; left|done|].
    assert (Hwvis : w ∈ visited st ∧ (w ∈ stack st → (index st0 ≤ nm st w)%nat)).
    { apply elem_of_app in Hx as [Hx|Hx].
      - split.
        + apply (inv_black _ _ HI x w); [|  |done].
          * eapply Inv_stack_visited; [exact HI|]. rewrite Hstack. apply elem_of_app. by left.
          * pose proof (Inv_stack_nodup _ _ HI) as Hnd. rewrite Hstack in Hnd.
            apply NoDup_app in Hnd as (_ & Hdisj & _). specialize (Hdisj x Hx).
            rewrite elem_of_union, elem_of_singleton. intros [->|Hg].
            -- apply Hdisj. left.
            -- apply Hdisj. right. by apply (inv_gray _ _ HI0).
        + apply (Hbound x w Hx Harc).
      - apply list_elem_of_singleton in Hx as ->. by apply Hdone. }
    destruct Hwvis as [Hwvis Hwb].
    assert (Hwv : sameScc w v) by (split; [by etrans|by etrans; [|apply rtc_once]]).
    apply (inv_visited _ _ HI) in Hwvis as [Hws|Hwf].
    + pose proof (Hwb Hws) as Hge. rewrite Hstack in Hws.
      apply elem_of_app in Hws as [Hws|Hws].
      * apply Hw. apply elem_of_app. by left.
      * apply elem_of_cons in Hws as [->|Hws]; [apply Hw, elem_of_app; right; left|].
        destruct (Hold w Hws) as (_ & _ & Hlt). lia.
    + unfold finished in Hwf. apply elem_of_concat in Hwf as (c & Hwc & Hc).
      destruct (inv_comps _ _ HI c Hc) as [_ Hscc].
      apply (Inv_stack_not_finished _ _ v HI Hvs).
      unfold finished. apply elem_of_concat. exists c. split; [|done].
      by apply (Hscc w v Hwc).
Qed.

Lemma Post_close G v st0 st :
  Loop G v st0 (successorsOf adjacency v) st → Post G v st0 (close v st).
Proof.
  intros HL.
  pose proof (Loop_facts _ _ _ _ _ HL) as (Hv & Hnv & Hsub0 & Hold & Hvv).
  pose proof (λ above, Loop_root_component G v st0 st above HL) as Hcomp.
  destruct HL as (HP & HI & Hsub & Hlow & Hidx & lv & above & Hlv & Hle & Hstack & Habove
                  & (y0 & Hy0 & Hny0 & Hry0) & Hbound & Hdone).
  pose proof HP as (HI0 & HU & Hfresh & Hgray).
  pose proof (Inv_stack_nodup _ _ HI) as Hnd. rewrite Hstack in Hnd.
  assert (Hvabove : v ∉ above).
  { apply NoDup_app in Hnd as (_ & Hdisj & _). intros Hin. apply (Hdisj v Hin). left. }
  assert (Hblack : ∀ x w, x ∈ visited st → x ∉ G → arc x w → w ∈ visited st).
  { intros x w Hx Hg Harc. destruct (decide (x = v)) as [->|Hne].
    - by apply Hdone.
    - apply (inv_black _ _ HI x w); [done| |done].
      rewrite elem_of_union, elem_of_singleton. tauto. }
  unfold close. rewrite Hlv, Hv.
  case_bool_decide as Hroot.
  - injection Hroot as ->. specialize (Hcomp above Hlv Hstack).
    rewrite Hstack, (popUntil_spec v above (stack st0) (onStack st) [] Hvabove).
    cbn [app].
    assert (HI' : Inv G {| index := index st; stack := stack st0;
                           onStack := onStack st ∖ list_to_set (above ++ [v]);
                           indexMap := indexMap st; lowMap := lowMap st;
                           components := components st ++ [above ++ [v]] |}).
    { pose proof (inv_nodup _ _ HI) as Hnd'. rewrite Hstack in Hnd'.
      assert (Hperm : (above ++ v :: stack st0) ++ finished st
                      ≡ₚ stack st0 ++ finished st ++ above ++ [v]).
      { solve_Permutation. }
      split; cbn [index stack onStack indexMap lowMap components].
      - rewrite (inv_onStack _ _ HI), Hstack. apply set_eq. intros x.
        rewrite elem_of_difference, !elem_of_list_to_set.
        apply NoDup_app in Hnd as (_ & Hdisj & Hnd0).
        apply NoDup_cons in Hnd0 as [Hv0 _].
        rewrite !elem_of_app, elem_of_cons, list_elem_of_singleton. split.
        + intros [[Hx|[->|Hx]] Hn]; [tauto|tauto|done].
        + intros Hx. split; [tauto|]. intros [Hx'| ->]; [|done].
          apply (Hdisj x Hx'). by right.
      - unfold finished. cbn [components]. rewrite concat_app. cbn [concat].
        rewrite app_nil_r. fold (finished st). by rewrite <- Hperm.
      - intros x. unfold finished. cbn [components]. rewrite concat_app. cbn [concat].
        rewrite app_nil_r. fold (finished st).
        change (visited {| index := index st; stack := stack st0;
                           onStack := onStack st ∖ list_to_set (above ++ [v]);
                           indexMap := indexMap st; lowMap := lowMap st;
                           components := components st ++ [above ++ [v]] |})
          with (visited st).
        rewrite (inv_visited _ _ HI), Hstack.
        rewrite !elem_of_app, elem_of_cons, list_elem_of_singleton. tauto.
      - apply (inv_index _ _ HI).
      - apply (inv_univ _ _ HI).
      - apply (inv_gray _ _ HI0).
      - intros x y Hx Hy. apply (inv_stack_reach _ _ HI); rewrite Hstack;
          apply elem_of_app; right; by right.
      - intros y Hy.
        destruct (inv_to_gray _ _ HI y) as (g & Hg & Hgle & Hyg).
        { rewrite Hstack. apply elem_of_app. right. by right. }
        exists g. split; [|done]. apply elem_of_union in Hg as [Hg|Hg]; [|done].
        apply elem_of_singleton in Hg as ->.
        destruct (Hold y Hy) as (_ & _ & Hlt). change (nm st v ≤ nm st y)%nat in Hgle. lia.
      - exact Hblack.
      - intros c Hc. apply elem_of_app in Hc as [Hc|Hc]; [by apply (inv_comps _ _ HI)|].
        apply list_elem_of_singleton in Hc as ->. split; [by destruct above|].
        intros x y Hx. apply Hcomp in Hx. rewrite Hcomp. split.
        + intros Hy. eapply sameScc_trans; [by apply sameScc_sym|done].
        + intros Hy. by eapply sameScc_trans. }
    split_and!; [exact HI'|exact Hsub0|exact Hlow|exact Hv|exact Hidx|].
    exists (index st0), []. split_and!; [done|done|by intros x ?%elem_of_nil|by left].
  - assert (Hlt : (lv < index st0)%nat).
    { destruct (decide (lv = index st0)) as [->|]; [done|lia]. }
    assert (Hy0s : y0 ∈ stack st0).
    { rewrite Hstack in Hy0. apply elem_of_app in Hy0 as [Hy0|Hy0].
      - pose proof (Habove y0 Hy0). lia.
      - apply elem_of_cons in Hy0 as [->|Hy0]; [lia|done]. }
    assert (HI' : Inv G st).
    { destruct HI as [? ? ? ? ? Hgr ? Htg ? ?]. split; try done.
      - intros g Hg. apply Hgr. set_solver.
      - intros y Hy. destruct (Htg y Hy) as (g & Hg & Hgle & Hyg).
        apply elem_of_union in Hg as [Hg|Hg].
        + apply elem_of_singleton in Hg as ->.
          destruct (Htg y0 Hy0) as (g & Hg & Hgle0 & Hy0g).
          apply elem_of_union in Hg as [Hg|Hg].
          * apply elem_of_singleton in Hg as ->. lia.
          * exists g. split; [done|]. split; [lia|]. etrans; [exact Hyg|]. by etrans.
        + by exists g. }
    split_and!; [exact HI'|exact Hsub0|exact Hlow|exact Hv|exact Hidx|].
    exists lv, (above ++ [v]). split_and!.
    + done.
    + rewrite Hstack. by rewrite <- app_assoc.
    + intros x Hx. apply elem_of_app in Hx as [Hx|Hx].
      * pose proof (Habove x Hx). lia.
      * apply list_elem_of_singleton in Hx as ->. lia.
    + right. split_and!; [done|apply elem_of_app; right; left| |].
      * exists y0. split_and!; [done| |done]. by destruct (Hold y0 Hy0s) as (_ & <- & _).
      * intros x w Hx Hxw Hw. apply elem_of_app in Hx as [Hx|Hx]; [by eapply Hbound|].
        apply list_elem_of_singleton in Hx as ->. by apply Hdone.
Qed.

Theorem strongConnect_Post fuel :
  ∀ G v st st',
    Pre G v st → strongConnect fuel adjacency v st = Some st' → Post G v st st'.
Proof.
  induction fuel as [|fuel IH]; intros G v st st' HP Hrun; [done|].
  cbn [strongConnect] in Hrun.
  destruct (successors (strongConnect fuel adjacency) v (successorsOf adjacency v)
              (enter v st)) as [st1|] eqn:Hloop; [|done].
  cbn [mbind option_bind] in Hrun. injection Hrun as <-.
  apply Post_close.
  apply (Loop_successors (strongConnect fuel adjacency) G v st
           (successorsOf adjacency v)) with (P := []) (st := enter v st).
  - intros w st0 st2. apply IH.
  - done.
  - by apply Loop_enter.
  - done.
Qed.

Lemma Inv_init : Inv ∅ init.
Proof.
  assert (Hvis : ∀ x, x ∉ visited init).
  { intros x. unfold visited. cbn [init indexMap]. rewrite dom_empty_L.
    apply not_elem_of_empty. }
  split.
  - done.
  - constructor.
  - intros x. split; [by intros ?%Hvis|]. intros [Hx|Hx]; by apply elem_of_nil in Hx.
  - by intros x ?%Hvis.
  - by intros x ?%Hvis.
  - by intros g ?%not_elem_of_empty.
  - by intros x y ?%elem_of_nil.
  - by intros y ?%elem_of_nil.
  - by intros x w ?%Hvis.
  - by intros c ?%elem_of_nil.
Qed.

Lemma roots_Inv fuel ids :
  (∀ id, id ∈ ids → id ∈ U) →
  ∀ st st',
    Inv ∅ st → roots fuel adjacency ids st = Some st' →
    Inv ∅ st' ∧ visited st ⊆ visited st' ∧ ∀ id, id ∈ ids → id ∈ visited st'.
Proof.
  induction ids as [|id ids IH]; intros Hids st st' HI Hrun.
  - injection Hrun as <-. split_and!; [done|done|]. intros id Hid. by apply elem_of_nil in Hid.
  - assert (Hrest : ∀ id', id' ∈ ids → id' ∈ U) by (intros; apply Hids; by right).
    cbn [roots] in Hrun. case_bool_decide as Hseen.
    + destruct (IH Hrest st st' HI Hrun) as (HI' & Hsub & Hall).
      split_and!; [done|done|]. intros id' Hid'.
      apply elem_of_cons in Hid' as [->|Hid']; [|by apply Hall].
      apply Hsub. unfold visited. by apply elem_of_dom.
    + destruct (strongConnect fuel adjacency id st) as [st1|] eqn:Hcall; [|done].
      cbn [mbind option_bind] in Hrun.
      destruct (strongConnect_Post fuel ∅ id st st1) as (HI1 & Hsub1 & _ & Hid1 & _).
      { split_and!; [done|apply Hids; left|unfold visited; by rewrite elem_of_dom|].
        intros g Hg. by apply not_elem_of_empty in Hg. }
      { done. }
      destruct (IH Hrest st1 st' HI1 Hrun) as (HI' & Hsub & Hall).
      split_and!; [done| |].
      * etrans; [by apply visited_mono|done].
      * intros id' Hid'. apply elem_of_cons in Hid' as [->|Hid']; [|by apply Hall].
        apply Hsub. unfold visited. apply elem_of_dom. by eexists.
Qed.

(** The components that computeScc collects are the strongly connected
    components of the graph, each once. *)
Theorem roots_components fuel ids st' :
  (∀ id, id ∈ ids → id ∈ U) →
  roots fuel adjacency ids init = Some st' →
  NoDup (concat (components st'))
  ∧ (∀ x, x ∈ concat (components st') → x ∈ U)
  ∧ (∀ id, id ∈ ids → id ∈ concat (components st'))
  ∧ ∀ c, c ∈ components st' → c ≠ [] ∧ ∀ x y, x ∈ c → (y ∈ c ↔ sameScc x y).
Proof.
  intros Hids Hrun.
  destruct (roots_Inv fuel ids Hids init st' Inv_init Hrun) as (HI & _ & Hall).
  assert (Hempty : stack st' = []).
  { destruct (stack st') as [|y S] eqn:HS; [done|].
    destruct (inv_to_gray _ _ HI y) as (g & Hg & _); [rewrite HS; left|].
    by apply not_elem_of_empty in Hg. }
  pose proof (inv_nodup _ _ HI) as Hnd. rewrite Hempty in Hnd.
  assert (Hfin : ∀ x, x ∈ visited st' ↔ x ∈ finished st').
  { intros x. rewrite (inv_visited _ _ HI), Hempty. split; [|by right].
    intros [Hx|Hx]; [by apply elem_of_nil in Hx|done]. }
  split_and!.
  - exact Hnd.
  - intros x Hx. apply (inv_univ _ _ HI). by apply Hfin.
  - intros id Hid. apply Hfin. by apply Hall.
  - apply (inv_comps _ _ HI).
Qed.

End Graph.
End TarjanFacts.

Lemma ofList_from {K} `{EqDecision K} (acc l : list K) :
  NoDup (acc ++ l) → foldl Ordered.add acc l = acc ++ l.
Proof.
  revert acc. induction l as [|x l IH]; intros acc Hnd; [by rewrite app_nil_r|].
  cbn [foldl]. unfold Ordered.add at 2.
  assert (Hx : x ∉ acc).
  { apply NoDup_app in Hnd as (_ & Hdisj & _). intros Hin. apply (Hdisj x Hin). left. }
  rewrite bool_decide_eq_false_2 by done.
  replace (acc ++ x :: l) with ((acc ++ [x]) ++ l) in * by (by rewrite <- app_assoc).
  by apply IH.
Qed.

Lemma ofList_NoDup {K} `{EqDecision K} (l : list K) : NoDup l → Ordered.ofList l = l.
Proof. intros Hnd. unfold Ordered.ofList. by rewrite ofList_from. Qed.

Lemma NoDup_concat_filter {A} (p : list A → bool) (ls : list (list A)) :
  NoDup (concat ls) → NoDup (concat (List.filter p ls)).
Proof.
  induction ls as [|l ls IH]; [done|]. cbn [concat List.filter]. intros Hnd.
  apply NoDup_app in Hnd as (Hl & Hdisj & Hls).
  destruct (p l); [|by apply IH]. cbn [concat]. apply NoDup_app. split_and!; [done| |by apply IH].
  intros x Hx Hin. apply (Hdisj x Hx).
  apply elem_of_concat in Hin as (c & Hxc & Hc). apply elem_of_concat. exists c.
  split; [done|]. apply list_elem_of_In, List.filter_In in Hc as [Hc _].
  by apply list_elem_of_In.
Qed.

Lemma NoDup_concat_part {A} (ls : list (list A)) (c : list A) :
  NoDup (concat ls) → c ∈ ls → NoDup c.
Proof.
  induction ls as [|l ls IH]; [by intros _ ?%elem_of_nil|]. cbn [concat]. intros Hnd Hc.
  apply NoDup_app in Hnd as (Hl & _ & Hls).
  apply elem_of_cons in Hc as [->|Hc]; [done|by apply IH].
Qed.

Lemma length_gt_1_other {A} `{EqDecision A} (c : list A) (x : A) :
  NoDup c → x ∈ c → ((1 <? length c)%nat = true ↔ ∃ y, y ≠ x ∧ y ∈ c).
Proof.
  intros Hnd Hx. rewrite Nat.ltb_lt. split.
  - intros Hlen. destruct c as [|a [|b c]]; simpl in Hlen; [lia..|].
    destruct (decide (a = x)) as [->|Hne].
    + exists b. split; [|right; left]. intros ->.
      apply NoDup_cons in Hnd as [Hnd _]. apply Hnd. left.
    + exists a. split; [done|left].
  - intros (y & Hne & Hy). destruct c as [|a [|b c]]; simpl; [|exfalso|lia].
    + by apply elem_of_nil in Hx.
    + apply list_elem_of_singleton in Hx, Hy. congruence.
Qed.

Lemma foldl_max_length {A} (ls : list (list A)) (m : nat) :
  let r := foldl (λ m c, Nat.max m (length c)) m ls in
  (m ≤ r)%nat ∧ (∀ c, c ∈ ls → (length c ≤ r)%nat)
  ∧ (r = m ∨ ∃ c, c ∈ ls ∧ length c = r).
Proof.
  revert m. induction ls as [|l ls IH]; intros m; cbn [foldl].
  - split_and!; [done| |by left]. by intros c ?%elem_of_nil.
  - destruct (IH (Nat.max m (length l))) as (Hle & Hall & Hex).
    split_and!; [lia| |].
    + intros c Hc. apply elem_of_cons in Hc as [->|Hc]; [lia|by apply Hall].
    + destruct Hex as [Heq|(c & Hc & Hlen)].
      * destruct (decide (length l ≤ m)%nat).
        -- left. lia.
        -- right. exists l. split; [left|lia].
      * right. exists c. split; [by right|done].
Qed.

Section Components.
Variables (nodes : list Node.node) (edges : list Edge.edge) (idToIndex : gmap jsstring nat).
Hypothesis known : ∀ k, is_Some (idToIndex !! k) → k ∈ Node.id <$> nodes.

Let ids := Node.id <$> nodes.
Let adjacency := Scc.adjacencyOf ids edges idToIndex.

Lemma reach_connected v w :
  Tarjan.sameScc adjacency v w ↔ connected idToIndex edges v w.
Proof.
  unfold Tarjan.sameScc, Tarjan.reach, connected.
  assert (Hrel : ∀ x y, Tarjan.arc adjacency x y ↔ edgeOf idToIndex edges x y).
  { intros x y. apply SccFacts.elem_of_successorsOf. }
  assert (Hrtc : ∀ x y, rtc (Tarjan.arc adjacency) x y ↔ rtc (edgeOf idToIndex edges) x y).
  { intros x y. split; apply rtc_subrel; intros ? ?; by apply Hrel. }
  by rewrite !Hrtc.
Qed.

(** computeScc collects the strongly connected components of the graph of
    the valid edges that are not loops: every id is in one component, once,
    and a component holds exactly the ids connected with any of its own. *)
Theorem componentsOf_correct comps :
  Scc.componentsOf nodes edges idToIndex = Some comps →
  NoDup (concat comps)
  ∧ (∀ v, v ∈ concat comps ↔ v ∈ ids)
  ∧ ∀ c, c ∈ comps → c ≠ [] ∧ ∀ x y, x ∈ c → (y ∈ c ↔ connected idToIndex edges x y).
Proof.
  unfold Scc.componentsOf. fold ids adjacency.
  destruct (Scc.roots (length ids) adjacency ids Scc.init) as [st|] eqn:Hrun; [|done].
  intros [= <-].
  destruct (TarjanFacts.roots_components adjacency (list_to_set ids)) with
    (fuel := length ids) (ids := ids) (st' := st) as (Hnd & HU & Hall & Hscc).
  - intros v w Hw. apply SccFacts.elem_of_successorsOf in Hw as (e & _ & _ & _ & _ & _ & Hw).
    apply elem_of_list_to_set. by apply known.
  - intros id Hid. by apply elem_of_list_to_set.
  - done.
  - split_and!; [done| |].
    + intros v. split; [|by apply Hall]. intros Hv. apply HU in Hv.
      by apply elem_of_list_to_set in Hv.
    + intros c Hc. destruct (Hscc c Hc) as [Hne Hc']. split; [done|].
      intros x y Hx. by rewrite (Hc' x y Hx), reach_connected.
Qed.

(** The ids of the components with more than one id are the ids that are
    connected with another id. *)
Lemma cyclicNodes_correct comps :
  Scc.componentsOf nodes edges idToIndex = Some comps →
  let cyc := Scc.cyclicNodes (Scc.resultOf comps) in
  NoDup cyc
  ∧ ∀ v, v ∈ cyc ↔ v ∈ ids ∧ ∃ w, w ≠ v ∧ connected idToIndex edges v w.
Proof.
  intros Hcomps cyc. destruct (componentsOf_correct comps Hcomps) as (Hnd & Hids & Hscc).
  assert (Hcyc : cyc = concat (Scc.cyclicOf comps)).
  { unfold cyc, Scc.resultOf. cbn [Scc.cyclicNodes].
    apply ofList_NoDup. by apply NoDup_concat_filter. }
  rewrite Hcyc. split; [by apply NoDup_concat_filter|].
  intros v. rewrite elem_of_concat. split.
  - intros (c & Hv & Hc). unfold Scc.cyclicOf in Hc.
    apply list_elem_of_In, List.filter_In in Hc as [Hc Hlen]. apply list_elem_of_In in Hc.
    split.
    + apply Hids, elem_of_concat. by exists c.
    + apply (length_gt_1_other c v) in Hlen as (w & Hne & Hw);
        [|by eapply NoDup_concat_part|done].
      exists w. split; [done|]. destruct (Hscc c Hc) as [_ Hc']. by apply (Hc' v w Hv).
  - intros (Hv & w & Hne & Hvw). apply Hids, elem_of_concat in Hv as (c & Hv & Hc).
    exists c. split; [done|]. unfold Scc.cyclicOf.
    apply list_elem_of_In, List.filter_In. split; [by apply list_elem_of_In|].
    apply (length_gt_1_other c v); [by eapply NoDup_concat_part|done|].
    exists w. split; [done|]. destruct (Hscc c Hc) as [_ Hc']. by apply (Hc' v w Hv).
Qed.

End Components.



Section CycleClaim.
Context {host : Host}.


End CycleClaim.


(** ** Reciprocity *)

Lemma splitOn_none (s : jsstring) : arrow ∉ s → splitOn arrow s = [s].
Proof.
  induction s as [|c s IH]; [done|]. intros Hin. apply not_elem_of_cons in Hin as [Hne Hin].
  cbn [splitOn]. rewrite (proj2 (N.eqb_neq c arrow)) by done. by rewrite IH.
Qed.

Lemma splitOn_pairKey (a b : jsstring) :
  arrow ∉ a → arrow ∉ b → splitOn arrow (pairKey a b) = [a; b].
Proof.
  intros Ha Hb. unfold pairKey. change ([arrow] ++ b) with (arrow :: b).
  induction a as [|c a IH].
  - cbn [app splitOn]. rewrite N.eqb_refl. by rewrite splitOn_none.
  - apply not_elem_of_cons in Ha as [Hne Ha]. cbn [app splitOn].
    rewrite (proj2 (N.eqb_neq c arrow)) by done. by rewrite IH.
Qed.

Lemma pairKey_inj (a b a' b' : jsstring) :
  arrow ∉ a → arrow ∉ b → arrow ∉ a' → arrow ∉ b' →
  pairKey a b = pairKey a' b' → a = a' ∧ b = b'.
Proof.
  intros Ha Hb Ha' Hb' Heq.
  assert (Hs : splitOn arrow (pairKey a b) = splitOn arrow (pairKey a' b')) by by rewrite Heq.
  rewrite !splitOn_pairKey in Hs by done. by injection Hs.
Qed.

Lemma ofList_from_elem {K} `{EqDecision K} (l acc : list K) :
  NoDup acc →
  NoDup (foldl Ordered.add acc l) ∧ ∀ x, x ∈ foldl Ordered.add acc l ↔ x ∈ acc ∨ x ∈ l.
Proof.
  revert acc. induction l as [|y l IH]; intros acc Hnd; cbn [foldl].
  - split; [done|]. intros x. split; [by left|]. intros [?|Hx]; [done|by apply elem_of_nil in Hx].
  - unfold Ordered.add at 2 4. case_bool_decide as Hy.
    + destruct (IH acc Hnd) as [Hnd' Hel]. split; [done|]. intros x.
      rewrite Hel, elem_of_cons. split; [tauto|]. intros [?|[->|?]]; tauto.
    + destruct (IH (acc ++ [y])) as [Hnd' Hel].
      { apply NoDup_app. split_and!; [done| |apply NoDup_singleton].
        intros x Hx Hx'. apply list_elem_of_singleton in Hx' as ->. done. }
      split; [done|]. intros x. rewrite Hel, elem_of_app, list_elem_of_singleton, elem_of_cons.
      tauto.
Qed.

Lemma ofList_is_NoDup {K} `{EqDecision K} (l : list K) : NoDup (Ordered.ofList l).
Proof. apply (ofList_from_elem l []). constructor. Qed.

Lemma elem_of_ofList {K} `{EqDecision K} (l : list K) x : x ∈ Ordered.ofList l ↔ x ∈ l.
Proof.
  unfold Ordered.ofList. rewrite (proj2 (ofList_from_elem l [] (NoDup_nil_2))).
  split; [|by right]. intros [Hx|?]; [by apply elem_of_nil in Hx|done].
Qed.

Lemma count_Permutation {A} (p : A → bool) (l l' : list A) :
  l ≡ₚ l' → count p l = count p l'.
Proof.
  intros Hperm. unfold count. induction Hperm as [|x l l' _ IH|x y l|l l' l'' _ IH1 _ IH2].
  - done.
  - cbn [List.filter]. destruct (p x); cbn [length]; by rewrite IH.
  - cbn [List.filter]. destruct (p x), (p y); done.
  - by rewrite IH1.
Qed.

Lemma count_ext_in {A} (p q : A → bool) (l : list A) :
  (∀ x, x ∈ l → p x = q x) → count p l = count q l.
Proof.
  intros Heq. unfold count. induction l as [|x l IH]; [done|]. cbn [List.filter].
  rewrite (Heq x) by left.
  assert (IH' : length (List.filter p l) = length (List.filter q l)).
  { apply IH. intros y Hy. apply Heq. by right. }
  destruct (q x); cbn [length]; by rewrite IH'.
Qed.

Lemma count_fmap {A B} (f : A → B) (p : B → bool) (l : list A) :
  count p (f <$> l) = count (p ∘ f) l.
Proof.
  unfold count. induction l as [|x l IH]; [done|].
  cbn [fmap list_fmap List.filter compose]. destruct (p (f x)); cbn [length]; by rewrite IH.
Qed.

(** The count of reciprocal pairs does not depend on the order of the edge
    list, whatever the ids. *)
Theorem reciprocalPairsOf_Permutation (edges edges' : list Edge.edge) :
  edges ≡ₚ edges' → reciprocalPairsOf edges = reciprocalPairsOf edges'.
Proof.
  intros Hperm. unfold reciprocalPairsOf, edgePairsOf.
  set (keys := (λ e, pairKey (Edge.s e) (Edge.t e)) <$> edges).
  set (keys' := (λ e, pairKey (Edge.s e) (Edge.t e)) <$> edges').
  assert (Hkeys : ∀ k, k ∈ Ordered.ofList keys ↔ k ∈ Ordered.ofList keys').
  { intros k. rewrite !elem_of_ofList. unfold keys, keys'. by rewrite Hperm. }
  rewrite (count_Permutation _ (Ordered.ofList keys) (Ordered.ofList keys')).
  - apply count_ext_in. intros key _.
    destruct (splitOn arrow key) as [|from [|to ?]]; [done..|].
    f_equal. apply bool_decide_ext, Hkeys.
  - apply NoDup_Permutation; [apply ofList_is_NoDup..|done].
Qed.

(** When no id contains the arrow, the count of reciprocal pairs is the
    number of unordered pairs of ids with an edge each way, each counted on
    the pair written with its smaller id first. *)
Theorem reciprocalPairsOf_spec (edges : list Edge.edge) :
  (∀ e, e ∈ edges → (arrow ∉ Edge.s e) ∧ (arrow ∉ Edge.t e)) →
  reciprocalPairsOf edges = Spec.reciprocity edges.
Proof.
  intros Hfree. unfold reciprocalPairsOf, edgePairsOf, Spec.reciprocity.
  set (pairs := (λ e, (Edge.s e, Edge.t e)) <$> edges).
  set (key := λ p : jsstring * jsstring, pairKey p.1 p.2).
  assert (Hkeys : (λ e, pairKey (Edge.s e) (Edge.t e)) <$> edges = key <$> pairs).
  { unfold pairs. rewrite <- list_fmap_compose. done. }
  rewrite Hkeys. clear Hkeys.
  assert (Hpfree : ∀ p, p ∈ pairs → (arrow ∉ p.1) ∧ (arrow ∉ p.2)).
  { intros p Hp. apply list_elem_of_fmap in Hp as (e & -> & He). by apply Hfree. }
  assert (Hinj : ∀ p q, p ∈ pairs → q ∈ pairs → key p = key q → p = q).
  { intros [a b] [a' b'] Hp Hq Heq. destruct (Hpfree _ Hp), (Hpfree _ Hq).
    destruct (pairKey_inj a b a' b') as [-> ->]; done. }
  assert (Hperm : Ordered.ofList (key <$> pairs) ≡ₚ key <$> remove_dups pairs).
  { apply NoDup_Permutation.
    - apply ofList_is_NoDup.
    - apply NoDup_fmap_2_strong; [|apply NoDup_remove_dups].
      intros p q Hp Hq. apply Hinj; by apply elem_of_remove_dups.
    - intros k. rewrite elem_of_ofList, !list_elem_of_fmap.
      by setoid_rewrite elem_of_remove_dups. }
  rewrite (count_Permutation _ _ _ Hperm), count_fmap.
  apply count_ext_in. intros [a b] Hp. rewrite elem_of_remove_dups in Hp.
  destruct (Hpfree _ Hp) as [Ha Hb]. unfold compose. subst key. cbn beta. cbn [fst snd].
  rewrite splitOn_pairKey by done.
  rewrite andb_comm. f_equal. apply bool_decide_ext.
  rewrite elem_of_ofList, list_elem_of_fmap. split.
  - intros ([b' a'] & Heq & Hq). destruct (Hpfree _ Hq) as [Hb' Ha'].
    destruct (pairKey_inj b a b' a') as [-> ->]; done.
  - intros Hq. by exists (b, a).
Qed.

Lemma reciprocalPairsOf_Permutation_witness :
  reciprocalPairsOf
    [ {| Edge.s := lit "A"; Edge.t := lit "B"; Edge.dashed := false |};
      {| Edge.s := lit "B"; Edge.t := lit "A"; Edge.dashed := true |} ]
  = reciprocalPairsOf
      [ {| Edge.s := lit "B"; Edge.t := lit "A"; Edge.dashed := true |};
        {| Edge.s := lit "A"; Edge.t := lit "B"; Edge.dashed := false |} ].
Proof. apply reciprocalPairsOf_Permutation. apply perm_swap. Defined.

Lemma reciprocalPairsOf_spec_witness :
  reciprocalPairsOf
    [ {| Edge.s := lit "A"; Edge.t := lit "B"; Edge.dashed := false |};
      {| Edge.s := lit "B"; Edge.t := lit "A"; Edge.dashed := true |} ]
  = Spec.reciprocity
      [ {| Edge.s := lit "A"; Edge.t := lit "B"; Edge.dashed := false |};
        {| Edge.s := lit "B"; Edge.t := lit "A"; Edge.dashed := true |} ].
Proof.
  apply reciprocalPairsOf_spec. intros e He.
  repeat (apply elem_of_cons in He as [->|He];
          [split; apply (bool_decide_unpack _); by vm_compute|]).
  by apply elem_of_nil in He.
Defined.

(** ** Weeks *)

Lemma get_set_eq {K V} `{EqDecision K} (m : list (K * V)) k v :
  Ordered.get (Ordered.set m k v) k = Some v.
Proof.
  induction m as [|[k' v'] m IH]; simpl.
  - by rewrite decide_True.
  - destruct (decide (k' = k)) as [->|Hne]; simpl.
    + by rewrite decide_True.
    + by rewrite decide_False.
Qed.

Lemma get_set_ne {K V} `{EqDecision K} (m : list (K * V)) k k' v :
  k ≠ k' → Ordered.get (Ordered.set m k v) k' = Ordered.get m k'.
Proof.
  intros Hne. induction m as [|[k0 v0] m IH]; simpl.
  - by rewrite decide_False.
  - destruct (decide (k0 = k)) as [->|Hne0]; simpl.
    + by rewrite !decide_False.
    + destruct (decide (k0 = k')); done.
Qed.

Lemma dateRange_min (nodes : list Node.node) :
  match (dateRange nodes).1 with
  | None => ∀ n, n ∈ nodes → Node.date n = None
  | Some mn =>
      (∃ n, n ∈ nodes ∧ Node.date n = Some mn)
      ∧ ∀ n d, n ∈ nodes → Node.date n = Some d → mn ≤ d
  end.
Proof.
  unfold dateRange. induction nodes as [|n nodes IH] using rev_ind.
  - simpl. by intros n ?%elem_of_nil.
  - rewrite foldl_app. cbn [foldl]. set (st := foldl _ _ nodes) in *.
    destruct (Node.date n) as [d|] eqn:Hd.
    + cbn [fst]. destruct (st.1) as [mn|] eqn:Hmn.
      * destruct IH as [(n0 & Hn0 & Hd0) Hmin]. destruct (d <? mn) eqn:Hlt.
        -- apply Z.ltb_lt in Hlt. split.
           ++ exists n. split; [apply elem_of_app; right; left|done].
           ++ intros n' d' Hn' Hd'. apply elem_of_app in Hn' as [Hn'|Hn'].
              ** pose proof (Hmin n' d' Hn' Hd'). lia.
              ** apply list_elem_of_singleton in Hn' as ->. rewrite Hd in Hd'.
                 injection Hd' as <-. lia.
        -- apply Z.ltb_ge in Hlt. split.
           ++ exists n0. split; [apply elem_of_app; by left|done].
           ++ intros n' d' Hn' Hd'. apply elem_of_app in Hn' as [Hn'|Hn'].
              ** by apply (Hmin n' d').
              ** apply list_elem_of_singleton in Hn' as ->. rewrite Hd in Hd'.
                 by injection Hd' as <-.
      * split.
        -- exists n. split; [apply elem_of_app; right; left|done].
        -- intros n' d' Hn' Hd'. apply elem_of_app in Hn' as [Hn'|Hn'].
           ++ by rewrite (IH n' Hn') in Hd'.
           ++ apply list_elem_of_singleton in Hn' as ->. rewrite Hd in Hd'.
              injection Hd' as <-. lia.
    + destruct (st.1) as [mn|] eqn:Hmn.
      * destruct IH as [(n0 & Hn0 & Hd0) Hmin]. split.
        -- exists n0. split; [apply elem_of_app; by left|done].
        -- intros n' d' Hn' Hd'. apply elem_of_app in Hn' as [Hn'|Hn'].
           ++ by apply (Hmin n' d').
           ++ apply list_elem_of_singleton in Hn' as ->. congruence.
      * intros n' Hn'. apply elem_of_app in Hn' as [Hn'|Hn']; [by apply IH|].
        by apply list_elem_of_singleton in Hn' as ->.
Qed.

Lemma count_snoc {A} (p : A → bool) (l : list A) (x : A) :
  count p (l ++ [x]) = (count p l + if p x then 1 else 0)%nat.
Proof.
  unfold count. rewrite List.filter_app, length_app. cbn [List.filter].
  by destruct (p x).
Qed.

(** The loop of computeBuckets, turn by turn. *)
Lemma bucket_of_week (nodes : list Node.node) (minDate w : Z) :
  let bucket := Ordered.get (computeBuckets nodes minDate) w in
  let b := default noBucket bucket in
  b_total b = count (inWeek minDate w (λ _, true)) nodes
  ∧ b_exploring b = count (inWeek minDate w (isAction exploring)) nodes
  ∧ b_making b = count (inWeek minDate w (isAction making)) nodes
  ∧ (bucket = None ↔ count (inWeek minDate w (λ _, true)) nodes = O).
Proof.
  unfold computeBuckets. induction nodes as [|n nodes IH] using rev_ind.
  - cbv zeta. by split_and!.
  - rewrite foldl_app. cbn [foldl]. set (buckets := foldl _ _ nodes) in *.
    cbv zeta in IH. destruct IH as (Ht & He & Hm & Hnone).
    rewrite !count_snoc. unfold inWeek at 2 4 6 8.
    destruct (Node.date n) as [d|] eqn:Hd; cbv zeta.
    + destruct (decide (weekOf minDate d = w)) as [Hw|Hw].
      * rewrite Hw, get_set_eq, Z.eqb_refl. cbn [from_option id andb b_total b_exploring b_making].
        change {| b_exploring := O; b_making := O; b_total := O |} with noBucket.
        rewrite Ht, He, Hm. unfold isAction.
        split_and!; [lia| | |split; [done|lia]].
        -- case_bool_decide; lia.
        -- case_bool_decide as Hex; case_bool_decide as Hmk; try lia. congruence.
      * rewrite get_set_ne by done. rewrite (proj2 (Z.eqb_neq _ _) Hw). cbn [andb].
        rewrite !Nat.add_0_r. by split_and!.
    + rewrite !Nat.add_0_r. by split_and!.
Qed.

(** The bucket of a week counts the nodes dated in that week, by action; a
    week has a bucket when a node is dated in it. *)
Theorem computeBuckets_counts (nodes : list Node.node) (minDate w : Z) :
  let bucket := Ordered.get (computeBuckets nodes minDate) w in
  let b := default noBucket bucket in
  b_total b = count (inWeek minDate w (λ _, true)) nodes
  ∧ b_exploring b = count (inWeek minDate w (isAction exploring)) nodes
  ∧ b_making b = count (inWeek minDate w (isAction making)) nodes
  ∧ (bucket = None ↔ count (inWeek minDate w (λ _, true)) nodes = O).
Proof. exact (bucket_of_week nodes minDate w). Qed.

Lemma minDate_snoc (nodes : list Node.node) (n : Node.node) :
  Spec.minDate (nodes ++ [n])
  = match Node.action n, Node.date n with
    | other, _ | _, None => Spec.minDate nodes
    | _, Some d =>
        Some (match Spec.minDate nodes with Some mn => Z.min mn d | None => d end)
    end.
Proof.
  unfold Spec.minDate, Spec.datedModes. rewrite omap_app. cbn [omap list_omap].
  set (em := omap _ nodes).
  destruct (Node.action n), (Node.date n) as [d|];
    rewrite ?app_nil_r; try done;
    (destruct em as [|[a0 d0] rest]; [done|]); cbn [app]; by rewrite foldl_app.
Qed.

(** In computeMetricsForProject the weeks are counted from the first dated
    node, whatever its action, so that no week is negative; when no node with
    another action is dated, that is the first dated exploring or making node
    of the specification. *)
Theorem weeks_from_first_dated_node (nodes : list Node.node) :
  (∀ mn, (dateRange nodes).1 = Some mn →
     (∃ n, n ∈ nodes ∧ Node.date n = Some mn)
     ∧ ∀ n d, n ∈ nodes → Node.date n = Some d →
              mn ≤ d ∧ weekOf mn d = (d - mn) / Date.weekMs ∧ weekOf mn d = Spec.week mn d)
  ∧ ((∀ n, n ∈ nodes → Node.action n = other → Node.date n = None) →
     Spec.minDate nodes = (dateRange nodes).1).
Proof.
  split.
  - intros mn Hmn. pose proof (dateRange_min nodes) as Hmin. rewrite Hmn in Hmin.
    destruct Hmin as [Hex Hmin]. split; [done|]. intros n d Hn Hd.
    pose proof (Hmin n d Hn Hd) as Hle. split; [done|].
    assert (0 ≤ (d - mn) / Date.weekMs) by (apply Z.div_pos; [lia|done]).
    unfold weekOf, Spec.week. split; [lia|]. done.
  - intros Hother. unfold dateRange.
    induction nodes as [|n nodes IH] using rev_ind; [done|].
    rewrite minDate_snoc, foldl_app. cbn [foldl].
    rewrite IH by (intros n' Hn'; apply Hother, elem_of_app; by left). clear IH.
    set (st := foldl _ _ nodes).
    pose proof (Hother n) as Hn. rewrite elem_of_app, list_elem_of_singleton in Hn.
    destruct (Node.date n) as [d|] eqn:Hd.
    + destruct (Node.action n); [| |by discriminate Hn; [right|]]; cbn [fst];
        (destruct (st.1) as [mn|]; [|done]);
        (destruct (d <? mn) eqn:Hlt;
         [apply Z.ltb_lt in Hlt|apply Z.ltb_ge in Hlt]; f_equal; lia).
    + by destruct (Node.action n).
Qed.

(** ** Sorting and the median *)

(** ** Statistics *)

Lemma Qle_bool_false (a b : Q) : Qle_bool a b = false → (b <= a)%Q.
Proof.
  intros Hf. destruct (Qlt_le_dec b a) as [Hlt|Hle]; [by apply Qlt_le_weak|].
  apply Qle_bool_iff in Hle. congruence.
Qed.

Lemma insertAsc_Permutation x l : Num.insertAsc x l ≡ₚ x :: l.
Proof.
  induction l as [|y l IH]; [done|]. simpl. destruct (Qle_bool y x); [|done].
  rewrite IH. apply perm_swap.
Qed.

Lemma sortAsc_Permutation l : Num.sortAsc l ≡ₚ l.
Proof.
  unfold Num.sortAsc. induction l as [|x l IH]; [done|].
  simpl. by rewrite insertAsc_Permutation, IH.
Qed.

Lemma insertAsc_sorted x l :
  StronglySorted Qle l → StronglySorted Qle (Num.insertAsc x l).
Proof.
  induction 1 as [|y l Hs IH Hall]; simpl.
  - repeat constructor.
  - destruct (Qle_bool y x) eqn:Hyx.
    + constructor; [done|]. rewrite insertAsc_Permutation.
      constructor; [by apply Qle_bool_iff|done].
    + apply Qle_bool_false in Hyx. constructor; [by constructor|].
      constructor; [done|]. eapply Forall_impl; [done|].
      intros z Hz. cbn beta in Hz. by eapply Qle_trans.
Qed.

Lemma sortAsc_sorted l : StronglySorted Qle (Num.sortAsc l).
Proof.
  unfold Num.sortAsc. induction l as [|x l IH]; simpl; [constructor|].
  by apply insertAsc_sorted.
Qed.

Lemma sorted_lookup (s : list Q) i j a b :
  StronglySorted Qle s → (i ≤ j)%nat → s !! i = Some a → s !! j = Some b → (a <= b)%Q.
Proof.
  intros Hs. revert i j. induction Hs as [|x s Hs IH Hall]; intros i j Hij Ha Hb; [done|].
  destruct i as [|i], j as [|j]; simpl in *; simplify_eq.
  - apply Qle_refl.
  - rewrite Forall_forall in Hall. apply Hall. by eapply list_elem_of_lookup_2.
  - lia.
  - eapply (IH i j); [lia|done..].
Qed.

Lemma count_all {A} (p : A → bool) (l : list A) :
  Forall (λ x, p x = true) l → count p l = length l.
Proof.
  unfold count. induction 1 as [|x l Hx _ IH]; [done|].
  cbn [List.filter]. rewrite Hx. cbn [length]. by rewrite IH.
Qed.

Lemma count_le_length {A} (p : A → bool) (l : list A) : (count p l ≤ length l)%nat.
Proof. apply List.filter_length_le. Qed.

Lemma count_take {A} (p : A → bool) (s : list A) (k : nat) :
  Forall (λ x, p x = true) (take k s) → (k ≤ length s)%nat → (k ≤ count p s)%nat.
Proof.
  intros Hall Hk. rewrite <- (take_drop k s), count_app, (count_all _ _ Hall).
  rewrite length_take. lia.
Qed.

Lemma count_drop {A} (p : A → bool) (s : list A) (k : nat) :
  Forall (λ x, p x = true) (drop k s) → (length s - k ≤ count p s)%nat.
Proof.
  intros Hall. rewrite <- (take_drop k s) at 2. rewrite count_app, (count_all _ _ Hall).
  rewrite length_drop. lia.
Qed.

(** The value that median returns lies between two entries of the sorted
    list, the first with at least half of the entries up to it, the second
    with at least half of the entries from it on. *)
Lemma median_middle (values : list Q) (md : Q) :
  median values = Some md →
  ∃ (i j : nat) (a b : Q),
    Num.sortAsc values !! i = Some a ∧ Num.sortAsc values !! j = Some b
    ∧ (a <= md)%Q ∧ (md <= b)%Q
    ∧ (length values ≤ 2 * S i)%nat ∧ (length values + 2 * j ≤ 2 * length values)%nat.
Proof.
  unfold median. cbv zeta. pose proof (length_sortAsc values) as Hlen.
  pose proof (sortAsc_sorted values) as Hs.
  set (s := Num.sortAsc values) in *.
  intros Hmd.
  assert (Hmd' : (if (length s mod 2 =? 0)%nat
                  then Some (Num.div (default 0%Q (s !! (length s / 2 - 1)%nat)
                                      + default 0%Q (s !! (length s / 2)%nat)) 2)
                  else Some (Qred (default 0%Q (s !! (length s / 2)%nat)))) = Some md
                 ∧ s ≠ []).
  { destruct s; [done|]. by split. }
  clear Hmd. destruct Hmd' as [Hmd Hne].
  set (n := length s) in *. set (mid := (n / 2)%nat) in *.
  assert (Hn : (0 < n)%nat).
  { subst n. destruct s; [done|simpl; lia]. }
  pose proof (Nat.div_mod_eq n 2) as Hdm. fold mid in Hdm.
  assert (Hmod : (n mod 2 < 2)%nat) by (apply Nat.mod_upper_bound; lia).
  destruct (n mod 2 =? 0)%nat eqn:Heven.
  - apply Nat.eqb_eq in Heven. injection Hmd as <-.
    assert (Hmid : (0 < mid)%nat) by lia.
    destruct (lookup_lt_is_Some_2 s (mid - 1)) as [a Ha]; [fold n; lia|].
    destruct (lookup_lt_is_Some_2 s mid) as [b Hb]; [fold n; lia|].
    rewrite Ha, Hb. cbn [default from_option]. unfold id.
    assert (Hab : (a <= b)%Q) by (eapply (sorted_lookup s (mid - 1) mid); [done|lia|done..]).
    exists (mid - 1)%nat, mid, a, b. split_and!; [done|done| | |lia|lia].
    + unfold Num.div. rewrite Qred_correct. unfold Qdiv.
      change (/ 2)%Q with (1 # 2)%Q. lra.
    + unfold Num.div. rewrite Qred_correct. unfold Qdiv.
      change (/ 2)%Q with (1 # 2)%Q. lra.
  - apply Nat.eqb_neq in Heven. injection Hmd as <-.
    destruct (lookup_lt_is_Some_2 s mid) as [c Hc]; [fold n; lia|].
    rewrite Hc. cbn [default from_option]. unfold id.
    exists mid, mid, c, c. split_and!; [done|done| | |lia|lia];
      rewrite Qred_correct; apply Qle_refl.
Qed.

Lemma median_within (values : list Q) (md : Q) :
  median values = Some md →
  ∃ lo hi, lo ∈ values ∧ hi ∈ values ∧ (lo <= md)%Q ∧ (md <= hi)%Q.
Proof.
  intros Hmd.
  destruct (median_middle values md Hmd) as (i & j & a & b & Ha & Hb & Ham & Hmb & _).
  pose proof (sortAsc_Permutation values) as Hperm.
  exists a, b. split_and!; [| |done|done].
  - rewrite <- Hperm. by eapply list_elem_of_lookup_2.
  - rewrite <- Hperm. by eapply list_elem_of_lookup_2.
Qed.

(** What median returns is a median: at least half of the values are not
    above it, at least half are not below it, and it lies between two of
    them. *)
Theorem median_is_a_median (values : list Q) (md : Q) :
  median values = Some md →
  (length values ≤ 2 * count (λ v, Qle_bool v md) values)%nat
  ∧ (length values ≤ 2 * count (λ v, Qle_bool md v) values)%nat
  ∧ ∃ lo hi, lo ∈ values ∧ hi ∈ values ∧ (lo <= md)%Q ∧ (md <= hi)%Q.
Proof.
  intros Hmd. destruct (median_middle values md Hmd) as (i & j & a & b & Ha & Hb & Ham & Hmb & Hi & Hj).
  pose proof (sortAsc_Permutation values) as Hperm.
  pose proof (sortAsc_sorted values) as Hs.
  pose proof (length_sortAsc values) as Hlen.
  set (s := Num.sortAsc values) in *.
  split_and!.
  - rewrite <- (count_Permutation _ _ _ Hperm).
    assert (S i ≤ count (λ v, Qle_bool v md) s)%nat; [|lia].
    apply count_take; [|apply lookup_lt_Some in Ha; lia].
    apply Forall_forall. intros x Hx. apply list_elem_of_lookup in Hx as [k Hk].
    apply lookup_take_Some in Hk as [Hk Hlt]. apply Qle_bool_iff.
    eapply Qle_trans; [|exact Ham]. eapply (sorted_lookup s k i); [done|lia|done..].
  - rewrite <- (count_Permutation _ _ _ Hperm).
    assert (length s - j ≤ count (λ v, Qle_bool md v) s)%nat; [|lia].
    apply count_drop.
    apply Forall_forall. intros x Hx. apply list_elem_of_lookup in Hx as [k Hk].
    rewrite lookup_drop in Hk. apply Qle_bool_iff.
    eapply Qle_trans; [exact Hmb|]. eapply (sorted_lookup s j (j + k)); [done|lia|done..].
  - by apply median_within.
Qed.

Lemma median_is_a_median_witness :
  median [1; 3; 2]%Q = Some 2%Q
  ∧ (length [1; 3; 2]%Q ≤ 2 * count (λ v, Qle_bool v 2) [1; 3; 2]%Q)%nat
  ∧ (length [1; 3; 2]%Q ≤ 2 * count (λ v, Qle_bool 2 v) [1; 3; 2]%Q)%nat.
Proof.
  split; [reflexivity|].
  destruct (median_is_a_median [1; 3; 2]%Q 2%Q) as (Hlow & Hhigh & _); [reflexivity|].
  split; [exact Hlow|exact Hhigh].
Defined.

(** ** The statistics of a list *)

Lemma Qle_bool_Qeq (a a' b b' : Q) :
  (a == a')%Q → (b == b')%Q → Qle_bool a b = Qle_bool a' b'.
Proof.
  intros Ha Hb. apply eq_true_iff_eq. rewrite !Qle_bool_iff. by rewrite Ha, Hb.
Qed.

Lemma min_spec (a b : Q) :
  (Num.min a b = a ∨ Num.min a b = b) ∧ (Num.min a b <= a)%Q ∧ (Num.min a b <= b)%Q.
Proof.
  unfold Num.min. destruct (Qle_bool a b) eqn:Hab.
  - apply Qle_bool_iff in Hab. split_and!; [by left|apply Qle_refl|done].
  - apply Qle_bool_false in Hab. split_and!; [by right|done|apply Qle_refl].
Qed.

Lemma max_spec (a b : Q) :
  (Num.max a b = a ∨ Num.max a b = b) ∧ (a <= Num.max a b)%Q ∧ (b <= Num.max a b)%Q.
Proof.
  unfold Num.max. destruct (Qle_bool a b) eqn:Hab.
  - apply Qle_bool_iff in Hab. split_and!; [by right|done|apply Qle_refl].
  - apply Qle_bool_false in Hab. split_and!; [by left|apply Qle_refl|done].
Qed.

(** The loop of minmax, started on [(a, b)]. *)
Lemma minmax_loop (l : list Q) (a b : Q) :
  let st := foldl (λ (st : Q * Q) v, (Num.min st.1 v, Num.max st.2 v)) (a, b) l in
  st.1 ∈ a :: l ∧ st.2 ∈ b :: l
  ∧ (st.1 <= a)%Q ∧ (b <= st.2)%Q
  ∧ ∀ v, v ∈ l → (st.1 <= v)%Q ∧ (v <= st.2)%Q.
Proof.
  cbv zeta. revert a b. induction l as [|x l IH]; intros a b; cbn [foldl fst snd].
  - split_and!; [left|left|apply Qle_refl|apply Qle_refl|]. by intros v Hv%elem_of_nil.
  - destruct (IH (Num.min a x) (Num.max b x)) as (Hmn & Hmx & Hle & Hge & Hall).
    destruct (min_spec a x) as (Hmin & Hmina & Hminx).
    destruct (max_spec b x) as (Hmax & Hmaxb & Hmaxx).
    set (st := foldl _ _ l) in *.
    split_and!.
    + apply elem_of_cons in Hmn as [->|Hmn]; [|by do 2 right].
      destruct Hmin as [->| ->]; [left|right; left].
    + apply elem_of_cons in Hmx as [->|Hmx]; [|by do 2 right].
      destruct Hmax as [->| ->]; [left|right; left].
    + by eapply Qle_trans.
    + by eapply Qle_trans.
    + intros v [->|Hv]%elem_of_cons; [|by apply Hall].
      split; by eapply Qle_trans.
Qed.

Lemma minmax_spec (values : list Q) :
  match values with
  | [] => minmax values = (None, None)
  | _ =>
      ∃ mn mx, minmax values = (Some (Qred mn), Some (Qred mx))
               ∧ mn ∈ values ∧ mx ∈ values
               ∧ ∀ v, v ∈ values → (mn <= v)%Q ∧ (v <= mx)%Q
  end.
Proof.
  destruct values as [|v0 l]; [done|]. unfold minmax.
  pose proof (minmax_loop (v0 :: l) v0 v0) as H. cbv zeta in H.
  destruct (foldl _ _ (v0 :: l)) as [mn mx]. cbn [fst snd] in H.
  destruct H as (Hmn & Hmx & _ & _ & Hall).
  exists mn, mx. split_and!; [done| | |done].
  - by apply elem_of_cons in Hmn as [->|Hmn]; [left|].
  - by apply elem_of_cons in Hmx as [->|Hmx]; [left|].
Qed.

Lemma sum_nonneg (l : list Q) (acc : Q) :
  (0 <= acc)%Q → (∀ v, v ∈ l → (0 <= v)%Q) → (0 <= foldl Qplus acc l)%Q.
Proof.
  revert acc. induction l as [|x l IH]; intros acc Hacc Hall; cbn [foldl]; [done|].
  apply IH; [|intros v Hv; apply Hall; by right].
  pose proof (Hall x ltac:(left)). lra.
Qed.

Lemma ofNat_pos (n : nat) : (0 < n)%nat → (0 < Num.ofNat n)%Q.
Proof.
  intros Hn. unfold Num.ofNat. change 0%Q with (inject_Z 0).
  rewrite <- Zlt_Qlt. lia.
Qed.

Lemma mean_nonneg (values : list Q) (me : Q) :
  mean values = Some me → (∀ v, v ∈ values → (0 <= v)%Q) → (0 <= me)%Q.
Proof.
  unfold mean. destruct values as [|v0 l] eqn:E; [done|]. rewrite <- E in *.
  intros [= <-] Hall. unfold Num.div. rewrite Qred_correct.
  assert (Hpos : (0 < Num.ofNat (length values))%Q).
  { apply ofNat_pos. rewrite E. simpl. lia. }
  apply Qle_shift_div_l; [done|]. rewrite Qmult_0_l. by apply sum_nonneg.
Qed.

(** The cohort statistics of a metric: all absent when no project has a
    value; otherwise the minimum and the maximum are values of the cohort
    that bound every value and the median, and the mean is the sum of the
    values, added from left to right, over their number; it is not negative
    when no value is. *)
Theorem statsOf_bounds (vals : list Q) :
  match vals with
  | [] => statsOf vals = {| s_mean := None; s_median := None; s_min := None; s_max := None |}
  | _ =>
      ∃ me md mn mx,
        statsOf vals
        = {| s_mean := Some me; s_median := Some md; s_min := Some mn; s_max := Some mx |}
        ∧ (∃ v, v ∈ vals ∧ mn = Qred v) ∧ (∃ v, v ∈ vals ∧ mx = Qred v)
        ∧ (∀ v, v ∈ vals → (mn <= v)%Q ∧ (v <= mx)%Q)
        ∧ (mn <= md)%Q ∧ (md <= mx)%Q
        ∧ me = Num.div (foldl Qplus 0%Q vals) (Num.ofNat (length vals))
        ∧ ((0 <= mn)%Q → (0 <= me)%Q)
  end.
Proof.
  destruct vals as [|v0 l] eqn:E; [done|]. rewrite <- E.
  pose proof (minmax_spec vals) as Hmm. rewrite E in Hmm. rewrite <- E in Hmm.
  destruct Hmm as (mn & mx & Hmm & Hmn & Hmx & Hall).
  assert (Hme : mean vals
                = Some (Num.div (foldl Qplus 0%Q vals) (Num.ofNat (length vals)))).
  { by rewrite E. }
  destruct (median vals) as [md|] eqn:Hmd; [|apply median_None in Hmd; by rewrite E in Hmd].
  destruct (median_within vals md Hmd) as (lo & hi & Hlo & Hhi & Hlomd & Hmdhi).
  eexists _, md, (Qred mn), (Qred mx). unfold statsOf. rewrite Hmm, Hme, Hmd. cbn [fst snd].
  split_and!; [done|by exists mn|by exists mx| |..]; rewrite ?Qred_correct; try done.
  - intros v Hv. rewrite !Qred_correct. by apply Hall.
  - eapply Qle_trans; [|exact Hlomd]. by apply Hall.
  - eapply Qle_trans; [exact Hmdhi|]. by apply Hall.
  - intros Hpos. apply (mean_nonneg vals _ Hme). intros v Hv.
    eapply Qle_trans; [exact Hpos|]. by apply Hall.
Qed.

(** ** The order of the projects *)

Lemma insertAsc_Qeq x s s' :
  Forall2 Qeq s s' → Forall2 Qeq (Num.insertAsc x s) (Num.insertAsc x s').
Proof.
  induction 1 as [|y y' s s' Hy Hs IH]; simpl.
  { constructor; [apply Qeq_refl|constructor]. }
  rewrite (Qle_bool_Qeq y y' x x Hy (Qeq_refl x)).
  destruct (Qle_bool y' x).
  - by constructor.
  - constructor; [apply Qeq_refl|]. by constructor.
Qed.

Lemma Forall2_Qeq_refl s : Forall2 Qeq s s.
Proof. induction s; constructor; [apply Qeq_refl|done]. Qed.

Lemma insertAsc_swap x y s :
  Forall2 Qeq (Num.insertAsc y (Num.insertAsc x s)) (Num.insertAsc x (Num.insertAsc y s)).
Proof.
  induction s as [|z s IH]; cbn [Num.insertAsc].
  - destruct (Qle_bool x y) eqn:Hxy, (Qle_bool y x) eqn:Hyx; cbn [Num.insertAsc];
      rewrite ?Hxy, ?Hyx; try apply Forall2_Qeq_refl.
    + apply Qle_bool_iff in Hxy, Hyx.
      assert (x == y)%Q by (by apply Qle_antisym).
      constructor; [done|]. constructor; [by symmetry|constructor].
    + apply Qle_bool_false in Hxy, Hyx.
      assert (x == y)%Q by (by apply Qle_antisym).
      constructor; [by symmetry|]. constructor; [done|constructor].
  - destruct (Qle_bool z x) eqn:Hzx, (Qle_bool z y) eqn:Hzy; cbn [Num.insertAsc];
      rewrite ?Hzx, ?Hzy.
    + constructor; [apply Qeq_refl|done].
    + assert (Hyx : Qle_bool y x = true).
      { apply Qle_bool_iff. apply Qle_bool_iff in Hzx. apply Qle_bool_false in Hzy.
        by eapply Qle_trans. }
      rewrite Hyx. cbn [Num.insertAsc]. rewrite ?Hzx. apply Forall2_Qeq_refl.
    + assert (Hxy : Qle_bool x y = true).
      { apply Qle_bool_iff. apply Qle_bool_iff in Hzy. apply Qle_bool_false in Hzx.
        by eapply Qle_trans. }
      rewrite Hxy. cbn [Num.insertAsc]. rewrite ?Hzy. apply Forall2_Qeq_refl.
    + destruct (Qle_bool x y) eqn:Hxy, (Qle_bool y x) eqn:Hyx; cbn [Num.insertAsc];
        rewrite ?Hzx, ?Hzy; try apply Forall2_Qeq_refl.
      * apply Qle_bool_iff in Hxy, Hyx.
        assert (x == y)%Q by (by apply Qle_antisym).
        constructor; [done|]. constructor; [by symmetry|apply Forall2_Qeq_refl].
      * apply Qle_bool_false in Hxy, Hyx.
        assert (x == y)%Q by (by apply Qle_antisym).
        constructor; [by symmetry|]. constructor; [done|apply Forall2_Qeq_refl].
Qed.

Lemma Forall2_Qeq_trans s1 s2 s3 :
  Forall2 Qeq s1 s2 → Forall2 Qeq s2 s3 → Forall2 Qeq s1 s3.
Proof.
  intros H12. revert s3. induction H12 as [|x y s1 s2 Hxy _ IH]; intros s3 H23.
  - by inversion H23.
  - inversion H23 as [|? z ? s3' Hyz H23']; subst. constructor; [by rewrite Hxy|by apply IH].
Qed.

Lemma sortAsc_Qeq l l' : l ≡ₚ l' → Forall2 Qeq (Num.sortAsc l) (Num.sortAsc l').
Proof.
  unfold Num.sortAsc.
  induction 1 as [|x l l' _ IH|x y l|l l' l'' _ IH1 _ IH2]; cbn [foldr].
  - constructor.
  - by apply insertAsc_Qeq.
  - apply insertAsc_swap.
  - by eapply Forall2_Qeq_trans.
Qed.

Lemma lookup_Qeq s s' i :
  Forall2 Qeq s s' → (default 0%Q (s !! i) == default 0%Q (s' !! i))%Q.
Proof.
  intros H. revert i. induction H as [|x y s s' Hxy _ IH]; intros i; [done|].
  destruct i as [|i]; [done|]. apply IH.
Qed.

Lemma median_Permutation l l' : l ≡ₚ l' → median l = median l'.
Proof.
  intros Hperm. unfold median. cbv zeta.
  pose proof (sortAsc_Qeq l l' Hperm) as Hs.
  pose proof (Forall2_length _ _ _ Hs) as Hlen.
  set (s := Num.sortAsc l) in *. set (s' := Num.sortAsc l') in *.
  rewrite Hlen.
  destruct s as [|x s0] eqn:Es, s' as [|y s0'] eqn:Es'; [done|done|done|].
  rewrite <- Es, <- Es' in *.
  destruct (_ =? _)%nat; f_equal.
  - unfold Num.div. apply Qred_complete.
    by rewrite (lookup_Qeq _ _ (length s' / 2 - 1)%nat Hs),
      (lookup_Qeq _ _ (length s' / 2)%nat Hs).
  - apply Qred_complete. by apply lookup_Qeq.
Qed.

Lemma minmax_Permutation l l' : l ≡ₚ l' → minmax l = minmax l'.
Proof.
  intros Hperm. pose proof (minmax_spec l) as H. pose proof (minmax_spec l') as H'.
  destruct l as [|x l0] eqn:El.
  - by apply Permutation_nil_l in Hperm as <-.
  - rewrite <- El in *. destruct l' as [|y l0'] eqn:El'.
    + apply Permutation_nil_r in Hperm. congruence.
    + rewrite <- El' in *.
      destruct H as (mn & mx & -> & Hmn & Hmx & Hall).
      destruct H' as (mn' & mx' & -> & Hmn' & Hmx' & Hall').
      f_equal; f_equal; apply Qred_complete; apply Qle_antisym.
      * apply Hall. by rewrite Hperm.
      * apply Hall'. by rewrite <- Hperm.
      * apply Hall'. by rewrite <- Hperm.
      * apply Hall. by rewrite Hperm.
Qed.

(** The median, the minimum and the maximum of the cohort aggregate do not
    depend on the order of the projects.  (The mean is a sum from left to
    right, of which this is not said.) *)
Theorem median_min_max_Permutation (ms ms' : list Metrics.metrics) :
  ms ≡ₚ ms' →
  Forall2 (λ a b : string * Stats,
             a.1 = b.1 ∧ s_median a.2 = s_median b.2
             ∧ s_min a.2 = s_min b.2 ∧ s_max a.2 = s_max b.2)
    (aggregate ms) (aggregate ms').
Proof.
  intros Hperm. unfold aggregate. apply Forall2_fmap, Forall_Forall2_diag, Forall_forall.
  intros key _. cbn [fst snd]. unfold statsOf. cbn [s_median s_min s_max].
  assert (Hvals : valsOf ms key ≡ₚ valsOf ms' key) by (unfold valsOf; by rewrite Hperm).
  by rewrite (minmax_Permutation _ _ Hvals), (median_Permutation _ _ Hvals).
Qed.

Lemma median_min_max_Permutation_witness :
  ∃ a b,
    computeMetricsForProject (H := hostAt 0) (lit "1_a") Scenario.A Scenario.defaults = Ok a
    ∧ computeMetricsForProject (H := hostAt 0) (lit "2_b") Scenario.B Scenario.defaults = Ok b
    ∧ Forall2 (λ x y : string * Stats,
                 x.1 = y.1 ∧ s_median x.2 = s_median y.2
                 ∧ s_min x.2 = s_min y.2 ∧ s_max x.2 = s_max y.2)
        (aggregate [a; b]) (aggregate [b; a]).
Proof.
  eexists. eexists. split; [vm_compute; reflexivity|]. split; [vm_compute; reflexivity|].
  apply median_min_max_Permutation. apply perm_swap.
Defined.

(** ** The loops over the edges *)

(** ** The index of the ids *)

Lemma indexFrom_Some nodes i m k j :
  indexFrom i nodes m !! k = Some j →
  (m !! k = Some j ∧ k ∉ Node.id <$> nodes)
  ∨ ∃ n, (i ≤ j)%nat ∧ nodes !! (j - i)%nat = Some n ∧ Node.id n = k.
Proof.
  revert i m. induction nodes as [|n nodes IH]; intros i m Hj; cbn [indexFrom] in Hj.
  - left. split; [done|]. by intros ?%elem_of_nil.
  - apply IH in Hj as [[Hj Hk]|(n' & Hle & Hn' & Hid)].
    + destruct (decide (Node.id n = k)) as [<-|Hne].
      * rewrite lookup_insert_eq in Hj. injection Hj as <-. right. exists n.
        split; [lia|]. by rewrite Nat.sub_diag.
      * rewrite lookup_insert_ne in Hj by done. left. split; [done|].
        cbn [fmap list_fmap]. rewrite not_elem_of_cons. done.
    + right. exists n'. split; [lia|]. split; [|done].
      replace (j - i)%nat with (S (j - S i)) by lia. done.
Qed.

Lemma nodeAt_Some nodes k a :
  nodeAt nodes (idToIndexOf nodes) k = Some a → a ∈ nodes ∧ Node.id a = k.
Proof.
  unfold nodeAt, idToIndexOf. destruct (indexFrom 0 nodes ∅ !! k) as [j|] eqn:Hj; [|done].
  cbn [mbind option_bind]. intros Ha.
  apply indexFrom_Some in Hj as [[Hj _]|(n & _ & Hn & Hid)]; [by rewrite lookup_empty in Hj|].
  rewrite Nat.sub_0_r in Hn. rewrite Hn in Ha. injection Ha as <-.
  split; [by eapply list_elem_of_lookup_2|done].
Qed.

(** ** Counters of the loops over the edges *)

Lemma macroEdgeLoop_le nodes idToIndex edges :
  let r := macroEdgeLoop nodes idToIndex edges in
  (r.2 ≤ r.1)%nat ∧ (r.1 ≤ length edges)%nat.
Proof.
  cbv zeta. unfold macroEdgeLoop.
  induction edges as [|e edges IH] using rev_ind; [simpl; lia|].
  rewrite foldl_app, length_app. cbn [foldl length].
  destruct (foldl _ _ edges) as [considered cross]. cbn [fst snd] in *.
  destruct (nodeAt nodes idToIndex (Edge.s e)) as [a|],
    (nodeAt nodes idToIndex (Edge.t e)) as [b|];
    cbn [fst snd]; try lia.
  destruct (negb _ || negb _); cbn [fst snd]; [lia|].
  destruct (bool_decide _); lia.
Qed.

Lemma temporalLoop_le nodes idToIndex edges :
  let r := temporalLoop nodes idToIndex edges in
  (r.2 ≤ r.1)%nat ∧ (r.1 ≤ length edges)%nat.
Proof.
  cbv zeta. unfold temporalLoop.
  induction edges as [|e edges IH] using rev_ind; [simpl; lia|].
  rewrite foldl_app, length_app. cbn [foldl length].
  destruct (foldl _ _ edges) as [temporal back]. cbn [fst snd] in *.
  destruct (nodeAt nodes idToIndex (Edge.s e) ≫= Node.date) as [da|],
    (nodeAt nodes idToIndex (Edge.t e) ≫= Node.date) as [db|];
    cbn [fst snd]; try lia.
  destruct (db <? da); lia.
Qed.

Lemma add_NoDup {K} `{EqDecision K} (s : list K) (k : K) :
  NoDup s → NoDup (Ordered.add s k).
Proof.
  intros Hs. unfold Ordered.add. case_bool_decide as Hk; [done|].
  apply NoDup_app. split_and!; [done| |apply NoDup_singleton].
  intros x Hx ->%list_elem_of_singleton. done.
Qed.

Lemma elem_of_add {K} `{EqDecision K} (s : list K) (k x : K) :
  x ∈ Ordered.add s k ↔ x ∈ s ∨ x = k.
Proof.
  unfold Ordered.add. case_bool_decide as Hk.
  - split; [by left|]. by intros [?| ->].
  - by rewrite elem_of_app, list_elem_of_singleton.
Qed.

(** What the loop over the mode-transition edges keeps. *)
Lemma transitionLoop_counters nodes edges :
  let tr := transitionLoop nodes (idToIndexOf nodes) edges in
  (eToM tr + mToE tr)%nat = length (interlacingEdges tr)
  ∧ (length (interlacingEdges tr) ≤ length edges)%nat
  ∧ (crossInterlacingEdges tr ≤ interlacingEdgesMacroConsidered tr)%nat
  ∧ (interlacingEdgesMacroConsidered tr ≤ length (interlacingEdges tr))%nat
  ∧ (length (eToMLatencyDays tr) ≤ eToM tr)%nat
  ∧ NoDup (exploringWithMakingOut tr)
  ∧ (∀ k, k ∈ exploringWithMakingOut tr →
          k ∈ Node.id <$> List.filter (isAction exploring) nodes).
Proof.
  cbv zeta. unfold transitionLoop.
  induction edges as [|e edges IH] using rev_ind.
  { cbn. split_and!; try lia; [constructor|]. by intros k ?%elem_of_nil. }
  rewrite foldl_app, length_app. cbn [foldl length].
  set (st := foldl _ _ edges) in *.
  destruct IH as (Hsum & Hlen & Hcross & Hcons & Hlat & Hnd & Hout).
  unfold transitionStep.
  destruct (nodeAt nodes (idToIndexOf nodes) (Edge.s e)) as [a|] eqn:Ha;
    [|split_and!; try done; lia].
  destruct (nodeAt nodes (idToIndexOf nodes) (Edge.t e)) as [b|] eqn:Hb;
    [|split_and!; try done; lia].
  apply nodeAt_Some in Ha as [Ha Hida].
  destruct (Node.action a) eqn:Hacta, (Node.action b) eqn:Hactb;
    cbn [bool_decide decide_rel andb negb orb];
    repeat (match goal with
            | |- context [bool_decide (?x = ?y)] =>
                first [ rewrite (bool_decide_eq_true_2 (x = y)) by done
                      | rewrite (bool_decide_eq_false_2 (x = y)) by done ]
            end);
    cbn [andb negb orb interlacingEdges eToMLatencyDays exploringWithMakingOut eToM mToE
         crossInterlacingEdges interlacingEdgesMacroConsidered];
    try (split_and!; try done; lia).
  - (* exploring → making *)
    rewrite length_app. cbn [length].
    split_and!; try lia.
    + destruct (macroOk _ && macroOk _); cbn [andb]; [|lia].
      destruct (bool_decide _); lia.
    + destruct (macroOk _ && macroOk _); lia.
    + destruct (latencyOf a b); rewrite ?length_app; cbn [length]; lia.
    + by apply add_NoDup.
    + intros k [Hk| ->]%elem_of_add; [by apply Hout|].
      apply list_elem_of_fmap. exists a. split; [done|].
      apply list_elem_of_In, List.filter_In. split; [by apply list_elem_of_In|].
      unfold isAction. by apply bool_decide_eq_true_2.
  - (* making → exploring *)
    rewrite length_app. cbn [length].
    split_and!; try done; try lia.
    + destruct (macroOk _ && macroOk _); cbn [andb]; [|lia].
      destruct (bool_decide _); lia.
    + destruct (macroOk _ && macroOk _); lia.
Qed.

Lemma ofNat_le (a b : nat) : (a ≤ b)%nat → (Num.ofNat a <= Num.ofNat b)%Q.
Proof. intros H. unfold Num.ofNat. rewrite <- Zle_Qle. lia. Qed.

Lemma ofNat_nonneg (a : nat) : (0 <= Num.ofNat a)%Q.
Proof. apply (ofNat_le 0 a). lia. Qed.

Lemma share_nonneg (n d : nat) : (0 <= Num.share n d)%Q.
Proof.
  unfold Num.share. destruct d as [|d]; [apply Qle_refl|].
  rewrite Qred_correct.
  pose proof (ofNat_nonneg n). pose proof (ofNat_pos (S d) ltac:(lia)).
  apply Qmult_le_0_compat; [|done].
  apply Qle_shift_div_l; [done|]. lra.
Qed.

Lemma share_le_100 (n d : nat) : (n ≤ d)%nat → (Num.share n d <= 100)%Q.
Proof.
  intros Hle. unfold Num.share. destruct d as [|d]; [done|].
  rewrite Qred_correct.
  pose proof (ofNat_le n (S d) Hle). pose proof (ofNat_pos (S d) ltac:(lia)).
  assert (Num.ofNat n / Num.ofNat (S d) <= 1)%Q; [|lra].
  apply Qle_shift_div_r; [done|]. lra.
Qed.

(** The sum of the ratios of the overlap buckets. *)
Lemma intensity_sum (overlap : list Bucket) (acc : Q) :
  Forall (λ b, (0 < b_exploring b)%nat ∧ (0 < b_making b)%nat) overlap →
  let sum := foldl (λ acc b,
                      acc + Num.ofNat (Nat.min (b_exploring b) (b_making b))
                            / Num.ofNat (Nat.max (b_exploring b) (b_making b)))%Q
                   acc overlap in
  (acc <= sum)%Q ∧ (sum <= acc + Num.ofNat (length overlap))%Q.
Proof.
  cbv zeta. intros Hall. revert acc.
  induction Hall as [|b l [He Hm] _ IH]; intros acc; cbn [foldl length].
  - change (Num.ofNat 0) with 0%Q. lra.
  - set (r := (Num.ofNat (Nat.min (b_exploring b) (b_making b))
               / Num.ofNat (Nat.max (b_exploring b) (b_making b)))%Q).
    destruct (IH (acc + r)%Q) as [Hlo Hhi].
    assert (Hr : (0 <= r)%Q ∧ (r <= 1)%Q).
    { pose proof (ofNat_pos (Nat.max (b_exploring b) (b_making b)) ltac:(lia)).
      pose proof (ofNat_nonneg (Nat.min (b_exploring b) (b_making b))).
      pose proof (ofNat_le (Nat.min (b_exploring b) (b_making b))
                    (Nat.max (b_exploring b) (b_making b)) ltac:(lia)).
      split.
      - apply Qle_shift_div_l; [done|]. lra.
      - apply Qle_shift_div_r; [done|]. lra. }
    unfold Num.ofNat in *. rewrite Nat2Z.inj_succ. unfold Z.succ.
    rewrite inject_Z_plus. change (inject_Z 1) with 1%Q. lra.
Qed.

Lemma computeInterlacing_range (buckets : list (Z * Bucket)) :
  let r := computeInterlacing buckets in
  (i_overlapBuckets r ≤ i_activeBuckets r)%nat
  ∧ (i_activeBuckets r ≤ length buckets)%nat
  ∧ (0 <= i_interlacingIndex r)%Q ∧ (i_interlacingIndex r <= 100)%Q
  ∧ (0 <= i_overlapIntensity r)%Q ∧ (i_overlapIntensity r <= 100)%Q.
Proof.
  cbv zeta. unfold computeInterlacing. cbv zeta.
  cbn [i_overlapBuckets i_activeBuckets i_interlacingIndex i_overlapIntensity].
  set (active := List.filter _ (snd <$> buckets)).
  set (overlap := List.filter _ active).
  assert (Hoa : (length overlap ≤ length active)%nat) by apply List.filter_length_le.
  assert (Hab : (length active ≤ length buckets)%nat).
  { etrans; [apply List.filter_length_le|]. by rewrite length_fmap. }
  split_and!; [done|done|apply share_nonneg|by apply share_le_100| |].
  - destruct overlap as [|b0 l0] eqn:E; [apply Qle_refl|]. rewrite <- E.
    rewrite Qred_correct.
    destruct (intensity_sum overlap 0) as [Hlo Hhi].
    { apply Forall_forall. intros b Hb. unfold overlap in Hb.
      apply list_elem_of_In, List.filter_In in Hb as [_ Hb].
      apply andb_prop in Hb as [H1 H2]. by apply Nat.ltb_lt in H1, H2. }
    cbv zeta in Hlo.
    pose proof (ofNat_pos (length overlap) ltac:(rewrite E; simpl; lia)).
    apply Qmult_le_0_compat; [|done]. apply Qle_shift_div_l; [done|]. lra.
  - destruct overlap as [|b0 l0] eqn:E; [done|]. rewrite <- E.
    rewrite Qred_correct.
    destruct (intensity_sum overlap 0) as [Hlo Hhi].
    { apply Forall_forall. intros b Hb. unfold overlap in Hb.
      apply list_elem_of_In, List.filter_In in Hb as [_ Hb].
      apply andb_prop in Hb as [H1 H2]. by apply Nat.ltb_lt in H1, H2. }
    cbv zeta in Hhi.
    pose proof (ofNat_pos (length overlap) ltac:(rewrite E; simpl; lia)).
    set (sum := foldl _ _ overlap) in *.
    assert (sum / Num.ofNat (length overlap) <= 1)%Q; [|lra].
    apply Qle_shift_div_r; [done|]. lra.
Qed.

(** ** The ranges of the metrics *)

(** The record that [analyse] returns, field by field. *)
Ltac open_analyse H comps Hcomps :=
  unfold analyse in H; cbv zeta in H;
  match type of H with
  | context [computeInterlacing ?b] =>
      let Hi := fresh "Hinterlacing" in
      remember (computeInterlacing b) as interlacing eqn:Hi in H
  end;
  let considered := fresh "considered" in
  let cross := fresh "cross" in
  let temporal := fresh "temporal" in
  let back := fresh "back" in
  destruct (macroEdgeLoop _ _ _) as [considered cross] eqn:?;
  destruct (temporalLoop _ _ _) as [temporal back] eqn:?;
  match type of H with
  | context [Scc.computeScc ?n ?e _] =>
      let Hscc := fresh "Hscc" in
      destruct (computeScc_returns n e) as (comps & Hcomps & Hscc);
      rewrite Hscc in H; clear Hscc
  end;
  cbn [bind] in H; injection H as <-;
  cbn [Metrics.project Metrics.nodes Metrics.edges Metrics.exploring Metrics.making
       Metrics.other Metrics.sources Metrics.sinks Metrics.interlacingIndex
       Metrics.overlapIntensity Metrics.activeBuckets Metrics.overlapBuckets
       Metrics.sccCount Metrics.largestScc Metrics.cycleParticipation
       Metrics.conversionRate Metrics.feedbackRatio Metrics.leadtimeMedianDays
       Metrics.eToMEdges Metrics.mToEEdges Metrics.interlacingEdges
       Metrics.crossMacroShare Metrics.macroEdgeCoverage Metrics.crossInterlacingShare
       Metrics.interlacingMacroCoverage Metrics.multiAreaShare Metrics.avgAreas
       Metrics.convergent Metrics.divergent Metrics.reciprocityPairs Metrics.density
       Metrics.temporalBackShare Metrics.minDate Metrics.maxDate Metrics.spanDays
       Metrics.typeCounts Metrics.areaCounts Metrics.macroCounts].

Lemma NoDup_length_le {A} (l k : list A) :
  NoDup l → (∀ x, x ∈ l → x ∈ k) → (length l ≤ length k)%nat.
Proof. intros Hnd Hsub. apply submseteq_length. by apply NoDup_submseteq. Qed.

Lemma cyclicNodes_le nodes edges comps :
  Scc.componentsOf nodes edges (idToIndexOf nodes) = Some comps →
  (length (Scc.cyclicNodes (Scc.resultOf comps)) ≤ length nodes)%nat.
Proof.
  intros Hcomps.
  destruct (cyclicNodes_correct nodes edges (idToIndexOf nodes)) with (comps := comps)
    as [Hnd Hmem]; [|done|].
  { intros k. by rewrite idToIndexOf_lookup. }
  cbv zeta in *. rewrite <- (length_fmap Node.id nodes).
  apply NoDup_length_le; [done|]. intros v Hv. by apply Hmem in Hv as [Hv _].
Qed.

Section Ranges.
Context {host : Host}.

(** Every share of the record is a percentage between 0 and 100; the
    feedback ratio, the density and the mean number of areas are only
    bounded below. *)
Theorem shares_are_percentages (projectName : jsstring) (json : Raw.doc)
    (opts : Options) (m : Metrics.metrics) :
  computeMetricsForProject projectName json opts = Ok m →
  Forall (λ q, (0 <= q)%Q ∧ (q <= 100)%Q)
    [ Metrics.interlacingIndex m; Metrics.overlapIntensity m;
      Metrics.cycleParticipation m; Metrics.conversionRate m;
      Metrics.crossMacroShare m; Metrics.macroEdgeCoverage m;
      Metrics.crossInterlacingShare m; Metrics.interlacingMacroCoverage m;
      Metrics.multiAreaShare m; Metrics.temporalBackShare m ]
  ∧ (0 <= Metrics.feedbackRatio m)%Q
  ∧ (0 <= Metrics.density m)%Q
  ∧ (0 <= Metrics.avgAreas m)%Q.
Proof.
  destruct json as [|rawNodes rawEdges]; [done|].
  unfold computeMetricsForProject, metricsOf.
  intros Hm. open_analyse Hm comps Hcomps.
  set (nodes := loadNode <$> arrayOrEmpty rawNodes) in *.
  set (edges := loadEdges (idToIndexOf nodes) (arrayOrEmpty rawEdges)) in *.
  pose proof (macroEdgeLoop_le nodes (idToIndexOf nodes) edges) as Hmacro.
  pose proof (temporalLoop_le nodes (idToIndexOf nodes) edges) as Htemp.
  pose proof (transitionLoop_counters nodes edges) as Htr.
  cbv zeta in Hmacro, Htemp, Htr.
  destruct Htr as (Hsum & Hlen & Hcross & Hcons & Hlat & Hnd & Hout).
  match goal with H : macroEdgeLoop _ _ _ = _ |- _ => rewrite H in Hmacro end.
  match goal with H : temporalLoop _ _ _ = _ |- _ => rewrite H in Htemp end.
  cbn [fst snd] in Hmacro, Htemp.
  match goal with
  | H : _ = computeInterlacing ?b |- _ =>
      pose proof (computeInterlacing_range b) as Hint; cbv zeta in Hint;
      rewrite <- H in Hint
  end.
  destruct Hint as (_ & _ & Hi1 & Hi2 & Hi3 & Hi4).
  split_and!.
  - repeat (apply Forall_cons; split); try apply Forall_nil;
      try (split; [apply share_nonneg|apply share_le_100]); try done; try lia.
    + by apply (cyclicNodes_le nodes edges).
    + rewrite <- (length_fmap Node.id (List.filter _ nodes)).
      by apply NoDup_length_le.
    + apply List.filter_length_le.
  - apply share_nonneg.
  - rewrite Qred_correct. unfold densityOf.
    destruct (1 <? length nodes)%nat eqn:Hn; [|lra].
    apply Nat.ltb_lt in Hn. unfold Num.div. rewrite Qred_correct.
    pose proof (ofNat_nonneg (length edges)).
    pose proof (ofNat_pos (length nodes * (length nodes - 1)) ltac:(nia)).
    apply Qmult_le_0_compat; [|done]. apply Qle_shift_div_l; [done|]. lra.
  - unfold avgAreasOf. clearbody nodes. destruct nodes as [|nd rest]; [apply Qle_refl|].
    unfold Num.div. rewrite Qred_correct.
    match goal with |- context [Num.ofNat (foldl ?f ?a ?l)] =>
      pose proof (ofNat_nonneg (foldl f a l)) end.
    pose proof (ofNat_pos (length (nd :: rest)) ltac:(simpl; lia)).
    apply Qle_shift_div_l; [done|]. lra.
Qed.

End Ranges.

Lemma shares_are_percentages_witness :
  ∃ m, computeMetricsForProject (H := hostAt 0) (lit "1_a") Scenario.A Scenario.defaults = Ok m
       ∧ (0 <= Metrics.feedbackRatio m)%Q
       ∧ (0 <= Metrics.density m)%Q.
Proof.
  eexists. split; [vm_compute; reflexivity|].
  match goal with
  | |- context [Metrics.feedbackRatio ?m] =>
      destruct (shares_are_percentages (host := hostAt 0) (lit "1_a") Scenario.A
                  Scenario.defaults m) as (_ & Hfb & Hden & _); [vm_compute; reflexivity|]
  end.
  split; [exact Hfb|exact Hden].
Defined.

(** ** Dates of a record *)

(** ** Dates of a project *)

Lemma dateRange_spec (nodes : list Node.node) :
  match dateRange nodes with
  | (None, None) => ∀ n, n ∈ nodes → Node.date n = None
  | (Some mn, Some mx) =>
      (∃ n, n ∈ nodes ∧ Node.date n = Some mn)
      ∧ (∃ n, n ∈ nodes ∧ Node.date n = Some mx)
      ∧ ∀ n d, n ∈ nodes → Node.date n = Some d → mn ≤ d ≤ mx
  | _ => False
  end.
Proof.
  unfold dateRange. induction nodes as [|n nodes IH] using rev_ind.
  - simpl. by intros n ?%elem_of_nil.
  - rewrite foldl_app. cbn [foldl]. destruct (foldl _ _ nodes) as [[mn|] [mx|]]; [|done|done|].
    + destruct IH as ((n1 & Hn1 & Hd1) & (n2 & Hn2 & Hd2) & Hall). cbn [fst snd].
      destruct (Node.date n) as [d|] eqn:Hd.
      * assert (Hcase : ∀ n' d', n' ∈ nodes ++ [n] → Node.date n' = Some d' →
                                 (n' ∈ nodes ∧ mn ≤ d' ≤ mx) ∨ d' = d).
        { intros n' d' [Hn'| ->%list_elem_of_singleton]%elem_of_app Hd'.
          - left. split; [done|]. by apply (Hall n').
          - right. congruence. }
        destruct (d <? mn) eqn:Hlt, (mx <? d) eqn:Hgt;
          [apply Z.ltb_lt in Hlt|apply Z.ltb_lt in Hlt|apply Z.ltb_ge in Hlt
          |apply Z.ltb_ge in Hlt];
          [apply Z.ltb_lt in Hgt|apply Z.ltb_ge in Hgt|apply Z.ltb_lt in Hgt
          |apply Z.ltb_ge in Hgt];
          (split_and!;
           [ first [ by exists n; split; [apply elem_of_app; right; left|]
                   | by exists n1; split; [apply elem_of_app; left|] ]
           | first [ by exists n; split; [apply elem_of_app; right; left|]
                   | by exists n2; split; [apply elem_of_app; left|] ]
           | intros n' d' Hn' Hd'; destruct (Hcase n' d' Hn' Hd') as [[_ ?]| ->]; lia ]).
      * split_and!.
        -- exists n1. split; [apply elem_of_app; by left|done].
        -- exists n2. split; [apply elem_of_app; by left|done].
        -- intros n' d' [Hn'| ->%list_elem_of_singleton]%elem_of_app Hd';
             [by apply (Hall n')|congruence].
    + cbn [fst snd]. destruct (Node.date n) as [d|] eqn:Hd.
      * split_and!.
        -- exists n. split; [apply elem_of_app; right; left|done].
        -- exists n. split; [apply elem_of_app; right; left|done].
        -- intros n' d' [Hn'| ->%list_elem_of_singleton]%elem_of_app Hd'.
           ++ by rewrite (IH n' Hn') in Hd'.
           ++ assert (d' = d) by congruence. lia.
      * intros n' [Hn'| ->%list_elem_of_singleton]%elem_of_app; [by apply IH|done].
Qed.

Lemma days_le (a b : Z) :
  a ≤ b →
  (Num.div (inject_Z a) (inject_Z Date.msPerDay)
   <= Num.div (inject_Z b) (inject_Z Date.msPerDay))%Q.
Proof.
  intros Hab. unfold Num.div. rewrite !Qred_correct.
  unfold Qle, Qdiv, Qmult, Qinv, inject_Z, Date.msPerDay. simpl. lia.
Qed.

Lemma length_isoDay (ms : Z) : length (Date.isoDay ms) = 10%nat.
Proof.
  assert (Hdigits : ∀ w n, length (Date.digits w n) = w).
  { induction w as [|w IH]; intros n; [done|].
    cbn [Date.digits]. rewrite length_app, IH. simpl. lia. }
  unfold Date.isoDay. destruct (Date.civilFromDays _) as [[y mth] d].
  rewrite length_take. destruct ((0 <=? y) && (y <=? 9999)).
  - rewrite !length_app, !Hdigits. simpl. lia.
  - rewrite !length_app, !Hdigits. destruct (0 <=? y); simpl; lia.
Qed.

Section Span.
Context {host : Host}.

(** minDate, maxDate and spanDays are there together, exactly when a node
    is dated: the two strings are then ten characters long and spanDays is
    not negative.  The median lead time, when there is one, lies between 0
    and spanDays. *)
Theorem leadtime_within_span (projectName : jsstring) (json : Raw.doc)
    (opts : Options) (m : Metrics.metrics) :
  computeMetricsForProject projectName json opts = Ok m →
  match Metrics.spanDays m with
  | None =>
      Metrics.minDate m = [] ∧ Metrics.maxDate m = []
      ∧ Metrics.leadtimeMedianDays m = None
  | Some span =>
      length (Metrics.minDate m) = 10%nat ∧ length (Metrics.maxDate m) = 10%nat
      ∧ (0 <= span)%Q
      ∧ ∀ d, Metrics.leadtimeMedianDays m = Some d → (0 <= d)%Q ∧ (d <= span)%Q
  end.
Proof.
  destruct json as [|rawNodes rawEdges]; [done|].
  unfold computeMetricsForProject, metricsOf.
  intros Hm. open_analyse Hm comps Hcomps.
  set (nodes := loadNode <$> arrayOrEmpty rawNodes) in *.
  set (edges := loadEdges (idToIndexOf nodes) (arrayOrEmpty rawEdges)) in *.
  unfold transitionLoop. rewrite transitionLoop_latencies. cbn [eToMLatencyDays app].
  pose proof (dateRange_spec nodes) as Hrange.
  assert (Hlat : ∀ q, q ∈ omap (latencyOfEdge nodes (idToIndexOf nodes)) edges →
                      ∃ a b da db, a ∈ nodes ∧ b ∈ nodes
                                   ∧ Node.date a = Some da ∧ Node.date b = Some db
                                   ∧ da ≤ db
                                   ∧ q = Num.div (inject_Z (db - da))
                                                 (inject_Z Date.msPerDay)).
  { intros q Hq. apply list_elem_of_omap in Hq as (e & _ & Hq).
    unfold latencyOfEdge in Hq.
    destruct (nodeAt nodes (idToIndexOf nodes) (Edge.s e)) as [a|] eqn:Ha; [|done].
    destruct (nodeAt nodes (idToIndexOf nodes) (Edge.t e)) as [b|] eqn:Hb; [|done].
    apply nodeAt_Some in Ha as [Ha _]. apply nodeAt_Some in Hb as [Hb _].
    destruct (_ && _); [|done].
    destruct (proj1 (latencyOf_Some a b)) as (da & db & Hda & Hdb & Hle); [by eauto|].
    exists a, b, da, db. split_and!; try done.
    unfold latencyOf in Hq. rewrite Hda, Hdb in Hq.
    destruct (Qle_bool _ _); [|done]. by injection Hq as <-. }
  destruct (dateRange nodes) as [[mn|] [mx|]]; [|done|done|]; cbn [spanDaysOf from_option].
  - destruct Hrange as ((first & Hn1 & Hd1) & _ & Hall).
    pose proof (Hall first mn Hn1 Hd1) as Hmn.
    split_and!; [apply length_isoDay|apply length_isoDay| |].
    + change 0%Q with (Num.div (inject_Z 0) (inject_Z Date.msPerDay)).
      apply days_le. lia.
    + intros d Hd.
      assert (Hlo : ∃ lo hi, lo ∈ omap (latencyOfEdge nodes (idToIndexOf nodes)) edges
                             ∧ hi ∈ omap (latencyOfEdge nodes (idToIndexOf nodes)) edges
                             ∧ (lo <= d)%Q ∧ (d <= hi)%Q).
      { by apply median_within. }
      destruct Hlo as (lo & hi & Hlo & Hhi & Hlod & Hdhi).
      destruct (Hlat lo Hlo) as (a & b & da & db & Ha & Hb & Hda & Hdb & Hle & ->).
      destruct (Hlat hi Hhi) as (a' & b' & da' & db' & Ha' & Hb' & Hda' & Hdb' & Hle' & ->).
      split.
      * eapply Qle_trans; [|exact Hlod].
        change 0%Q with (Num.div (inject_Z 0) (inject_Z Date.msPerDay)).
        apply days_le. lia.
      * eapply Qle_trans; [exact Hdhi|]. apply days_le.
        pose proof (Hall a' da' Ha' Hda'). pose proof (Hall b' db' Hb' Hdb'). lia.
  - split_and!; [done|done|]. apply median_None.
    destruct (omap _ edges) as [|q l] eqn:E; [done|]. exfalso.
    destruct (Hlat q) as (a & _ & da & _ & Ha & _ & Hda & _); [left|].
    by rewrite (Hrange a Ha) in Hda.
Qed.

End Span.

Lemma leadtime_within_span_witness :
  ∃ m span,
    computeMetricsForProject (H := hostAt 0) (lit "1_a") Scenario.A Scenario.defaults = Ok m
    ∧ Metrics.spanDays m = Some span
    ∧ (0 <= span)%Q
    ∧ ∀ d, Metrics.leadtimeMedianDays m = Some d → (0 <= d)%Q ∧ (d <= span)%Q.
Proof.
  eexists. eexists. split; [vm_compute; reflexivity|]. split; [vm_compute; reflexivity|].
  match goal with
  | |- context [Metrics.leadtimeMedianDays ?m] =>
      pose proof (leadtime_within_span (host := hostAt 0) (lit "1_a") Scenario.A
                    Scenario.defaults m) as Hspan
  end.
  cbn [Metrics.spanDays] in Hspan.
  destruct Hspan as (_ & _ & Hpos & Hlead); [vm_compute; reflexivity|].
  split; [exact Hpos|exact Hlead].
Defined.

(** ** The counters of a record *)

Lemma count_actions (nodes : list Node.node) :
  (count (isAction exploring) nodes + count (isAction making) nodes
   + count (isAction other) nodes)%nat = length nodes.
Proof.
  unfold count, isAction. induction nodes as [|n nodes IH]; [done|].
  cbn [List.filter length]. destruct (Node.action n);
    cbn [bool_decide decide_rel];
    repeat (match goal with
            | |- context [bool_decide (?x = ?y)] =>
                first [ rewrite (bool_decide_eq_true_2 (x = y)) by done
                      | rewrite (bool_decide_eq_false_2 (x = y)) by done ]
            end); cbn [length]; lia.
Qed.

Lemma count_not_other (nodes : list Node.node) :
  length (List.filter (λ n, negb (isAction other n)) nodes)
  = (count (isAction exploring) nodes + count (isAction making) nodes)%nat.
Proof.
  unfold count, isAction. induction nodes as [|n nodes IH]; [done|].
  cbn [List.filter length]. destruct (Node.action n);
    repeat (match goal with
            | |- context [bool_decide (?x = ?y)] =>
                first [ rewrite (bool_decide_eq_true_2 (x = y)) by done
                      | rewrite (bool_decide_eq_false_2 (x = y)) by done ]
            end); cbn [negb length]; lia.
Qed.

Lemma length_set {K V} `{EqDecision K} (m : list (K * V)) k v :
  (length (Ordered.set m k v) ≤ S (length m))%nat.
Proof.
  induction m as [|[k' v'] m IH]; simpl; [lia|].
  destruct (decide (k' = k)); simpl; lia.
Qed.

Lemma length_computeBuckets (nodes : list Node.node) (minDate : Z) :
  (length (computeBuckets nodes minDate) ≤ length nodes)%nat.
Proof.
  unfold computeBuckets. induction nodes as [|n nodes IH] using rev_ind; [done|].
  rewrite foldl_app, length_app. cbn [foldl length].
  destruct (Node.date n); [|lia].
  etrans; [apply length_set|]. lia.
Qed.

Lemma length_concat_ge {A} (ls : list (list A)) (k : nat) :
  Forall (λ c, (k ≤ length c)%nat) ls → (k * length ls ≤ length (concat ls))%nat.
Proof.
  induction 1 as [|c ls Hc _ IH]; cbn [concat length]; [lia|].
  rewrite length_app. lia.
Qed.

Lemma length_concat_elem {A} (ls : list (list A)) (c : list A) :
  c ∈ ls → (length c ≤ length (concat ls))%nat.
Proof.
  induction ls as [|l ls IH]; [by intros ?%elem_of_nil|].
  cbn [concat]. rewrite length_app. intros [->|Hc]%elem_of_cons; [lia|].
  apply IH in Hc. lia.
Qed.

(** The counters of the cyclic components. *)
Lemma resultOf_counts nodes edges comps :
  Scc.componentsOf nodes edges (idToIndexOf nodes) = Some comps →
  let r := Scc.resultOf comps in
  (2 * Scc.sccCount r ≤ length (Scc.cyclicNodes r))%nat
  ∧ (Scc.largestScc r ≤ length (Scc.cyclicNodes r))%nat
  ∧ (length (Scc.cyclicNodes r) ≤ length nodes)%nat
  ∧ (Scc.sccCount r = O ↔ Scc.largestScc r = O)
  ∧ (Scc.sccCount r = O ↔ Scc.cyclicNodes r = [])
  ∧ (Scc.sccCount r ≠ O → (2 ≤ Scc.largestScc r)%nat).
Proof.
  intros Hcomps r.
  destruct (componentsOf_correct nodes edges (idToIndexOf nodes)) with (comps := comps)
    as (Hnd & _ & _); [|done|].
  { intros k. by rewrite idToIndexOf_lookup. }
  pose proof (cyclicNodes_le nodes edges comps Hcomps) as Hle. fold r in Hle.
  assert (Hcyc : Scc.cyclicNodes r = concat (Scc.cyclicOf comps)).
  { unfold r, Scc.resultOf. cbn [Scc.cyclicNodes]. apply ofList_NoDup.
    by apply NoDup_concat_filter. }
  assert (Hbig : Forall (λ c : list jsstring, (2 ≤ length c)%nat) (Scc.cyclicOf comps)).
  { apply Forall_forall. intros c Hc. unfold Scc.cyclicOf in Hc.
    apply list_elem_of_In, List.filter_In in Hc as [_ Hc]. apply Nat.ltb_lt in Hc. lia. }
  destruct (foldl_max_length (Scc.cyclicOf comps) O) as (_ & Hmax & Hex).
  change (foldl _ O (Scc.cyclicOf comps)) with (Scc.largestScc r) in Hmax, Hex.
  change (length (Scc.cyclicOf comps)) with (Scc.sccCount r) in *.
  assert (Hcount : (2 * Scc.sccCount r ≤ length (Scc.cyclicNodes r))%nat).
  { rewrite Hcyc. by apply length_concat_ge. }
  assert (Hlargest : (Scc.largestScc r ≤ length (Scc.cyclicNodes r))%nat).
  { destruct Hex as [->|(c & Hc & <-)]; [lia|]. rewrite Hcyc. by apply length_concat_elem. }
  assert (Hzero : Scc.sccCount r = O ↔ Scc.cyclicOf comps = []).
  { unfold r, Scc.resultOf. cbn [Scc.sccCount]. by destruct (Scc.cyclicOf comps). }
  split_and!; [done|done|done| | |].
  - split.
    + intros Hz. apply Hzero in Hz. unfold r, Scc.resultOf. cbn [Scc.largestScc].
      by rewrite Hz.
    + intros Hz. apply Hzero. destruct (Scc.cyclicOf comps) as [|c l] eqn:E; [done|].
      exfalso. rewrite Forall_forall in Hbig.
      pose proof (Hbig c ltac:(left)). pose proof (Hmax c ltac:(left)). lia.
  - rewrite Hzero, Hcyc. split; [by intros ->|].
    intros Hnil. destruct (Scc.cyclicOf comps) as [|c l] eqn:E; [done|]. exfalso.
    rewrite Forall_forall in Hbig. pose proof (Hbig c ltac:(left)) as Hc.
    cbn [concat] in Hnil. apply app_eq_nil in Hnil as [-> _]. simpl in Hc. lia.
  - intros Hne. destruct (Scc.cyclicOf comps) as [|c l] eqn:E.
    + exfalso. apply Hne. by apply Hzero.
    + rewrite Forall_forall in Hbig.
      pose proof (Hbig c ltac:(left)). pose proof (Hmax c ltac:(left)). lia.
Qed.

Lemma share_O (d : nat) : Num.share O d = 0%Q.
Proof.
  unfold Num.share. destruct d as [|d]; [done|].
  transitivity (Qred 0); [|done]. apply Qred_complete.
  change (Num.ofNat 0) with 0%Q. unfold Qdiv. ring.
Qed.

Section Counts.
Context {host : Host}.

(** The counters of a record fit together: the three actions share out the
    nodes; the mode-transition edges are E→M or M→E; no more weeks are
    active than there are exploring or making nodes; the cyclic components
    have two ids or more each and do not overlap. *)
Theorem counters_fit_together (projectName : jsstring) (json : Raw.doc)
    (opts : Options) (m : Metrics.metrics) :
  computeMetricsForProject projectName json opts = Ok m →
  (Metrics.exploring m + Metrics.making m + Metrics.other m)%nat = Metrics.nodes m
  ∧ (Metrics.eToMEdges m + Metrics.mToEEdges m)%nat = Metrics.interlacingEdges m
  ∧ (Metrics.interlacingEdges m ≤ Metrics.edges m)%nat
  ∧ (Metrics.overlapBuckets m ≤ Metrics.activeBuckets m)%nat
  ∧ (Metrics.activeBuckets m ≤ Metrics.exploring m + Metrics.making m)%nat
  ∧ (2 * Metrics.sccCount m ≤ Metrics.nodes m)%nat
  ∧ (Metrics.largestScc m ≤ Metrics.nodes m)%nat
  ∧ (Metrics.sccCount m = O ↔ Metrics.largestScc m = O)
  ∧ (Metrics.sccCount m = O ↔ Metrics.cycleParticipation m = 0%Q)
  ∧ (Metrics.sccCount m ≠ O → (2 ≤ Metrics.largestScc m)%nat).
Proof.
  destruct json as [|rawNodes rawEdges]; [done|].
  unfold computeMetricsForProject, metricsOf.
  intros Hm. open_analyse Hm comps Hcomps.
  set (nodes := loadNode <$> arrayOrEmpty rawNodes) in *.
  set (edges := loadEdges (idToIndexOf nodes) (arrayOrEmpty rawEdges)) in *.
  pose proof (transitionLoop_counters nodes edges) as Htr. cbv zeta in Htr.
  destruct Htr as (Hsum & Hlen & _).
  pose proof (resultOf_counts nodes edges comps Hcomps) as Hscc. cbv zeta in Hscc.
  unfold Scc.resultOf in Hscc. cbn [Scc.sccCount Scc.largestScc Scc.cyclicNodes] in Hscc.
  destruct Hscc as (H2 & Hl & Hc & Hz & Hnil & Hbig).
  match goal with
  | H : _ = computeInterlacing ?b |- _ =>
      pose proof (computeInterlacing_range b) as Hint; cbv zeta in Hint;
      rewrite <- H in Hint;
      assert (Hb : (length b ≤ length (List.filter (λ n, negb (isAction other n)) nodes))%nat)
  end.
  { destruct (dateRange nodes).1; [apply length_computeBuckets|simpl; lia]. }
  destruct Hint as (Hoa & Hab & _).
  rewrite count_not_other in Hb. fold (count (isAction exploring) nodes).
  fold (count (isAction making) nodes). fold (count (isAction other) nodes).
  split_and!; try done; try lia.
  - apply count_actions.
  - rewrite Hnil. split.
    + intros ->. apply share_O.
    + intros Hshare. destruct (Ordered.ofList (concat (Scc.cyclicOf comps))) as [|v l]; [done|].
      exfalso. cbn [length] in *. unfold Num.share in Hshare.
      destruct (length nodes) as [|k] eqn:Ek; [lia|].
      assert (Hpos : (0 < Qred (Num.ofNat (S (length l)) / Num.ofNat (S k) * 100))%Q).
      { rewrite Qred_correct.
        pose proof (ofNat_pos (S (length l)) ltac:(lia)).
        pose proof (ofNat_pos (S k) ltac:(lia)).
        apply Qmult_lt_0_compat; [|done]. by apply Qlt_shift_div_l; [|lra]. }
      rewrite Hshare in Hpos. by apply Qlt_irrefl in Hpos.
Qed.

End Counts.

Lemma counters_fit_together_witness :
  ∃ m, computeMetricsForProject (H := hostAt 0) (lit "1_a") Scenario.A Scenario.defaults = Ok m
       ∧ (Metrics.exploring m + Metrics.making m + Metrics.other m)%nat = Metrics.nodes m
       ∧ (Metrics.eToMEdges m + Metrics.mToEEdges m)%nat = Metrics.interlacingEdges m.
Proof.
  eexists. split; [vm_compute; reflexivity|].
  match goal with
  | |- context [Metrics.eToMEdges ?m] =>
      destruct (counters_fit_together (host := hostAt 0) (lit "1_a") Scenario.A
                  Scenario.defaults m) as (Hnodes & Hedges & _); [vm_compute; reflexivity|]
  end.
  split; [exact Hnodes|exact Hedges].
Defined.

(** ** Projects without cycle *)

(** ** Sources and sinks *)

Lemma tc_flip {A} (R : relation A) x y : tc (flip R) x y → tc R y x.
Proof.
  induction 1 as [x y Hxy|x y z Hxy _ IH].
  - by apply tc_once.
  - eapply tc_r; [exact IH|exact Hxy].
Qed.

Lemma count_pos {A} (p : A → bool) (l : list A) (x : A) :
  x ∈ l → p x = true → (1 ≤ count p l)%nat.
Proof.
  intros Hx Hp. unfold count.
  assert (Hin : x ∈ List.filter p l).
  { apply list_elem_of_In, List.filter_In. split; [by apply list_elem_of_In|done]. }
  destruct (List.filter p l); [by apply elem_of_nil in Hin|simpl; lia].
Qed.

Lemma count_zero {A} (p : A → bool) (l : list A) :
  (∀ x, x ∈ l → p x = false) → count p l = O.
Proof.
  intros Hall. unfold count. induction l as [|x l IH]; [done|].
  cbn [List.filter]. rewrite (Hall x) by left. apply IH. intros y Hy. apply Hall. by right.
Qed.

Lemma loadEdges_valid idToIndex rawEdges e :
  e ∈ loadEdges idToIndex rawEdges →
  Edge.s e ≠ Edge.t e ∧ is_Some (idToIndex !! Edge.s e) ∧ is_Some (idToIndex !! Edge.t e).
Proof.
  unfold loadEdges. intros He. apply list_elem_of_In, List.filter_In in He as [_ He].
  unfold validEdge, has in He.
  repeat (apply andb_prop in He as [He ?]).
  split_and!; [|by eapply bool_decide_eq_true_1..].
  intros Heq. by rewrite bool_decide_eq_true_2 in * by done.
Qed.

Section Acyclic.
Variables (nodes : list Node.node) (rawEdges : list Raw.edge).

Let idToIndex := idToIndexOf nodes.
Let edges := loadEdges idToIndex rawEdges.
Let R : relation jsstring := edgeOf idToIndex edges.

Hypothesis acyclic :
  ∀ v, v ∈ Node.id <$> nodes → ¬ ∃ w, w ≠ v ∧ connected idToIndex edges v w.

Lemma arc_known u v : R u v → u ∈ Node.id <$> nodes ∧ v ∈ Node.id <$> nodes.
Proof.
  intros (e & _ & _ & _ & _ & Hu & Hv). split; by apply idToIndexOf_lookup.
Qed.

Lemma no_cycle : Irreflexive (tc R).
Proof.
  intros x Hx. inversion Hx as [? ? Hxx|? y ? Hxy Hyx]; subst.
  - by destruct Hxx as (e & _ & _ & _ & Hne & _).
  - apply (acyclic x); [by apply arc_known in Hxy as [? _]|].
    exists y. split.
    + destruct Hxy as (e & _ & _ & _ & Hne & _). congruence.
    + split; [by apply rtc_once|by apply tc_rtc].
Qed.

Lemma no_cycle_back : Irreflexive (tc (flip R)).
Proof. intros x Hx. apply (no_cycle x). by apply tc_flip. Qed.

Lemma arc_out_dec y : Decision (red R y).
Proof.
  destruct (decide (Exists (λ e, Edge.s e = y) edges)) as [Hs|Hs].
  - left. apply Exists_exists in Hs as (e & He & Hs). exists (Edge.t e).
    destruct (loadEdges_valid _ _ _ He) as (Hne & H1 & H2).
    exists e. split_and!; try done; congruence.
  - right. intros (z & e & He & Hse & _). apply Hs, Exists_exists. by exists e.
Qed.

Lemma arc_in_dec y : Decision (red (flip R) y).
Proof.
  destruct (decide (Exists (λ e, Edge.t e = y) edges)) as [Hs|Hs].
  - left. apply Exists_exists in Hs as (e & He & Hs). exists (Edge.s e).
    destruct (loadEdges_valid _ _ _ He) as (Hne & H1 & H2).
    exists e. split_and!; try done; congruence.
  - right. intros (z & e & He & _ & Hte & _). apply Hs, Exists_exists. by exists e.
Qed.

(** From every id a path of valid edges leads to an id without outgoing
    edge, and a path leads to it from an id without incoming edge. *)
Lemma ends_exist v :
  v ∈ Node.id <$> nodes →
  (∃ y, y ∈ Node.id <$> nodes ∧ ∀ e, e ∈ edges → Edge.s e ≠ y)
  ∧ (∃ y, y ∈ Node.id <$> nodes ∧ ∀ e, e ∈ edges → Edge.t e ≠ y).
Proof.
  intros Hv. split.
  - pose proof arc_out_dec as Hdec.
    destruct (sn_wn (R:=R) v) as (y & Hvy & Hnf).
    { apply tc_finite_sn; [apply no_cycle|]. exists (Node.id <$> nodes).
      intros x Hx. apply tc_rtc_r with (z := x) in Hx; [|done].
      inversion Hx as [? ? Hxx|? z ? _ Hzx]; subst.
      - by apply arc_known in Hxx as [_ ?].
      - clear Hx. induction Hzx as [? ? H|? ? ? _ _ IH]; [by apply arc_known in H as [_ ?]|done]. }
    exists y. split.
    + apply rtc_inv_r in Hvy as [->|(z & _ & Hzy)]; [done|]. by apply arc_known in Hzy as [_ ?].
    + intros e He Hs. apply Hnf. exists (Edge.t e).
      destruct (loadEdges_valid _ _ _ He) as (Hne & H1 & H2).
      exists e. split_and!; try done; congruence.
  - pose proof arc_in_dec as Hdec.
    destruct (sn_wn (R:=flip R) v) as (y & Hvy & Hnf).
    { apply tc_finite_sn; [apply no_cycle_back|]. exists (Node.id <$> nodes).
      intros x Hx. apply tc_flip in Hx.
      inversion Hx as [? ? Hxx|? z ? Hxz _]; subst.
      - by apply arc_known in Hxx as [? _].
      - by apply arc_known in Hxz as [? _]. }
    exists y. split.
    + apply rtc_inv_r in Hvy as [->|(z & _ & Hzy)]; [done|]. by apply arc_known in Hzy as [? _].
    + intros e He Ht. apply Hnf. exists (Edge.s e).
      destruct (loadEdges_valid _ _ _ He) as (Hne & H1 & H2).
      exists e. unfold flip. split_and!; try done; congruence.
Qed.

End Acyclic.

Section Sources.
Context {host : Host}.

(** A project that has a node and no cycle has a source and a sink: a node
    without incoming valid edge and a node without outgoing valid edge. *)
Theorem acyclic_project_has_ends (projectName : jsstring) (json : Raw.doc)
    (opts : Options) (m : Metrics.metrics) :
  computeMetricsForProject projectName json opts = Ok m →
  Metrics.sccCount m = O → Metrics.nodes m ≠ O →
  (1 ≤ Metrics.sources m)%nat ∧ (1 ≤ Metrics.sinks m)%nat.
Proof.
  destruct json as [|rawNodes rawEdges]; [done|].
  unfold computeMetricsForProject, metricsOf.
  intros Hm. open_analyse Hm comps Hcomps.
  set (nodes := loadNode <$> arrayOrEmpty rawNodes) in *.
  set (edges := loadEdges (idToIndexOf nodes) (arrayOrEmpty rawEdges)) in *.
  intros Hzero Hnodes.
  pose proof (resultOf_counts nodes edges comps Hcomps) as Hscc. cbv zeta in Hscc.
  destruct Hscc as (_ & _ & _ & _ & Hnil & _).
  apply Hnil in Hzero.
  destruct (cyclicNodes_correct nodes edges (idToIndexOf nodes)) with (comps := comps)
    as [_ Hmem]; [|done|].
  { intros k. by rewrite idToIndexOf_lookup. }
  cbv zeta in Hmem. rewrite Hzero in Hmem.
  assert (Hacyclic : ∀ v, v ∈ Node.id <$> nodes →
                          ¬ ∃ w, w ≠ v ∧ connected (idToIndexOf nodes) edges v w).
  { intros v Hv Hw. by apply (elem_of_nil v), Hmem. }
  assert (Hfirst : ∃ v, v ∈ Node.id <$> nodes).
  { destruct nodes as [|nd rest]; [done|]. exists (Node.id nd). left. }
  destruct Hfirst as [v Hv].
  destruct (ends_exist nodes (arrayOrEmpty rawEdges) Hacyclic v Hv)
    as [(y & Hy & Hsink) (z & Hz & Hsource)].
  fold edges in Hsink, Hsource.
  apply list_elem_of_fmap in Hy as (ny & -> & Hny).
  apply list_elem_of_fmap in Hz as (nz & -> & Hnz).
  split.
  - apply (count_pos _ nodes nz Hnz). apply Nat.eqb_eq.
    rewrite inDegOf_spec. apply count_zero. intros e He.
    apply bool_decide_eq_false_2. by apply Hsource.
  - apply (count_pos _ nodes ny Hny). apply Nat.eqb_eq.
    rewrite outDegOf_spec. apply count_zero. intros e He.
    apply bool_decide_eq_false_2. by apply Hsink.
Qed.

End Sources.

Lemma acyclic_project_has_ends_witness :
  ∃ m, computeMetricsForProject (H := hostAt 0) (lit "1_a") Scenario.A Scenario.defaults = Ok m
       ∧ Metrics.sccCount m = O
       ∧ (1 ≤ Metrics.sources m)%nat ∧ (1 ≤ Metrics.sinks m)%nat.
Proof.
  eexists. split; [vm_compute; reflexivity|]. split; [reflexivity|].
  match goal with
  | |- context [Metrics.sources ?m] =>
      apply (acyclic_project_has_ends (host := hostAt 0) (lit "1_a") Scenario.A
               Scenario.defaults m); [vm_compute; reflexivity|reflexivity|discriminate]
  end.
Defined.

(** ** Frequency tables *)

(** ** Frequency tables *)

Section Tables.
Context {K : Type} `{EqDecision K}.

Lemma set_keys {V} (m : list (K * V)) k v :
  (Ordered.set m k v).*1 = if bool_decide (k ∈ m.*1) then m.*1 else m.*1 ++ [k].
Proof.
  induction m as [|[k' v'] m IH]; [done|]. cbn [Ordered.set].
  destruct (decide (k' = k)) as [->|Hne]; cbn [fmap list_fmap fst].
  - rewrite bool_decide_eq_true_2 by left. done.
  - rewrite IH. case_bool_decide as Hk.
    + rewrite bool_decide_eq_true_2 by (by right). done.
    + rewrite bool_decide_eq_false_2; [done|].
      intros [?|?]%elem_of_cons; [congruence|done].
Qed.

Lemma set_NoDup {V} (m : list (K * V)) k v : NoDup m.*1 → NoDup (Ordered.set m k v).*1.
Proof.
  intros Hnd. rewrite set_keys. case_bool_decide as Hk; [done|].
  apply NoDup_app. split_and!; [done| |apply NoDup_singleton].
  by intros x Hx ->%list_elem_of_singleton.
Qed.

Lemma get_Some_elem {V} (m : list (K * V)) k v :
  NoDup m.*1 → (Ordered.get m k = Some v ↔ (k, v) ∈ m).
Proof.
  induction m as [|[k' v'] m IH]; intros Hnd; cbn [Ordered.get].
  - split; [done|by intros ?%elem_of_nil].
  - cbn [fmap list_fmap fst] in Hnd. apply NoDup_cons in Hnd as [Hk' Hnd].
    destruct (decide (k' = k)) as [->|Hne].
    + split; [intros [= ->]; left|].
      intros [[= ->]|Hin]%elem_of_cons; [done|]. exfalso. apply Hk'.
      apply list_elem_of_fmap. by exists (k, v).
    + rewrite IH by done. split; [by right|].
      intros [[= -> ->]|Hin]%elem_of_cons; done.
Qed.

Lemma sum_set (m : list (K * nat)) k v :
  (sum_list (Ordered.set m k v).*2 + default O (Ordered.get m k))%nat
  = (sum_list m.*2 + v)%nat.
Proof.
  induction m as [|[k' v'] m IH]; cbn [Ordered.set Ordered.get].
  - simpl. lia.
  - destruct (decide (k' = k)) as [->|Hne]; cbn [fmap list_fmap snd sum_list default
                                                   from_option id]; [simpl; lia|].
    simpl in *. lia.
Qed.

Lemma sum_bump (m : list (K * nat)) k :
  sum_list (Ordered.bump m k).*2 = S (sum_list m.*2).
Proof. unfold Ordered.bump. pose proof (sum_set m k (S (default O (Ordered.get m k)))). lia. Qed.

Lemma get_bump (m : list (K * nat)) x k :
  Ordered.get (Ordered.bump m x) k
  = if bool_decide (x = k) then Some (S (default O (Ordered.get m k))) else Ordered.get m k.
Proof.
  unfold Ordered.bump. case_bool_decide as Hx.
  - subst. apply get_set_eq.
  - by apply get_set_ne.
Qed.

(** The table that counting the keys [ks] one by one builds. *)
Lemma bump_all (ks : list K) :
  let table := foldl Ordered.bump [] ks in
  NoDup table.*1
  ∧ sum_list table.*2 = length ks
  ∧ ∀ k, Ordered.get table k
         = if bool_decide (k ∈ ks) then Some (count (λ x, bool_decide (x = k)) ks) else None.
Proof.
  cbv zeta. induction ks as [|x ks IH] using rev_ind.
  - cbn. split_and!; [constructor|done|]. intros k.
    by rewrite bool_decide_eq_false_2 by (by intros ?%elem_of_nil).
  - rewrite foldl_app. cbn [foldl]. destruct IH as (Hnd & Hsum & Hget).
    split_and!.
    + by apply set_NoDup.
    + rewrite sum_bump, Hsum, length_app. simpl. lia.
    + intros k. rewrite get_bump, Hget, count_snoc.
      case_bool_decide as Hx.
      * subst. rewrite (bool_decide_eq_true_2 (k ∈ ks ++ [k]))
          by (apply elem_of_app; right; left).
        f_equal. case_bool_decide as Hk; cbn [default from_option id]; [lia|].
        rewrite count_zero; [lia|].
        intros y Hy. apply bool_decide_eq_false_2. by intros ->.
      * case_bool_decide as Hk.
        -- rewrite bool_decide_eq_true_2 by (apply elem_of_app; by left). f_equal. lia.
        -- rewrite bool_decide_eq_false_2; [done|].
           intros [?| ->%list_elem_of_singleton]%elem_of_app; done.
Qed.

Lemma insertDesc_Permutation (x : K * nat) l : Num.insertDesc x l ≡ₚ x :: l.
Proof.
  induction l as [|y l IH]; [done|]. cbn [Num.insertDesc].
  destruct (x.2 <? y.2)%nat; [|done]. rewrite IH. apply perm_swap.
Qed.

Lemma sortDesc_Permutation (l : list (K * nat)) : Num.sortDesc l ≡ₚ l.
Proof.
  unfold Num.sortDesc. induction l as [|x l IH]; [done|].
  cbn [foldr]. by rewrite insertDesc_Permutation, IH.
Qed.

Lemma insertDesc_sorted (x : K * nat) l :
  StronglySorted (λ a b, (b.2 ≤ a.2)%nat) l →
  StronglySorted (λ a b, (b.2 ≤ a.2)%nat) (Num.insertDesc x l).
Proof.
  induction 1 as [|y l Hs IH Hall]; cbn [Num.insertDesc].
  - repeat constructor.
  - destruct (Nat.ltb_spec x.2 y.2) as [Hlt|Hge].
    + constructor; [done|]. rewrite insertDesc_Permutation. constructor; [lia|done].
    + constructor; [by constructor|]. constructor; [done|].
      eapply Forall_impl; [exact Hall|]. intros z Hz. cbn beta in Hz. lia.
Qed.

Lemma sortDesc_sorted (l : list (K * nat)) :
  StronglySorted (λ a b, (b.2 ≤ a.2)%nat) (Num.sortDesc l).
Proof.
  unfold Num.sortDesc. induction l as [|x l IH]; cbn [foldr]; [constructor|].
  by apply insertDesc_sorted.
Qed.

(** A frequency table: the keys counted one by one, then sorted by
    decreasing count. *)
Lemma frequency_table (ks : list K) :
  let table := Num.sortDesc (foldl Ordered.bump [] ks) in
  NoDup table.*1
  ∧ StronglySorted (λ a b, (b.2 ≤ a.2)%nat) table
  ∧ sum_list table.*2 = length ks
  ∧ ∀ k c, (k, c) ∈ table ↔ k ∈ ks ∧ c = count (λ x, bool_decide (x = k)) ks.
Proof.
  cbv zeta. destruct (bump_all ks) as (Hnd & Hsum & Hget). cbv zeta in *.
  pose proof (sortDesc_Permutation (foldl Ordered.bump [] ks)) as Hperm.
  split_and!.
  - by rewrite Hperm.
  - apply sortDesc_sorted.
  - by rewrite Hperm.
  - intros k c. rewrite Hperm, <- get_Some_elem, Hget by done.
    case_bool_decide as Hk; [|naive_solver]. split; [by intros [= <-]|by intros [_ ->]].
Qed.

End Tables.

Lemma foldl_bump_fmap {A K} `{EqDecision K} (f : A → K) (l : list A) (m : list (K * nat)) :
  foldl (λ m x, Ordered.bump m (f x)) m l = foldl Ordered.bump m (f <$> l).
Proof. revert m. induction l as [|x l IH]; intros m; [done|]. cbn [foldl fmap list_fmap]. apply IH. Qed.

Lemma foldl_bump_concat {A K} `{EqDecision K} (f : A → list K) (l : list A)
    (m : list (K * nat)) :
  foldl (λ m x, foldl Ordered.bump m (f x)) m l = foldl Ordered.bump m (concat (f <$> l)).
Proof.
  revert m. induction l as [|x l IH]; intros m; [done|].
  cbn [foldl fmap list_fmap concat]. by rewrite foldl_app, IH.
Qed.

Lemma length_concat_sum {A B} (f : A → list B) (l : list A) :
  length (concat (f <$> l)) = foldl (λ acc x, acc + length (f x))%nat O l.
Proof.
  assert (H : ∀ acc, foldl (λ acc x, acc + length (f x))%nat acc l
                     = (acc + length (concat (f <$> l)))%nat).
  { induction l as [|x l IH]; intros acc; cbn [foldl fmap list_fmap concat]; [simpl; lia|].
    rewrite IH, length_app. lia. }
  rewrite H. lia.
Qed.

Lemma count_pos_iff {A} `{EqDecision A} (l : list A) (k : A) :
  (0 < count (λ x, bool_decide (x = k)) l)%nat ↔ k ∈ l.
Proof.
  split.
  - intros Hpos. destruct (decide (k ∈ l)) as [|Hno]; [done|].
    rewrite count_zero in Hpos; [lia|].
    intros x Hx. apply bool_decide_eq_false_2. by intros ->.
  - intros Hk. apply (count_pos _ l k Hk). by apply bool_decide_eq_true_2.
Qed.

Lemma count_concat_NoDup {A} `{EqDecision A} (ls : list (list A)) (k : A) :
  Forall NoDup ls →
  count (λ x, bool_decide (x = k)) (concat ls) = count (λ l, bool_decide (k ∈ l)) ls.
Proof.
  induction 1 as [|l ls Hl _ IH]; [done|].
  cbn [concat]. rewrite count_app, IH.
  change (l :: ls) with ([l] ++ ls). rewrite (count_app _ [l] ls). f_equal.
  unfold count at 2. cbn [List.filter]. case_bool_decide as Hk; cbn [length].
  - clear IH. induction Hl as [|x l Hx Hl IH]; [by apply elem_of_nil in Hk|].
    unfold count in *. cbn [List.filter]. case_bool_decide as Hxk; cbn [length].
    + subst. f_equal. apply (count_zero (λ y, bool_decide (y = k))).
      intros y Hy. apply bool_decide_eq_false_2. by intros ->.
    + apply IH. by apply elem_of_cons in Hk as [->|Hk].
  - apply count_zero. intros y Hy. apply bool_decide_eq_false_2. by intros ->.
Qed.

Section TablesOfRecord.
Context {host : Host}.

(** The three frequency tables of a record.  Each lists its keys once, by
    decreasing count, with the number of nodes (for the areas: of mentions)
    that have the key; the counts of the types and of the macro-areas add up
    to the number of nodes, those of the areas to the number of mentions,
    and avgAreas is that number over the number of nodes. *)
Theorem tables_count_every_node (projectName : jsstring) (rawNodes : Field Raw.node)
    (rawEdges : Field Raw.edge) (opts : Options) (m : Metrics.metrics) :
  let nodes := loadNode <$> arrayOrEmpty rawNodes in
  let typeKey := λ n, if truthy (Node.type n) then Node.type n else lit "(none)" in
  computeMetricsForProject projectName (Raw.Obj rawNodes rawEdges) opts = Ok m →
  (NoDup (Metrics.typeCounts m).*1
   ∧ StronglySorted (λ a b, (b.2 ≤ a.2)%nat) (Metrics.typeCounts m)
   ∧ sum_list (Metrics.typeCounts m).*2 = Metrics.nodes m
   ∧ ∀ k c, (k, c) ∈ Metrics.typeCounts m ↔
            (0 < c)%nat ∧ c = count (λ n, bool_decide (typeKey n = k)) nodes)
  ∧ (NoDup (Metrics.macroCounts m).*1
     ∧ StronglySorted (λ a b, (b.2 ≤ a.2)%nat) (Metrics.macroCounts m)
     ∧ sum_list (Metrics.macroCounts m).*2 = Metrics.nodes m
     ∧ ∀ k c, (k, c) ∈ Metrics.macroCounts m ↔
              (0 < c)%nat ∧ c = count (λ n, bool_decide (Node.macro n = k)) nodes)
  ∧ (NoDup (Metrics.areaCounts m).*1
     ∧ StronglySorted (λ a b, (b.2 ≤ a.2)%nat) (Metrics.areaCounts m)
     ∧ (Metrics.nodes m ≠ O →
        Metrics.avgAreas m
        = Num.div (Num.ofNat (sum_list (Metrics.areaCounts m).*2))
                  (Num.ofNat (Metrics.nodes m)))
     ∧ ∀ k c, (k, c) ∈ Metrics.areaCounts m ↔
              (0 < c)%nat ∧ c = count (λ n, bool_decide (k ∈ Node.areas n)) nodes).
Proof.
  intros nodes typeKey. unfold computeMetricsForProject, metricsOf.
  intros Hm. open_analyse Hm comps Hcomps. fold nodes.
  assert (Hareas : Forall NoDup (Node.areas <$> nodes)).
  { apply Forall_fmap, Forall_fmap, Forall_forall. intros raw _. cbn.
    destruct (normalizeAreaList_inv (Raw.areas (default Raw.noData (Raw.node_data raw)))
                (AArr (default [] (Raw.mainAreas (default Raw.noData (Raw.node_data raw)))
                       ++ [Raw.mainArea (default Raw.noData (Raw.node_data raw));
                           Raw.mainarea (default Raw.noData (Raw.node_data raw))])))
      as (_ & Hnd & _).
    by apply NoDup_fmap_1 in Hnd. }
  split_and!.
  - unfold typeCountsOf. rewrite foldl_bump_fmap. apply frequency_table.
  - unfold typeCountsOf. rewrite foldl_bump_fmap. apply frequency_table.
  - unfold typeCountsOf. rewrite foldl_bump_fmap.
    destruct (frequency_table ((λ n, if truthy (trim (Node.type n)) then trim (Node.type n)
                                     else lit "(none)") <$> nodes)) as (_ & _ & -> & _).
    by rewrite length_fmap.
  - intros k c. unfold typeCountsOf. rewrite foldl_bump_fmap.
    destruct (frequency_table ((λ n, if truthy (trim (Node.type n)) then trim (Node.type n)
                                     else lit "(none)") <$> nodes)) as (_ & _ & _ & ->).
    rewrite <- count_pos_iff, count_fmap.
    assert (Hkey : count ((λ x, bool_decide (x = k))
                          ∘ (λ n, if truthy (trim (Node.type n)) then trim (Node.type n)
                                  else lit "(none)")) nodes
                   = count (λ n, bool_decide (typeKey n = k)) nodes).
    { apply count_ext_in. intros n Hn. unfold compose, typeKey.
      apply list_elem_of_fmap in Hn as (raw & -> & _). cbn [loadNode Node.type].
      by rewrite trim_idem. }
    rewrite Hkey. naive_solver.
  - unfold macroCountsOf. rewrite foldl_bump_fmap. apply frequency_table.
  - unfold macroCountsOf. rewrite foldl_bump_fmap. apply frequency_table.
  - unfold macroCountsOf. rewrite foldl_bump_fmap.
    destruct (frequency_table (Node.macro <$> nodes)) as (_ & _ & -> & _).
    by rewrite length_fmap.
  - intros k c. unfold macroCountsOf. rewrite foldl_bump_fmap.
    destruct (frequency_table (Node.macro <$> nodes)) as (_ & _ & _ & ->).
    rewrite <- count_pos_iff, count_fmap. unfold compose. naive_solver.
  - unfold areaCountsOf. rewrite foldl_bump_concat. apply frequency_table.
  - unfold areaCountsOf. rewrite foldl_bump_concat. apply frequency_table.
  - unfold areaCountsOf. rewrite foldl_bump_concat.
    destruct (frequency_table (concat (Node.areas <$> nodes))) as (_ & _ & -> & _).
    rewrite length_concat_sum. unfold avgAreasOf. intros Hne.
    by destruct nodes as [|nd rest] eqn:En.
  - intros k c. unfold areaCountsOf. rewrite foldl_bump_concat.
    destruct (frequency_table (concat (Node.areas <$> nodes))) as (_ & _ & _ & ->).
    rewrite <- count_pos_iff, count_concat_NoDup, count_fmap by done.
    unfold compose. naive_solver.
Qed.

End TablesOfRecord.

Lemma tables_count_every_node_witness :
  ∃ m, computeMetricsForProject (H := hostAt 0) (lit "1_a") Scenario.A Scenario.defaults = Ok m
       ∧ sum_list (Metrics.typeCounts m).*2 = Metrics.nodes m
       ∧ sum_list (Metrics.macroCounts m).*2 = Metrics.nodes m.
Proof.
  eexists. split; [vm_compute; reflexivity|].
  match goal with
  | |- context [Metrics.typeCounts ?m] =>
      destruct (tables_count_every_node (host := hostAt 0) (lit "1_a")
                  (FArr [Scenario.node "N1" "exploring" "2024-01-01";
                         Scenario.node "N2" "making" "2024-01-08";
                         Scenario.node "N3" "exploring" "2024-01-15"])
                  (FArr [Scenario.edge (lit "N1") (lit "N2");
                         Scenario.edge (lit "N2") (lit "N3")])
                  Scenario.defaults m)
        as ((_ & _ & Htypes & _) & (_ & _ & Hmacros & _) & _); [vm_compute; reflexivity|]
  end.
  split; [exact Htypes|exact Hmacros].
Defined.

(** ** The tables of the cohort *)

Section Merge.
Context {K : Type} `{EqDecision K}.

Lemma addCount_keys (all : list (K * nat)) kc : NoDup all.*1 → NoDup (addCount all kc).*1.
Proof. apply set_NoDup. Qed.

Lemma addCount_sum (all : list (K * nat)) kc :
  sum_list (addCount all kc).*2 = (sum_list all.*2 + kc.2)%nat.
Proof.
  unfold addCount.
  pose proof (sum_set all kc.1 (default O (Ordered.get all kc.1) + kc.2)%nat). lia.
Qed.

Lemma mergeCounts_spec (tables : list (list (K * nat))) :
  NoDup (mergeCounts tables).*1
  ∧ sum_list (mergeCounts tables).*2 = sum_list_with (λ t, sum_list t.*2) tables.
Proof.
  unfold mergeCounts. induction tables as [|t tables IH] using rev_ind.
  - split; [constructor|done].
  - rewrite foldl_app, sum_list_with_app. cbn [foldl sum_list_with].
    destruct IH as [Hnd Hsum]. set (all := foldl _ [] tables) in *.
    clearbody all. rewrite <- Hsum. clear Hsum. rewrite Nat.add_0_r.
    revert all Hnd. induction t as [|kc t IHt]; intros all Hnd; cbn [foldl].
    + split; [done|]. simpl. lia.
    + destruct (IHt (addCount all kc) (addCount_keys all kc Hnd)) as [Hnd' Hsum'].
      split; [done|]. rewrite Hsum', addCount_sum, fmap_cons.
      change (sum_list (kc.2 :: t.*2)) with (kc.2 + sum_list t.*2)%nat. lia.
Qed.

Lemma foldl_add_sum (l : list nat) (acc : nat) :
  foldl Nat.add acc l = (acc + sum_list l)%nat.
Proof. revert acc. induction l as [|x l IH]; intros acc; simpl; [lia|]. rewrite IH. lia. Qed.

Lemma elem_sum_le (l : list (K * nat)) k c : (k, c) ∈ l → (c ≤ sum_list l.*2)%nat.
Proof.
  induction l as [|[k' c'] l IH]; [by intros ?%elem_of_nil|].
  rewrite fmap_cons.
  change (sum_list ((k', c').2 :: l.*2)) with (c' + sum_list l.*2)%nat.
  intros [[= -> ->]|Hin]%elem_of_cons; [lia|]. apply IH in Hin. lia.
Qed.

End Merge.

Lemma shareOf_range (c total : nat) :
  (c ≤ total)%nat → (0 <= shareOf c total)%Q ∧ (shareOf c total <= 100)%Q.
Proof.
  intros Hle. unfold shareOf. rewrite Qred_correct.
  assert (Hmax : (c ≤ Nat.max 1 total)%nat) by lia.
  pose proof (ofNat_pos (Nat.max 1 total) ltac:(lia)) as Hpos.
  pose proof (ofNat_nonneg c) as Hc. pose proof (ofNat_le _ _ Hmax) as Hcm.
  split.
  - apply Qmult_le_0_compat; [|lra]. by apply Qle_shift_div_l; [|lra].
  - assert (Num.ofNat c / Num.ofNat (Nat.max 1 total) <= 1)%Q; [|lra].
    apply Qle_shift_div_r; [done|lra].
Qed.

Section Cohort.
Context {host : Host}.

Lemma record_counts (projectName : jsstring) (json : Raw.doc) (opts : Options)
    (m : Metrics.metrics) :
  computeMetricsForProject projectName json opts = Ok m →
  Metrics.project m = projectName
  ∧ (Metrics.exploring m + Metrics.making m ≤ Metrics.nodes m)%nat
  ∧ sum_list (Metrics.typeCounts m).*2 = Metrics.nodes m
  ∧ sum_list (Metrics.macroCounts m).*2 = Metrics.nodes m.
Proof.
  destruct json as [|rawNodes rawEdges]; [done|].
  unfold computeMetricsForProject, metricsOf.
  intros Hm. open_analyse Hm comps Hcomps.
  set (nodes := loadNode <$> arrayOrEmpty rawNodes) in *.
  split_and!.
  - done.
  - pose proof (count_actions nodes). unfold count in *. lia.
  - unfold typeCountsOf. rewrite foldl_bump_fmap.
    destruct (frequency_table ((λ n, if truthy (trim (Node.type n)) then trim (Node.type n)
                                     else lit "(none)") <$> nodes)) as (_ & _ & -> & _).
    by rewrite length_fmap.
  - unfold macroCountsOf. rewrite foldl_bump_fmap.
    destruct (frequency_table (Node.macro <$> nodes)) as (_ & _ & -> & _).
    by rewrite length_fmap.
Qed.

(** What the loop over the project files has built when it ends. *)
Lemma batchLoop_inv (opts : Options) (files : list (jsstring * Raw.file)) (b0 b : Batch) :
  batchLoop opts b0 files = Ok b →
  ∃ ms, metrics b = metrics b0 ++ ms
        ∧ Forall2 (λ pf m, ∃ json, parseFile pf.2 = Ok json
                           ∧ computeMetricsForProject pf.1 json opts = Ok m) files ms
        ∧ totalNodes b = (totalNodes b0 + sum_list_with Metrics.nodes ms)%nat
        ∧ totalEdges b = (totalEdges b0 + sum_list_with Metrics.edges ms)%nat
        ∧ totalExploring b = (totalExploring b0 + sum_list_with Metrics.exploring ms)%nat
        ∧ totalMaking b = (totalMaking b0 + sum_list_with Metrics.making ms)%nat
        ∧ flagged b
          = flagged b0
            ++ omap (λ m, match Metrics.spanDays m with
                          | Some span =>
                              if Qle_bool span (inject_Z (365 * 20)) then None
                              else Some (Metrics.project m, Qfloor (span / 365 + (1 # 2))%Q)
                          | None => None
                          end) ms.
Proof.
  revert b0. induction files as [|pf files IH]; intros b0; cbn [batchLoop].
  - intros [= <-]. exists []. rewrite !app_nil_r. cbn [sum_list_with omap list_omap].
    split_and!; try done; lia.
  - unfold batchStep at 1.
    destruct (parseFile pf.2) as [json|e] eqn:Hjson; [|done]. cbn [bind].
    destruct (computeMetricsForProject pf.1 json opts) as [m|e] eqn:Hm; [|done]. cbn [bind].
    intros Hb. apply IH in Hb as (ms & Hms & Hall & Hn & He & Hx & Hk & Hf).
    cbn [metrics totalNodes totalEdges totalExploring totalMaking flagged] in *.
    exists (m :: ms). cbn [sum_list_with omap list_omap].
    destruct (record_counts _ _ _ _ Hm) as (Hname & _).
    split_and!; try lia.
    + by rewrite Hms, <- app_assoc.
    + constructor; [by exists json|done].
    + rewrite Hf, Hname. destruct (Metrics.spanDays m) as [span|]; [|done].
      destruct (Qle_bool span (inject_Z (365 * 20))); [done|]. by rewrite <- app_assoc.
Qed.

(** The totals of the cohort are the sums of the counts of the records; the
    tables of types and of macro-areas of the cohort account for every node
    of every project, so that the shares shown beside them lie between 0 and
    100; the projects flagged are those whose dates span more than twenty
    years. *)
Theorem cohort_tables_count_every_node (opts : Options)
    (files : list (jsstring * Raw.file)) (b : Batch) :
  batchLoop opts emptyBatch files = Ok b →
  let ms := metrics b in
  totalNodes b = sum_list_with Metrics.nodes ms
  ∧ totalEdges b = sum_list_with Metrics.edges ms
  ∧ totalExploring b = sum_list_with Metrics.exploring ms
  ∧ totalMaking b = sum_list_with Metrics.making ms
  ∧ (totalExploring b + totalMaking b ≤ totalNodes b)%nat
  ∧ sum_list (mergeCounts (Metrics.typeCounts <$> ms)).*2 = totalNodes b
  ∧ sum_list (macroAll ms).*2 = totalNodes b
  ∧ totalAreaMentions ms = sum_list_with (λ m, sum_list (Metrics.areaCounts m).*2) ms
  ∧ (length (topTypesAll ms) ≤ 20)%nat
  ∧ (∀ k c, (k, c) ∈ topTypesAll ms →
            (0 <= shareOf c (totalNodes b))%Q ∧ (shareOf c (totalNodes b) <= 100)%Q)
  ∧ (∀ k c, (k, c) ∈ topAreasAll ms →
            (0 <= shareOf c (totalAreaMentions ms))%Q
            ∧ (shareOf c (totalAreaMentions ms) <= 100)%Q)
  ∧ (∀ k c, (k, c) ∈ macroAll ms →
            (0 <= shareOf c (totalNodes b))%Q ∧ (shareOf c (totalNodes b) <= 100)%Q)
  ∧ (∀ name years,
       (name, years) ∈ flagged b ↔
       ∃ m span, m ∈ ms ∧ Metrics.project m = name ∧ Metrics.spanDays m = Some span
                 ∧ (inject_Z 7300 < span)%Q
                 ∧ years = Qfloor (span / 365 + (1 # 2))%Q).
Proof.
  intros Hb ms. apply batchLoop_inv in Hb as (ms' & Hms & Hall & Hn & He & Hx & Hk & Hf).
  cbn [metrics totalNodes totalEdges totalExploring totalMaking flagged emptyBatch app] in *.
  subst ms. rewrite Hms. clear Hms.
  assert (Hrec : Forall (λ m, (Metrics.exploring m + Metrics.making m ≤ Metrics.nodes m)%nat
                              ∧ sum_list (Metrics.typeCounts m).*2 = Metrics.nodes m
                              ∧ sum_list (Metrics.macroCounts m).*2 = Metrics.nodes m) ms').
  { clear -Hall. induction Hall as [|pf m files ms (json & _ & Hm) _ IH]; constructor; [|done].
    by apply record_counts in Hm as (_ & ? & ? & ?). }
  assert (Hsums : (sum_list_with Metrics.exploring ms' + sum_list_with Metrics.making ms'
                   ≤ sum_list_with Metrics.nodes ms')%nat
                  ∧ sum_list_with (λ t, sum_list t.*2) (Metrics.typeCounts <$> ms')
                    = sum_list_with Metrics.nodes ms'
                  ∧ sum_list_with (λ t, sum_list t.*2) (Metrics.macroCounts <$> ms')
                    = sum_list_with Metrics.nodes ms').
  { clear -Hrec. induction Hrec as [|m ms (H1 & H2 & H3) _ (IH1 & IH2 & IH3)]; [done|].
    rewrite !fmap_cons. cbn [sum_list_with]. rewrite IH2, IH3, H2, H3. split_and!; lia. }
  destruct Hsums as (Hxk & Htypes & Hmacros).
  destruct (mergeCounts_spec (Metrics.typeCounts <$> ms')) as [_ HsumT].
  destruct (mergeCounts_spec (Metrics.macroCounts <$> ms')) as [_ HsumM].
  destruct (mergeCounts_spec (Metrics.areaCounts <$> ms')) as [_ HsumA].
  assert (Hmention : totalAreaMentions ms'
                     = sum_list (mergeCounts (Metrics.areaCounts <$> ms')).*2).
  { unfold totalAreaMentions. by rewrite foldl_add_sum. }
  assert (HmacroAll : sum_list (macroAll ms').*2 = totalNodes b).
  { unfold macroAll. rewrite (sortDesc_Permutation _), HsumM, Hmacros. lia. }
  split_and!; try lia.
  - rewrite Hmention, HsumA. clear. induction ms' as [|m ms IH]; [done|].
    rewrite fmap_cons. cbn [sum_list_with]. by rewrite IH.
  - unfold topTypesAll. rewrite length_take. lia.
  - intros k c Hin. apply shareOf_range. unfold topTypesAll in Hin.
    apply elem_of_take in Hin as (i & Hin & _). apply list_elem_of_lookup_2 in Hin.
    rewrite (sortDesc_Permutation _) in Hin.
    apply elem_sum_le in Hin. rewrite HsumT, Htypes in Hin. lia.
  - intros k c Hin. apply shareOf_range. unfold topAreasAll in Hin.
    apply elem_of_take in Hin as (i & Hin & _). apply list_elem_of_lookup_2 in Hin.
    rewrite (sortDesc_Permutation _) in Hin.
    apply elem_sum_le in Hin. by rewrite Hmention.
  - intros k c Hin. apply shareOf_range. apply elem_sum_le in Hin. lia.
  - intros name years. rewrite Hf. rewrite list_elem_of_omap. split.
    + intros (m & Hin & Hflag). destruct (Metrics.spanDays m) as [span|] eqn:Hspan; [|done].
      destruct (Qle_bool span (inject_Z (365 * 20))) eqn:Hle; [done|].
      injection Hflag as <- <-. exists m, span. split_and!; try done.
      apply Qnot_le_lt. intros Hc. apply Qle_bool_iff in Hc.
      change (365 * 20) with 7300 in Hle. congruence.
    + intros (m & span & Hin & <- & Hspan & Hlt & ->). exists m. split; [done|].
      rewrite Hspan. destruct (Qle_bool span (inject_Z (365 * 20))) eqn:Hle; [|done].
      apply Qle_bool_iff in Hle. change (365 * 20) with 7300 in Hle.
      exfalso. by apply (Qlt_irrefl span), (Qle_lt_trans _ (inject_Z 7300)).
Qed.

End Cohort.

Lemma cohort_tables_count_every_node_witness :
  ∃ b, batchLoop (H := hostAt 0) Scenario.defaults emptyBatch
         [(lit "1_a", Raw.Json Scenario.A); (lit "2_b", Raw.Json Scenario.B)] = Ok b
       ∧ totalNodes b = sum_list_with Metrics.nodes (metrics b)
       ∧ sum_list (macroAll (metrics b)).*2 = totalNodes b.
Proof.
  eexists. split; [vm_compute; reflexivity|].
  match goal with
  | |- context [totalNodes ?b] =>
      destruct (cohort_tables_count_every_node (host := hostAt 0) Scenario.defaults
                  [(lit "1_a", Raw.Json Scenario.A); (lit "2_b", Raw.Json Scenario.B)] b)
        as (Hnodes & _ & _ & _ & _ & _ & Hmacro & _); [vm_compute; reflexivity|]
  end.
  split; [exact Hnodes|exact Hmacro].
Defined.

(** ** macroFromAreas *)

Section MacroFacts.
Context {host : Host}.

Lemma includes_nil (p : jsstring) : p ≠ [] → includes [] p = false.
Proof. by destruct p. Qed.

Lemma macro_loop (areas : list jsstring) (sc : nat * nat * nat) :
  foldl (λ (sc : nat * nat * nat) a,
           let '(sp, co, it) := sc in
           let txt := toLowerCase a in
           if negb (truthy txt) then sc
           else
             ((if includes txt (lit "specul") then S sp else sp),
              (if includes txt (lit "comunic") || includes txt (lit "communicat")
               then S co else co),
              (if includes txt (lit "inter") then S it else it)))
        sc areas
  = ((sc.1.1 + (macroScores areas).1.1)%nat,
     (sc.1.2 + (macroScores areas).1.2)%nat,
     (sc.2 + (macroScores areas).2)%nat).
Proof.
  revert sc. induction areas as [|a areas IH]; intros [[sp co] it].
  - cbn. rewrite !pair_equal_spec; split_and!; lia.
  - cbn [foldl]. rewrite IH. unfold macroScores, count. cbn [List.filter fst snd].
    destruct (toLowerCase a) as [|c txt] eqn:Ea.
    + cbn [truthy negb fst snd]. rewrite !includes_nil by done. cbn [orb]. done.
    + cbn [truthy negb].
      destruct (includes (c :: txt) (lit "specul")),
        (includes (c :: txt) (lit "comunic") || includes (c :: txt) (lit "communicat")),
        (includes (c :: txt) (lit "inter"));
        cbn [fst snd length]; rewrite !pair_equal_spec; split_and!; lia.
Qed.

(** macroFromAreas names the macro-area that most areas mention: unknown
    when none is mentioned, mixed when the most mentioned is not alone. *)
Theorem macroFromAreas_most_mentioned (areas : list jsstring) :
  let '(sp, co, it) := macroScores areas in
  macroFromAreas areas
  = if bool_decide (sp = O ∧ co = O ∧ it = O) then unknown
    else if bool_decide (co < sp ∧ it < sp)%nat then speculative
    else if bool_decide (sp < co ∧ it < co)%nat then communication
    else if bool_decide (sp < it ∧ co < it)%nat then interaction
    else mixed.
Proof.
  unfold macroFromAreas. cbv zeta. rewrite macro_loop. cbn [fst snd]. rewrite !Nat.add_0_l.
  destruct (macroScores areas) as [[sp co] it]. cbn [fst snd].
  unfold Num.sortDesc.
  repeat first
    [ progress cbn [foldr Num.insertDesc List.filter fmap list_fmap length head default
                    from_option macroOf id fst snd]
    | match goal with
      | |- context [(?a <? ?b)%nat] =>
          first [is_var a|is_var b];
          destruct (Nat.ltb_spec a b); try (exfalso; lia)
      | |- context [(?a <=? ?b)%nat] =>
          first [is_var a|is_var b];
          destruct (Nat.leb_spec a b); try (exfalso; lia)
      | |- context [(?a =? ?b)%nat] =>
          is_var a; is_var b; destruct (Nat.eqb_spec a b); try (exfalso; lia)
      end ];
    repeat case_bool_decide; try done; try (exfalso; lia).
Qed.

End MacroFacts.

(** ** normalizeAreaList *)

Section AreaOrder.
Context {host : Host}.

Lemma normalizeAreaList_loop (areas legacy : AreasVal) :
  normalizeAreaList areas legacy
  = (foldl push (∅, []) (entriesOf areas ++ entriesOf legacy)).2.
Proof.
  unfold normalizeAreaList. rewrite foldl_app. f_equal.
  assert (Happly : ∀ st val, applyVal st val = foldl push st (entriesOf val)).
  { intros st [|s|l]; cbn [applyVal entriesOf foldl]; [done| |done]. by destruct (truthy s). }
  by rewrite !Happly.
Qed.

Lemma snoc_split {A} (l before after : list A) (x raw : A) :
  l ++ [x] = before ++ raw :: after →
  (before = l ∧ raw = x ∧ after = [])
  ∨ ∃ after', after = after' ++ [x] ∧ l = before ++ raw :: after'.
Proof.
  intros Heq. destruct after as [|y after _] using rev_ind.
  - left. apply (app_inj_tail l before x raw) in Heq as [-> ->]. done.
  - right. exists after.
    replace (before ++ raw :: after ++ [y]) with ((before ++ raw :: after) ++ [y]) in Heq
      by (by rewrite <- app_assoc).
    apply app_inj_tail in Heq as [-> ->]. done.
Qed.

Lemma sublist_elem {A} (l k : list A) (x : A) : sublist l k → x ∈ l → x ∈ k.
Proof. intros Hsub Hx. eapply elem_of_submseteq; [done|]. by apply sublist_submseteq. Qed.

Lemma areaKey_nil : areaKey [] = [].
Proof. unfold areaKey. by rewrite (toLowerCase_ascii []). Qed.

(** A key that is not empty belongs to a name that is not empty. *)
Lemma areaKey_truthy (m : jsstring) : truthy (areaKey m) = true → truthy m = true.
Proof. destruct m; [by rewrite areaKey_nil|done]. Qed.

Lemma push_loop (l : list (option jsstring)) :
  let st := foldl push (∅, []) l in
  st.1 = keysOf st.2
  ∧ sublist st.2 (canonicalAreaName <$> l)
  ∧ (∀ r, r ∈ l → truthy (areaKey (canonicalAreaName r)) = true →
          areaKey (canonicalAreaName r) ∈ st.1)
  ∧ (∀ m, m ∈ st.2 →
          ∃ before raw after,
            l = before ++ raw :: after ∧ m = canonicalAreaName raw
            ∧ ∀ r, r ∈ before → areaKey (canonicalAreaName r) ≠ areaKey m)
  ∧ ∀ before raw after,
      l = before ++ raw :: after →
      truthy (areaKey (canonicalAreaName raw)) = true →
      (∀ r, r ∈ before →
            areaKey (canonicalAreaName r) ≠ areaKey (canonicalAreaName raw)) →
      canonicalAreaName raw ∈ st.2.
Proof.
  cbv zeta. induction l as [|x l IH] using rev_ind.
  - cbn. split_and!; [done|constructor|by intros r ?%elem_of_nil|by intros m ?%elem_of_nil|].
    intros before raw after Heq. by destruct before.
  - rewrite foldl_app, fmap_app. cbn [foldl fmap list_fmap].
    destruct (foldl push (∅, []) l) as [seen out]. cbn [fst snd] in IH.
    destruct IH as (Hseen & Hsub & Hall & Hsrc & Hfirst).
    assert (Hkeep : ∀ before raw after,
               l ++ [x] = before ++ raw :: after →
               truthy (areaKey (canonicalAreaName raw)) = true →
               (∀ r, r ∈ before →
                     areaKey (canonicalAreaName r) ≠ areaKey (canonicalAreaName raw)) →
               canonicalAreaName raw ∈ out
               ∨ (raw = x ∧ areaKey (canonicalAreaName x) ∉ seen)).
    { intros before raw after Heq Hk Hfresh.
      apply snoc_split in Heq as [(-> & -> & ->)|(after' & -> & ->)].
      - right. split; [done|]. rewrite Hseen. unfold keysOf.
        rewrite elem_of_list_to_set. intros Hin.
        apply list_elem_of_fmap in Hin as (m' & Hkey & Hm').
        apply (sublist_elem _ _ _ Hsub) in Hm'.
        apply list_elem_of_fmap in Hm' as (r & -> & Hr).
        by apply (Hfresh r Hr).
      - left. by apply (Hfirst before raw after'). }
    assert (Hsrc' : ∀ m, m ∈ out →
               ∃ before raw after,
                 l ++ [x] = before ++ raw :: after ∧ m = canonicalAreaName raw
                 ∧ ∀ r, r ∈ before → areaKey (canonicalAreaName r) ≠ areaKey m).
    { intros m Hm. destruct (Hsrc m Hm) as (before & raw & after & -> & -> & Hfresh).
      exists before, raw, (after ++ [x]). split; [by rewrite <- app_assoc|done]. }
    assert (Hskip : truthy (areaKey (canonicalAreaName x)) = false
                    ∨ areaKey (canonicalAreaName x) ∈ seen →
                    seen = keysOf out
                    ∧ sublist out ((canonicalAreaName <$> l) ++ [canonicalAreaName x])
                    ∧ (∀ r, r ∈ l ++ [x] → truthy (areaKey (canonicalAreaName r)) = true →
                            areaKey (canonicalAreaName r) ∈ seen)
                    ∧ (∀ m, m ∈ out →
                            ∃ before raw after,
                              l ++ [x] = before ++ raw :: after ∧ m = canonicalAreaName raw
                              ∧ ∀ r, r ∈ before →
                                     areaKey (canonicalAreaName r) ≠ areaKey m)
                    ∧ ∀ before raw after,
                        l ++ [x] = before ++ raw :: after →
                        truthy (areaKey (canonicalAreaName raw)) = true →
                        (∀ r, r ∈ before →
                              areaKey (canonicalAreaName r)
                              ≠ areaKey (canonicalAreaName raw)) →
                        canonicalAreaName raw ∈ out).
    { intros Hx. split_and!; [done|by apply sublist_inserts_r| |done|].
      - intros r [Hr| ->%list_elem_of_singleton]%elem_of_app Hk; [by apply Hall|].
        destruct Hx as [Hx|Hx]; [congruence|done].
      - intros before raw after Heq Hk Hfresh.
        destruct (Hkeep before raw after Heq Hk Hfresh) as [?|[-> Hno]]; [done|].
        destruct Hx as [Hx|Hx]; [congruence|done]. }
    unfold push.
    destruct (truthy (canonicalAreaName x)) eqn:Hm; cbn [negb].
    2:{ cbn [fst snd]. apply Hskip. left.
        destruct (truthy (areaKey (canonicalAreaName x))) eqn:Hk; [|done].
        apply areaKey_truthy in Hk. congruence. }
    destruct (truthy (areaKey (canonicalAreaName x))) eqn:Hk; cbn [negb orb].
    2:{ cbn [fst snd]. apply Hskip. by left. }
    case_bool_decide as Hin; cbn [fst snd]; [apply Hskip; by right|].
    split_and!.
    + by rewrite keysOf_snoc, Hseen.
    + by apply sublist_app.
    + intros r [Hr| ->%list_elem_of_singleton]%elem_of_app Hk'; [|set_solver].
      apply elem_of_union. right. by apply Hall.
    + intros m [Hm'| ->%list_elem_of_singleton]%elem_of_app; [by apply Hsrc'|].
      exists l, x, []. split_and!; [done|done|].
      intros r Hr Heq. apply Hin. rewrite <- Heq. apply Hall; [done|]. by rewrite Heq.
    + intros before raw after Heq Hk' Hfresh. apply elem_of_app.
      destruct (Hkeep before raw after Heq Hk' Hfresh) as [?|[-> ?]];
        [by left|right; left].
Qed.

(** normalizeAreaList keeps, in the order of the input ([areas] first, the
    legacy values after), the canonical name of the first entry of each key
    that is not empty, and nothing else. *)
Theorem normalizeAreaList_first_occurrences (areas legacy : AreasVal) :
  let inputs := entriesOf areas ++ entriesOf legacy in
  let out := normalizeAreaList areas legacy in
  sublist out (canonicalAreaName <$> inputs)
  ∧ (∀ m, m ∈ out →
          ∃ before raw after,
            inputs = before ++ raw :: after ∧ m = canonicalAreaName raw
            ∧ ∀ r, r ∈ before → areaKey (canonicalAreaName r) ≠ areaKey m)
  ∧ ∀ before raw after,
      inputs = before ++ raw :: after →
      truthy (areaKey (canonicalAreaName raw)) = true →
      (∀ r, r ∈ before →
            areaKey (canonicalAreaName r) ≠ areaKey (canonicalAreaName raw)) →
      canonicalAreaName raw ∈ out.
Proof.
  cbv zeta. rewrite normalizeAreaList_loop.
  destruct (push_loop (entriesOf areas ++ entriesOf legacy))
    as (_ & Hsub & _ & Hsrc & Hfirst).
  by split_and!.
Qed.

End AreaOrder.

(** ** escapeHtml *)

Lemma replaceAll_bind (c : N) (by_ : jsstring) (f : N → jsstring) (s : jsstring) :
  replaceAll c by_ (s ≫= f) = s ≫= λ x, replaceAll c by_ (f x).
Proof.
  unfold replaceAll. induction s as [|x s IH]; [done|].
  cbn [mbind list_bind]. rewrite bind_app. by rewrite IH.
Qed.

Lemma replaceAll_unit (c : N) (by_ : jsstring) (x : N) :
  replaceAll c by_ [x] = if (x =? c)%N then by_ else [x].
Proof. unfold replaceAll. cbn [mbind list_bind]. by rewrite app_nil_r. Qed.

Lemma escapeHtml_entities (s : jsstring) : escapeHtml (Some s) = s ≫= entityOf.
Proof.
  unfold escapeHtml. cbn [strOrEmpty default from_option id].
  unfold replaceAll at 5. rewrite !replaceAll_bind.
  induction s as [|x s IH]; [done|]. cbn [mbind list_bind]. rewrite IH. f_equal.
  unfold entityOf.
  destruct (x =? 38)%N eqn:E38; [reflexivity|]. rewrite replaceAll_unit.
  destruct (x =? 60)%N eqn:E60; [reflexivity|]. rewrite replaceAll_unit.
  destruct (x =? 62)%N eqn:E62; [reflexivity|]. rewrite replaceAll_unit.
  destruct (x =? 34)%N eqn:E34; [reflexivity|]. rewrite replaceAll_unit.
  destruct (x =? 39)%N eqn:E39; reflexivity.
Qed.

Lemma entityOf_cases (c : N) :
  (isSpecial c = true ∧ ∃ rest, entityOf c = 38%N :: rest ∧ Forall (λ x, isSpecial x = false) rest)
  ∨ (isSpecial c = false ∧ entityOf c = [c]).
Proof.
  unfold entityOf, isSpecial.
  destruct (c =? 38)%N eqn:E38; [left; split; [done|]; eexists; split; [reflexivity|];
    repeat constructor|].
  destruct (c =? 60)%N eqn:E60; [left; split; [done|]; eexists; split; [reflexivity|];
    repeat constructor|].
  destruct (c =? 62)%N eqn:E62; [left; split; [done|]; eexists; split; [reflexivity|];
    repeat constructor|].
  destruct (c =? 34)%N eqn:E34; [left; split; [done|]; eexists; split; [reflexivity|];
    repeat constructor|].
  destruct (c =? 39)%N eqn:E39; [left; split; [done|]; eexists; split; [reflexivity|];
    repeat constructor|].
  by right.
Qed.

(** escapeHtml replaces each of the five special characters by its entity,
    once: the ampersands that it writes are not escaped again.  The escaped
    text holds none of the characters < > and the two quotes, and two pieces
    escaped apart can be put together. *)
Theorem escapeHtml_is_safe (text : option jsstring) :
  escapeHtml text = strOrEmpty text ≫= entityOf
  ∧ Forall (λ c, c ≠ 60%N ∧ c ≠ 62%N ∧ c ≠ 34%N ∧ c ≠ 39%N) (escapeHtml text)
  ∧ ∀ s1 s2, escapeHtml (Some (s1 ++ s2)) = escapeHtml (Some s1) ++ escapeHtml (Some s2).
Proof.
  assert (Hnone : escapeHtml None = []) by reflexivity.
  assert (Hall : ∀ s, escapeHtml (Some s) = s ≫= entityOf) by apply escapeHtml_entities.
  split_and!.
  - destruct text as [s|]; [apply Hall|done].
  - destruct text as [s|]; [|rewrite Hnone; constructor].
    rewrite Hall. induction s as [|x s IH]; [constructor|].
    cbn [mbind list_bind]. apply Forall_app. split; [|done].
    destruct (entityOf_cases x) as [(_ & rest & -> & Hrest)|[Hx ->]].
    + constructor; [done|]. eapply Forall_impl; [exact Hrest|].
      intros c Hc. unfold isSpecial in Hc.
      repeat (apply orb_false_elim in Hc as [Hc ?]).
      repeat match goal with H : (_ =? _)%N = false |- _ => apply N.eqb_neq in H end.
      done.
    + constructor; [|constructor]. unfold isSpecial in Hx.
      repeat (apply orb_false_elim in Hx as [Hx ?]).
      repeat match goal with H : (_ =? _)%N = false |- _ => apply N.eqb_neq in H end.
      done.
  - intros s1 s2. by rewrite !Hall, bind_app.
Qed.

(** Escaping loses nothing: two texts with the same escaped text are the
    same text. *)
Theorem escapeHtml_inj (s s' : jsstring) :
  escapeHtml (Some s) = escapeHtml (Some s') → s = s'.
Proof.
  rewrite !escapeHtml_entities. revert s'.
  induction s as [|x s IH]; intros [|x' s']; cbn [mbind list_bind].
  - done.
  - intros Heq. destruct (entityOf_cases x') as [(_ & rest & Hr & _)|[_ Hr]];
      rewrite Hr in Heq; discriminate.
  - intros Heq. destruct (entityOf_cases x) as [(_ & rest & Hr & _)|[_ Hr]];
      rewrite Hr in Heq; discriminate.
  - intros Heq.
    assert (Hhead : x = x' ∧ s ≫= entityOf = s' ≫= entityOf).
    { revert Heq. unfold entityOf at 1 3.
      destruct (x =? 38)%N eqn:E38, (x' =? 38)%N eqn:E38';
        [|destruct (x' =? 60)%N eqn:E60', (x' =? 62)%N eqn:E62', (x' =? 34)%N eqn:E34',
            (x' =? 39)%N eqn:E39'
         |destruct (x =? 60)%N eqn:E60, (x =? 62)%N eqn:E62, (x =? 34)%N eqn:E34,
            (x =? 39)%N eqn:E39
         |].
      all: repeat match goal with H : (_ =? _)%N = true |- _ => apply N.eqb_eq in H; subst end.
      all: try (cbn; intros [=]; done).
      all: try (cbn; intros [=]; subst; done).
      destruct (x =? 60)%N eqn:E60, (x' =? 60)%N eqn:E60';
        [|destruct (x' =? 62)%N eqn:E62', (x' =? 34)%N eqn:E34', (x' =? 39)%N eqn:E39'
         |destruct (x =? 62)%N eqn:E62, (x =? 34)%N eqn:E34, (x =? 39)%N eqn:E39
         |].
      all: repeat match goal with H : (_ =? _)%N = true |- _ => apply N.eqb_eq in H; subst end.
      all: try (cbn; intros [=]; done).
      all: try (cbn; intros [=]; subst; done).
      destruct (x =? 62)%N eqn:E62, (x' =? 62)%N eqn:E62';
        [|destruct (x' =? 34)%N eqn:E34', (x' =? 39)%N eqn:E39'
         |destruct (x =? 34)%N eqn:E34, (x =? 39)%N eqn:E39
         |].
      all: repeat match goal with H : (_ =? _)%N = true |- _ => apply N.eqb_eq in H; subst end.
      all: try (cbn; intros [=]; done).
      all: try (cbn; intros [=]; subst; done).
      destruct (x =? 34)%N eqn:E34, (x' =? 34)%N eqn:E34';
        [|destruct (x' =? 39)%N eqn:E39'
         |destruct (x =? 39)%N eqn:E39
         |].
      all: repeat match goal with H : (_ =? _)%N = true |- _ => apply N.eqb_eq in H; subst end.
      all: try (cbn; intros [=]; done).
      all: try (cbn; intros [=]; subst; done).
      destruct (x =? 39)%N eqn:E39, (x' =? 39)%N eqn:E39'.
      all: repeat match goal with H : (_ =? _)%N = true |- _ => apply N.eqb_eq in H; subst end.
      all: try (cbn; intros [=]; done).
      all: try (cbn; intros [=]; subst; done). }
    destruct Hhead as [-> Htail]. f_equal. by apply IH.
Qed.

Lemma escapeHtml_inj_witness : lit "a<b" = lit "a" ++ lit "<b".
Proof. apply escapeHtml_inj. reflexivity. Defined.

(** ** Timelines *)

Lemma addTimeline_loop (tl : list (nat * nat)) (k : nat) (sums : Sums.sums) :
  (k ≤ length tl)%nat →
  let sums' :=
    foldl (λ sums i,
             match tl !! i with
             | Some cell =>
                 {| Sums.ex := alter (λ v, v + cell.1)%nat i (Sums.ex sums);
                    Sums.mk := alter (λ v, v + cell.2)%nat i (Sums.mk sums);
                    Sums.tot := alter (λ v, v + (cell.1 + cell.2))%nat i (Sums.tot sums) |}
             | None => sums
             end) sums (seq 0 k) in
  ∀ i,
    ((i < k)%nat →
     Sums.ex sums' !! i = (λ v, v + (cellAt (Some tl) i).1)%nat <$> Sums.ex sums !! i
     ∧ Sums.mk sums' !! i = (λ v, v + (cellAt (Some tl) i).2)%nat <$> Sums.mk sums !! i
     ∧ Sums.tot sums' !! i
       = (λ v, v + ((cellAt (Some tl) i).1 + (cellAt (Some tl) i).2))%nat
           <$> Sums.tot sums !! i)
    ∧ ((k ≤ i)%nat →
       Sums.ex sums' !! i = Sums.ex sums !! i
       ∧ Sums.mk sums' !! i = Sums.mk sums !! i
       ∧ Sums.tot sums' !! i = Sums.tot sums !! i).
Proof.
  cbv zeta. induction k as [|k IH]; intros Hk i.
  - split; [lia|done].
  - rewrite seq_S, foldl_app. cbn [foldl plus].
    destruct (IH ltac:(lia) i) as [Hlt Hge].
    set (st := foldl _ sums (seq 0 k)) in *.
    destruct (lookup_lt_is_Some_2 tl k ltac:(lia)) as [cell Hcell]. rewrite Hcell.
    cbn [Sums.ex Sums.mk Sums.tot].
    destruct (decide (i = k)) as [->|Hne].
    + split; [intros _|lia]. destruct (Hge ltac:(lia)) as (Hex & Hmk & Htot).
      rewrite !list_lookup_alter, Hex, Hmk, Htot.
      unfold cellAt. cbn [default from_option]. unfold id. rewrite Hcell.
      cbn [default from_option]. by rewrite !decide_True by done.
    + rewrite !list_lookup_alter_ne by done. split; intros Hi; [apply Hlt|apply Hge]; lia.
Qed.

Lemma addTimeline_spec (n : nat) (sums : Sums.sums) (tl : list (nat * nat)) (i : nat) :
  (i < n)%nat →
  let sums' := addTimeline n sums tl in
  Sums.ex sums' !! i = (λ v, v + (cellAt (Some tl) i).1)%nat <$> Sums.ex sums !! i
  ∧ Sums.mk sums' !! i = (λ v, v + (cellAt (Some tl) i).2)%nat <$> Sums.mk sums !! i
  ∧ Sums.tot sums' !! i
    = (λ v, v + ((cellAt (Some tl) i).1 + (cellAt (Some tl) i).2))%nat <$> Sums.tot sums !! i.
Proof.
  intros Hi. cbv zeta. unfold addTimeline.
  destruct (addTimeline_loop tl (Nat.min n (length tl)) sums ltac:(lia) i) as [Hlt Hge].
  destruct (decide (i < length tl)%nat) as [Hin|Hout]; [apply Hlt; lia|].
  destruct (Hge ltac:(lia)) as (-> & -> & ->).
  assert (Hcell : cellAt (Some tl) i = (O, O)).
  { unfold cellAt. cbn [default from_option]. unfold id. by rewrite lookup_ge_None_2 by lia. }
  rewrite Hcell. cbn [fst snd].
  destruct (Sums.ex sums !! i), (Sums.mk sums !! i), (Sums.tot sums !! i);
    cbn; split_and!; f_equal; try lia.
Qed.

Lemma sum_list_with_snoc {A} (f : A → nat) (l : list A) (x : A) :
  sum_list_with f (l ++ [x]) = (sum_list_with f l + f x)%nat.
Proof. rewrite sum_list_with_app. simpl. lia. Qed.

Lemma cellAt_empty (tl : option (list (nat * nat))) (i : nat) :
  hasTimeline tl = false → cellAt tl i = (O, O).
Proof. by destruct tl as [[|c tl]|]. Qed.

(** The sums and the number of projects after the loop over the records. *)
Lemma timelines_loop (n : nat) (timelines : list (option (list (nat * nat)))) :
  let st :=
    foldl (λ (st : Sums.sums * nat) (tl : option (list (nat * nat))),
             match tl with
             | None | Some [] => st
             | Some tl => (addTimeline n st.1 tl, S st.2)
             end)
          ({| Sums.ex := replicate n O; Sums.mk := replicate n O;
              Sums.tot := replicate n O |}, O) timelines in
  st.2 = count hasTimeline timelines
  ∧ ∀ i, (i < n)%nat →
         Sums.ex st.1 !! i = Some (sum_list_with (λ tl, (cellAt tl i).1) timelines)
         ∧ Sums.mk st.1 !! i = Some (sum_list_with (λ tl, (cellAt tl i).2) timelines)
         ∧ Sums.tot st.1 !! i
           = Some (sum_list_with (λ tl, (cellAt tl i).1) timelines
                   + sum_list_with (λ tl, (cellAt tl i).2) timelines)%nat.
Proof.
  cbv zeta. induction timelines as [|tl timelines IH] using rev_ind.
  - cbn. split; [done|]. intros i Hi. by rewrite !lookup_replicate_2 by done.
  - rewrite foldl_app, count_snoc. cbn [foldl].
    setoid_rewrite sum_list_with_snoc.
    destruct (foldl _ _ timelines) as [sums used]. cbn [fst snd] in IH.
    destruct IH as [Hused Hsums].
    destruct tl as [[|c tl]|]; cbn [fst snd hasTimeline].
    + split; [lia|]. intros i Hi. destruct (Hsums i Hi) as (-> & -> & ->).
      rewrite cellAt_empty by done. cbn [fst snd]. split_and!; f_equal; lia.
    + split; [lia|]. intros i Hi. destruct (Hsums i Hi) as (Hex & Hmk & Htot).
      destruct (addTimeline_spec n sums (c :: tl) i Hi) as (-> & -> & ->).
      rewrite Hex, Hmk, Htot. cbn. split_and!; f_equal; lia.
    + split; [lia|]. intros i Hi. destruct (Hsums i Hi) as (-> & -> & ->).
      rewrite cellAt_empty by done. cbn [fst snd]. split_and!; f_equal; lia.
Qed.

Lemma lastWeek_spec (weeks : list Week.row) (k : nat) :
  (k < length weeks)%nat →
  let l := lastWeek weeks k in
  (l ≤ k)%nat
  ∧ (l = O ∨ ∃ w, weeks !! l = Some w ∧ ¬ (Week.total w == 0)%Q)
  ∧ ∀ j w, (l < j ≤ k)%nat → weeks !! j = Some w → (Week.total w == 0)%Q.
Proof.
  cbv zeta. induction k as [|k IH]; intros Hk; cbn [lastWeek].
  - split_and!; [lia|by left|lia].
  - destruct (lookup_lt_is_Some_2 weeks (S k) Hk) as [w Hw]. rewrite Hw.
    destruct (Qeq_bool (Week.total w) 0) eqn:Hz.
    + destruct (IH ltac:(lia)) as (Hle & Hlast & Hcut). split_and!; [lia|done|].
      intros j w' Hj Hw'. destruct (decide (j = S k)) as [->|Hne].
      * rewrite Hw in Hw'. injection Hw' as <-. by apply Qeq_bool_iff.
      * apply (Hcut j); [lia|done].
    + split_and!; [lia| |lia]. right. exists w. split; [done|].
      intros Heq. apply Qeq_bool_iff in Heq. congruence.
Qed.

Lemma div_ofNat_zero (a p : nat) :
  (0 < p)%nat → (Num.div (Num.ofNat a) (Num.ofNat p) == 0)%Q ↔ a = O.
Proof.
  intros Hp. unfold Num.div. rewrite Qred_correct.
  pose proof (ofNat_pos p Hp) as Hpos. split.
  - intros Hz. destruct a as [|a]; [done|]. exfalso.
    pose proof (ofNat_pos (S a) ltac:(lia)) as Ha.
    assert (0 < Num.ofNat (S a) / Num.ofNat p)%Q by (apply Qlt_shift_div_l; [done|lra]).
    lra.
  - intros ->. change (Num.ofNat 0) with 0%Q. unfold Qdiv. ring.
Qed.

(** The mean timeline.  A window of 2^32 weeks or more is refused with a
    range error, and nothing else is thrown.  In what is returned, the
    projects without timeline are left out of the means: [projectsUsed]
    counts the others, and is 1 when there is none.  Week [i + 1] holds the
    sums of the exploring and of the making nodes of week [i] over the
    projects, and the sum of both, each divided by [projectsUsed].  The
    weeks after the last one with a node are cut off, the first week always
    staying. *)
Theorem buildAverageTimeline_means (timelines : list (option (list (nat * nat))))
    (opts : Options) :
  let maxWeeks := Z.to_nat (maxWeeksOf opts) in
  let sumEx := λ i, sum_list_with (λ tl, (cellAt tl i).1) timelines in
  let sumMk := λ i, sum_list_with (λ tl, (cellAt tl i).2) timelines in
  (2 ^ 32 ≤ maxWeeksOf opts → buildAverageTimeline timelines opts = Throw RangeError)
  ∧ match buildAverageTimeline timelines opts with
    | Throw e => e = RangeError
    | Ok (projectsUsed, weeks) =>
        projectsUsed = Nat.max 1 (count hasTimeline timelines)
        ∧ (1 ≤ length weeks)%nat ∧ (length weeks ≤ maxWeeks)%nat
        ∧ (∀ i w, weeks !! i = Some w →
                  Week.week w = (i + 1)%nat
                  ∧ Week.ex w = Num.div (Num.ofNat (sumEx i)) (Num.ofNat projectsUsed)
                  ∧ Week.mk w = Num.div (Num.ofNat (sumMk i)) (Num.ofNat projectsUsed)
                  ∧ Week.total w
                    = Num.div (Num.ofNat (sumEx i + sumMk i)) (Num.ofNat projectsUsed))
        ∧ (∀ i, (length weeks ≤ i < maxWeeks)%nat → sumEx i = O ∧ sumMk i = O)
        ∧ ((1 < length weeks)%nat →
           (0 < sumEx (length weeks - 1) + sumMk (length weeks - 1))%nat)
    end.
Proof.
  intros maxWeeks sumEx sumMk. unfold buildAverageTimeline. fold maxWeeks.
  destruct (Z.leb_spec (2 ^ 32) (maxWeeksOf opts)) as [Hbig|Hbig]; [done|].
  split; [lia|].
  pose proof (timelines_loop maxWeeks timelines) as Hloop. cbv zeta in Hloop.
  destruct (foldl _ _ timelines) as [sums used]. cbn [fst snd] in Hloop.
  destruct Hloop as [-> Hsums].
  set (p := Nat.max 1 (count hasTimeline timelines)).
  set (weeks := (λ i, _) <$> seq 0 maxWeeks).
  assert (Hmax : (4 ≤ maxWeeks)%nat).
  { unfold maxWeeks, maxWeeksOf. lia. }
  assert (Hlen : length weeks = maxWeeks).
  { unfold weeks. by rewrite length_fmap, length_seq. }
  assert (Hp : (0 < p)%nat) by (unfold p; lia).
  assert (Hweek : ∀ i w, weeks !! i = Some w →
            (i < maxWeeks)%nat
            ∧ Week.week w = (i + 1)%nat
            ∧ Week.ex w = Num.div (Num.ofNat (sumEx i)) (Num.ofNat p)
            ∧ Week.mk w = Num.div (Num.ofNat (sumMk i)) (Num.ofNat p)
            ∧ Week.total w = Num.div (Num.ofNat (sumEx i + sumMk i)) (Num.ofNat p)).
  { intros i w Hw. unfold weeks in Hw. rewrite list_lookup_fmap in Hw.
    destruct (seq 0 maxWeeks !! i) as [j|] eqn:Hj; [|done].
    apply lookup_seq in Hj as [-> Hi]. cbn in Hw. injection Hw as <-.
    destruct (Hsums i Hi) as (-> & -> & ->). cbn. by split_and!. }
  destruct (lastWeek_spec weeks (length weeks - 1) ltac:(lia)) as (Hle & Hlast & Hcut).
  set (last := lastWeek weeks (length weeks - 1)) in *.
  assert (Htake : length (take (last + 1) weeks) = (last + 1)%nat).
  { rewrite length_take. lia. }
  rewrite Htake. split_and!; [done|lia|lia| | |].
  - intros i w Hw. apply lookup_take_Some in Hw as [Hw _].
    by destruct (Hweek i w Hw) as (_ & Hn & Hex & Hmk & Htot).
  - intros i Hi. destruct (lookup_lt_is_Some_2 weeks i ltac:(lia)) as [w Hw].
    destruct (Hweek i w Hw) as (_ & _ & _ & _ & Htot).
    pose proof (Hcut i w ltac:(lia) Hw) as Hz. rewrite Htot in Hz.
    apply div_ofNat_zero in Hz; [lia|done].
  - intros Hlong. replace (last + 1 - 1)%nat with last by lia.
    destruct Hlast as [Hz|(w & Hw & Hnz)]; [lia|].
    destruct (Hweek last w Hw) as (_ & _ & _ & _ & Htot). rewrite Htot in Hnz.
    destruct (sumEx last + sumMk last)%nat eqn:E; [|lia].
    exfalso. apply Hnz. by apply div_ofNat_zero.
Qed.

(** ** The timeline of a project *)

Lemma weekOf_nonneg (minDate d : Z) : 0 ≤ weekOf minDate d.
Proof. unfold weekOf. lia. Qed.

(** The loop that ticks the cells of a timeline. *)
Lemma tick_loop (min : Z) (em : list (Action * Z)) (tl : list (nat * nat)) :
  let tl' :=
    foldl (λ tl (n : Action * Z),
             let w := weekOf min n.2 in
             if Z.of_nat (length tl) <=? w then tl
             else alter (tick n.1) (Z.to_nat w) tl) tl em in
  let hit := λ (a : Action) (i : nat) (n : Action * Z),
    bool_decide (n.1 = a) && (weekOf min n.2 =? Z.of_nat i) in
  length tl' = length tl
  ∧ ∀ i cell, tl !! i = Some cell →
      tl' !! i
      = Some ((cell.1 + count (hit exploring i) em)%nat,
              (cell.2 + count (hit making i) em)%nat).
Proof.
  cbv zeta. revert tl. induction em as [|[a d] em IH]; intros tl.
  - split; [done|]. intros i [e m] Hi. cbn. rewrite Hi. f_equal. f_equal; lia.
  - cbn [foldl fst snd]. pose proof (weekOf_nonneg min d) as Hw.
    set (w := weekOf min d) in *.
    set (tl1 := if Z.of_nat (length tl) <=? w then tl else alter (tick a) (Z.to_nat w) tl).
    assert (Hlen1 : length tl1 = length tl).
    { unfold tl1. destruct (_ <=? _); [done|apply length_alter]. }
    destruct (IH tl1) as [Hlen Hcells]. split; [lia|].
    intros i [e m] Hi.
    set (hitE := bool_decide (a = exploring) && (w =? Z.of_nat i)).
    set (hitM := bool_decide (a = making) && (w =? Z.of_nat i)).
    assert (Hcell1 : tl1 !! i
              = Some ((e + if hitE then 1 else 0)%nat, (m + if hitM then 1 else 0)%nat)).
    { unfold tl1. pose proof (lookup_lt_Some _ _ _ Hi) as Hlt.
      destruct (Z.leb_spec (Z.of_nat (length tl)) w) as [Hge|Hin].
      - rewrite Hi. unfold hitE, hitM. rewrite (proj2 (Z.eqb_neq w (Z.of_nat i))) by lia.
        rewrite !andb_false_r. cbn iota. f_equal. f_equal; lia.
      - destruct (decide (Z.to_nat w = i)) as [<-|Hne].
        + rewrite list_lookup_alter, Hi, decide_True by done. cbn [fmap option_fmap option_map].
          unfold hitE, hitM.
          rewrite Z2Nat.id, Z.eqb_refl, !andb_true_r by done.
          destruct a; cbn; f_equal; apply pair_equal_spec; split;
            case_bool_decide; try done; lia.
        + rewrite list_lookup_alter_ne, Hi by done. unfold hitE, hitM.
          rewrite (proj2 (Z.eqb_neq w (Z.of_nat i))) by lia.
          rewrite !andb_false_r. cbn iota. f_equal. f_equal; lia. }
    rewrite (Hcells i _ Hcell1). cbn [fst snd]. unfold count. cbn [List.filter fst snd].
    fold w. fold hitE hitM. f_equal.
    destruct hitE, hitM; cbn [length]; f_equal; lia.
Qed.

Section Timeline.
Context {host : Host}.

(** The exploring and making nodes that computePerProjectTimelines keeps
    are those of the specification's wording. *)
Lemma timeline_nodes (rawNodes : list Raw.node) :
  omap (λ n : Action * option Z,
          match n with
          | (exploring, Some d) => Some (exploring, d)
          | (making, Some d) => Some (making, d)
          | _ => None
          end)
       ((λ n, let data := default Raw.noData (Raw.node_data n) in
              (actionOf (trim (toLowerCase (strOrEmpty (Raw.action data)))),
               parseDate (strOrEmpty (Raw.date data)))) <$> rawNodes)
  = Spec.datedModes (loadNode <$> rawNodes).
Proof.
  unfold Spec.datedModes. induction rawNodes as [|n rawNodes IH]; [done|].
  rewrite !fmap_cons. cbn [omap list_omap]. rewrite IH.
  cbn [loadNode Node.action Node.date].
  set (data := default Raw.noData (Raw.node_data n)).
  by destruct (actionOf (trim (toLowerCase (strOrEmpty (Raw.action data))))),
    (parseDate (strOrEmpty (Raw.date data))).
Qed.

Lemma count_datedModes (nodes : list Node.node) (a : Action) (min w : Z) :
  a ≠ other →
  count (λ n : Action * Z, bool_decide (n.1 = a) && (weekOf min n.2 =? w))
        (Spec.datedModes nodes)
  = count (inWeek min w (isAction a)) nodes.
Proof.
  intros Ha. unfold Spec.datedModes, count, inWeek, isAction.
  induction nodes as [|n nodes IH]; [done|].
  cbn [omap list_omap List.filter].
  destruct (Node.action n) eqn:Hact, (Node.date n) as [d|];
    cbn [List.filter fst snd mbind option_bind app]; rewrite ?andb_false_r.
  - rewrite (andb_comm (weekOf min d =? w)).
    destruct (bool_decide (exploring = a) && (weekOf min d =? w)); cbn [length app];
      by rewrite IH.
  - done.
  - rewrite (andb_comm (weekOf min d =? w)).
    destruct (bool_decide (making = a) && (weekOf min d =? w)); cbn [length app];
      by rewrite IH.
  - done.
  - rewrite (bool_decide_eq_false_2 (other = a)) by done. by rewrite andb_false_r.
  - done.
Qed.

End Timeline.

Lemma count_filter {A} (p q : A → bool) (l : list A) :
  count p (List.filter q l) = count (λ x, q x && p x) l.
Proof.
  unfold count. induction l as [|x l IH]; [done|]. cbn [List.filter].
  destruct (q x); cbn [andb List.filter]; [|done]. destruct (p x); cbn [length]; by rewrite IH.
Qed.

Lemma inWeek_not_other (nodes : list Node.node) (a : Action) (min w : Z) :
  a ≠ other →
  count (inWeek min w (isAction a)) (List.filter (λ n, negb (isAction other n)) nodes)
  = count (inWeek min w (isAction a)) nodes.
Proof.
  intros Ha. rewrite count_filter. apply count_ext_in. intros n _.
  unfold inWeek, isAction. destruct (Node.date n); [|by rewrite andb_false_r].
  destruct (Node.action n); destruct a; try done;
    repeat (match goal with
            | |- context [bool_decide (?x = ?y)] =>
                first [ rewrite (bool_decide_eq_true_2 (x = y)) by done
                      | rewrite (bool_decide_eq_false_2 (x = y)) by done ]
            end); cbn [negb andb]; by rewrite ?andb_false_r.
Qed.

Section TimelineClaims.
Context {host : Host}.

(** The timeline that computePerProjectTimelines gives a project: none
    when no exploring or making node is dated; otherwise [maxWeeks] cells
    that count, week by week from the local midnight of the first such date,
    the exploring and the making nodes.  When that local midnight is the
    first date of all the nodes, which computeMetricsForProject takes as
    minDate, the cells are the buckets of computeBuckets. *)
Theorem timeline_counts (rawNodes : Field Raw.node) (rawEdges : Field Raw.edge)
    (opts : Options) (tl : option (list (nat * nat))) :
  let nodes := loadNode <$> arrayOrEmpty rawNodes in
  timelineOf (Raw.Obj rawNodes rawEdges) opts = Ok tl →
  match Spec.minDate nodes with
  | None => tl = None
  | Some first =>
      ∃ cells,
        tl = Some cells
        ∧ Z.of_nat (length cells) = maxWeeksOf opts
        ∧ ∀ w, (w < length cells)%nat →
            cells !! w
            = Some (count (inWeek (localMidnight first) (Z.of_nat w) (isAction exploring))
                          nodes,
                    count (inWeek (localMidnight first) (Z.of_nat w) (isAction making))
                          nodes)
            ∧ ∀ minDate, (dateRange nodes).1 = Some minDate →
                localMidnight first = minDate →
                let b := default noBucket
                           (Ordered.get
                              (computeBuckets
                                 (List.filter (λ n, negb (isAction other n)) nodes) minDate)
                              (Z.of_nat w)) in
                cells !! w = Some (b_exploring b, b_making b)
  end.
Proof.
  intros nodes. unfold timelineOf.
  assert (Hraw : ∀ l, orEmptyThenMap rawNodes = Ok l → l = arrayOrEmpty rawNodes).
  { intros l. destruct rawNodes; cbn; congruence. }
  destruct (orEmptyThenMap rawNodes) as [l|] eqn:Hl; [|done].
  rewrite (Hraw l eq_refl). cbn [bind]. rewrite timeline_nodes. fold nodes.
  unfold Spec.minDate. destruct (Spec.datedModes nodes) as [|[a0 d0] rest] eqn:Eem.
  { by intros [= <-]. }
  rewrite <- Eem. destruct (2 ^ 32 <=? maxWeeksOf opts); [done|]. intros [= <-].
  set (first := foldl (λ m n, Z.min m n.2) d0 rest).
  set (n := Z.to_nat (maxWeeksOf opts)).
  destruct (tick_loop (localMidnight first) (Spec.datedModes nodes) (replicate n (O, O)))
    as [Hlen Hcells]. cbv zeta in Hlen, Hcells.
  eexists. split; [reflexivity|]. rewrite Hlen, length_replicate. split.
  { unfold n, maxWeeksOf. lia. }
  intros w Hw.
  assert (Hcell : replicate n (O, O) !! w = Some (O, O)) by (by apply lookup_replicate_2).
  rewrite (Hcells w _ Hcell). cbn [fst snd]. rewrite !Nat.add_0_l.
  rewrite !count_datedModes by done. split; [done|].
  intros minDate _ Hmid. cbv zeta. rewrite Hmid.
  destruct (bucket_of_week (List.filter (λ n, negb (isAction other n)) nodes) minDate
              (Z.of_nat w)) as (_ & -> & -> & _).
  by rewrite !inWeek_not_other.
Qed.

End TimelineClaims.

Lemma timeline_counts_witness :
  ∃ cells, timelineOf (H := hostAt 0) Scenario.A Scenario.defaults = Ok (Some cells)
           ∧ Z.of_nat (length cells) = maxWeeksOf Scenario.defaults.
Proof.
  assert (Htl : ∃ tl, timelineOf (H := hostAt 0) Scenario.A Scenario.defaults = Ok tl).
  { eexists. vm_compute. reflexivity. }
  destruct Htl as [tl Htl].
  pose proof (timeline_counts (host := hostAt 0)
                (FArr [Scenario.node "N1" "exploring" "2024-01-01";
                       Scenario.node "N2" "making" "2024-01-08";
                       Scenario.node "N3" "exploring" "2024-01-15"])
                (FArr [Scenario.edge (lit "N1") (lit "N2");
                       Scenario.edge (lit "N2") (lit "N3")])
                Scenario.defaults tl Htl) as Hcells.
  cbv zeta in Hcells.
  destruct (Spec.minDate _) as [first|] eqn:Hfirst in Hcells.
  - destruct Hcells as (cells & -> & Hlen & _). exists cells. split; [exact Htl|exact Hlen].
  - vm_compute in Hfirst. discriminate Hfirst.
Defined.

(** ** When the report is written *)

Section Run.
Context {host : Host}.

Lemma timelines_returned opts files tls :
  computePerProjectTimelines opts files = Ok tls → Forall (λ pf, usable pf.2) files.
Proof.
  revert tls. induction files as [|[name f] files IH]; intros tls Htls; [constructor|].
  cbn [computePerProjectTimelines snd fst] in Htls.
  destruct f as [|[|nodes edges]]; [done|done|]. cbn [parseFile bind] in Htls.
  destruct (timelineOf (Raw.Obj nodes edges) opts) as [tl|e] eqn:Htl; [|done].
  cbn [bind] in Htls.
  destruct (computePerProjectTimelines opts files) as [tls'|e] eqn:Hrest; [|done].
  constructor; [|by eapply IH].
  exists nodes, edges. split; [done|]. by intros ->.
Qed.

Lemma timelines_app opts before pf after tls e :
  computePerProjectTimelines opts before = Ok tls →
  (do json <- parseFile pf.2; timelineOf json opts) = Throw e →
  computePerProjectTimelines opts (before ++ pf :: after) = Throw e.
Proof.
  revert tls. induction before as [|pf0 before IH]; intros tls Hbefore Hpf.
  - cbn [app computePerProjectTimelines].
    destruct (parseFile pf.2) as [json|e0]; cbn [bind] in *; [|by injection Hpf as ->].
    by rewrite Hpf.
  - cbn [app computePerProjectTimelines] in *.
    destruct (parseFile pf0.2) as [json|e0]; cbn [bind] in *; [|done].
    destruct (timelineOf json opts) as [tl|e0]; cbn [bind] in *; [|done].
    destruct (computePerProjectTimelines opts before) as [tls0|e0] eqn:Hrest;
      cbn [bind] in *; [|done].
    by rewrite (IH tls0 eq_refl Hpf).
Qed.

(** A document whose [nodes] is neither an array nor falsy passes the batch
    loop and stops the run after it.  computeMetricsForProject reads such a
    [nodes] as an empty array, so that the document gets the record of a
    project without nodes; computePerProjectTimelines calls [map] on it,
    which is a type error that leaves the function at once.  Hence a run
    that returns had only files that parse to a value other than null whose
    [nodes] is an array or falsy. *)
Theorem truthy_nodes_stop_the_run (opts : Options) :
  (∀ files r, run opts files = Ok r → Forall (λ pf, usable pf.2) files)
  ∧ (∀ edges, timelineOf (Raw.Obj FTruthy edges) opts = Throw TypeError)
  ∧ (∀ before name edges after tls,
       computePerProjectTimelines opts before = Ok tls →
       computePerProjectTimelines opts
         (before ++ (name, Raw.Json (Raw.Obj FTruthy edges)) :: after)
       = Throw TypeError)
  ∧ (∀ projectName edges,
       computeMetricsForProject projectName (Raw.Obj FTruthy edges) opts
       = computeMetricsForProject projectName (Raw.Obj (FArr []) edges) opts)
  ∧ (∀ b name edges,
       arrayOrEmpty edges = [] →
       ∃ b' m, batchStep opts b (name, Raw.Json (Raw.Obj FTruthy edges)) = Ok b'
               ∧ metrics b' = metrics b ++ [m]
               ∧ Metrics.nodes m = O ∧ Metrics.edges m = O).
Proof.
  split_and!.
  - intros files r Hr. unfold run in Hr.
    destruct (batchLoop opts emptyBatch files) as [b|e] eqn:Hb; [|done]. cbn [bind] in Hr.
    destruct (computePerProjectTimelines opts files) as [tls|e] eqn:Htls; [|done].
    by eapply timelines_returned.
  - done.
  - intros before name edges after tls Hbefore.
    by apply (timelines_app opts before _ after tls).
  - done.
  - intros b name edges He. unfold batchStep. cbn [parseFile fst snd bind].
    destruct (computeMetricsForProject_returns name FTruthy edges opts) as [m Hm].
    rewrite Hm. cbn [bind]. eexists _, m. split; [done|]. cbn [metrics]. split; [done|].
    unfold computeMetricsForProject, metricsOf in Hm. rewrite He in Hm.
    apply analyse_fields in Hm. cbv zeta in Hm. by destruct Hm as (-> & -> & _).
Qed.

End Run.

(** ** parseArgs *)

Section ParseArgsFacts.
Context {num : StringToNumber}.

Lemma atLeast_le (least d : Q) (x : option Q) : (least <= d)%Q → (least <= atLeast least d x)%Q.
Proof.
  intros Hd. unfold atLeast. destruct x as [q|]; [|done].
  destruct (Qle_bool least q) eqn:Hq; [by apply Qle_bool_iff|done].
Qed.

Lemma orElse_truthy d v : truthy d = true → truthy (orElse d v) = true.
Proof. intros Hd. unfold orElse. destruct v as [s|]; [|done]. by destruct (truthy s) eqn:Hs. Qed.

Lemma setFlag_keeps a v (out : Args.args (option Q)) :
  truthy (Args.title out) = true ∧ Args.output out ≠ Some [] →
  truthy (Args.title (setFlag a v out)) = true ∧ Args.output (setFlag a v out) ≠ Some [].
Proof.
  intros [Ht Ho]. unfold setFlag. repeat case_bool_decide; cbn; try done.
  - split; [done|]. destruct v as [[|c s]|]; done.
  - split; [by apply orElse_truthy|done].
Qed.

Lemma parseLoop_keeps (args : list jsstring) :
  ∀ out : Args.args (option Q),
    truthy (Args.title out) = true ∧ Args.output out ≠ Some [] →
    truthy (Args.title (parseLoop out args)) = true
    ∧ Args.output (parseLoop out args) ≠ Some [].
Proof.
  induction args as [args IH] using (induction_ltof1 _ (@length _)). unfold ltof in IH.
  intros out Hout. destruct args as [|a rest]; [done|].
  cbn [parseLoop]. destruct (isFlag a).
  - destruct rest as [|v rest']; [by apply setFlag_keeps|].
    apply IH; [simpl; lia|by apply setFlag_keeps].
  - apply IH; [simpl; lia|done].
Qed.

(** Whatever the command line, parseArgs returns a hub threshold of 1 or
    more, a window of 4 weeks or more, a title that is not empty, and an
    output path that is absent or not empty.  Without argument these are 4,
    200, the default title and no path.  An argument that is not one of the
    four flags, and is not taken by the flag before it, changes nothing, and
    neither does a flag that ends the command line without a value. *)
Theorem parseArgs_defaults (argv : list jsstring) :
  (1 <= Args.hubThreshold (parseArgs argv))%Q
  ∧ (4 <= Args.maxWeeks (parseArgs argv))%Q
  ∧ truthy (Args.title (parseArgs argv)) = true
  ∧ Args.output (parseArgs argv) ≠ Some []
  ∧ parseArgs []
    = {| Args.output := None; Args.hubThreshold := 4%Q; Args.maxWeeks := 200%Q;
         Args.title := lit "Threadscape Process Analysis Report" |}
  ∧ (∀ a, isFlag a = false → parseArgs (a :: argv) = parseArgs argv)
  ∧ ∀ a, parseArgs [a] = parseArgs [].
Proof.
  unfold parseArgs. cbn [Args.hubThreshold Args.maxWeeks Args.title Args.output].
  match goal with
  | |- context [parseLoop ?o argv] =>
      destruct (parseLoop_keeps argv o) as [Ht Ho]; [done|]
  end.
  split_and!; [by apply atLeast_le|by apply atLeast_le|done|done|done| |].
  - intros a Ha. cbn [parseLoop]. by rewrite Ha.
  - intros a. cbn [parseLoop]. destruct (isFlag a); [|done].
    unfold setFlag. repeat case_bool_decide;
      cbn [Args.hubThreshold Args.maxWeeks Args.title Args.output orElse];
      rewrite ?toNumber_4, ?toNumber_200; done.
Qed.

End ParseArgsFacts.

(** ** Dates written and read back *)

Lemma leapYear_spec (y : Z) :
  leapYear y = true ↔ (y mod 4 = 0 ∧ y mod 100 ≠ 0) ∨ y mod 400 = 0.
Proof.
  unfold leapYear. rewrite orb_true_iff, andb_true_iff, negb_true_iff.
  by rewrite !Z.eqb_eq, Z.eqb_neq.
Qed.

(** The day of the year that starts in March, for the year [y'] of which
    [yoe] is the year of the era. *)
Lemma civil_of_doy (y' mp d0 : Z) :
  0 ≤ mp ≤ 11 →
  let yoe := y' - y' / 400 * 400 in
  let doy := (153 * mp + 2) / 5 + d0 in
  0 ≤ d0 →
  (153 * mp + 2) / 5 + d0 < (153 * (mp + 1) + 2) / 5 →
  doy ≤ 365 →
  (doy = 365 → ((yoe + 1) mod 4 = 0 ∧ (yoe + 1) mod 100 ≠ 0) ∨ yoe = 399) →
  Date.civilFromDays
    (y' / 400 * 146097 + (yoe * 365 + yoe / 4 - yoe / 100 + doy) - 719468)
  = (if (if mp <? 10 then mp + 3 else mp - 9) <=? 2 then y' + 1 else y',
     if mp <? 10 then mp + 3 else mp - 9, d0 + 1).
Proof.
  intros Hmp yoe doy Hd0 Hd1 Hd2 Hleap. unfold Date.civilFromDays.
  set (era := y' / 400) in *.
  assert (Hyoe : 0 ≤ yoe < 400).
  { unfold yoe, era. pose proof (Z.div_mod y' 400). pose proof (Z.mod_pos_bound y' 400). lia. }
  assert (Hdoy : 0 ≤ doy ≤ 365).
  { split; [|done]. unfold doy in *. clearbody yoe. Z.div_mod_to_equations. lia. }
  set (doe := yoe * 365 + yoe / 4 - yoe / 100 + doy).
  assert (Hdoe : 0 ≤ doe < 146097).
  { unfold doe. clearbody doy yoe. Z.div_mod_to_equations. lia. }
  replace (era * 146097 + doe - 719468 + 719468) with (doe + era * 146097) by lia.
  rewrite Z.div_add by lia. rewrite (Z.div_small doe) by lia.
  replace (doe + era * 146097 - (0 + era) * 146097) with doe by lia.
  assert (Hy : (doe - doe / 1460 + doe / 36524 - doe / 146096) / 365 = yoe).
  { unfold doe. clearbody doy yoe. Z.div_mod_to_equations. lia. }
  rewrite Hy.
  replace (doe - (365 * yoe + yoe / 4 - yoe / 100)) with doy by (unfold doe; lia).
  assert (Hmp' : (5 * doy + 2) / 153 = mp).
  { unfold doy in *. clearbody yoe. Z.div_mod_to_equations. lia. }
  rewrite Hmp'.
  replace (doy - (153 * mp + 2) / 5 + 1) with (d0 + 1) by (unfold doy; lia).
  replace (yoe + (0 + era) * 400) with y' by (unfold yoe; lia).
  done.
Qed.

(** Every day of the calendar comes back from its day number. *)
Lemma civil_round_trip (y m d : Z) :
  1 ≤ m ≤ 12 → 1 ≤ d ≤ daysIn y m →
  Date.civilFromDays (Date.daysFromCivil y m d) = (y, m, d).
Proof.
  intros Hm Hd. unfold Date.daysFromCivil.
  assert (Hcases : m = 1 ∨ m = 2 ∨ m = 3 ∨ m = 4 ∨ m = 5 ∨ m = 6 ∨ m = 7 ∨ m = 8
                   ∨ m = 9 ∨ m = 10 ∨ m = 11 ∨ m = 12) by lia.
  pose proof (leapYear_spec y) as Hleap.
  unfold daysIn in Hd.
  repeat destruct Hcases as [->|Hcases]; try subst m;
    cbn [Z.eqb Z.leb Z.compare Pos.compare Pos.compare_cont orb Pos.eqb] in *;
    match goal with
    | |- context [(?a + 9) mod 12] =>
        let mp := eval vm_compute in ((a + 9) mod 12) in
        change ((a + 9) mod 12) with mp
    end;
    match goal with
    | |- context [(153 * ?mp + 2) / 5 + ?d0 - 1] =>
        replace ((153 * mp + 2) / 5 + d0 - 1) with ((153 * mp + 2) / 5 + (d0 - 1)) by lia
    end;
    match goal with
    | |- Date.civilFromDays (?y' / 400 * 146097 + _ - 719468) = _ =>
        rewrite (civil_of_doy y')
    end.
  all: try lia.
  all: try (repeat match goal with
                   | |- context [if ?c then _ else _] =>
                       let r := eval vm_compute in c in change c with r; cbv iota
                   end;
            repeat f_equal; lia).
  all: try (destruct (leapYear y) eqn:E; [pose proof (proj1 Hleap eq_refl)|];
            intros; cbv zeta in *; Z.div_mod_to_equations; lia).
Qed.

Lemma length_digits (w : nat) (n : Z) : length (Date.digits w n) = w.
Proof.
  revert n. induction w as [|w IH]; intros n; [done|].
  cbn [Date.digits]. rewrite length_app, IH. simpl. lia.
Qed.

Lemma number_snoc (s : jsstring) (c : N) (acc : Z) :
  Date.number acc (s ++ [c])
  = a ← Date.number acc s; d ← Date.digit c; Some (10 * a + d).
Proof.
  revert acc. induction s as [|x s IH]; intros acc; cbn [app Date.number].
  - by destruct (Date.digit c).
  - destruct (Date.digit x) as [dx|]; [|done]. cbn [mbind option_bind]. apply IH.
Qed.

Lemma number_digits (w : nat) (n acc : Z) :
  0 ≤ n < 10 ^ Z.of_nat w →
  Date.number acc (Date.digits w n) = Some (acc * 10 ^ Z.of_nat w + n).
Proof.
  revert n. induction w as [|w IH]; intros n Hn.
  - cbn. f_equal. change (10 ^ Z.of_nat 0) with 1 in *. lia.
  - cbn [Date.digits]. rewrite number_snoc.
    rewrite Nat2Z.inj_succ, Z.pow_succ_r in * by lia.
    rewrite IH by (Z.div_mod_to_equations; lia). cbn [mbind option_bind].
    assert (Hdigit : Date.digit (Z.to_N (48 + n mod 10)) = Some (n mod 10)).
    { unfold Date.digit. pose proof (Z.mod_pos_bound n 10 ltac:(lia)).
      rewrite (proj2 (N.leb_le 48 _)) by lia. rewrite (proj2 (N.leb_le _ 57)) by lia.
      cbn [andb]. f_equal. lia. }
    rewrite Hdigit. cbn [mbind option_bind]. f_equal.
    Z.div_mod_to_equations. lia.
Qed.

Lemma parse_dateText (offset y m d : Z) :
  0 ≤ y ≤ 9999 → 1 ≤ m ≤ 12 → 1 ≤ d ≤ 31 →
  Date.parseAtOffset offset (dateText y m d ++ lit "T00:00:00")
  = Some (Date.daysFromCivil y m d * Date.msPerDay - offset * 60000).
Proof.
  intros Hy Hm Hd. unfold Date.parseAtOffset, dateText.
  set (Y := Date.digits 4 y). set (M := Date.digits 2 m). set (D := Date.digits 2 d).
  assert (HY : length Y = 4%nat) by apply length_digits.
  assert (HM : length M = 2%nat) by apply length_digits.
  assert (HD : length D = 2%nat) by apply length_digits.
  destruct Y as [|y1 [|y2 [|y3 [|y4 [|]]]]] eqn:EY; try done.
  destruct M as [|m1 [|m2 [|]]] eqn:EM; try done.
  destruct D as [|d1 [|d2 [|]]] eqn:ED; try done.
  cbn [app lit list_ascii_of_string fmap list_fmap length take drop bool_decide decide_rel].
  rewrite !bool_decide_eq_true_2 by done. cbn [andb].
  rewrite <- EY, <- EM, <- ED. unfold Y, M, D.
  rewrite !number_digits by (cbn; lia). cbn [mbind option_bind].
  rewrite !Z.mul_0_l, !Z.add_0_l.
  rewrite (proj2 (Z.leb_le 1 m)), (proj2 (Z.leb_le m 12)), (proj2 (Z.leb_le 1 d)),
    (proj2 (Z.leb_le d 31)) by lia.
  done.
Qed.

Lemma isoDay_dateText (day y m d : Z) (ms : Z) :
  ms / Date.msPerDay = day → Date.civilFromDays day = (y, m, d) → 0 ≤ y ≤ 9999 →
  Date.isoDay ms = dateText y m d.
Proof.
  intros Hday Hcivil Hy. unfold Date.isoDay. rewrite Hday, Hcivil.
  rewrite (proj2 (Z.leb_le 0 y)), (proj2 (Z.leb_le y 9999)) by lia. cbn [andb].
  fold (dateText y m d). apply take_ge.
  unfold dateText. rewrite !length_app, !length_digits. simpl. lia.
Qed.

Lemma daysIn_le (y m : Z) : 28 ≤ daysIn y m ≤ 31.
Proof.
  unfold daysIn. destruct (m =? 2); [destruct (leapYear y); lia|].
  destruct (_ || _); lia.
Qed.

Lemma daysFromCivil_before (y m d : Z) :
  1 ≤ m ≤ 12 → 1 ≤ d ≤ daysIn y m →
  let '(y', m', d') := dayBefore y m d in
  Date.daysFromCivil y' m' d' = Date.daysFromCivil y m d - 1
  ∧ 1 ≤ m' ≤ 12 ∧ 1 ≤ d' ≤ daysIn y' m'.
Proof.
  intros Hm Hd. unfold dayBefore.
  destruct (Z.leb_spec 2 d) as [Hd2|Hd1].
  { split; [unfold Date.daysFromCivil; destruct (m <=? 2); lia|lia]. }
  assert (d = 1) as -> by lia.
  destruct (Z.leb_spec 2 m) as [Hm2|Hm1].
  - pose proof (daysIn_le y (m - 1)). split; [|lia].
    assert (Hcases : m = 2 ∨ m = 3 ∨ m = 4 ∨ m = 5 ∨ m = 6 ∨ m = 7 ∨ m = 8
                     ∨ m = 9 ∨ m = 10 ∨ m = 11 ∨ m = 12) by lia.
    pose proof (leapYear_spec y) as Hleap.
    unfold Date.daysFromCivil, daysIn.
    repeat destruct Hcases as [->|Hcases]; try subst m;
      repeat match goal with
             | |- context [if ?c then _ else _] =>
                 lazymatch c with context [y] => fail | _ => idtac end;
                 let r := eval vm_compute in c in change c with r; cbv iota
             end;
      repeat match goal with
             | |- context [(?a + 9) mod 12] =>
                 lazymatch a with context [y] => fail | _ => idtac end;
                 let r := eval vm_compute in ((a + 9) mod 12) in
                 change ((a + 9) mod 12) with r
             end.
    all: destruct (leapYear y) eqn:E; [pose proof (proj1 Hleap eq_refl)|];
      Z.div_mod_to_equations; lia.
  - assert (m = 1) as -> by lia. split; [|unfold daysIn; simpl; lia].
    unfold Date.daysFromCivil.
    change (12 <=? 2) with false. change (1 <=? 2) with true. cbv iota.
    change ((12 + 9) mod 12) with 9. change ((1 + 9) mod 12) with 10.
    change ((153 * 9 + 2) / 5) with 275. change ((153 * 10 + 2) / 5) with 306. lia.
Qed.

(** A date that is written to a project comes back as minDate or maxDate on
    a machine on UTC or west of it; east of UTC it comes back as the day
    before, local midnight being a time of that day in UTC.  The day before
    0000-01-01 is in the year -1, which is written with a sign and six
    digits, so that the ten characters kept are -000001-12. *)
Theorem date_round_trip (offset y m d : Z) :
  0 ≤ y ≤ 9999 → 1 ≤ m ≤ 12 → 1 ≤ d ≤ daysIn y m → -1440 < offset < 1440 →
  ∃ ms, parseDate (H := hostAt offset) (dateText y m d) = Some ms
        ∧ (offset ≤ 0 → Date.isoDay ms = dateText y m d)
        ∧ (0 < offset → (y, m, d) ≠ (0, 1, 1) →
           let '(y', m', d') := dayBefore y m d in Date.isoDay ms = dateText y' m' d')
        ∧ (0 < offset → (y, m, d) = (0, 1, 1) → Date.isoDay ms = lit "-000001-12").
Proof.
  intros Hy Hm Hd Hoff. pose proof (daysIn_le y m) as Hdays.
  exists (Date.daysFromCivil y m d * Date.msPerDay - offset * 60000).
  split_and!; cycle 3.
  { intros Heast [= -> -> ->]. unfold Date.isoDay.
    let v := eval vm_compute in (Date.daysFromCivil 0 1 1) in
    change (Date.daysFromCivil 0 1 1) with v.
    match goal with
    | |- context [?ms / Date.msPerDay] =>
        replace (ms / Date.msPerDay) with (-719529)
          by (unfold Date.msPerDay; Z.div_mod_to_equations; lia)
    end.
    by vm_compute. }
  - unfold parseDate.
    assert (Htruthy : truthy (dateText y m d) = true).
    { pose proof (length_digits 4 y) as Hlen. unfold dateText.
      destruct (Date.digits 4 y); [done|done]. }
    rewrite Htruthy. cbn [negb]. apply parse_dateText; lia.
  - intros Hwest. apply (isoDay_dateText (Date.daysFromCivil y m d)); [|by apply civil_round_trip|done].
    unfold Date.msPerDay. Z.div_mod_to_equations. lia.
  - intros Heast Hfirst.
    pose proof (daysFromCivil_before y m d Hm Hd) as Hbefore.
    destruct (dayBefore y m d) as [[y' m'] d'] eqn:Eb.
    destruct Hbefore as (Hday & Hm' & Hd').
    apply (isoDay_dateText (Date.daysFromCivil y' m' d')); [|by apply civil_round_trip|].
    + rewrite Hday. unfold Date.msPerDay. Z.div_mod_to_equations. lia.
    + unfold dayBefore in Eb.
      destruct (Z.leb_spec 2 d); [injection Eb as <- <- <-; lia|].
      destruct (Z.leb_spec 2 m); [injection Eb as <- <- <-; lia|].
      injection Eb as <- <- <-.
      assert (y ≠ 0); [|lia]. intros ->. apply Hfirst. f_equal; [f_equal|]; lia.
Qed.

Lemma date_round_trip_witness :
  ∃ ms, parseDate (H := hostAt 60) (dateText 2024 1 1) = Some ms
        ∧ Date.isoDay ms = dateText 2023 12 31.
Proof.
  destruct (date_round_trip 60 2024 1 1) as (ms & Hms & _ & Heast & _);
    [lia|lia|by vm_compute|lia|].
  exists ms. split; [done|]. by apply Heast.
Defined.

(** ** The repair of the years *)

Lemma digit_digits (n : Z) : is_Some (Date.digit (Z.to_N (48 + n mod 10))).
Proof.
  unfold Date.digit. pose proof (Z.mod_pos_bound n 10 ltac:(lia)).
  rewrite (proj2 (N.leb_le 48 _)) by lia. rewrite (proj2 (N.leb_le _ 57)) by lia. by eexists.
Qed.

Lemma isDateText_dateText (y m d : Z) : isDateText (dateText y m d) = true.
Proof.
  unfold dateText. cbn [Date.digits app lit list_ascii_of_string fmap list_fmap isDateText forallb].
  rewrite !bool_decide_eq_true_2 by (first [apply digit_digits|done]). done.
Qed.

Lemma isDateText_length (s : jsstring) : isDateText s = true → length s = 10%nat.
Proof. by destruct s as [|? [|? [|? [|? [|? [|? [|? [|? [|? [|? [|]]]]]]]]]]]. Qed.

Lemma daysFromCivil_era (y m d k : Z) :
  Date.daysFromCivil (y + 400 * k) m d = Date.daysFromCivil y m d + 146097 * k.
Proof.
  unfold Date.daysFromCivil. destruct (m <=? 2).
  - replace (y + 400 * k - 1) with (y - 1 + k * 400) by lia.
    rewrite Z.div_add by lia.
    replace (y - 1 + k * 400 - ((y - 1) / 400 + k) * 400) with (y - 1 - (y - 1) / 400 * 400)
      by lia.
    lia.
  - replace (y + 400 * k) with (y + k * 400) by lia.
    rewrite Z.div_add by lia.
    replace (y + k * 400 - (y / 400 + k) * 400) with (y - y / 400 * 400) by lia.
    lia.
Qed.

Lemma fixDateString_Some (dateStr : option jsstring) (years : gset jsstring)
    (fixed : jsstring) :
  fixDateString dateStr years = Some fixed →
  isDateText (strOrEmpty dateStr) = true ∧ take 4 (strOrEmpty dateStr) ∈ years
  ∧ fixed = lit "20" ++ drop 2 (strOrEmpty dateStr).
Proof.
  unfold fixDateString. cbv zeta. destruct (isDateText _); [|done].
  case_bool_decide; [|done]. by intros [= <-].
Qed.

Lemma not_defaultYears (rest : jsstring) : take 4 (lit "20" ++ rest) ∉ defaultYears.
Proof.
  unfold defaultYears. rewrite elem_of_union, !elem_of_singleton.
  intros [Hc|Hc]; apply (f_equal head) in Hc; vm_compute in Hc; discriminate.
Qed.

(** A date is repaired when it is written YYYY-MM-DD with a year of the set,
    and only then; the repair writes 20 over the first two characters and
    keeps the rest, so that year 00yy becomes year 20yy with the same month
    and day, which is 730485 days later.  With the years 0025 and 0026 a
    repaired date is not repaired again. *)
Theorem fixDateString_moves_to_2000s (dateStr : option jsstring) (years : gset jsstring) :
  let s := strOrEmpty dateStr in
  (match fixDateString dateStr years with
   | Some fixed =>
       isDateText s = true ∧ take 4 s ∈ years
       ∧ isDateText fixed = true ∧ take 2 fixed = lit "20" ∧ drop 2 fixed = drop 2 s
   | None => isDateText s = false ∨ take 4 s ∉ years
   end)
  ∧ (∀ fixed, fixDateString dateStr defaultYears = Some fixed →
              fixDateString (Some fixed) defaultYears = None)
  ∧ (∀ y m d, 0 ≤ y < 100 → dateStr = Some (dateText y m d) →
              Date.digits 4 y ∈ years →
              fixDateString dateStr years = Some (dateText (2000 + y) m d)
              ∧ Date.daysFromCivil (2000 + y) m d = Date.daysFromCivil y m d + 730485).
Proof.
  intros s. split_and!.
  - unfold fixDateString. fold s. destruct (isDateText s) eqn:Hs; cbn [negb]; [|by left].
    case_bool_decide as Hy; cbn [negb]; [|by right].
    split_and!; try done.
    destruct s as [|y1 [|y2 [|y3 [|y4 [|h1 [|m1 [|m2 [|h2 [|d1 [|d2 [|]]]]]]]]]]]; try done.
    cbn [isDateText forallb] in Hs. rewrite !andb_true_iff in Hs. destruct_and!.
    cbn [lit list_ascii_of_string fmap list_fmap app drop take isDateText forallb].
    rewrite !andb_true_iff. split_and!; done.
  - intros fixed (_ & _ & ->)%fixDateString_Some. unfold fixDateString. cbv zeta.
    change (strOrEmpty (Some (lit "20" ++ drop 2 (strOrEmpty dateStr))))
      with (lit "20" ++ drop 2 (strOrEmpty dateStr)).
    rewrite (bool_decide_eq_false_2 _ (not_defaultYears _)).
    by destruct (isDateText _).
  - intros y m d Hy -> Hin. split.
    + unfold fixDateString. cbn [strOrEmpty default from_option id].
      rewrite isDateText_dateText. cbn [negb].
      assert (Hyear : take 4 (dateText y m d) = Date.digits 4 y).
      { unfold dateText. by rewrite take_app_length' by (by rewrite length_digits). }
      rewrite Hyear, bool_decide_eq_true_2 by done. cbn [negb]. f_equal.
      unfold dateText. cbn [Date.digits app lit list_ascii_of_string fmap list_fmap drop].
      assert (H3 : (2000 + y) / 10 / 10 / 10 mod 10 = 2) by (Z.div_mod_to_equations; lia).
      assert (H2 : (2000 + y) / 10 / 10 mod 10 = 0) by (Z.div_mod_to_equations; lia).
      assert (H1 : (2000 + y) / 10 mod 10 = y / 10 mod 10) by (Z.div_mod_to_equations; lia).
      assert (H0 : (2000 + y) mod 10 = y mod 10) by (Z.div_mod_to_equations; lia).
      by rewrite H3, H2, H1, H0.
    + replace (2000 + y) with (y + 400 * 5) by lia. rewrite daysFromCivil_era. lia.
Qed.

(** ** Degrees *)

Lemma sum_count_NoDup {A B} `{EqDecision B} (g : A → B) (ids : list B) (l : list A) :
  NoDup ids →
  sum_list_with (λ v, count (λ x, bool_decide (g x = v)) l) ids
  = count (λ x, bool_decide (g x ∈ ids)) l.
Proof.
  intros Hnd. induction Hnd as [|v ids Hv Hnd IH]; cbn [sum_list_with].
  - symmetry. apply count_zero. intros x _. apply bool_decide_eq_false_2. by intros ?%elem_of_nil.
  - rewrite IH. clear IH. unfold count. induction l as [|x l IHl]; [done|].
    cbn [List.filter]. destruct (decide (g x = v)) as [Hx|Hx].
    + rewrite (bool_decide_eq_true_2 (g x = v)) by done.
      rewrite (bool_decide_eq_false_2 (g x ∈ ids)) by (by rewrite Hx).
      rewrite (bool_decide_eq_true_2 (g x ∈ v :: ids)) by (rewrite Hx; left).
      cbn [length]. lia.
    + rewrite (bool_decide_eq_false_2 (g x = v)) by done.
      destruct (decide (g x ∈ ids)) as [Hi|Hi].
      * rewrite (bool_decide_eq_true_2 (g x ∈ ids)) by done.
        rewrite (bool_decide_eq_true_2 (g x ∈ v :: ids)) by (by right).
        cbn [length]. lia.
      * rewrite (bool_decide_eq_false_2 (g x ∈ ids)) by done.
        rewrite (bool_decide_eq_false_2 (g x ∈ v :: ids)); [done|].
        by intros [?|?]%elem_of_cons.
Qed.

Lemma threshold_count {A} (f : A → nat) (h : nat) (l : list A) :
  (h * count (λ x, h <=? f x)%nat l ≤ sum_list_with f l)%nat.
Proof.
  unfold count. induction l as [|x l IH]; cbn [List.filter sum_list_with].
  { cbn [length]. lia. }
  destruct (Nat.leb_spec h (f x)); cbn [length]; rewrite ?Nat.mul_succ_r; lia.
Qed.

Lemma sum_degrees (nodes : list Node.node) (deg : gmap jsstring nat) (c : jsstring → nat) :
  (∀ v, degOf deg v = c v) →
  sum_list_with (λ n, degOf deg (Node.id n)) nodes = sum_list_with c (Node.id <$> nodes).
Proof.
  intros Hc. induction nodes as [|n nodes IH]; [done|].
  rewrite fmap_cons. cbn [sum_list_with]. by rewrite IH, Hc.
Qed.

Section Degrees.
Context {host : Host}.

(** In a project whose node ids are all different, the in-degrees of the
    nodes add up to the number of valid edges, and so do the out-degrees.
    Hence the hubs are few: [convergent] times the hub threshold is at most
    the number of edges, and so is [divergent] times it; and every node
    that is not a source, or not a sink, takes an edge. *)
Theorem degrees_add_up (projectName : jsstring) (rawNodes : Field Raw.node)
    (rawEdges : Field Raw.edge) (opts : Options) (m : Metrics.metrics) :
  let nodes := loadNode <$> arrayOrEmpty rawNodes in
  let edges := loadEdges (idToIndexOf nodes) (arrayOrEmpty rawEdges) in
  computeMetricsForProject projectName (Raw.Obj rawNodes rawEdges) opts = Ok m →
  NoDup (Node.id <$> nodes) →
  sum_list_with (λ n, degOf (inDegOf nodes edges) (Node.id n)) nodes = Metrics.edges m
  ∧ sum_list_with (λ n, degOf (outDegOf nodes edges) (Node.id n)) nodes = Metrics.edges m
  ∧ Z.of_nat (Metrics.convergent m) * hubThresholdOf opts ≤ Z.of_nat (Metrics.edges m)
  ∧ Z.of_nat (Metrics.divergent m) * hubThresholdOf opts ≤ Z.of_nat (Metrics.edges m)
  ∧ (Metrics.nodes m ≤ Metrics.sources m + Metrics.edges m)%nat
  ∧ (Metrics.nodes m ≤ Metrics.sinks m + Metrics.edges m)%nat.
Proof.
  intros nodes edges. unfold computeMetricsForProject, metricsOf.
  intros Hm Hnd. open_analyse Hm comps Hcomps. fold nodes. fold edges.
  assert (Hin : sum_list_with (λ n, degOf (inDegOf nodes edges) (Node.id n)) nodes
                = length edges).
  { rewrite (sum_degrees nodes _ (λ v, count (λ e, bool_decide (Edge.t e = v)) edges))
      by (intros v; apply inDegOf_spec).
    rewrite sum_count_NoDup by done. apply count_all, Forall_forall.
    intros e He. apply bool_decide_eq_true_2.
    apply loadEdges_valid in He as (_ & _ & Ht). by apply idToIndexOf_lookup. }
  assert (Hout : sum_list_with (λ n, degOf (outDegOf nodes edges) (Node.id n)) nodes
                 = length edges).
  { rewrite (sum_degrees nodes _ (λ v, count (λ e, bool_decide (Edge.s e = v)) edges))
      by (intros v; apply outDegOf_spec).
    rewrite sum_count_NoDup by done. apply count_all, Forall_forall.
    intros e He. apply bool_decide_eq_true_2.
    apply loadEdges_valid in He as (_ & Hs & _). by apply idToIndexOf_lookup. }
  assert (Hhub : ∀ deg : gmap jsstring nat,
             sum_list_with (λ n, degOf deg (Node.id n)) nodes = length edges →
             Z.of_nat (count (λ n, hubThresholdOf opts <=? Z.of_nat (degOf deg (Node.id n)))
                         nodes) * hubThresholdOf opts ≤ Z.of_nat (length edges)
             ∧ (length nodes
                ≤ count (λ n, (degOf deg (Node.id n) =? 0)%nat) nodes + length edges)%nat).
  { intros deg Hsum. split.
    - pose proof (threshold_count (λ n, degOf deg (Node.id n))
                    (Z.to_nat (hubThresholdOf opts)) nodes) as Hle.
      rewrite Hsum in Hle.
      assert (Hh : 1 ≤ hubThresholdOf opts) by (unfold hubThresholdOf; lia).
      erewrite (count_ext_in _ (λ n, (Z.to_nat (hubThresholdOf opts)
                                      <=? degOf deg (Node.id n))%nat)).
      + nia.
      + intros n _. destruct (Z.leb_spec (hubThresholdOf opts) (Z.of_nat (degOf deg (Node.id n))));
          destruct (Nat.leb_spec (Z.to_nat (hubThresholdOf opts)) (degOf deg (Node.id n)));
          try done; lia.
    - rewrite <- Hsum. clear. unfold count.
      induction nodes as [|n l IH]; cbn [List.filter sum_list_with length]; [lia|].
      destruct (Nat.eqb_spec (degOf deg (Node.id n)) 0); cbn [length]; lia. }
  destruct (Hhub _ Hin) as [Hconv Hsrc]. destruct (Hhub _ Hout) as [Hdiv Hsnk].
  by split_and!.
Qed.

End Degrees.

Lemma degrees_add_up_witness :
  ∃ m, computeMetricsForProject (H := hostAt 0) (lit "1_a") Scenario.A Scenario.defaults = Ok m
       ∧ Z.of_nat (Metrics.convergent m) * hubThresholdOf Scenario.defaults
         ≤ Z.of_nat (Metrics.edges m)
       ∧ (Metrics.nodes m ≤ Metrics.sources m + Metrics.edges m)%nat.
Proof.
  eexists. split; [vm_compute; reflexivity|].
  match goal with
  | |- context [Metrics.convergent ?m] =>
      destruct (degrees_add_up (host := hostAt 0) (lit "1_a")
                  (FArr [Scenario.node "N1" "exploring" "2024-01-01";
                         Scenario.node "N2" "making" "2024-01-08";
                         Scenario.node "N3" "exploring" "2024-01-15"])
                  (FArr [Scenario.edge (lit "N1") (lit "N2");
                         Scenario.edge (lit "N2") (lit "N3")])
                  Scenario.defaults m)
        as (_ & _ & Hconv & _ & Hsrc & _);
        [vm_compute; reflexivity|apply (bool_decide_unpack _); by vm_compute|]
  end.
  split; [exact Hconv|exact Hsrc].
Defined.

(** ** Density *)

(** Pairs of different elements of a list without repetition. *)
Lemma pairs_of_distinct {A} (ids : list A) (pairs : list (A * A)) :
  NoDup ids → NoDup pairs →
  (∀ p, p ∈ pairs → p.1 ≠ p.2 ∧ p.1 ∈ ids ∧ p.2 ∈ ids) →
  (length pairs ≤ length ids * (length ids - 1))%nat.
Proof.
  intros Hids Hpairs Hin.
  set (diag := (λ v, (v, v)) <$> ids).
  assert (Hnd : NoDup (pairs ++ diag)).
  { apply NoDup_app. split_and!; [done| |].
    - intros [a b] Hp Hd. apply Hin in Hp as (Hne & _).
      apply list_elem_of_fmap in Hd as (v & [= -> ->] & _). by apply Hne.
    - apply NoDup_fmap_2; [|done]. by intros x y [= ->]. }
  assert (Hsub : pairs ++ diag ⊆+ list_prod ids ids).
  { apply NoDup_submseteq; [done|]. intros [a b] Hp.
    apply list_elem_of_In, in_prod_iff. rewrite <- !list_elem_of_In.
    apply elem_of_app in Hp as [Hp|Hd].
    - by apply Hin in Hp as (_ & ? & ?).
    - by apply list_elem_of_fmap in Hd as (v & [= -> ->] & ?). }
  apply submseteq_length in Hsub.
  rewrite length_app, length_prod in Hsub. unfold diag in Hsub. rewrite length_fmap in Hsub.
  destruct (length ids) as [|n]; [lia|]. nia.
Qed.

Section Density.
Context {host : Host}.

(** In a project whose node ids are all different and in which no valid
    edge repeats the source and the target of another, there are at most
    n (n - 1) valid edges for n nodes, and the density is at most 100. *)
Theorem density_of_simple_graph (projectName : jsstring) (rawNodes : Field Raw.node)
    (rawEdges : Field Raw.edge) (opts : Options) (m : Metrics.metrics) :
  let nodes := loadNode <$> arrayOrEmpty rawNodes in
  let edges := loadEdges (idToIndexOf nodes) (arrayOrEmpty rawEdges) in
  computeMetricsForProject projectName (Raw.Obj rawNodes rawEdges) opts = Ok m →
  NoDup (Node.id <$> nodes) →
  NoDup ((λ e, (Edge.s e, Edge.t e)) <$> edges) →
  (Metrics.edges m ≤ Metrics.nodes m * (Metrics.nodes m - 1))%nat
  ∧ (0 <= Metrics.density m)%Q ∧ (Metrics.density m <= 100)%Q.
Proof.
  intros nodes edges. unfold computeMetricsForProject, metricsOf.
  intros Hm Hids Hpairs. open_analyse Hm comps Hcomps. fold nodes. fold edges.
  assert (Hle : (length edges ≤ length nodes * (length nodes - 1))%nat).
  { pose proof (pairs_of_distinct (Node.id <$> nodes)
                  ((λ e, (Edge.s e, Edge.t e)) <$> edges) Hids Hpairs) as Hp.
    rewrite !length_fmap in Hp. apply Hp.
    intros [a b] Hab. apply list_elem_of_fmap in Hab as (e & [= -> ->] & He).
    apply loadEdges_valid in He as (Hne & Hs & Ht). cbn [fst snd].
    by rewrite <- !idToIndexOf_lookup. }
  split; [done|]. rewrite Qred_correct. unfold densityOf.
  destruct (Nat.ltb_spec 1 (length nodes)) as [Hn|Hn]; [|split; lra].
  unfold Num.div. rewrite Qred_correct.
  pose proof (ofNat_pos (length nodes * (length nodes - 1)) ltac:(nia)) as Hpos.
  pose proof (ofNat_nonneg (length edges)) as Hnn.
  pose proof (ofNat_le _ _ Hle) as Hq.
  split.
  - apply Qmult_le_0_compat; [|lra]. by apply Qle_shift_div_l; [|lra].
  - assert (Num.ofNat (length edges) / Num.ofNat (length nodes * (length nodes - 1)) <= 1)%Q;
      [|lra].
    apply Qle_shift_div_r; [done|lra].
Qed.

End Density.

Lemma density_of_simple_graph_witness :
  ∃ m, computeMetricsForProject (H := hostAt 0) (lit "1_a") Scenario.A Scenario.defaults = Ok m
       ∧ (Metrics.edges m ≤ Metrics.nodes m * (Metrics.nodes m - 1))%nat
       ∧ (Metrics.density m <= 100)%Q.
Proof.
  eexists. split; [vm_compute; reflexivity|].
  match goal with
  | |- context [Metrics.density ?m] =>
      destruct (density_of_simple_graph (host := hostAt 0) (lit "1_a")
                  (FArr [Scenario.node "N1" "exploring" "2024-01-01";
                         Scenario.node "N2" "making" "2024-01-08";
                         Scenario.node "N3" "exploring" "2024-01-15"])
                  (FArr [Scenario.edge (lit "N1") (lit "N2");
                         Scenario.edge (lit "N2") (lit "N3")])
                  Scenario.defaults m)
        as (Hedges & _ & Hdensity);
        [vm_compute; reflexivity|apply (bool_decide_unpack _); by vm_compute
        |apply (bool_decide_unpack _); by vm_compute|]
  end.
  split; [exact Hedges|exact Hdensity].
Defined.

(** ** The cells of the CSV text *)

Lemma readQuoted_doubleQuotes (s rest : jsstring) :
  head rest ≠ Some 34%N →
  readQuoted (doubleQuotes s ++ 34%N :: rest) = Some (s, rest).
Proof.
  intros Hrest. unfold doubleQuotes. induction s as [|c s IH].
  - cbn. destruct rest as [|c' rest']; [done|].
    destruct (N.eqb_spec c' 34) as [->|Hc]; [by destruct Hrest|done].
  - cbn [mbind list_bind]. destruct (N.eqb_spec c 34) as [->|Hc].
    + cbn [app readQuoted]. rewrite !N.eqb_refl. fold (doubleQuotes s) in *.
      unfold doubleQuotes in *. by rewrite IH.
    + cbn [app readQuoted]. rewrite (proj2 (N.eqb_neq _ _) Hc). by rewrite IH.
Qed.

(** A reader of CSV finds the name of the project in the first cell of its
    row, whatever characters the name holds: the quotes that toCsv doubles
    are read back as they were, and the cell ends where toCsv ends it. *)
Theorem project_cell_round_trip (m : Metrics.metrics) (rest : jsstring) :
  head rest ≠ Some 34%N →
  ∃ text, cellOf (getField m "project") = CellText text
          ∧ readQuoted (text ++ 34%N :: rest) = Some (Metrics.project m, rest).
Proof.
  intros Hrest. exists (doubleQuotes (Metrics.project m)). split; [done|].
  by apply readQuoted_doubleQuotes.
Qed.

Lemma project_cell_round_trip_witness :
  ∃ m, computeMetricsForProject (H := hostAt 0) [97; 34; 98]%N Scenario.A Scenario.defaults
       = Ok m
       ∧ ∃ text, cellOf (getField m "project") = CellText text
                 ∧ readQuoted (text ++ 34%N :: lit ",") = Some ([97; 34; 98]%N, lit ",").
Proof.
  eexists. split; [vm_compute; reflexivity|].
  match goal with
  | |- context [getField ?m _] =>
      destruct (project_cell_round_trip m (lit ",")) as (text & Hcell & Hread);
        [discriminate|]
  end.
  exists text. split; [exact Hcell|exact Hread].
Defined.

(** ** The depth of the recursion *)

Lemma successors_mono (visit visit' : jsstring → Scc.state → option Scc.state) v ws :
  (∀ w st st', visit w st = Some st' → visit' w st = Some st') →
  ∀ st st', Scc.successors visit v ws st = Some st' →
            Scc.successors visit' v ws st = Some st'.
Proof.
  intros Hvisit. induction ws as [|w ws IH]; intros st st'; cbn [Scc.successors]; [done|].
  case_bool_decide; [case_bool_decide; apply IH|].
  destruct (visit w st) as [st1|] eqn:Hw; [|done]. cbn [mbind option_bind].
  rewrite (Hvisit _ _ _ Hw). cbn [mbind option_bind]. apply IH.
Qed.

Lemma strongConnect_mono adjacency (fuel fuel' : nat) :
  (fuel ≤ fuel')%nat →
  ∀ v st st', Scc.strongConnect fuel adjacency v st = Some st' →
              Scc.strongConnect fuel' adjacency v st = Some st'.
Proof.
  revert fuel'. induction fuel as [|fuel IH]; intros fuel' Hle v st st'; [done|].
  destruct fuel' as [|fuel']; [lia|]. cbn [Scc.strongConnect].
  destruct (Scc.successors (Scc.strongConnect fuel adjacency) v _ _) as [st1|] eqn:Hs; [|done].
  cbn [mbind option_bind]. intros [= <-].
  erewrite successors_mono; [done| |exact Hs].
  apply IH. lia.
Qed.

Lemma roots_mono adjacency (fuel fuel' : nat) ids :
  (fuel ≤ fuel')%nat →
  ∀ st st', Scc.roots fuel adjacency ids st = Some st' →
            Scc.roots fuel' adjacency ids st = Some st'.
Proof.
  intros Hle. induction ids as [|id ids IH]; intros st st'; cbn [Scc.roots]; [done|].
  case_bool_decide; [apply IH|].
  destruct (Scc.strongConnect fuel adjacency id st) as [st1|] eqn:Hs; [|done].
  cbn [mbind option_bind]. rewrite (strongConnect_mono _ _ _ Hle _ _ _ Hs).
  cbn [mbind option_bind]. apply IH.
Qed.

(** strongConnect never nests deeper than there are different node ids:
    held to any depth that is at least their number, the search completes,
    and it finds the same components whatever that depth is. *)
Theorem strongConnect_depth (nodes : list Node.node) (rawEdges : list Raw.edge)
    (depth : nat) :
  let ids := Node.id <$> nodes in
  let idToIndex := idToIndexOf nodes in
  let edges := loadEdges idToIndex rawEdges in
  (size (list_to_set (C := gset jsstring) ids) ≤ depth)%nat →
  ∃ comps,
    Scc.components <$> Scc.roots depth (Scc.adjacencyOf ids edges idToIndex) ids Scc.init
    = Some comps
    ∧ Scc.componentsOf nodes edges idToIndex = Some comps.
Proof.
  intros ids idToIndex edges Hdepth.
  destruct (SccFacts.roots_returns (Scc.adjacencyOf ids edges idToIndex)
              (list_to_set ids)) with (fuel := depth) (ids := ids) (st := Scc.init)
    as [st Hst].
  - intros v w Hw. apply SccFacts.elem_of_successorsOf in Hw as (e & _ & _ & _ & _ & _ & Hw).
    apply elem_of_list_to_set. by apply idToIndexOf_lookup.
  - intros v Hv. by apply elem_of_list_to_set.
  - done.
  - exists (Scc.components st). split; [by rewrite Hst|].
    unfold Scc.componentsOf. fold ids.
    destruct (SccFacts.roots_returns (Scc.adjacencyOf ids edges idToIndex)
                (list_to_set ids)) with (fuel := length ids) (ids := ids) (st := Scc.init)
      as [st0 Hst0].
    + intros v w Hw. apply SccFacts.elem_of_successorsOf in Hw as (e & _ & _ & _ & _ & _ & Hw).
      apply elem_of_list_to_set. by apply idToIndexOf_lookup.
    + intros v Hv. by apply elem_of_list_to_set.
    + apply SccFacts.size_list_to_set_le.
    + rewrite Hst0. cbn [fmap option_fmap option_map]. f_equal. f_equal.
      destruct (Nat.le_ge_cases depth (length ids)) as [Hle|Hle].
      * pose proof (roots_mono _ _ _ ids Hle _ _ Hst) as Heq. congruence.
      * pose proof (roots_mono _ _ _ ids Hle _ _ Hst0) as Heq. congruence.
Qed.

Lemma strongConnect_depth_witness :
  ∃ comps,
    Scc.componentsOf
      (loadNode (H := hostAt 0) <$> [Scenario.node "A" "" ""; Scenario.node "B" "" ""])
      (loadEdges
         (idToIndexOf
            (loadNode (H := hostAt 0) <$> [Scenario.node "A" "" ""; Scenario.node "B" "" ""]))
         [Scenario.edge (lit "A") (lit "B"); Scenario.edge (lit "B") (lit "A")])
      (idToIndexOf
         (loadNode (H := hostAt 0) <$> [Scenario.node "A" "" ""; Scenario.node "B" "" ""]))
    = Some comps.
Proof.
  destruct (strongConnect_depth
              (loadNode (H := hostAt 0) <$> [Scenario.node "A" "" ""; Scenario.node "B" "" ""])
              [Scenario.edge (lit "A") (lit "B"); Scenario.edge (lit "B") (lit "A")] 2)
    as (comps & _ & Hcomps); [by vm_compute|].
  by exists comps.
Defined.

(** ** The fields of a record that can be null *)

Lemma get_elem {K V} `{EqDecision K} (m : list (K * V)) k v :
  Ordered.get m k = Some v → (k, v) ∈ m.
Proof.
  induction m as [|[k' v'] m IH]; cbn [Ordered.get]; [done|].
  destruct (decide (k' = k)) as [->|Hne]; [intros [= ->]; left|].
  intros Hget. right. by apply IH.
Qed.

Lemma getField_null (m : Metrics.metrics) (key : string) :
  getField m key = VNull ↔
  (key = "leadtimeMedianDays"%string ∧ Metrics.leadtimeMedianDays m = None)
  ∨ (key = "spanDays"%string ∧ Metrics.spanDays m = None).
Proof.
  split.
  - unfold getField. destruct (Ordered.get (entries m) key) as [v|] eqn:Hget; [|done].
    cbn [default from_option id]. unfold id. intros ->.
    apply get_elem in Hget. unfold entries in Hget.
    repeat (apply elem_of_cons in Hget as [Hget|Hget];
            [first [discriminate Hget
                   |injection Hget as -> Hv;
                    first [left; split; [done|]; by destruct (Metrics.leadtimeMedianDays m)
                          |right; split; [done|]; by destruct (Metrics.spanDays m)]]|]).
    by apply elem_of_nil in Hget.
  - intros [[-> Hnone]|[-> Hnone]].
    + change (getField m "leadtimeMedianDays") with (numOrNull (Metrics.leadtimeMedianDays m)).
      by rewrite Hnone.
    + change (getField m "spanDays") with (numOrNull (Metrics.spanDays m)).
      by rewrite Hnone.
Qed.

Lemma doubleQuotes_nil (s : jsstring) : doubleQuotes s = [] ↔ s = [].
Proof.
  split; [|by intros ->]. destruct s as [|c s]; [done|].
  unfold doubleQuotes. cbn [mbind list_bind]. by destruct (c =? 34)%N.
Qed.

Lemma csv_row (m : Metrics.metrics) :
  Forall (λ key, blank (cellOf (getField m key)) = true
                 ↔ (key = "leadtimeMedianDays"%string ∧ Metrics.leadtimeMedianDays m = None)
                   ∨ (key = "project"%string ∧ Metrics.project m = []))
    header.
Proof.
  unfold header. apply Forall_cons. split.
  { change (getField m "project") with (VStr (Metrics.project m)).
    cbn [cellOf blank]. rewrite bool_decide_eq_true, doubleQuotes_nil.
    split; [by right|]. by intros [[[=] _]|[_ ?]]. }
  repeat (apply Forall_cons; split;
          [first [ by (split; [intros [=]|intros [[[=] _]|[[=] _]]])
                 | change (getField m "leadtimeMedianDays")
                     with (numOrNull (Metrics.leadtimeMedianDays m));
                   destruct (Metrics.leadtimeMedianDays m);
                   (split; [by intros [=]|by intros [[_ [=]]|[[=] _]]])
                   || (split; [by left|done]) ]|]).
  constructor.
Qed.

Section Nulls.
Context {host : Host}.

(** C10, as amended.  Two properties of a record can be null:
    leadtimeMedianDays, exactly when no E→M edge has both ends dated with
    the target not before the source, and spanDays, exactly when no node is
    dated; every other property holds a value.  spanDays is no column of
    the CSV text: in the row that toCsv writes for a record the cell of
    leadtimeMedianDays is without text when the lead time is null, which
    the table shows as a dash, and no other cell is, but that of a project
    whose name is the empty string.  Every other metric of the fixed set is
    a number, and each ratio is 0 when there is nothing to divide by. *)
Theorem leadtime_and_span_are_the_only_nulls (projectName : jsstring)
    (rawNodes : Field Raw.node) (rawEdges : Field Raw.edge) (opts : Options)
    (m : Metrics.metrics) :
  let nodes := loadNode <$> arrayOrEmpty rawNodes in
  let idToIndex := idToIndexOf nodes in
  let edges := loadEdges idToIndex (arrayOrEmpty rawEdges) in
  let tr := transitionLoop nodes idToIndex edges in
  computeMetricsForProject projectName (Raw.Obj rawNodes rawEdges) opts = Ok m →
  (Metrics.leadtimeMedianDays m = None ↔ ¬ hasLeadtime nodes idToIndex edges)
  ∧ (Metrics.spanDays m = None ↔ ∀ n, n ∈ nodes → Node.date n = None)
  ∧ (∀ key, getField m key = VNull ↔
            (key = "leadtimeMedianDays"%string ∧ Metrics.leadtimeMedianDays m = None)
            ∨ (key = "spanDays"%string ∧ Metrics.spanDays m = None))
  ∧ (∃ row, toCsv [m] = [row]
            ∧ Forall2 (λ key cell,
                         blank cell = true
                         ↔ (key = "leadtimeMedianDays"%string
                            ∧ Metrics.leadtimeMedianDays m = None)
                           ∨ (key = "project"%string ∧ Metrics.project m = []))
                header row)
  ∧ (leadtimeCell m = Dash ↔ Metrics.leadtimeMedianDays m = None)
  ∧ (∀ key, key ∈ numericKeys → key ≠ "leadtimeMedianDays"%string →
            ∃ q, getField m key = VNum q ∧ cellOf (getField m key) = CellNumber q)
  ∧ (Metrics.eToMEdges m = O → Metrics.feedbackRatio m = 0%Q)
  ∧ (Metrics.exploring m = O → Metrics.conversionRate m = 0%Q)
  ∧ (Metrics.nodes m = O →
     Metrics.cycleParticipation m = 0%Q ∧ Metrics.multiAreaShare m = 0%Q
     ∧ Metrics.avgAreas m = 0%Q)
  ∧ ((Metrics.nodes m ≤ 1)%nat → Metrics.density m = 0%Q)
  ∧ (Metrics.activeBuckets m = O → Metrics.interlacingIndex m = 0%Q)
  ∧ (Metrics.overlapBuckets m = O → Metrics.overlapIntensity m = 0%Q)
  ∧ (Metrics.edges m = O → Metrics.macroEdgeCoverage m = 0%Q)
  ∧ (Metrics.interlacingEdges m = O → Metrics.interlacingMacroCoverage m = 0%Q)
  ∧ ((macroEdgeLoop nodes idToIndex edges).1 = O → Metrics.crossMacroShare m = 0%Q)
  ∧ (interlacingEdgesMacroConsidered tr = O → Metrics.crossInterlacingShare m = 0%Q)
  ∧ ((temporalLoop nodes idToIndex edges).1 = O → Metrics.temporalBackShare m = 0%Q)
  ∧ (Metrics.edges m = O →
     Metrics.crossInterlacingShare m = 0%Q ∧ Metrics.crossMacroShare m = 0%Q
     ∧ Metrics.temporalBackShare m = 0%Q).
Proof.
  cbv zeta. intros Hm.
  unfold computeMetricsForProject, metricsOf in Hm. open_analyse Hm comps Hcomps.
  set (nodes := loadNode <$> arrayOrEmpty rawNodes) in *.
  set (edges := loadEdges (idToIndexOf nodes) (arrayOrEmpty rawEdges)) in *.
  split_and!.
  - rewrite median_None. unfold transitionLoop.
    rewrite transitionLoop_latencies. apply no_latencies.
  - pose proof (dateRange_spec nodes) as Hrange.
    destruct (dateRange nodes) as [[mn|] [mx|]]; cbn [spanDaysOf]; try done.
    split; [done|]. intros Hall. destruct Hrange as ((n & Hin & Hd) & _).
    by rewrite (Hall n Hin) in Hd.
  - apply getField_null.
  - eexists. split; [reflexivity|]. apply Forall2_fmap_r, Forall_Forall2_diag, csv_row.
  - unfold leadtimeCell.
    match goal with
    | |- context [getField ?r "leadtimeMedianDays"] =>
        change (getField r "leadtimeMedianDays")
          with (numOrNull (Metrics.leadtimeMedianDays r))
    end.
    cbn [Metrics.leadtimeMedianDays]. by destruct (median _).
  - intros key Hin Hne.
    match goal with
    | |- ∃ q, getField ?r key = _ ∧ _ =>
        destruct (getField_numeric r key Hin Hne) as [q Hq]
    end.
    exists q. by rewrite Hq.
  - by intros ->.
  - intros Hz. unfold count in *. by rewrite Hz.
  - intros Hz. rewrite Hz. split_and!; [done|done|].
    apply nil_length_inv in Hz. by rewrite Hz.
  - intros Hle1. unfold densityOf.
    destruct (Nat.ltb_spec 1 (length nodes)); [lia|done].
  - match goal with H : _ = computeInterlacing _ |- _ => rewrite H end.
    cbn [computeInterlacing i_activeBuckets i_interlacingIndex]. by intros ->.
  - match goal with H : _ = computeInterlacing _ |- _ => rewrite H end.
    unfold computeInterlacing. cbn [i_overlapBuckets i_overlapIntensity].
    intros Hz. apply nil_length_inv in Hz. by rewrite Hz.
  - by intros ->.
  - by intros ->.
  - cbn [fst]. by intros ->.
  - by intros ->.
  - cbn [fst]. by intros ->.
  - intros Hz. apply nil_length_inv in Hz.
    repeat match goal with
           | H : macroEdgeLoop _ _ _ = _ |- _ =>
               rewrite Hz in H; cbn in H; injection H as <- <-
           | H : temporalLoop _ _ _ = _ |- _ =>
               rewrite Hz in H; cbn in H; injection H as <- <-
           end.
    by rewrite Hz.
Qed.

End Nulls.

(** C10, as the specification states it, fails: the record of Scenario B,
    whose nodes are not dated, has a null spanDays beside its null
    leadtimeMedianDays. *)
Lemma spanDays_is_null_too :
  ∃ m, computeMetricsForProject (H := hostAt 0) (lit "1_a") Scenario.B Scenario.defaults = Ok m
       ∧ Metrics.spanDays m = None
       ∧ getField m "spanDays" = VNull
       ∧ getField m "leadtimeMedianDays" = VNull.
Proof.
  eexists. split; [vm_compute; reflexivity|]. by split_and!.
Qed.

Lemma leadtime_and_span_are_the_only_nulls_witness :
  ∃ m, computeMetricsForProject (H := hostAt 0) (lit "1_a") Scenario.B Scenario.defaults = Ok m
       ∧ (∀ key, getField m key = VNull ↔
                 (key = "leadtimeMedianDays"%string ∧ Metrics.leadtimeMedianDays m = None)
                 ∨ (key = "spanDays"%string ∧ Metrics.spanDays m = None))
       ∧ (Metrics.eToMEdges m = O → Metrics.feedbackRatio m = 0%Q).
Proof.
  eexists. split; [vm_compute; reflexivity|].
  match goal with
  | |- context [Metrics.feedbackRatio ?m] =>
      destruct (leadtime_and_span_are_the_only_nulls (host := hostAt 0) (lit "1_a")
                  (FArr [Scenario.node "A" "" ""; Scenario.node "B" "" ""])
                  (FArr [Scenario.edge (lit "A") (lit "B"); Scenario.edge (lit "B") (lit "A")])
                  Scenario.defaults m) as (_ & _ & Hnull & _ & _ & _ & Hfb & _);
        [vm_compute; reflexivity|]
  end.
  split; [exact Hnull|exact Hfb].
Defined.
